(** * ProfanityBuster: a shallow embedding of the matching core

    The development follows the TypeScript sources:
    - [core/normalization.ts]  ([normalizeForDetection], [normalizeWord]),
    - [core/trie.ts]           ([Trie]),
    - [core/aho.ts]            ([AhoCorasick]),
    - [core/phraseTrie.ts]     ([PhraseTrie]),
    - [core/langAutoDetect.ts] ([inferLikelyLanguageCodes]),
    - [index.ts]               ([ProfanityBuster]).

    A JavaScript string is a sequence of UTF-16 code units; [s.length],
    [s[i]], [slice], [split('')] and regular expressions without the [u]
    flag all work on code units, while [for (const ch of s)] and regular
    expressions with the [u] flag work on code points.  Both views are kept
    apart below, as the sources mix them. *)

From Stdlib Require Import String Ascii.
From Stdlib Require Import List Bool Arith NArith ZArith Lia Permutation.
Import ListNotations.
Open Scope list_scope.

Set Implicit Arguments.

(* ===================================================================== *)
(** * JavaScript strings and insertion-ordered maps                       *)
(* ===================================================================== *)

(** A string is the list of its UTF-16 code units. *)
Definition jsstring := list N.

Definition str_eqb (a b : jsstring) : bool :=
  if list_eq_dec N.eq_dec a b then true else false.

(** String literals of the sources, written in ASCII. *)
Fixpoint str (s : string) : jsstring :=
  match s with
  | EmptyString => []
  | String a r => N_of_ascii a :: str r
  end.

Definition is_high_surrogate (c : N) : bool := (0xD800 <=? c)%N && (c <=? 0xDBFF)%N.
Definition is_low_surrogate (c : N) : bool := (0xDC00 <=? c)%N && (c <=? 0xDFFF)%N.

(** [for (const ch of s)]: the string iterator yields one string per code
    point, a surrogate pair being one element of two code units. *)
Fixpoint codePoints (s : jsstring) : list jsstring :=
  match s with
  | [] => []
  | c :: rest =>
      match rest with
      | d :: rest' =>
          if is_high_surrogate c && is_low_surrogate d
          then [c; d] :: codePoints rest'
          else [c] :: codePoints rest
      | [] => [[c]]
      end
  end.

(** [s[i]] for an index in range: a string of one code unit. *)
Definition unit_str (c : N) : jsstring := [c].

(** [Set<string>.has], [Array.prototype.includes] on strings. *)
Definition has (x : jsstring) (s : list jsstring) : bool := existsb (str_eqb x) s.

(** [Set<string>.add]: insertion order, no duplicate. *)
Definition set_add (x : jsstring) (s : list jsstring) : list jsstring :=
  if has x s then s else s ++ [x].

(** [new Set(array)]. *)
Definition set_of (l : list jsstring) : list jsstring :=
  fold_left (fun acc x => set_add x acc) l [].

(** [Set<string>.delete]. *)
Definition set_delete (x : jsstring) (s : list jsstring) : list jsstring :=
  filter (fun y => negb (str_eqb x y)) s.

(** [Map<K, V>]: an association list in insertion order, one entry per key. *)
Section Maps.
Variables (K V : Type) (keq : K -> K -> bool).

Fixpoint map_get (k : K) (m : list (K * V)) : option V :=
  match m with
  | [] => None
  | (k', v) :: m' => if keq k k' then Some v else map_get k m'
  end.

Definition map_has (k : K) (m : list (K * V)) : bool :=
  match map_get k m with Some _ => true | None => false end.

(** [Map.set]: an existing key keeps its position. *)
Fixpoint map_set (k : K) (v : V) (m : list (K * V)) : list (K * V) :=
  match m with
  | [] => [(k, v)]
  | (k', v') :: m' => if keq k k' then (k', v) :: m' else (k', v') :: map_set k v m'
  end.

Definition map_delete (k : K) (m : list (K * V)) : list (K * V) :=
  filter (fun e => negb (keq k (fst e))) m.
End Maps.

(* ===================================================================== *)
(** * The Unicode tables of the JavaScript runtime                        *)
(* ===================================================================== *)

(** [String.prototype.toLowerCase], [String.prototype.normalize] and the
    property escapes [\p{L}], [\p{N}] are built into the runtime; the
    matching core is parametric in them. *)
Record Unicode : Type := mkUnicode {
  toLowerCase : jsstring -> jsstring;
  normalizeNFKC : jsstring -> jsstring;
  normalizeNFKD : jsstring -> jsstring;
  (** the code point is a letter, a number or the underscore:
      [/[\p{L}\p{N}_]/u] *)
  isWordCodePoint : N -> bool
}.

(** A fragment of the tables, exact on U+0000..U+007F and on the code
    points named below; used to run the code on concrete inputs. *)
Module SampleUnicode.

Definition lower_unit (c : N) : jsstring :=
  if (0x41 <=? c)%N && (c <=? 0x5A)%N then [(c + 32)%N]
  else if (c =? 0x130)%N then [0x69%N; 0x307%N]   (* SpecialCasing: U+0130 *)
  else [c].

Definition toLowerCase (s : jsstring) : jsstring := flat_map lower_unit s.

(** NFKD of single code points: U+2001 EM QUAD is canonically U+2003,
    whose compatibility form is U+0020; U+00E9 is e + U+0301 and U+0130 is
    I + U+0307. *)
Definition nfkd_unit (c : N) : jsstring :=
  if (c =? 0x2001)%N then [0x20%N]
  else if (c =? 0xE9)%N then [0x65%N; 0x301%N]
  else if (c =? 0x130)%N then [0x49%N; 0x307%N]
  else [c].

Definition normalizeNFKD (s : jsstring) : jsstring := flat_map nfkd_unit s.

(** NFKC leaves text in that form, ASCII text for one, as it is; no
    scenario runs it ([detect] and [normalizeWord] preserve the length). *)
Definition normalizeNFKC (s : jsstring) : jsstring := s.

Definition isWordCodePoint (c : N) : bool :=
  ((0x30 <=? c)%N && (c <=? 0x39)%N)
  || ((0x41 <=? c)%N && (c <=? 0x5A)%N)
  || ((0x61 <=? c)%N && (c <=? 0x7A)%N)
  || (c =? 0x5F)%N
  || (c =? 0xE9)%N
  || (c =? 0x130)%N.

Definition tables : Unicode :=
  mkUnicode toLowerCase normalizeNFKC normalizeNFKD isWordCodePoint.

End SampleUnicode.

(* ===================================================================== *)
(** * Calls that return, throw or run forever                             *)
(* ===================================================================== *)

(** A call of the sources returns a value, ends in an uncaught error (the
    [TypeError] of a property read on [undefined], the [RangeError] of an
    array that outgrows its maximal length), or does not return. *)
Inductive outcome (A : Type) : Type :=
| Returns (a : A)
| Throws
| Diverges.

Arguments Returns {A} a.
Arguments Throws {A}.
Arguments Diverges {A}.

Definition bind (A B : Type) (m : outcome A) (k : A -> outcome B) : outcome B :=
  match m with
  | Returns a => k a
  | Throws => Throws
  | Diverges => Diverges
  end.

Notation "x <- m ;; k" := (bind m (fun x => k))
  (at level 61, m at next level, right associativity).
Notation "' p <- m ;; k" := (bind m (fun x => let p := x in k))
  (at level 61, p pattern, m at next level, right associativity).

(** [for (const x of l) acc = body(acc, x)] where the body may not return. *)
Fixpoint foldM (A B : Type) (body : A -> B -> outcome A) (l : list B) (acc : A)
  : outcome A :=
  match l with
  | [] => Returns acc
  | x :: l' => acc' <- body acc x ;; foldM body l' acc'
  end.

(** [a[i]]: [undefined] out of range. *)
Definition at_index (A : Type) (a : list A) (i : nat) : option A := nth_error a i.

(** [a[i] = v] for an index in range. *)
Fixpoint set_index (A : Type) (a : list A) (i : nat) (v : A) : list A :=
  match a, i with
  | [], _ => []
  | _ :: r, O => v :: r
  | x :: r, S i' => x :: set_index r i' v
  end.

(** [x ?? d] *)
Definition orElse (A : Type) (x : option A) (d : A) : A :=
  match x with Some v => v | None => d end.

(** [TrieMatch] and [AhoMatch]: [{ index, length }]. *)
Record Span : Type := mkSpan { index : nat; span_length : nat }.

Definition span_eqb (a b : Span) : bool :=
  (index a =? index b) && (span_length a =? span_length b).

(* ===================================================================== *)
(** * core/normalization.ts                                               *)
(* ===================================================================== *)

Module Normalization.

Record NormalizationOptions : Type := mkNormalizationOptions {
  caseSensitive : bool;
  confusableMapping : bool;
  stripDiacritics : option bool;
  useNFKC : option bool;
  lengthPreserving : option bool;
  stripInvisible : option bool
}.

Definition CONFUSABLE_MAP : list (N * N) :=
  [ (0x30, 0x6F); (0x31, 0x69); (0x33, 0x65); (0x34, 0x61); (0x35, 0x73);
    (0x37, 0x74); (0x38, 0x62); (0x40, 0x61); (0x24, 0x73); (0x21, 0x69);
    (0x7C, 0x69); (0x20AC, 0x65); (0xA3, 0x6C); (0xA2, 0x63); (0xA7, 0x73) ]%N.

(** The class [U+0300 .. U+036F] of COMBINING_MARKS_REGEX. *)
Definition is_combining_mark (c : N) : bool := (0x300 <=? c)%N && (c <=? 0x36F)%N.

(** Zero-width space, non-joiner, joiner, BOM, soft hyphen. *)
Definition is_invisible (c : N) : bool :=
  (c =? 0x200B)%N || (c =? 0x200C)%N || (c =? 0x200D)%N
  || (c =? 0xFEFF)%N || (c =? 0xAD)%N.

Section WithTables.
Variable U : Unicode.

(** The body of the loop for one code unit [text[i]]: [None] is the
    [continue] that drops the unit, [Some ch] is appended to [out]. *)
Definition normalize_unit (confusable stripD lengthP stripI : bool) (c : N)
  : option jsstring :=
  let after_invisible :=
    if stripI && is_invisible c
    then (if lengthP then Some (unit_str 0x20%N) else None)
    else Some (unit_str c) in
  match after_invisible with
  | None => None
  | Some ch1 =>
      let ch2 :=
        if stripD then
          let decomposed := normalizeNFKD U ch1 in
          let base := filter (fun u => negb (is_combining_mark u)) decomposed in
          if lengthP
          then match base with b :: _ => unit_str b | [] => ch1 end
          else base
        else ch1 in
      let ch3 :=
        if confusable && (length ch2 =? 1)
        then match ch2 with
             | [u] => match map_get N.eqb u CONFUSABLE_MAP with
                      | Some r => unit_str r
                      | None => ch2
                      end
             | _ => ch2
             end
        else ch2 in
      Some ch3
  end.

Fixpoint normalize_loop (confusable stripD lengthP stripI : bool) (text : jsstring)
  : jsstring :=
  match text with
  | [] => []
  | c :: rest =>
      match normalize_unit confusable stripD lengthP stripI c with
      | None => normalize_loop confusable stripD lengthP stripI rest
      | Some ch => ch ++ normalize_loop confusable stripD lengthP stripI rest
      end
  end.

Definition normalizeForDetection (input : jsstring) (options : NormalizationOptions)
  : jsstring :=
  let stripD := orElse (stripDiacritics options) true in
  let nfkc := orElse (useNFKC options) false in
  let lengthP := orElse (lengthPreserving options) true in
  let stripI := orElse (stripInvisible options) true in
  let text := if caseSensitive options then input else toLowerCase U input in
  let text := if nfkc && negb lengthP then normalizeNFKC U text else text in
  if stripD || confusableMapping options || (nfkc && lengthP) || stripI
  then normalize_loop (confusableMapping options) stripD lengthP stripI text
  else text.

Definition normalizeWord (input : jsstring) (options : NormalizationOptions) : jsstring :=
  normalizeForDetection input options.

End WithTables.

End Normalization.

(* ===================================================================== *)
(** * core/trie.ts                                                        *)
(* ===================================================================== *)

Module Trie.

(** [interface TrieNode { children: Map<string, TrieNode>; isTerminal }] *)
#[warnings="-register-all"]
Inductive TrieNode : Type :=
| Node (children : list (jsstring * TrieNode)) (isTerminal : bool).

Definition children (n : TrieNode) : list (jsstring * TrieNode) :=
  match n with Node c _ => c end.

Definition isTerminal (n : TrieNode) : bool :=
  match n with Node _ t => t end.

(** [{ children: new Map(), isTerminal: false }] *)
Definition empty : TrieNode := Node [] false.

(** The loop of [insert] from [node] on: the children are created on the
    way down and the last node is marked. *)
Fixpoint insert_from (node : TrieNode) (chs : list jsstring) : TrieNode :=
  match chs with
  | [] => Node (children node) true
  | ch :: rest =>
      let next := match map_get str_eqb ch (children node) with
                  | Some n => n
                  | None => empty
                  end in
      Node (map_set str_eqb ch (insert_from next rest) (children node)) (isTerminal node)
  end.

Definition insert (word : jsstring) (root : TrieNode) : TrieNode :=
  match word with
  | [] => root
  | _ => insert_from root (codePoints word)
  end.

Definition insertAll (words : list jsstring) (root : TrieNode) : TrieNode :=
  fold_left (fun t w => insert w t) words root.

Section Search.
Variable U : Unicode.
Variable root : TrieNode.
Variable wholeWordsOnly : bool.
Variable separatorsToIgnore : list jsstring.

(** [WORD_CHAR.test(text[i])] on one code unit. *)
Definition WORD_CHAR (c : N) : bool := isWordCodePoint U c.

Definition ignoreSeparators : bool := 0 <? length separatorsToIgnore.

(** The inner [while (j < length)] loop; [rest] is the text from [j] on,
    [last] is [lastTerminalEndIndex] with [None] for [-1]. *)
Fixpoint walk (node : TrieNode) (rest : jsstring) (j : nat) (last : option nat)
  : option nat :=
  match rest with
  | [] => last
  | ch :: rest' =>
      if ignoreSeparators && has (unit_str ch) separatorsToIgnore
      then walk node rest' (S j) last
      else
        match map_get str_eqb (unit_str ch) (children node) with
        | None => last
        | Some next =>
            let last' :=
              if isTerminal next then
                if wholeWordsOnly then
                  match rest' with
                  | after :: _ => if WORD_CHAR after then last else Some j
                  | [] => Some j
                  end
                else Some j
              else last in
            walk next rest' (S j) last'
        end
  end.

(** The outer [for] loop; [rest] is the text from [startIndex] on and
    [prev] is [text[startIndex - 1]] when [startIndex > 0]. *)
Fixpoint scan (prev : option N) (rest : jsstring) (startIndex : nat) : list Span :=
  match rest with
  | [] => []
  | startChar :: rest' =>
      let continue := scan (Some startChar) rest' (S startIndex) in
      if ignoreSeparators && has (unit_str startChar) separatorsToIgnore then continue
      else if wholeWordsOnly && match prev with Some p => WORD_CHAR p | None => false end
      then continue
      else
        match walk root rest startIndex None with
        | Some lastTerminalEndIndex =>
            mkSpan startIndex (lastTerminalEndIndex - startIndex + 1) :: continue
        | None => continue
        end
  end.

Definition findAllMatches (text : jsstring) : list Span := scan None text 0.

End Search.

End Trie.

(* ===================================================================== *)
(** * core/aho.ts                                                         *)
(* ===================================================================== *)

Module AhoCorasick.

(** [interface AhoNode { children: Map<string, number>; fail; terminalLengths }] *)
Record AhoNode : Type := mkAhoNode {
  children : list (jsstring * nat);
  fail : nat;
  terminalLengths : list nat
}.

(** [{ children: new Map(), fail: 0, terminalLengths: [] }] *)
Definition empty : AhoNode := mkAhoNode [] 0 [].

(** The automaton is its array [this.nodes]; the constructor pushes the root. *)
Definition AhoCorasick : Type := list AhoNode.

Definition new : AhoCorasick := [empty].

(** [this.nodes[i]] followed by a property access. *)
Definition node (nodes : AhoCorasick) (i : nat) : outcome AhoNode :=
  match at_index nodes i with
  | Some n => Returns n
  | None => Throws
  end.

Definition set_children (n : AhoNode) (c : list (jsstring * nat)) : AhoNode :=
  mkAhoNode c (fail n) (terminalLengths n).

Definition set_fail (n : AhoNode) (f : nat) : AhoNode :=
  mkAhoNode (children n) f (terminalLengths n).

Definition push_terminalLengths (n : AhoNode) (l : list nat) : AhoNode :=
  mkAhoNode (children n) (fail n) (terminalLengths n ++ l).

(** One iteration of [for (const ch of word)] in [insert]. *)
Definition insert_step (st : AhoCorasick * nat) (ch : jsstring)
  : outcome (AhoCorasick * nat) :=
  let (nodes, nodeIndex) := st in
  n <- node nodes nodeIndex ;;
  match map_get str_eqb ch (children n) with
  | Some nextIndex => Returns (nodes, nextIndex)
  | None =>
      let nextIndex := length nodes in
      let nodes1 := set_index nodes nodeIndex
                      (set_children n (map_set str_eqb ch nextIndex (children n))) in
      Returns (nodes1 ++ [empty], nextIndex)
  end.

Definition insert (word : jsstring) (nodes : AhoCorasick) : outcome AhoCorasick :=
  match word with
  | [] => Returns nodes
  | _ =>
      '(nodes1, nodeIndex) <- foldM insert_step (codePoints word) (nodes, 0) ;;
      n <- node nodes1 nodeIndex ;;
      Returns (set_index nodes1 nodeIndex (push_terminalLengths n [length word]))
  end.

Definition insertAll (words : list jsstring) (nodes : AhoCorasick) : outcome AhoCorasick :=
  foldM (fun acc w => insert w acc) words nodes.

(** [while (f !== 0 && !this.nodes[f].children.has(ch)) f = this.nodes[f].fail].
    The loop only reads; a run longer than the number of nodes repeats a
    state and so never ends. *)
Fixpoint follow_fail (fuel : nat) (nodes : AhoCorasick) (ch : jsstring) (f : nat)
  : outcome nat :=
  match fuel with
  | O => Diverges
  | S fuel' =>
      if f =? 0 then Returns f
      else
        n <- node nodes f ;;
        if map_has str_eqb ch (children n) then Returns f
        else follow_fail fuel' nodes ch (fail n)
  end.

Definition opt_nat_eqb (a b : option nat) : bool :=
  match a, b with
  | Some x, Some y => x =? y
  | None, None => true
  | _, _ => false
  end.

(** The body of [for (const [ch, nextIndex] of this.nodes[current].children)]. *)
Definition build_child (current : nat) (st : AhoCorasick * list nat)
           (entry : jsstring * nat) : outcome (AhoCorasick * list nat) :=
  let (nodes, queue) := st in
  let (ch, nextIndex) := entry in
  let queue1 := queue ++ [nextIndex] in
  cur <- node nodes current ;;
  f <- follow_fail (S (length nodes)) nodes ch (fail cur) ;;
  nf <- node nodes f ;;
  root <- node nodes 0 ;;
  let f1 :=
    if map_has str_eqb ch (children nf)
       && negb (opt_nat_eqb (map_get str_eqb ch (children root)) (Some nextIndex))
    then orElse (map_get str_eqb ch (children nf)) f
    else f in
  nx <- node nodes nextIndex ;;
  let nodes1 := set_index nodes nextIndex (set_fail nx f1) in
  nf1 <- node nodes1 f1 ;;
  let inherited := terminalLengths nf1 in
  if 0 <? length inherited
  then
    nx1 <- node nodes1 nextIndex ;;
    Returns (set_index nodes1 nextIndex (push_terminalLengths nx1 inherited), queue1)
  else Returns (nodes1, queue1).

(** [while (queue.length > 0)]: every iteration shifts one node; the
    children of a tree of [n] nodes are shifted in fewer than [n] rounds. *)
Fixpoint build_loop (fuel : nat) (nodes : AhoCorasick) (queue : list nat)
  : outcome AhoCorasick :=
  match queue with
  | [] => Returns nodes
  | current :: queue' =>
      match fuel with
      | O => Diverges
      | S fuel' =>
          cur <- node nodes current ;;
          '(nodes1, queue1) <- foldM (build_child current) (children cur) (nodes, queue') ;;
          build_loop fuel' nodes1 queue1
      end
  end.

(** The first loop of [build]: the children of the root fail to the root. *)
Definition build_init (st : AhoCorasick * list nat) (entry : jsstring * nat)
  : outcome (AhoCorasick * list nat) :=
  let (nodes, queue) := st in
  let childIndex := snd entry in
  n <- node nodes childIndex ;;
  Returns (set_index nodes childIndex (set_fail n 0), queue ++ [childIndex]).

Definition build (nodes : AhoCorasick) : outcome AhoCorasick :=
  root <- node nodes 0 ;;
  '(nodes1, queue) <- foldM build_init (children root) (nodes, []) ;;
  build_loop (length nodes) nodes1 queue.

Section Search.
Variable U : Unicode.
Variable nodes : AhoCorasick.
Variable wholeWordsOnly : bool.
Variable separatorsToIgnore : list jsstring.

Definition WORD_CHAR (c : N) : bool := isWordCodePoint U c.

(** [WORD_CHAR.test(text[i])]; out of range the argument is [undefined],
    which [test] turns into the string of that name. *)
Definition WORD_CHAR_at (text : jsstring) (i : nat) : bool :=
  match at_index text i with
  | Some c => WORD_CHAR c
  | None => true
  end.

Definition useIgnore : bool := 0 <? length separatorsToIgnore.

(** The compaction loop: [compactChars] and [indexMap], from index [i] on. *)
Fixpoint compact (rest : jsstring) (i : nat) : jsstring * list nat :=
  match rest with
  | [] => ([], [])
  | ch :: rest' =>
      let (compactChars, indexMap) := compact rest' (S i) in
      if has (unit_str ch) separatorsToIgnore
      then (compactChars, indexMap)
      else (ch :: compactChars, i :: indexMap)
  end.

(** The body of [for (const len of outputs)]; the index arrays are read
    in range, every recorded length being at least 1 and at most [i + 1]
    once [startCompact] is known not to be negative. *)
Definition emit (text : jsstring) (toOriginalIndex : option (list nat)) (i : nat)
           (results : list Span) (len : nat) : list Span :=
  let endCompact := Z.of_nat i in
  let startCompact := (endCompact - Z.of_nat len + 1)%Z in
  if (startCompact <? 0)%Z then results
  else
    let startOriginal :=
      match toOriginalIndex with
      | Some indexMap => nth (Z.to_nat startCompact) indexMap 0
      | None => Z.to_nat startCompact
      end in
    let endOriginal :=
      match toOriginalIndex with
      | Some indexMap => nth i indexMap 0
      | None => i
      end in
    let leftOk := (startOriginal =? 0) || negb (WORD_CHAR_at text (startOriginal - 1)) in
    let rightOk := (length text <=? endOriginal + 1)
                   || negb (WORD_CHAR_at text (endOriginal + 1)) in
    if wholeWordsOnly && (negb leftOk || negb rightOk) then results
    else results ++ [mkSpan startOriginal (endOriginal - startOriginal + 1)].

(** The main loop over [scanText], from index [i] on, in state [state]. *)
Fixpoint run (text : jsstring) (toOriginalIndex : option (list nat))
         (rest : jsstring) (i : nat) (state : nat) (results : list Span)
  : outcome (list Span) :=
  match rest with
  | [] => Returns results
  | c :: rest' =>
      let ch := unit_str c in
      state1 <- follow_fail (S (length nodes)) nodes ch state ;;
      n1 <- node nodes state1 ;;
      let state2 := orElse (map_get str_eqb ch (children n1)) state1 in
      n2 <- node nodes state2 ;;
      let outputs := terminalLengths n2 in
      let results1 := fold_left (emit text toOriginalIndex i) outputs results in
      run text toOriginalIndex rest' (S i) state2 results1
  end.

Definition findAllMatches (text : jsstring) : outcome (list Span) :=
  if useIgnore
  then let (compactChars, indexMap) := compact text 0 in
       run text (Some indexMap) compactChars 0 0 []
  else run text None text 0 0 [].

End Search.

End AhoCorasick.

(* ===================================================================== *)
(** * core/phraseTrie.ts                                                  *)
(* ===================================================================== *)

Module PhraseTrie.

(** [interface PhraseMatchTokenSpan { startTokenIndex; endTokenIndex }] *)
Record PhraseMatchTokenSpan : Type := mkTokenSpan {
  startTokenIndex : nat;
  endTokenIndex : nat
}.

(** [interface PhraseTrieNode { children: Map<string, PhraseTrieNode>; isTerminal }] *)
#[warnings="-register-all"]
Inductive PhraseTrieNode : Type :=
| Node (children : list (jsstring * PhraseTrieNode)) (isTerminal : bool).

Definition children (n : PhraseTrieNode) : list (jsstring * PhraseTrieNode) :=
  match n with Node c _ => c end.

Definition isTerminal (n : PhraseTrieNode) : bool :=
  match n with Node _ t => t end.

Definition empty : PhraseTrieNode := Node [] false.

Fixpoint insert_from (node : PhraseTrieNode) (tokens : list jsstring) : PhraseTrieNode :=
  match tokens with
  | [] => Node (children node) true
  | token :: rest =>
      let next := match map_get str_eqb token (children node) with
                  | Some n => n
                  | None => empty
                  end in
      Node (map_set str_eqb token (insert_from next rest) (children node)) (isTerminal node)
  end.

Definition insert (tokens : list jsstring) (root : PhraseTrieNode) : PhraseTrieNode :=
  match tokens with
  | [] => root
  | _ => insert_from root tokens
  end.

Definition insertAll (phrases : list (list jsstring)) (root : PhraseTrieNode)
  : PhraseTrieNode :=
  fold_left (fun t p => insert p t) phrases root.

Section Search.
Variable root : PhraseTrieNode.
Variable stopwords : list jsstring.
Variable maxSkipsBetweenTokens : Z.

Definition hasStop : bool := 0 <? length stopwords.

(** The inner [for (let i = start; i < n; i++)] loop; [rest] holds the
    tokens from [i] on.  The result is the span pushed before [break]. *)
Fixpoint attempt (start : nat) (node : PhraseTrieNode) (skipsUsed : nat)
         (rest : list jsstring) (i : nat) : option PhraseMatchTokenSpan :=
  match rest with
  | [] => None
  | t :: rest' =>
      match map_get str_eqb t (children node) with
      | Some next =>
          if isTerminal next
          then Some (mkTokenSpan start i)
          else attempt start next skipsUsed rest' (S i)
      | None =>
          if hasStop && has t stopwords && (Z.of_nat skipsUsed <? maxSkipsBetweenTokens)%Z
          then attempt start node (skipsUsed + 1) rest' (S i)
          else None
      end
  end.

(** The outer loop over the start tokens. *)
Fixpoint starts (rest : list jsstring) (start : nat) : list PhraseMatchTokenSpan :=
  match rest with
  | [] => []
  | _ :: rest' =>
      match attempt start root 0 rest start with
      | Some span => span :: starts rest' (S start)
      | None => starts rest' (S start)
      end
  end.

Definition findAllMatchesForTokens (tokens : list jsstring) : list PhraseMatchTokenSpan :=
  starts tokens 0.

End Search.

End PhraseTrie.

(* ===================================================================== *)
(** * core/langAutoDetect.ts                                              *)
(* ===================================================================== *)

Module LangAutoDetect.

(** [/[lo-hi]/u.test(text)] for a range of the Basic Multilingual Plane
    that holds no surrogate: some code unit lies in the range. *)
Definition test_range (lo hi : N) (text : jsstring) : bool :=
  existsb (fun c => (lo <=? c)%N && (c <=? hi)%N) text.

Definition push (code : jsstring) (result : list jsstring) : list jsstring :=
  if has code result then result else result ++ [code].

Definition inferLikelyLanguageCodes (text : jsstring) : list jsstring :=
  let result := [] in
  let result := if test_range 0x4E00 0x9FFF text then push (str "zh") result else result in
  let result := if test_range 0x3040 0x309F text || test_range 0x30A0 0x30FF text
                then push (str "ja") result else result in
  let result := if test_range 0xAC00 0xD7AF text then push (str "ko") result else result in
  let result := if test_range 0x0400 0x04FF text then push (str "ru") result else result in
  let result := if test_range 0x0600 0x06FF text
                then push (str "fa") (push (str "ar") result) else result in
  let result := if test_range 0x0590 0x05FF text then push (str "he") result else result in
  let result := if test_range 0x0900 0x097F text then push (str "hi") result else result in
  let result := if test_range 0x0E00 0x0E7F text then push (str "th") result else result in
  result.

End LangAutoDetect.

(* ===================================================================== *)
(** * languages/index.ts                                                  *)
(* ===================================================================== *)

Module Languages.

(** The word arrays [AR_WORDS], ..., [ZH_WORDS] live in [languages/<code>.ts];
    the core reads them through [languageWordMap] and [EN_WORDS] only, and
    is parametric in their contents. *)
Record Packs : Type := mkPacks { packWords : jsstring -> list jsstring }.

(** [Object.keys(languageWordMap)], in the order of the object literal. *)
Definition allLanguageCodes : list jsstring :=
  map str [ "ar"; "cs"; "da"; "de"; "en"; "eo"; "es"; "fa"; "fi"; "fr"; "hi"; "hu";
            "it"; "ja"; "ko"; "nl"; "no"; "pl"; "pt"; "ru"; "sv"; "th"; "tlh"; "tr";
            "zh" ]%string.

Definition EN_WORDS (P : Packs) : list jsstring := packWords P (str "en").

(** [languageWordMap[code]]: [undefined] for a code without pack. *)
Definition languageWordMap (P : Packs) (code : jsstring) : option (list jsstring) :=
  if has code allLanguageCodes then Some (packWords P code) else None.

End Languages.

(* ===================================================================== *)
(** * index.ts: configuration                                             *)
(* ===================================================================== *)

Module Config.

Record MaskingConfig : Type := mkMaskingConfig {
  enabled : bool;
  pattern : jsstring;
  preserveLength : bool;
  preserveFirst : bool;
  preserveLast : bool
}.

Inductive Algorithm : Type := trie | aho.

(** The numbers of the configuration are taken as integers. *)
Record DetectionSettings : Type := mkDetectionSettings {
  levenshteinDistance : Z;
  caseSensitive : bool;
  wholeWordsOnly : bool;
  customWords : list jsstring;
  confusableMapping : option bool;
  ignoreSeparators : option (list jsstring);
  stripDiacritics : option bool;
  useNFKC : option bool;
  enableInflections : option bool;
  inflectionSuffixes : option (list jsstring);
  allowlist : option (list jsstring);
  tokenBoundedFuzzy : option bool;
  phraseStopwords : option (list jsstring);
  phraseMaxSkips : option Z;
  algorithm : option Algorithm
}.

(** [LanguageConfig]; the field [enabled] is named [enabledCodes] here, the
    name [enabled] being taken by [MaskingConfig]. *)
Record LanguageConfig : Type := mkLanguageConfig {
  enabledCodes : list jsstring;
  autoDetect : bool;
  fallback : jsstring
}.

Record ProfanityBusterConfig : Type := mkConfig {
  masking : MaskingConfig;
  detection : DetectionSettings;
  languages : LanguageConfig
}.

(** [languages?: LanguageConfig | string[]] *)
Inductive LanguagesOverride : Type :=
| LanguagesObject (c : LanguageConfig)
| LanguagesArray (codes : list jsstring).

Record ProfanityBusterUserConfig : Type := mkUserConfig {
  user_masking : option MaskingConfig;
  user_detection : option DetectionSettings;
  user_languages : option LanguagesOverride
}.

Definition DEFAULT_CONFIG : ProfanityBusterConfig :=
  mkConfig
    (mkMaskingConfig true (str "*") true true false)
    (mkDetectionSettings
       1 false false []
       (Some true)
       (Some (map str [" "; "."; "-"; "_"; "*"]%string))
       (Some true)
       (Some false)
       (Some true)
       (Some (map str ["s"; "es"; "ed"; "ing"; "er"; "ers"]%string))
       (Some [])
       (Some true)
       (Some (map str ["of"; "the"; "a"; "an"; "and"; "to"]%string))
       (Some 2%Z)
       (Some trie))
    (mkLanguageConfig [str "en"] false (str "en")).

(** [{ ...a, ...b }] on one optional property: the property of [b] wins
    when [b] has it. *)
Definition spread (A : Type) (a b : option A) : option A :=
  match b with Some v => Some v | None => a end.

Definition merge_detection (base override : DetectionSettings) : DetectionSettings :=
  mkDetectionSettings
    (levenshteinDistance override)
    (caseSensitive override)
    (wholeWordsOnly override)
    (customWords override)
    (spread (confusableMapping base) (confusableMapping override))
    (spread (ignoreSeparators base) (ignoreSeparators override))
    (spread (stripDiacritics base) (stripDiacritics override))
    (spread (useNFKC base) (useNFKC override))
    (spread (enableInflections base) (enableInflections override))
    (spread (inflectionSuffixes base) (inflectionSuffixes override))
    (spread (allowlist base) (allowlist override))
    (spread (tokenBoundedFuzzy base) (tokenBoundedFuzzy override))
    (spread (phraseStopwords base) (phraseStopwords override))
    (spread (phraseMaxSkips base) (phraseMaxSkips override))
    (spread (algorithm base) (algorithm override)).

(** [static mergeConfig(base, override?)]: no field is inspected, the
    values of [override] are copied as they come. *)
Definition mergeConfig (base : ProfanityBusterConfig)
           (override : option ProfanityBusterUserConfig) : ProfanityBusterConfig :=
  match override with
  | None => base
  | Some o =>
      let languages1 :=
        match user_languages o with
        | Some (LanguagesArray codes) =>
            mkLanguageConfig codes (autoDetect (languages base)) (fallback (languages base))
        | Some (LanguagesObject c) =>
            mkLanguageConfig (enabledCodes c) (autoDetect c) (fallback c)
        | None => languages base
        end in
      mkConfig
        (match user_masking o with Some m => m | None => masking base end)
        (match user_detection o with
         | Some d => merge_detection (detection base) d
         | None => detection base
         end)
        languages1
  end.

End Config.

(* ===================================================================== *)
(** * presets.ts                                                          *)
(* ===================================================================== *)

Module Presets.
Import Config.


Definition highRecallPreset : ProfanityBusterUserConfig :=
  mkUserConfig None
    (Some (mkDetectionSettings
             1 false false []
             (Some true)
             (Some (map str [" "; "."; "-"; "_"; "*"]%string))
             (Some true)
             (Some false)
             (Some true)
             None None None None None
             (Some aho)))
    None.

End Presets.

(* ===================================================================== *)
(** * index.ts: the detector                                              *)
(* ===================================================================== *)

Module ProfanityBuster.
Import Config.

(** An element of [DetectionResult.matches]. *)
Record Match : Type := mkMatch {
  m_word : jsstring;
  m_index : nat;
  m_length : nat;
  m_language : jsstring
}.

Record DetectionResult : Type := mkDetectionResult {
  hasProfanity : bool;
  matches : list Match
}.

(** The private fields of the class. *)
Record ProfanityBuster : Type := mkProfanityBuster {
  config : ProfanityBusterConfig;
  languageWordlists : list (jsstring * list jsstring);
  languageTries : list (jsstring * Trie.TrieNode);
  languageAutomata : list (jsstring * AhoCorasick.AhoCorasick);
  phraseTrie : PhraseTrie.PhraseTrieNode;
  phraseList : list (list jsstring)
}.

Definition with_config (pb : ProfanityBuster) (c : ProfanityBusterConfig) : ProfanityBuster :=
  mkProfanityBuster c (languageWordlists pb) (languageTries pb) (languageAutomata pb)
                    (phraseTrie pb) (phraseList pb).

Definition with_wordlists (pb : ProfanityBuster) (w : list (jsstring * list jsstring))
  : ProfanityBuster :=
  mkProfanityBuster (config pb) w (languageTries pb) (languageAutomata pb)
                    (phraseTrie pb) (phraseList pb).

Definition with_matchers (pb : ProfanityBuster) (t : list (jsstring * Trie.TrieNode))
           (a : list (jsstring * AhoCorasick.AhoCorasick)) : ProfanityBuster :=
  mkProfanityBuster (config pb) (languageWordlists pb) t a (phraseTrie pb) (phraseList pb).

Definition with_phrases (pb : ProfanityBuster) (t : PhraseTrie.PhraseTrieNode)
           (l : list (list jsstring)) : ProfanityBuster :=
  mkProfanityBuster (config pb) (languageWordlists pb) (languageTries pb)
                    (languageAutomata pb) t l.

Definition with_enabled (pb : ProfanityBuster) (codes : list jsstring) : ProfanityBuster :=
  let c := config pb in
  with_config pb (mkConfig (masking c) (detection c)
                           (mkLanguageConfig codes (autoDetect (languages c))
                                             (fallback (languages c)))).

Definition with_fallback (pb : ProfanityBuster) (code : jsstring) : ProfanityBuster :=
  let c := config pb in
  with_config pb (mkConfig (masking c) (detection c)
                           (mkLanguageConfig (enabledCodes (languages c))
                                             (autoDetect (languages c)) code)).

Definition with_algorithm (pb : ProfanityBuster) (a : Algorithm) : ProfanityBuster :=
  let c := config pb in
  let d := detection c in
  with_config pb
    (mkConfig (masking c)
       (mkDetectionSettings
          (levenshteinDistance d) (caseSensitive d) (wholeWordsOnly d) (customWords d)
          (confusableMapping d) (ignoreSeparators d) (stripDiacritics d) (useNFKC d)
          (enableInflections d) (inflectionSuffixes d) (allowlist d)
          (tokenBoundedFuzzy d) (phraseStopwords d) (phraseMaxSkips d) (Some a))
       (languages c)).

Section WithRuntime.
Variable U : Unicode.
Variable P : Languages.Packs.

Definition WORD_CHAR (c : N) : bool := isWordCodePoint U c.

(** The options that [detect] and [normalizeWord] pass to the normalizer. *)
Definition normalizationOptions (pb : ProfanityBuster) : Normalization.NormalizationOptions :=
  let d := detection (config pb) in
  Normalization.mkNormalizationOptions
    (caseSensitive d)
    (orElse (confusableMapping d) true)
    (Some (orElse (stripDiacritics d) true))
    (Some (orElse (useNFKC d) false))
    (Some true)
    (Some true).

Definition normalizeWord (pb : ProfanityBuster) (word : jsstring) : jsstring :=
  Normalization.normalizeWord U word (normalizationOptions pb).

(** [if (this.config.detection.enableInflections)] tests the property for
    truth, without default. *)
Definition expandWordVariants (pb : ProfanityBuster) (word : jsstring) : list jsstring :=
  let d := detection (config pb) in
  let normalized := normalizeWord pb word in
  let variants := set_of [normalized] in
  if orElse (enableInflections d) false
  then fold_left (fun vs suffix => set_add (normalized ++ suffix) vs)
                 (orElse (inflectionSuffixes d) []) variants
  else variants.

Definition rebuildMatcherForLanguage (pb : ProfanityBuster) (code : jsstring)
  : outcome ProfanityBuster :=
  let words := orElse (map_get str_eqb code (languageWordlists pb)) [] in
  match orElse (algorithm (detection (config pb))) trie with
  | aho =>
      let tries := map_delete str_eqb code (languageTries pb) in
      ac <- foldM (fun ac w => AhoCorasick.insertAll (expandWordVariants pb w) ac)
                  words AhoCorasick.new ;;
      ac1 <- AhoCorasick.build ac ;;
      Returns (with_matchers pb tries (map_set str_eqb code ac1 (languageAutomata pb)))
  | trie =>
      let automata := map_delete str_eqb code (languageAutomata pb) in
      let t := fold_left (fun t w => Trie.insertAll (expandWordVariants pb w) t)
                         words Trie.empty in
      Returns (with_matchers pb (map_set str_eqb code t (languageTries pb)) automata)
  end.

Definition rebuildPhraseTrie (pb : ProfanityBuster) : ProfanityBuster :=
  with_phrases pb (PhraseTrie.insertAll (phraseList pb) (phraseTrie pb)) (phraseList pb).

Definition loadLanguagePacks (pb : ProfanityBuster) (codes : list jsstring)
  : outcome ProfanityBuster :=
  foldM (fun pb code =>
           let set := if str_eqb code (str "en")
                      then set_of (map (normalizeWord pb) (Languages.EN_WORDS P))
                      else [] in
           let pb1 := with_wordlists pb (map_set str_eqb code set (languageWordlists pb)) in
           rebuildMatcherForLanguage pb1 code)
        codes pb.

Definition addCustomWords (pb : ProfanityBuster) (words : list jsstring)
  : outcome ProfanityBuster :=
  match words with
  | [] => Returns pb
  | _ =>
      let targetCode := fallback (languages (config pb)) in
      let target := orElse (map_get str_eqb targetCode (languageWordlists pb)) [] in
      let target1 :=
        fold_left (fun t word => fold_left (fun t variant => set_add variant t)
                                           (expandWordVariants pb word) t)
                  words target in
      let pb1 := with_wordlists pb (map_set str_eqb targetCode target1 (languageWordlists pb)) in
      rebuildMatcherForLanguage pb1 targetCode
  end.

(** [new ProfanityBuster(userConfig?)] *)
Definition constructor (userConfig : option ProfanityBusterUserConfig)
  : outcome ProfanityBuster :=
  let pb0 := mkProfanityBuster (mergeConfig DEFAULT_CONFIG userConfig)
                               [] [] [] PhraseTrie.empty [] in
  pb1 <- loadLanguagePacks pb0 (enabledCodes (languages (config pb0))) ;;
  addCustomWords pb1 (customWords (detection (config pb1))).

(** ** Management API *)

Definition addWord (pb : ProfanityBuster) (word : jsstring) (language : option jsstring)
  : outcome ProfanityBuster :=
  let lang := orElse language (fallback (languages (config pb))) in
  let set := orElse (map_get str_eqb lang (languageWordlists pb)) [] in
  let set1 := set_add (normalizeWord pb word) set in
  let pb1 := with_wordlists pb (map_set str_eqb lang set1 (languageWordlists pb)) in
  rebuildMatcherForLanguage pb1 lang.

Definition removeWord (pb : ProfanityBuster) (word : jsstring) (language : option jsstring)
  : outcome ProfanityBuster :=
  let lang := orElse language (fallback (languages (config pb))) in
  match map_get str_eqb lang (languageWordlists pb) with
  | None => Returns pb
  | Some set =>
      let set1 := set_delete (normalizeWord pb word) set in
      let pb1 := with_wordlists pb (map_set str_eqb lang set1 (languageWordlists pb)) in
      rebuildMatcherForLanguage pb1 lang
  end.

Definition setLanguages (pb : ProfanityBuster) (codes : list jsstring)
           (fallbackCode : option jsstring) : outcome ProfanityBuster :=
  let pb1 := with_enabled pb codes in
  let pb2 := match fallbackCode with
             | Some (_ :: _ as f) => with_fallback pb1 f
             | _ => pb1
             end in
  loadLanguagePacks pb2 (enabledCodes (languages (config pb2))).

Definition setAlgorithm (pb : ProfanityBuster) (a : Algorithm) : outcome ProfanityBuster :=
  let pb1 := with_algorithm pb a in
  foldM rebuildMatcherForLanguage (enabledCodes (languages (config pb1))) pb1.

(** The branch of [ensureLoadedForCodes] and [loadLanguages] that finds a
    language already loaded. *)
Definition alreadyLoaded (pb : ProfanityBuster) (code : jsstring) : bool :=
  match map_get str_eqb code (languageWordlists pb) with
  | Some existingSet =>
      (0 <? length existingSet)
      && (map_has str_eqb code (languageTries pb) || map_has str_eqb code (languageAutomata pb))
  | None => false
  end.

Definition packFor (code : jsstring) : option (list jsstring) :=
  if str_eqb code (str "en") then Some (Languages.EN_WORDS P)
  else Languages.languageWordMap P code.

Definition ensureLoadedForCodes (pb : ProfanityBuster) (codes : list jsstring)
  : outcome ProfanityBuster :=
  foldM (fun pb code =>
           if alreadyLoaded pb code then Returns pb
           else
             match packFor code with
             | None => Returns pb
             | Some [] => Returns pb
             | Some words =>
                 let normalized := set_of (map (normalizeWord pb) words) in
                 let pb1 := with_wordlists pb
                              (map_set str_eqb code normalized (languageWordlists pb)) in
                 rebuildMatcherForLanguage pb1 code
             end)
        codes pb.

Definition enable (pb : ProfanityBuster) (code : jsstring) : ProfanityBuster :=
  let codes := enabledCodes (languages (config pb)) in
  if has code codes then pb else with_enabled pb (codes ++ [code]).

(** [async loadLanguages(codes)]; the body has no [await]. *)
Definition loadLanguages (pb : ProfanityBuster) (codes : list jsstring)
  : outcome ProfanityBuster :=
  foldM (fun pb code =>
           if alreadyLoaded pb code then Returns (enable pb code)
           else
             match packFor code with
             | None =>
                 let pb1 := with_wordlists pb (map_set str_eqb code [] (languageWordlists pb)) in
                 rebuildMatcherForLanguage pb1 code
             | Some words =>
                 let normalized := set_of (map (normalizeWord pb) words) in
                 let pb1 := with_wordlists pb
                              (map_set str_eqb code normalized (languageWordlists pb)) in
                 pb2 <- rebuildMatcherForLanguage pb1 code ;;
                 Returns (enable pb2 code)
             end)
        codes pb.

(** ** Tokens *)

Record Token : Type := mkToken {
  value : jsstring;
  start : nat;
  endExclusive : nat
}.

(** The code point of one element of the string iterator. *)
Definition codePointValue (cp : jsstring) : N :=
  match cp with
  | [h; l] => (0x10000 + (h - 0xD800) * 0x400 + (l - 0xDC00))%N
  | [c] => c
  | _ => 0%N
  end.

(** [/[\p{L}\p{N}_]+/gu] run with [exec] until [null]: the maximal runs of
    word code points; [cur] is the run being read and [i] the offset, in
    code units, of the next code point. *)
Fixpoint tokenize_loop (cps : list jsstring) (i : nat) (cur : option Token) : list Token :=
  match cps with
  | [] => match cur with Some t => [t] | None => [] end
  | cp :: rest =>
      let i1 := i + length cp in
      if WORD_CHAR (codePointValue cp)
      then tokenize_loop rest i1
             (Some match cur with
                   | Some t => mkToken (value t ++ cp) (start t) i1
                   | None => mkToken cp i i1
                   end)
      else match cur with
           | Some t => t :: tokenize_loop rest i1 None
           | None => tokenize_loop rest i1 None
           end
  end.

Definition tokenizeWithOffsets (text : jsstring) : list Token :=
  tokenize_loop (codePoints text) 0 None.

(** ** Regular-expression scans *)

Fixpoint starts_with (prefix s : jsstring) : bool :=
  match prefix, s with
  | [], _ => true
  | p :: prefix', c :: s' => (p =? c)%N && starts_with prefix' s'
  | _ :: _, [] => false
  end.

(** The optional group [(?:s1|s2|...)?] at the end of the pattern: the first
    alternative that matches is taken, an alternative that matches the empty
    string being passed over by the quantifier. *)
Definition match_suffix (suffixes : list jsstring) (rest : jsstring) : nat :=
  match find (fun s => (0 <? length s) && starts_with s rest) suffixes with
  | Some s => length s
  | None => 0
  end.

(** [regex.exec(text)] for the escaped, hence literal, pattern
    [base(?:s1|...)?] with the [g] flag: the first index from [lastIndex] on
    at which [base] occurs, with the length of the match.  [rest] is the text
    from [lastIndex] on. *)
Fixpoint regex_exec (base : jsstring) (suffixes : list jsstring)
         (rest : jsstring) (lastIndex : nat) : option (nat * nat) :=
  if starts_with base rest
  then Some (lastIndex, length base + match_suffix suffixes (skipn (length base) rest))
  else match rest with
       | [] => None
       | _ :: rest' => regex_exec base suffixes rest' (S lastIndex)
       end.

(** [while ((m = regex.exec(text)) !== null)]: [exec] leaves [lastIndex] at
    the end of the match.  After an empty match the next [exec] starts where
    this one started and finds the same match, so the round is run again and
    again, unchanged: when the round pushes its index, [indices] grows until
    [push] throws a [RangeError]; when it does not, the loop never ends.
    A match that is not empty moves [lastIndex] forward, and [fuel] counts
    these rounds. *)
Fixpoint occurrences_loop (fuel : nat) (base : jsstring) (suffixes : list jsstring)
         (wholeWordsOnly : bool) (text : jsstring) (lastIndex : nat)
  : outcome (list nat) :=
  match fuel with
  | O => Diverges
  | S fuel' =>
      match regex_exec base suffixes (skipn lastIndex text) lastIndex with
      | None => Returns []
      | Some (startIdx, matched) =>
          let endIdx := startIdx + matched in
          let leftOk := (startIdx =? 0)
                        || negb (AhoCorasick.WORD_CHAR_at U text (startIdx - 1)) in
          let rightOk := (length text <=? endIdx)
                         || negb (AhoCorasick.WORD_CHAR_at U text endIdx) in
          if matched =? 0
          then if wholeWordsOnly && (negb leftOk || negb rightOk)
               then Diverges
               else Throws
          else
            indices <- occurrences_loop fuel' base suffixes wholeWordsOnly text endIdx ;;
            if wholeWordsOnly && (negb leftOk || negb rightOk)
            then Returns indices
            else Returns (startIdx :: indices)
      end
  end.

(** [lastIndex] never passes [text.length], so the rounds that move it
    forward are fewer than [text.length + 2]. *)
Definition findWordOccurrencesWithInflections (text base : jsstring)
           (suffixes : list jsstring) (wholeWordsOnly : bool) : outcome (list nat) :=
  occurrences_loop (length text + 2) base suffixes wholeWordsOnly text 0.

Definition findWordOccurrences (text word : jsstring) (wholeWordsOnly : bool)
  : outcome (list nat) :=
  match word with
  | [] => Returns []
  | _ => occurrences_loop (length text + 2) word [] wholeWordsOnly text 0
  end.

(** ** Approximate matching *)

(** One row [dp[i][1..n]] from the row above: [above] is [dp[i-1][j-1..n]]
    and [left] is [dp[i][j-1]]. *)
Fixpoint levenshtein_row (ai : N) (b : jsstring) (above : list nat) (left : nat)
  : list nat :=
  match b, above with
  | bj :: b', diag :: ((up :: _) as above') =>
      let cost := if (ai =? bj)%N then 0 else 1 in
      let v := Nat.min (Nat.min (up + 1) (left + 1)) (diag + cost) in
      v :: levenshtein_row ai b' above' v
  | _, _ => []
  end.

Fixpoint levenshtein_rows (a b : jsstring) (i : nat) (above : list nat) : list nat :=
  match a with
  | [] => above
  | ai :: a' => levenshtein_rows a' b (S i) (S i :: levenshtein_row ai b above (S i))
  end.

(** [dp[m][n]] *)
Definition levenshtein (a b : jsstring) : nat :=
  last (levenshtein_rows a b 0 (seq 0 (S (length b)))) 0.

(** [s.slice(i, j)] for [0 <= i <= j]. *)
Definition slice (A : Type) (s : list A) (i j : nat) : list A :=
  firstn (j - i) (skipn i s).

(** The loop of [findMinDistanceInWindow] from offset [i] on, with [n]
    offsets left; [best] is [(bestIndex, bestDistance)], [None] standing for
    [-1] and [Infinity]. *)
Fixpoint minDistance_loop (window target : jsstring) (n i : nat)
         (best : option (nat * nat)) : option (nat * nat) :=
  match n with
  | O => best
  | S n' =>
      let candidate := slice window i (i + length target) in
      let d := levenshtein candidate target in
      let better := match best with Some (_, bd) => d <? bd | None => true end in
      if better
      then if d =? 0 then Some (i, d)
           else minDistance_loop window target n' (S i) (Some (i, d))
      else minDistance_loop window target n' (S i) best
  end.

(** The result [{ index, distance }]; [distance] is [None] for [Infinity]. *)
Definition findMinDistanceInWindow (window target : jsstring) : nat * option nat :=
  let n := if length target <=? length window
           then length window - length target + 1 else 0 in
  match minDistance_loop window target n 0 None with
  | Some (bi, bd) => (bi, Some bd)
  | None => (0, None)
  end.

Definition scaledMaxDistance (pb : ProfanityBuster) (word : jsstring) : nat :=
  let base := levenshteinDistance (detection (config pb)) in
  Z.to_nat (Z.max 0 (Z.min base (Z.of_nat (length word) / 5))).

(** The loop of [findApproximateOccurrence] from [i] on, with [n] starts
    left; [None] is the result [-1]. *)
Fixpoint approximate_loop (tokenBounded wholeWordsOnly : bool) (text word : jsstring)
         (maxDistance : nat) (n i : nat) : option nat :=
  match n with
  | O => None
  | S n' =>
      let continue := approximate_loop tokenBounded wholeWordsOnly text word maxDistance n' (S i) in
      if tokenBounded && (0 <? i) && AhoCorasick.WORD_CHAR_at U text (i - 1) then continue
      else
        let windowSize := length word + maxDistance in
        let window := slice text i (Nat.min (length text) (i + windowSize)) in
        let (idx, distance) := findMinDistanceInWindow window word in
        match distance with
        | Some d =>
            if d <=? maxDistance then
              let startIdx := i + idx in
              let leftOk := (startIdx =? 0)
                            || negb (AhoCorasick.WORD_CHAR_at U text (startIdx - 1)) in
              let rightOk := (length text <=? startIdx + length word)
                             || negb (AhoCorasick.WORD_CHAR_at U text (startIdx + length word)) in
              if wholeWordsOnly && (negb leftOk || negb rightOk) then continue
              else Some startIdx
            else continue
        | None => continue
        end
  end.

Definition findApproximateOccurrence (pb : ProfanityBuster) (text word : jsstring)
           (maxDistance : nat) (wholeWordsOnly : bool) : option nat :=
  let tokenBounded := orElse (tokenBoundedFuzzy (detection (config pb))) true in
  let n := if length word <=? length text then length text - length word + 1 else 0 in
  approximate_loop tokenBounded wholeWordsOnly text word maxDistance n 0.

(** ** Language selection *)

Definition collectWordlistsForCodes (pb : ProfanityBuster) (codes : list jsstring)
  : list (jsstring * list jsstring) :=
  fold_left (fun active code =>
               match map_get str_eqb code (languageWordlists pb) with
               | Some list => if 0 <? length list
                              then map_set str_eqb code list active
                              else active
               | None => active
               end)
            codes [].

(** [selectAutoDetectLanguages] may load every pack, so it hands back the
    instance as well. *)
Definition selectAutoDetectLanguages (pb : ProfanityBuster) (text : jsstring)
  : outcome (ProfanityBuster * list jsstring) :=
  let likely := LangAutoDetect.inferLikelyLanguageCodes text in
  let loaded := map fst (filter (fun e => 0 <? length (snd e)) (languageWordlists pb)) in
  let candidates := filter (fun c => has c loaded) likely in
  if 0 <? length candidates then Returns (pb, candidates)
  else if 0 <? length loaded then Returns (pb, loaded)
  else if autoDetect (languages (config pb))
  then pb1 <- ensureLoadedForCodes pb Languages.allLanguageCodes ;;
       Returns (pb1, Languages.allLanguageCodes)
  else Returns (pb, enabledCodes (languages (config pb))).

(** Some language has a word list that is not empty: the test behind
    [loaded.length > 0]. *)
Definition someLoaded (pb : ProfanityBuster) : bool :=
  existsb (fun e : jsstring * list jsstring => 0 <? length (snd e)) (languageWordlists pb).

(** ** [detect] *)

Definition to_matches (textNormalized languageCode : jsstring) (spans : list Span)
  : list Match :=
  map (fun m => mkMatch (slice textNormalized (index m) (index m + span_length m))
                        (index m) (span_length m) languageCode)
      spans.

(** The loop over the languages of the exact stage; it is left at the first
    language with a match. *)
Fixpoint exact_stage (pb : ProfanityBuster) (textNormalized : jsstring)
         (wordlists : list (jsstring * list jsstring)) : outcome (list Match) :=
  match wordlists with
  | [] => Returns []
  | (languageCode, _) :: rest =>
      let d := detection (config pb) in
      let separators := set_of (orElse (ignoreSeparators d) []) in
      let whole := wholeWordsOnly d in
      match orElse (algorithm d) trie with
      | aho =>
          match map_get str_eqb languageCode (languageAutomata pb) with
          | None => exact_stage pb textNormalized rest
          | Some automaton =>
              acMatches <- AhoCorasick.findAllMatches U automaton whole separators
                                                      textNormalized ;;
              let found := to_matches textNormalized languageCode acMatches in
              if 0 <? length found then Returns found
              else exact_stage pb textNormalized rest
          end
      | trie =>
          match map_get str_eqb languageCode (languageTries pb) with
          | None => exact_stage pb textNormalized rest
          | Some t =>
              let trieMatches := Trie.findAllMatches U t whole separators textNormalized in
              let found := to_matches textNormalized languageCode trieMatches in
              if 0 <? length found then Returns found
              else exact_stage pb textNormalized rest
          end
      end
  end.

(** The key [`${index}:${length}`] of the set [covered]. *)
Definition key_eqb (a b : nat * nat) : bool :=
  (fst a =? fst b) && (snd a =? snd b).

Definition inflection_word (pb : ProfanityBuster) (textNormalized languageCode : jsstring)
           (st : list Match * list (nat * nat)) (word : jsstring)
  : outcome (list Match * list (nat * nat)) :=
  let d := detection (config pb) in
  occ <- findWordOccurrencesWithInflections textNormalized word
           (orElse (inflectionSuffixes d) []) (wholeWordsOnly d) ;;
  Returns
    (fold_left (fun (st : list Match * list (nat * nat)) idx =>
                  let key := (idx, length word) in
                  if existsb (key_eqb key) (snd st) then st
                  else (fst st ++ [mkMatch word idx (length word) languageCode],
                        snd st ++ [key]))
               occ st).

Definition inflection_stage (pb : ProfanityBuster) (textNormalized : jsstring)
           (wordlists : list (jsstring * list jsstring)) (found : list Match)
  : outcome (list Match) :=
  if orElse (enableInflections (detection (config pb))) true
  then
    let covered := map (fun m => (m_index m, m_length m)) found in
    '(found1, _) <- foldM (fun st (entry : jsstring * list jsstring) =>
                             foldM (inflection_word pb textNormalized (fst entry))
                                   (snd entry) st)
                          wordlists (found, covered) ;;
    Returns found1
  else Returns found.

(** [tokens.join(' ')] *)
Fixpoint join (sep : jsstring) (l : list jsstring) : jsstring :=
  match l with
  | [] => []
  | [x] => x
  | x :: l' => x ++ sep ++ join sep l'
  end.

Definition phrase_stage (pb : ProfanityBuster) (textNormalized : jsstring)
           (found : list Match) : list Match :=
  if (length found =? 0) && (0 <? length (phraseList pb))
  then
    let d := detection (config pb) in
    let tokens := tokenizeWithOffsets textNormalized in
    let tokenValues := map value tokens in
    let spans := PhraseTrie.findAllMatchesForTokens (phraseTrie pb)
                   (set_of (orElse (phraseStopwords d) []))
                   (orElse (phraseMaxSkips d) 0%Z) tokenValues in
    match spans with
    | span :: _ =>
        let startIdx :=
          match at_index tokens (PhraseTrie.startTokenIndex span) with
          | Some t => start t
          | None => 0
          end in
        let endIdx :=
          match at_index tokens (PhraseTrie.endTokenIndex span) with
          | Some t => endExclusive t
          | None => startIdx
          end in
        let phrase := join (str " ")
                        (slice tokenValues (PhraseTrie.startTokenIndex span)
                               (PhraseTrie.endTokenIndex span + 1)) in
        found ++ [mkMatch phrase startIdx (endIdx - startIdx) (fallback (languages (config pb)))]
    | [] => found
    end
  else found.

(** The inner loop of the fuzzy stage: the first word of the language with
    an approximate occurrence. *)
Fixpoint fuzzy_words (pb : ProfanityBuster) (textNormalized languageCode : jsstring)
         (words : list jsstring) : list Match :=
  match words with
  | [] => []
  | word :: rest =>
      match findApproximateOccurrence pb textNormalized word
              (scaledMaxDistance pb word) (wholeWordsOnly (detection (config pb))) with
      | Some idx => [mkMatch word idx (length word) languageCode]
      | None => fuzzy_words pb textNormalized languageCode rest
      end
  end.

Fixpoint fuzzy_languages (pb : ProfanityBuster) (textNormalized : jsstring)
         (wordlists : list (jsstring * list jsstring)) : list Match :=
  match wordlists with
  | [] => []
  | (languageCode, words) :: rest =>
      match fuzzy_words pb textNormalized languageCode words with
      | [] => fuzzy_languages pb textNormalized rest
      | found => found
      end
  end.

Definition fuzzy_stage (pb : ProfanityBuster) (textNormalized : jsstring)
           (wordlists : list (jsstring * list jsstring)) (found : list Match)
  : list Match :=
  if (length found =? 0) && (0 <? levenshteinDistance (detection (config pb)))%Z
  then found ++ fuzzy_languages pb textNormalized wordlists
  else found.

(** [detect(text)]: the result, with the instance as the call leaves it. *)
Definition detect (pb : ProfanityBuster) (text : jsstring)
  : outcome (ProfanityBuster * DetectionResult) :=
  let textNormalized := Normalization.normalizeForDetection U text (normalizationOptions pb) in
  '(pb1, candidateCodes) <-
     (if autoDetect (languages (config pb))
      then selectAutoDetectLanguages pb textNormalized
      else Returns (pb, enabledCodes (languages (config pb)))) ;;
  let wordlists := collectWordlistsForCodes pb1 candidateCodes in
  found1 <- exact_stage pb1 textNormalized wordlists ;;
  found2 <- inflection_stage pb1 textNormalized wordlists found1 ;;
  let found3 := phrase_stage pb1 textNormalized found2 in
  let found4 := fuzzy_stage pb1 textNormalized wordlists found3 in
  Returns (pb1, mkDetectionResult (0 <? length found4) found4).

(** ** [sanitize] *)

(** [pattern.repeat(n)] *)
Fixpoint repeat_str (s : jsstring) (n : nat) : jsstring :=
  match n with
  | O => []
  | S n' => s ++ repeat_str s n'
  end.

(** [chars.map((char, index) => ...)] from position [i] on. *)
Fixpoint mask_chars (m : MaskingConfig) (total : nat) (chars : jsstring) (i : nat)
  : list jsstring :=
  match chars with
  | [] => []
  | char :: rest =>
      (if (preserveFirst m && (i =? 0)) || (preserveLast m && (i =? total - 1))
       then unit_str char
       else pattern m)
      :: mask_chars m total rest (S i)
  end.

Definition maskWord (pb : ProfanityBuster) (word : jsstring) : jsstring :=
  let m := masking (config pb) in
  if negb (preserveLength m)
  then repeat_str (pattern m) (Nat.max 1 (length word))
  else concat (mask_chars m (length word) word 0).

(** [output.splice(index, length, ...items)] *)
Definition splice (A : Type) (output : list A) (idx len : nat) (items : list A) : list A :=
  firstn idx output ++ items ++ skipn (idx + len) output.

Definition sanitize (pb : ProfanityBuster) (text : jsstring)
  : outcome (ProfanityBuster * jsstring) :=
  '(pb1, detection) <- detect pb text ;;
  if negb (hasProfanity detection) || negb (enabled (masking (config pb1)))
  then Returns (pb1, text)
  else
    Returns (pb1,
      fold_left (fun output m =>
                   let original := slice output (m_index m) (m_index m + m_length m) in
                   let masked := maskWord pb1 original in
                   splice output (m_index m) (m_length m) masked)
                (matches detection) text).

(** ** Phrases *)

Definition phrase_eqb (a b : list jsstring) : bool :=
  (length a =? length b) && forallb (fun p => str_eqb (fst p) (snd p)) (combine a b).

(** [phraseList] is a set of arrays, compared by identity: every
    [addPhrase] adds an element. *)
Definition addPhrase (pb : ProfanityBuster) (phrase : jsstring) : ProfanityBuster :=
  let tokens := map value (tokenizeWithOffsets (normalizeWord pb phrase)) in
  match tokens with
  | [] => pb
  | _ => rebuildPhraseTrie (with_phrases pb (phraseTrie pb) (phraseList pb ++ [tokens]))
  end.

(** The loop of [removePhrase]: the first array with the same tokens goes. *)
Fixpoint remove_first (tokens : list jsstring) (l : list (list jsstring))
  : list (list jsstring) :=
  match l with
  | [] => []
  | existing :: l' =>
      if phrase_eqb existing tokens then l' else existing :: remove_first tokens l'
  end.

Definition removePhrase (pb : ProfanityBuster) (phrase : jsstring) : ProfanityBuster :=
  let tokens := map value (tokenizeWithOffsets (normalizeWord pb phrase)) in
  match tokens with
  | [] => pb
  | _ => rebuildPhraseTrie
           (with_phrases pb (phraseTrie pb) (remove_first tokens (phraseList pb)))
  end.

End WithRuntime.

End ProfanityBuster.

(* ===================================================================== *)
(** * integrations/express/middleware.ts                                  *)
(* ===================================================================== *)

Module ExpressMiddleware.
Import Config ProfanityBuster.

(** What the path walker tells apart in a value of the request: an object
    (an array is an object with its indices as keys), a string, and any
    other value.  The request is taken as a tree of own properties: no
    object is reached along two paths. *)
#[warnings="-register-all"]
Inductive JsValue : Type :=
| JsObject (props : list (jsstring * JsValue))
| JsString (s : jsstring)
| JsOther.



(** [path.split('.')]; [cur] is the part being read. *)
Fixpoint split_dots (s cur : jsstring) : list jsstring :=
  match s with
  | [] => [cur]
  | c :: s' => if (c =? 0x2E)%N then cur :: split_dots s' [] else split_dots s' (cur ++ [c])
  end.

Definition split (path : jsstring) : list jsstring := split_dots path [].

(** [key === '__proto__' || key === 'prototype' || key === 'constructor'] *)
Definition forbidden_key (key : jsstring) : bool :=
  str_eqb key (str "__proto__") || str_eqb key (str "prototype")
  || str_eqb key (str "constructor").

Section Handler.
Variable U : Unicode.
Variable P : Languages.Packs.

(** The walk along [parts] from [current] and the assignment
    [current[last] = buster.sanitize(current[last])] at its end; the value
    handed back is [current] with the assignment done.  The walk stops, with
    nothing assigned, at a forbidden key and at a value that is no object;
    the last key is read without that test. *)
Fixpoint sanitize_at (pb : ProfanityBuster.ProfanityBuster) (current : JsValue)
         (parts : list jsstring) : outcome (ProfanityBuster.ProfanityBuster * JsValue) :=
  match parts with
  | [] => Returns (pb, current)
  | [last] =>
      match current with
      | JsObject props =>
          match map_get str_eqb last props with
          | Some (JsString s) =>
              '(pb1, s1) <- sanitize U P pb s ;;
              Returns (pb1, JsObject (map_set str_eqb last (JsString s1) props))
          | _ => Returns (pb, current)
          end
      | _ => Returns (pb, current)
      end
  | key :: rest =>
      if forbidden_key key then Returns (pb, current)
      else
        match current with
        | JsObject props =>
            match map_get str_eqb key props with
            | Some (JsObject inner) =>
                '(pb1, v) <- sanitize_at pb (JsObject inner) rest ;;
                Returns (pb1, JsObject (map_set str_eqb key v props))
            | _ => Returns (pb, current)
            end
        | _ => Returns (pb, current)
        end
  end.


End Handler.

End ExpressMiddleware.

(* ===================================================================== *)
(** * Concrete detectors                                                  *)
(* ===================================================================== *)

Module Sample.
Import Config ProfanityBuster.

(** A stand-in for the packs: the English list holds the words of the
    scenarios, the other lists are empty. *)
Definition packs : Languages.Packs :=
  Languages.mkPacks
    (fun code => if str_eqb code (str "en")
                 then map str ["shit"; "bitch"; "fuck"]%string
                 else []).

Definition tables : Unicode := SampleUnicode.tables.

(** What is left of an outcome that returned. *)
Definition returned (A : Type) (d : A) (o : outcome A) : A :=
  match o with Returns a => a | _ => d end.

Definition blank : ProfanityBuster.ProfanityBuster :=
  mkProfanityBuster DEFAULT_CONFIG [] [] [] PhraseTrie.empty [].

(** [new ProfanityBuster()] *)
Definition default_detector : ProfanityBuster.ProfanityBuster :=
  returned blank (constructor tables packs None).

(** [new ProfanityBuster({ languages: ['xx'] })]: no pack is read. *)
Definition xx_config : ProfanityBusterUserConfig :=
  mkUserConfig None None (Some (LanguagesArray [str "xx"])).

Definition xx_detector : ProfanityBuster.ProfanityBuster :=
  returned blank (constructor tables packs (Some xx_config)).

(** ... followed by [addWord('ab', 'xx')]. *)
Definition ab_detector : ProfanityBuster.ProfanityBuster :=
  returned blank (addWord tables xx_detector (str "ab") (Some (str "xx"))).

(** [new ProfanityBuster({ languages: ['xx'], detection: { ..., wholeWordsOnly: true } })]
    followed by [addWord('ab', 'xx')]. *)
Definition whole_config : ProfanityBusterUserConfig :=
  mkUserConfig None
    (Some (mkDetectionSettings 1 false true [] None None None None None None None None
                               None None None))
    (Some (LanguagesArray [str "xx"])).

Definition whole_detector : ProfanityBuster.ProfanityBuster :=
  returned blank
    (pb <- constructor tables packs (Some whole_config) ;;
     addWord tables pb (str "ab") (Some (str "xx"))).

(** [new ProfanityBuster({ languages: ['xx'] })] followed by
    [addWord('hello', 'xx')]. *)
Definition hello_detector : ProfanityBuster.ProfanityBuster :=
  returned blank (addWord tables xx_detector (str "hello") (Some (str "xx"))).

(** [new ProfanityBuster({ languages: ['xx'],
      masking: { enabled: true, pattern: '#', preserveLength: true,
                 preserveFirst: true, preserveLast: false },
      detection: { levenshteinDistance: 0, caseSensitive: true,
                   wholeWordsOnly: false, customWords: [],
                   enableInflections: false } })]
    followed by [addWord('ab', 'xx')]. *)
Definition plain_config : ProfanityBusterUserConfig :=
  mkUserConfig
    (Some (mkMaskingConfig true (str "#") true true false))
    (Some (mkDetectionSettings 0 true false [] None None None None (Some false) None None
                               None None None None))
    (Some (LanguagesArray [str "xx"])).

Definition plain_base : ProfanityBuster.ProfanityBuster :=
  returned blank (constructor tables packs (Some plain_config)).

Definition plain_detector : ProfanityBuster.ProfanityBuster :=
  returned blank (addWord tables plain_base (str "ab") (Some (str "xx"))).

(** [new ProfanityBuster({ detection: { levenshteinDistance: -1, ...,
    phraseMaxSkips: -1 } })] *)
Definition negative_config : ProfanityBusterUserConfig :=
  mkUserConfig None
    (Some (mkDetectionSettings (-1) false false [] None None None None None None None None
                               None (Some (-1)%Z) None))
    None.

(** [new ProfanityBuster({ languages: { enabled: [], autoDetect: true,
    fallback: 'en' } })] *)
Definition auto_config : ProfanityBusterUserConfig :=
  mkUserConfig None None (Some (LanguagesObject (mkLanguageConfig [] true (str "en")))).

Definition auto_detector : ProfanityBuster.ProfanityBuster :=
  returned blank (constructor tables packs (Some auto_config)).

(** [new ProfanityBuster()] followed by [addPhrase('son of a bitch')]. *)
Definition phrase_detector : ProfanityBuster.ProfanityBuster :=
  addPhrase tables default_detector (str "son of a bitch").

Definition phrase_text : jsstring := str "you are a son of the a   bitch indeed".

(** The text ["s\u200Bh\u2001i\u200Dt"]. *)
Definition obfuscated : jsstring := [0x73; 0x200B; 0x68; 0x2001; 0x69; 0x200D; 0x74]%N.

End Sample.

Import Config ProfanityBuster.

(* ===================================================================== *)
(** * Vocabulary of the properties                                        *)
(* ===================================================================== *)

(** ** Occurrences of a pattern in a text *)

(** A code unit that both matchers skip. *)
Definition ignored (seps : list jsstring) (c : N) : bool := has (unit_str c) seps.

(** The text that is left once the separators are skipped. *)
Definition kept (seps : list jsstring) (s : jsstring) : jsstring :=
  filter (fun c => negb (ignored seps c)) s.

(** The keys that the code units of a text are looked up with. *)
Definition unit_keys (s : jsstring) : list jsstring := map unit_str s.

(** [ks] is the sequence of keys of a word that [insert] accepts. *)
Definition pattern_of (words : list jsstring) (ks : list jsstring) : Prop :=
  exists w, In w words /\ w <> [] /\ codePoints w = ks.

(** No word character before index [s], after index [e]. *)
Definition left_ok (U : Unicode) (text : jsstring) (s : nat) : bool :=
  (s =? 0) || negb (AhoCorasick.WORD_CHAR_at U text (s - 1)).

Definition right_ok (U : Unicode) (text : jsstring) (e : nat) : bool :=
  (length text <=? e + 1) || negb (AhoCorasick.WORD_CHAR_at U text (e + 1)).

(** A word occurs from index [s] to index [e], both kept, with the
    separators in between skipped, and within word boundaries when these
    are asked for. *)
Definition occurs (U : Unicode) (seps : list jsstring) (whole : bool)
           (words : list jsstring) (text : jsstring) (s e : nat) : Prop :=
  s <= e /\ e < length text
  /\ ignored seps (nth s text 0%N) = false
  /\ ignored seps (nth e text 0%N) = false
  /\ pattern_of words (unit_keys (kept seps (slice text s (S e))))
  /\ (whole = true -> left_ok U text s = true /\ right_ok U text e = true).

(** A word that can occur: it holds no skipped code unit, and each of its
    code points is one code unit (no surrogate pair). *)
Definition plain (seps : list jsstring) (w : jsstring) : bool :=
  forallb (fun u => negb (ignored seps u)) w
  && forallb (fun cp : jsstring => length cp =? 1) (codePoints w).

(** ** Paths of a trie *)

Fixpoint lookup (node : Trie.TrieNode) (ks : list jsstring) : option Trie.TrieNode :=
  match ks with
  | [] => Some node
  | k :: ks' =>
      match map_get str_eqb k (Trie.children node) with
      | Some next => lookup next ks'
      | None => None
      end
  end.

Definition accepts (node : Trie.TrieNode) (ks : list jsstring) : bool :=
  match lookup node ks with
  | Some n => Trie.isTerminal n
  | None => false
  end.

(** The test of the right boundary that [walk] makes on the text that
    follows the code unit it has just read. *)
Definition boundary_after (U : Unicode) (whole : bool) (rest : jsstring) : bool :=
  if whole
  then match rest with
       | after :: _ => negb (isWordCodePoint U after)
       | [] => true
       end
  else true.

(** From [node], the code unit at offset [k] of [rest] is read and ends a
    word within its right boundary. *)
Fixpoint hit (U : Unicode) (seps : list jsstring) (whole : bool)
         (node : Trie.TrieNode) (rest : jsstring) (k : nat) : bool :=
  match rest with
  | [] => false
  | ch :: rest' =>
      if ignored seps ch
      then match k with
           | O => false
           | S k' => hit U seps whole node rest' k'
           end
      else
        match map_get str_eqb (unit_str ch) (Trie.children node) with
        | None => false
        | Some next =>
            match k with
            | O => Trie.isTerminal next && boundary_after U whole rest'
            | S k' => hit U seps whole next rest' k'
            end
        end
  end.

(** The code unit before the start index, as [scan] carries it along. *)
Definition prev_of (pre : jsstring) : option N := nth_error pre (length pre - 1).


(** ** Paths of the automaton *)

Definition children_of (nodes : AhoCorasick.AhoCorasick) (i : nat) : list (jsstring * nat) :=
  match at_index nodes i with
  | Some n => AhoCorasick.children n
  | None => []
  end.

Definition fail_of (nodes : AhoCorasick.AhoCorasick) (i : nat) : nat :=
  match at_index nodes i with
  | Some n => AhoCorasick.fail n
  | None => 0
  end.

Definition outputs_of (nodes : AhoCorasick.AhoCorasick) (i : nat) : list nat :=
  match at_index nodes i with
  | Some n => AhoCorasick.terminalLengths n
  | None => []
  end.

(** The transition on one key, and along a sequence of keys. *)
Definition step (nodes : AhoCorasick.AhoCorasick) (i : nat) (k : jsstring) : option nat :=
  map_get str_eqb k (children_of nodes i).

Fixpoint goto (nodes : AhoCorasick.AhoCorasick) (i : nat) (ks : list jsstring) : option nat :=
  match ks with
  | [] => Some i
  | k :: ks' =>
      match step nodes i k with
      | Some j => goto nodes j ks'
      | None => None
      end
  end.

(** [paths] lists, node by node, the keys that lead from the root to the
    node: the nodes form a tree. *)
Definition paths_of (nodes : AhoCorasick.AhoCorasick) (paths : list (list jsstring)) : Prop :=
  length paths = length nodes
  /\ (forall ks j, goto nodes 0 ks = Some j <-> j < length nodes /\ nth j paths [] = ks)
  /\ (forall i, NoDup (map fst (children_of nodes i))).

Definition suffix (a b : list jsstring) : Prop := exists pre, b = pre ++ a.

Definition proper_suffix (a b : list jsstring) : Prop :=
  exists pre, pre <> [] /\ b = pre ++ a.

(** The lengths that [insert] pushes at the node of path [ks]. *)
Definition own (words : list jsstring) (ks : list jsstring) : list nat :=
  map (@length N)
      (filter (fun w => negb (str_eqb w [])
                        && if list_eq_dec (list_eq_dec N.eq_dec) (codePoints w) ks
                           then true else false)
              words).

(** The automaton after the insertions, before [build]. *)
Definition inserted (words : list jsstring) (nodes : AhoCorasick.AhoCorasick)
           (paths : list (list jsstring)) : Prop :=
  paths_of nodes paths
  /\ (forall j, j < length nodes -> outputs_of nodes j = own words (nth j paths []))
  /\ (forall w, In w words -> w <> [] -> In (codePoints w) paths).

(** The failure link of node [j] leads to the longest proper suffix of its
    path that is a path. *)
Definition fail_ok (nodes : AhoCorasick.AhoCorasick) (paths : list (list jsstring))
           (j : nat) : Prop :=
  fail_of nodes j < length nodes
  /\ proper_suffix (nth (fail_of nodes j) paths []) (nth j paths [])
  /\ (forall t, proper_suffix t (nth j paths []) -> In t paths ->
                suffix t (nth (fail_of nodes j) paths [])).

(** The output list of node [j] holds the lengths of the words that end
    its path. *)
Definition out_ok (words : list jsstring) (nodes : AhoCorasick.AhoCorasick)
           (paths : list (list jsstring)) (j : nat) : Prop :=
  forall len, In len (outputs_of nodes j)
              <-> exists w, In w words /\ w <> [] /\ suffix (codePoints w) (nth j paths [])
                            /\ len = length w.

(** The automaton after [build]. *)
Definition built (words : list jsstring) (nodes : AhoCorasick.AhoCorasick)
           (paths : list (list jsstring)) : Prop :=
  paths_of nodes paths
  /\ (forall j, 0 < j -> j < length nodes -> fail_ok nodes paths j)
  /\ (forall j, j < length nodes -> out_ok words nodes paths j)
  /\ (forall w, In w words -> w <> [] -> In (codePoints w) paths).

(** [ks] is the empty path or the first keys of a word that [insert]
    accepts. *)
Definition prefix_of_word (words : list jsstring) (ks : list jsstring) : Prop :=
  ks = [] \/ exists w q, In w words /\ w <> [] /\ codePoints w = ks ++ q.

(** The number of keys on the path of node [j]. *)
Definition depth (paths : list (list jsstring)) (j : nat) : nat :=
  length (nth j paths []).

(** The state of the breadth-first loop of [build]: [nodes0] is the
    automaton before [build], [queue] the queue, [done] the nodes shifted
    so far, [pend] the children of the node in hand that are still to be
    visited, and [d] the depth of the level the loop works on. *)
Record bfs_inv (words : list jsstring) (nodes0 : AhoCorasick.AhoCorasick)
       (paths : list (list jsstring)) (nodes : AhoCorasick.AhoCorasick)
       (queue done : list nat) (pend : list (jsstring * nat)) (d : nat) : Prop :=
  mk_bfs_inv {
    bi_len : length nodes = length nodes0;
    bi_children : forall j, children_of nodes j = children_of nodes0 j;
    bi_final : forall j, In j (queue ++ done) ->
                         fail_ok nodes paths j /\ out_ok words nodes paths j;
    bi_root : outputs_of nodes 0 = [];
    bi_raw : forall j, 0 < j -> j < length nodes0 -> ~ In j (queue ++ done) ->
                       outputs_of nodes j = own words (nth j paths []);
    bi_range : forall j, In j (queue ++ done) -> 0 < j /\ j < length nodes0;
    bi_nodup : NoDup (queue ++ done);
    bi_level : forall j, 0 < j -> j < length nodes0 -> depth paths j <= d ->
                         In j (queue ++ done);
    bi_queue : exists qa qb, queue = qa ++ qb
                             /\ (forall x, In x qa -> depth paths x = d)
                             /\ (forall x, In x qb -> depth paths x = S d);
    bi_done : forall j, In j done ->
                        depth paths j <= d
                        /\ forall k x, step nodes0 j k = Some x ->
                                       In x (queue ++ done) \/ In (k, x) pend;
    bi_parent : forall x, In x (queue ++ done) ->
                          depth paths x = 1
                          \/ exists p k, In p done /\ step nodes0 p k = Some x;
    bi_pos : 1 <= d
  }.

Arguments bi_len {words nodes0 paths nodes queue done pend d} _.
Arguments bi_children {words nodes0 paths nodes queue done pend d} _ j.
Arguments bi_final {words nodes0 paths nodes queue done pend d} _ j _.
Arguments bi_root {words nodes0 paths nodes queue done pend d} _.
Arguments bi_raw {words nodes0 paths nodes queue done pend d} _ j _ _ _.
Arguments bi_range {words nodes0 paths nodes queue done pend d} _ j _.
Arguments bi_nodup {words nodes0 paths nodes queue done pend d} _.
Arguments bi_level {words nodes0 paths nodes queue done pend d} _ j _ _ _.
Arguments bi_queue {words nodes0 paths nodes queue done pend d} _.
Arguments bi_done {words nodes0 paths nodes queue done pend d} _ j _.
Arguments bi_parent {words nodes0 paths nodes queue done pend d} _ x _.
Arguments bi_pos {words nodes0 paths nodes queue done pend d} _.

(** ** The run of the automaton *)

(** [s] is the longest suffix of the keys read so far that is a path. *)
Definition longest_suffix_path (paths : list (list jsstring)) (read s : list jsstring) : Prop :=
  suffix s read /\ In s paths
  /\ forall t, suffix t read -> In t paths -> suffix t s.

(** [toOriginalIndex[k]], or [k] itself without compaction. *)
Definition orig (toOriginalIndex : option (list nat)) (k : nat) : nat :=
  match toOriginalIndex with
  | Some indexMap => nth k indexMap 0
  | None => k
  end.

(** The span that one round of [for (const len of outputs)] pushes. *)
Definition emit_span (U : Unicode) (whole : bool) (text : jsstring)
           (toOriginalIndex : option (list nat)) (i len : nat) : option Span :=
  if (Z.of_nat i - Z.of_nat len + 1 <? 0)%Z then None
  else
    let s := orig toOriginalIndex (Z.to_nat (Z.of_nat i - Z.of_nat len + 1)) in
    let e := orig toOriginalIndex i in
    if whole && (negb (left_ok U text s) || negb (right_ok U text e)) then None
    else Some (mkSpan s (e - s + 1)).

Definition opt_list (A : Type) (o : option A) : list A :=
  match o with Some a => [a] | None => [] end.

(** The number of kept code units before index [p]. *)
Definition rank (seps : list jsstring) (text : jsstring) (p : nat) : nat :=
  length (kept seps (firstn p text)).

(** The index map sends the rank of a kept code unit back to its index. *)
Definition orig_ok (seps : list jsstring) (text : jsstring)
           (toOriginalIndex : option (list nat)) : Prop :=
  forall p, p < length text -> ignored seps (nth p text 0%N) = false ->
            orig toOriginalIndex (rank seps text p) = p.

(** ** The matchers of a detector *)

(** The patterns that [rebuildMatcherForLanguage] compiles for a word list. *)
Definition variants (U : Unicode) (pb : ProfanityBuster.ProfanityBuster)
           (words : list jsstring) : list jsstring :=
  flat_map (expandWordVariants U pb) words.

Definition wordlist_of (pb : ProfanityBuster.ProfanityBuster) (code : jsstring)
  : list jsstring :=
  orElse (map_get str_eqb code (languageWordlists pb)) [].

(** The matchers stored for a language are the ones compiled from its word
    list. *)
Definition matcher_consistent (U : Unicode) (pb : ProfanityBuster.ProfanityBuster)
           (code : jsstring) : Prop :=
  (forall t, map_get str_eqb code (languageTries pb) = Some t ->
             forall ks, accepts t ks = true
                        <-> pattern_of (variants U pb (wordlist_of pb code)) ks)
  /\ (forall ac, map_get str_eqb code (languageAutomata pb) = Some ac ->
                 exists paths, built (variants U pb (wordlist_of pb code)) ac paths).

Definition consistent (U : Unicode) (pb : ProfanityBuster.ProfanityBuster) : Prop :=
  forall code, matcher_consistent U pb code.

(** ** The stages of [detect] *)

(** The pairs of a language and one of its words, in the order of the
    loops over the active word lists. *)
Definition entries (wordlists : list (jsstring * list jsstring))
  : list (jsstring * jsstring) :=
  flat_map (fun e : jsstring * list jsstring => map (fun w => (fst e, w)) (snd e)) wordlists.

(** What the exact stage gets from the matcher of one language. *)
Definition matcher_result (U : Unicode) (pb : ProfanityBuster.ProfanityBuster)
           (textNormalized languageCode : jsstring) : outcome (list Span) :=
  let d := detection (config pb) in
  let separators := set_of (orElse (ignoreSeparators d) []) in
  match orElse (algorithm d) trie with
  | aho =>
      match map_get str_eqb languageCode (languageAutomata pb) with
      | None => Returns []
      | Some automaton =>
          AhoCorasick.findAllMatches U automaton (wholeWordsOnly d) separators textNormalized
      end
  | trie =>
      match map_get str_eqb languageCode (languageTries pb) with
      | None => Returns []
      | Some t => Returns (Trie.findAllMatches U t (wholeWordsOnly d) separators textNormalized)
      end
  end.

(** The scan of the inflection stage for one word. *)
Definition scan_of (U : Unicode) (pb : ProfanityBuster.ProfanityBuster)
           (textNormalized word : jsstring) : outcome (list nat) :=
  findWordOccurrencesWithInflections U textNormalized word
    (orElse (inflectionSuffixes (detection (config pb))) [])
    (wholeWordsOnly (detection (config pb))).

(** The set [covered] holds the keys of the matches found so far. *)
Definition covered_ok (st : list Match * list (nat * nat)) : Prop :=
  snd st = map (fun m => (m_index m, m_length m)) (fst st).

(** What the exact stage and the inflection stage find for the enabled
    languages: the matches with which [detect] enters the phrase stage when
    [autoDetect] is off. *)
Definition word_stages (U : Unicode) (pb : ProfanityBuster.ProfanityBuster)
           (text : jsstring) : outcome (list Match) :=
  let textNormalized := Normalization.normalizeForDetection U text (normalizationOptions pb) in
  let wordlists := collectWordlistsForCodes pb (enabledCodes (languages (config pb))) in
  found1 <- exact_stage U pb textNormalized wordlists ;;
  inflection_stage U pb textNormalized wordlists found1.

(** ** Tactics *)

(** A scenario is run on the definitions. *)
Ltac run := vm_compute; reflexivity.

(** A match is not in a list of matches that has been computed. *)
Ltac not_in := vm_compute; intuition discriminate.

(** ** Edit distance *)

(** The edit distance of two sequences, by the recurrence on their first
    elements; [levenshtein] fills its table for the prefixes, which this
    function reads from the right. *)
Fixpoint dist (a b : list N) : nat :=
  match a with
  | [] => length b
  | x :: a' =>
      (fix inner (b : list N) : nat :=
         match b with
         | [] => length a
         | y :: b' =>
             Nat.min (Nat.min (dist a' b + 1) (inner b' + 1))
                     (dist a' b' + if (x =? y)%N then 0 else 1)
         end) b
  end.

(** The prefixes of [rest], each reversed and put on top of [done]. *)
Fixpoint prefs (done rest : list N) : list (list N) :=
  match rest with
  | [] => [done]
  | y :: rest' => done :: prefs (y :: done) rest'
  end.

(** ** Paths of the phrase trie *)

Fixpoint phrase_lookup (node : PhraseTrie.PhraseTrieNode) (ks : list jsstring)
  : option PhraseTrie.PhraseTrieNode :=
  match ks with
  | [] => Some node
  | k :: ks' =>
      match map_get str_eqb k (PhraseTrie.children node) with
      | Some next => phrase_lookup next ks'
      | None => None
      end
  end.

(** The tokens [ks] lead from [node] to a terminal node. *)
Definition phrase_accepts (node : PhraseTrie.PhraseTrieNode) (ks : list jsstring) : bool :=
  match phrase_lookup node ks with
  | Some n => PhraseTrie.isTerminal n
  | None => false
  end.

(** ** Values of a request *)


(** ** Masking *)

(** The body of the loop of [sanitize] for one match. *)
Definition mask_step (pb : ProfanityBuster.ProfanityBuster) (output : jsstring) (m : Match)
  : jsstring :=
  splice output (m_index m) (m_length m)
         (maskWord pb (slice output (m_index m) (m_index m + m_length m))).

(** [maskWord] keeps the code unit at offset [i] of a word of [total] code
    units: [preserveLength] is set and the test on the offset holds. *)
Definition preserved (m : MaskingConfig) (total i : nat) : bool :=
  preserveLength m
  && ((preserveFirst m && (i =? 0)) || (preserveLast m && (i =? total - 1))).

(** What the normalizer of [detect] makes of the code unit [c] when it
    leaves the case as it is. *)
Definition normalized_unit (U : Unicode) (pb : ProfanityBuster.ProfanityBuster) (c : N) : N :=
  nth 0 (Normalization.normalizeForDetection U [c] (normalizationOptions pb)) 0%N.

(* ===================================================================== *)
(** * Properties                                                          *)
(* ===================================================================== *)

Unset Implicit Arguments.


(** ** Strings, sets and maps *)

Lemma str_eqb_eq (a b : jsstring) : str_eqb a b = true <-> a = b.
Proof. unfold str_eqb. destruct (list_eq_dec N.eq_dec a b); split; congruence. Qed.

Lemma str_eqb_refl (a : jsstring) : str_eqb a a = true.
Proof. apply str_eqb_eq. reflexivity. Qed.

Lemma str_eqb_neq (a b : jsstring) : str_eqb a b = false <-> a <> b.
Proof. unfold str_eqb. destruct (list_eq_dec N.eq_dec a b); split; congruence. Qed.

Lemma str_eqb_sym (a b : jsstring) : str_eqb a b = str_eqb b a.
Proof.
  destruct (str_eqb a b) eqn:E.
  - apply str_eqb_eq in E. subst. symmetry. apply str_eqb_refl.
  - apply str_eqb_neq in E. symmetry. apply str_eqb_neq. congruence.
Qed.

Lemma has_In (x : jsstring) (s : list jsstring) : has x s = true <-> In x s.
Proof.
  unfold has. rewrite existsb_exists. split.
  - intros [y [Hy E]]. apply str_eqb_eq in E. subst. exact Hy.
  - intros H. exists x. split; [exact H | apply str_eqb_refl].
Qed.

Lemma set_add_In (x y : jsstring) (s : list jsstring) :
  In y (set_add x s) <-> y = x \/ In y s.
Proof.
  unfold set_add. destruct (has x s) eqn:E.
  - apply has_In in E. split; [auto | intros [->|H]; auto].
  - rewrite in_app_iff. simpl. split; intros H; intuition.
Qed.

(** ** The normalizer *)

Section NormalizerFacts.
Variable U : Unicode.

(** In length-preserving mode the loop appends one code unit per round. *)
Lemma normalize_unit_single (confusable stripD stripI : bool) (c : N) :
  exists u, Normalization.normalize_unit U confusable stripD true stripI c = Some [u].
Proof.
  unfold Normalization.normalize_unit, unit_str.
  destruct (stripI && Normalization.is_invisible c); cbv iota.
  all: destruct stripD; cbv iota;
    [ match goal with
      | |- context [filter ?f ?l] => destruct (filter f l) as [|b base']
      end | ].
  all: destruct confusable; cbn [andb length Nat.eqb];
    try match goal with
        | |- context [map_get N.eqb ?u Normalization.CONFUSABLE_MAP] =>
            destruct (map_get N.eqb u Normalization.CONFUSABLE_MAP)
        end; eauto.
Qed.

Lemma normalize_loop_length (confusable stripD stripI : bool) (text : jsstring) :
  length (Normalization.normalize_loop U confusable stripD true stripI text) = length text.
Proof.
  induction text as [|c rest IH]; simpl; [reflexivity|].
  destruct (normalize_unit_single confusable stripD stripI c) as [u ->].
  simpl. now rewrite IH.
Qed.

(** Position [i] of the output is computed from position [i] of the text
    that enters the loop. *)
Lemma normalize_loop_pointwise (confusable stripD stripI : bool) (text : jsstring) (i : nat) :
  i < length text ->
  Normalization.normalize_unit U confusable stripD true stripI (nth i text 0%N)
  = Some [nth i (Normalization.normalize_loop U confusable stripD true stripI text) 0%N].
Proof.
  revert i. induction text as [|c rest IH]; simpl; intros i Hi; [lia|].
  destruct (normalize_unit_single confusable stripD stripI c) as [u Hu].
  rewrite Hu. destruct i as [|i]; simpl; [exact Hu|].
  apply IH. lia.
Qed.

(** With [lengthPreserving] the only step that can change the length is
    the case folding done before the loop. *)
Lemma normalizeForDetection_length (input : jsstring)
      (o : Normalization.NormalizationOptions) :
  Normalization.lengthPreserving o <> Some false ->
  length (Normalization.normalizeForDetection U input o)
  = length (if Normalization.caseSensitive o then input else toLowerCase U input).
Proof.
  intros HL. unfold Normalization.normalizeForDetection.
  assert (E : orElse (Normalization.lengthPreserving o) true = true).
  { destruct (Normalization.lengthPreserving o) as [[|]|]; simpl; congruence. }
  rewrite E. rewrite andb_false_r.
  match goal with |- context [if ?b then Normalization.normalize_loop _ _ _ _ _ _ else _] =>
    destruct b end.
  - apply normalize_loop_length.
  - reflexivity.
Qed.

End NormalizerFacts.

(** C2 (the code at the failing input).  [detect] normalizes with
    [lengthPreserving: true], and still the one code unit U+0130 comes out
    as the two code units U+0069 U+0307: [toLowerCase] runs before the
    length-preserving loop and is not length preserving. *)
Theorem normalize_U0130_grows :
  Normalization.normalizeForDetection Sample.tables [0x130%N]
    (normalizationOptions Sample.default_detector) = [0x69%N; 0x307%N]
  /\ Normalization.lengthPreserving (normalizationOptions Sample.default_detector) = Some true
  /\ length [0x130%N] = 1
  /\ length (Normalization.normalizeForDetection Sample.tables [0x130%N]
               (normalizationOptions Sample.default_detector)) = 2.
Proof. repeat split; vm_compute; reflexivity. Qed.

(** ** The scenarios, run on the code *)

(** C1, as stated, fails: with the patterns ["a"] and ["ab"] and the text
    ["ab"] the automaton reports the spans (0,1) and (0,2), the trie only
    the longest one from index 0. *)
Lemma algorithms_differ_on_prefix_patterns :
  exists ac spans,
    (a <- AhoCorasick.insertAll [str "a"; str "ab"] AhoCorasick.new ;;
     AhoCorasick.build a) = Returns ac
    /\ AhoCorasick.findAllMatches Sample.tables ac false [] (str "ab") = Returns spans
    /\ In (mkSpan 0 1) spans
    /\ ~ In (mkSpan 0 1)
         (Trie.findAllMatches Sample.tables
            (Trie.insertAll [str "a"; str "ab"] Trie.empty) false [] (str "ab")).
Proof.
  eexists. eexists. split; [run|]. split; [run|]. split; [left; reflexivity | not_in].
Qed.

(** C3 (the code at the failing input).  With [wholeWordsOnly] and the word
    ["ab"], the inflection scan checks the right boundary at the end of the
    inflected form ["abs"] and reports the span of the base word: the match
    (0,2) is returned although the code unit after it is a letter. *)
Theorem inflection_span_ends_inside_a_word :
  wholeWordsOnly (detection (config Sample.whole_detector)) = true
  /\ exists pb r,
       detect Sample.tables Sample.packs Sample.whole_detector (str "abs") = Returns (pb, r)
       /\ In (mkMatch (str "ab") 0 2 (str "xx")) (matches r)
       /\ at_index (Normalization.normalizeForDetection Sample.tables (str "abs")
                      (normalizationOptions Sample.whole_detector)) 2 = Some 0x73%N
       /\ ProfanityBuster.WORD_CHAR Sample.tables 0x73%N = true.
Proof.
  split; [run|]. eexists. eexists. split; [run|].
  split; [right; left; reflexivity|]. split; run.
Qed.

(** C4, as stated, fails: with the word ["ab"], ["ab b"] is masked to
    ["a* b"], in which the mask character and the blank are skipped as
    separators, so that a second pass masks ["a* b"] to ["a***"]. *)
Lemma sanitize_twice_differs :
  exists pb1 pb2,
    sanitize Sample.tables Sample.packs Sample.ab_detector (str "ab b")
    = Returns (pb1, str "a* b")
    /\ sanitize Sample.tables Sample.packs pb1 (str "a* b") = Returns (pb2, str "a***")
    /\ str "a***" <> str "a* b".
Proof.
  eexists. eexists. split; [run|]. split; [run|]. vm_compute. discriminate.
Qed.

(** C5, as stated, fails: ["hallo world"] is within distance 1 of the word
    ["hello"], which the fuzzy stage reports; once ["world"] is added the
    exact stage has a match and the fuzzy stage is not run any more: the
    span (0,5) is gone. *)
Lemma addWord_drops_a_fuzzy_match :
  exists pb pb1 r1 pb2 r2,
    detect Sample.tables Sample.packs Sample.hello_detector (str "hallo world")
    = Returns (pb1, r1)
    /\ addWord Sample.tables Sample.hello_detector (str "world") (Some (str "xx"))
       = Returns pb
    /\ detect Sample.tables Sample.packs pb (str "hallo world") = Returns (pb2, r2)
    /\ In (mkMatch (str "hello") 0 5 (str "xx")) (matches r1)
    /\ ~ exists m, In m (matches r2) /\ m_index m = 0 /\ m_length m = 5.
Proof.
  do 5 eexists. split; [run|]. split; [run|]. split; [run|].
  split; [left; reflexivity|].
  intros [m [Hm [Hi _]]]. vm_compute in Hm. destruct Hm as [<-|[]]. discriminate Hi.
Qed.

(** C6, as stated, fails: the invisible characters are replaced by blanks,
    not removed, so the match covers seven code units; no match of length 4
    is returned. *)
Lemma obfuscated_match_is_not_of_length_4 :
  exists pb r,
    detect Sample.tables Sample.packs Sample.default_detector Sample.obfuscated
    = Returns (pb, r)
    /\ ~ exists m, In m (matches r) /\ m_index m = 0 /\ m_length m = 4.
Proof.
  eexists. eexists. split; [run|].
  intros [m [Hm [_ Hl]]]. vm_compute in Hm.
  destruct Hm as [<-|[]]. discriminate Hl.
Qed.

(** C7, as stated, fails: ["bitch"] is found by the exact stage, after
    which the phrase stage is not run; no match starts at the token
    ["son"] (offset 10). *)
Lemma phrase_stage_is_preempted :
  exists pb r,
    detect Sample.tables Sample.packs Sample.phrase_detector Sample.phrase_text
    = Returns (pb, r)
    /\ matches r = [mkMatch (str "bitch") 25 5 (str "en")]
    /\ ~ exists m, In m (matches r) /\ m_index m = 10.
Proof.
  eexists. eexists. split; [run|]. split; [reflexivity|].
  intros [m [Hm Hi]]. simpl in Hm. destruct Hm as [<-|[]]. discriminate Hi.
Qed.

(** C7, second reading: without any word match the phrase stage runs, and
    the span it reports starts at the stop word ["a"] before ["son"]. *)
Lemma phrase_span_starts_at_a_stop_word :
  exists pb r,
    detect Sample.tables Sample.packs
           (addPhrase Sample.tables Sample.xx_detector (str "son of a bitch"))
           Sample.phrase_text
    = Returns (pb, r)
    /\ matches r = [mkMatch (str "a son of the a bitch") 8 22 (str "en")].
Proof. eexists. eexists. split; run. Qed.

(** C9, as stated, fails: a negative [levenshteinDistance] and a negative
    [phraseMaxSkips] are taken as they come. *)
Lemma negative_settings_are_accepted :
  (levenshteinDistance (detection (mergeConfig DEFAULT_CONFIG (Some Sample.negative_config))) < 0)%Z
  /\ phraseMaxSkips (detection (mergeConfig DEFAULT_CONFIG (Some Sample.negative_config)))
     = Some (-1)%Z
  /\ constructor Sample.tables Sample.packs (Some Sample.negative_config) <> Throws
  /\ exists pb, constructor Sample.tables Sample.packs (Some Sample.negative_config)
                = Returns pb.
Proof.
  split; [vm_compute; reflexivity|]. split; [run|].
  split; [vm_compute; discriminate|]. eexists. run.
Qed.

(** C10, as stated, fails: with [autoDetect] and no word list loaded, the
    call of [detect] loads the packs and leaves the instance changed. *)
Lemma detect_loads_the_packs :
  exists pb r,
    detect Sample.tables Sample.packs Sample.auto_detector (str "hello") = Returns (pb, r)
    /\ languageWordlists Sample.auto_detector = []
    /\ languageWordlists pb <> languageWordlists Sample.auto_detector.
Proof.
  eexists. eexists. split; [run|]. split; [run|]. vm_compute. discriminate.
Qed.

(** ** Outcomes *)

Lemma bind_Returns (A B : Type) (m : outcome A) (k : A -> outcome B) (b : B) :
  bind m k = Returns b -> exists a, m = Returns a /\ k a = Returns b.
Proof. destruct m as [a| |]; simpl; intros H; [eauto | discriminate | discriminate]. Qed.

Lemma foldM_app (A B : Type) (body : A -> B -> outcome A) (l1 l2 : list B) (acc : A) :
  foldM body (l1 ++ l2) acc = (acc1 <- foldM body l1 acc ;; foldM body l2 acc1).
Proof.
  revert acc. induction l1 as [|x l1 IH]; intros acc; simpl; [reflexivity|].
  destruct (body acc x); simpl; auto.
Qed.

(** A loop whose body returns and keeps an invariant returns. *)
Lemma foldM_returns (A B : Type) (I : A -> Prop) (body : A -> B -> outcome A)
      (l : list B) (acc : A) :
  I acc ->
  (forall a x, I a -> In x l -> exists a', body a x = Returns a' /\ I a') ->
  exists acc', foldM body l acc = Returns acc' /\ I acc'.
Proof.
  revert acc. induction l as [|x l IH]; intros acc HI Hbody; simpl; [eauto|].
  destruct (Hbody acc x HI (or_introl eq_refl)) as [a' [-> HI']]. simpl.
  apply IH; [exact HI'|]. intros a y Ha Hy. apply Hbody; [exact Ha | right; exact Hy].
Qed.

(** ** The inflection scan on an empty word *)

Section ScanFacts.
Variable U : Unicode.

Lemma starts_with_nil (s : jsstring) : starts_with [] s = true.
Proof. destruct s; reflexivity. Qed.

(** On the empty base, [exec] matches at [lastIndex] itself. *)
Lemma regex_exec_empty_base (suffixes : list jsstring) (rest : jsstring) (i : nat) :
  regex_exec [] suffixes rest i = Some (i, match_suffix suffixes rest).
Proof. destruct rest; reflexivity. Qed.

(** On the empty base the loop does not return, whatever the number of
    rounds it is given: the first empty match is found again for ever. *)
Lemma occurrences_loop_empty_base (fuel : nat) (suffixes : list jsstring) (whole : bool)
      (text : jsstring) (i : nat) (l : list nat) :
  occurrences_loop U fuel [] suffixes whole text i <> Returns l.
Proof.
  revert i l. induction fuel as [|fuel IH]; intros i l; simpl; [discriminate|].
  rewrite regex_exec_empty_base.
  destruct (match_suffix suffixes (skipn i text) =? 0).
  - destruct (whole && _); discriminate.
  - destruct (occurrences_loop U fuel [] suffixes whole text
                (i + match_suffix suffixes (skipn i text))) as [l'| |] eqn:E;
      simpl; try discriminate.
    exfalso. exact (IH _ _ E).
Qed.

End ScanFacts.

(** C8 (the code at the failing input).  [addWord('')] stores the empty
    word in the list of the fallback language; the word list has changed
    and the inflection scan of the next [detect] runs its pattern for the
    empty base, which matches the empty string at index 0 again and again.
    Without [wholeWordsOnly] every round pushes the index, and the call
    ends in the uncaught [RangeError] of [indices.push]: [detect] gives no
    result. *)
Theorem addWord_keeps_the_empty_word :
  normalizeWord Sample.tables Sample.default_detector [] = []
  /\ exists pb,
       addWord Sample.tables Sample.default_detector [] None = Returns pb
       /\ map_get str_eqb (str "en") (languageWordlists Sample.default_detector)
          = Some [str "shit"; str "bitch"; str "fuck"]
       /\ map_get str_eqb (str "en") (languageWordlists pb)
          = Some [str "shit"; str "bitch"; str "fuck"; []]
       /\ wholeWordsOnly (detection (config pb)) = false
       /\ detect Sample.tables Sample.packs pb (str "hello") = Throws.
Proof.
  split; [run|]. eexists. split; [run|]. split; [run|]. split; [run|]. split; run.
Qed.

(** ** [detect] and the instance *)

Section FrameFacts.
Variable U : Unicode.
Variable P : Languages.Packs.

Lemma someLoaded_filter (pb : ProfanityBuster.ProfanityBuster) :
  someLoaded pb = true ->
  (0 <? length (map fst (filter (fun e : jsstring * list jsstring => 0 <? length (snd e))
                                (languageWordlists pb)))) = true.
Proof.
  unfold someLoaded. generalize (languageWordlists pb) as l.
  induction l as [|e l IH]; simpl; [discriminate|].
  destruct (0 <? length (snd e)); simpl; auto.
Qed.

Lemma selectAutoDetectLanguages_frame (pb pb' : ProfanityBuster.ProfanityBuster)
      (text : jsstring) (codes : list jsstring) :
  someLoaded pb = true ->
  selectAutoDetectLanguages U P pb text = Returns (pb', codes) -> pb' = pb.
Proof.
  intros HL. unfold selectAutoDetectLanguages.
  rewrite (someLoaded_filter pb HL).
  destruct (0 <? length (filter _ _)); intros H; congruence.
Qed.

End FrameFacts.

(** The instance that [detect] hands back is the one that the selection of
    the languages has left. *)
Lemma detect_instance (U : Unicode) (P : Languages.Packs)
      (pb pb' : ProfanityBuster.ProfanityBuster) (text : jsstring) (r : DetectionResult) :
  detect U P pb text = Returns (pb', r) ->
  exists codes,
    (if autoDetect (languages (config pb))
     then selectAutoDetectLanguages U P pb
            (Normalization.normalizeForDetection U text (normalizationOptions pb))
     else Returns (pb, enabledCodes (languages (config pb))))
    = Returns (pb', codes).
Proof.
  intros H. unfold detect in H.
  apply bind_Returns in H. destruct H as [[pb1 codes] [Hsel H]].
  simpl in H.
  apply bind_Returns in H. destruct H as [f1 [_ H]].
  apply bind_Returns in H. destruct H as [f2 [_ H]].
  injection H as <- _. exists codes. exact Hsel.
Qed.

Lemma selection_frame (U : Unicode) (P : Languages.Packs)
      (pb pb' : ProfanityBuster.ProfanityBuster) (text : jsstring) (codes : list jsstring) :
  autoDetect (languages (config pb)) = false \/ someLoaded pb = true ->
  (if autoDetect (languages (config pb))
   then selectAutoDetectLanguages U P pb text
   else Returns (pb, enabledCodes (languages (config pb))))
  = Returns (pb', codes) ->
  pb' = pb.
Proof.
  intros Hcase H. destruct (autoDetect (languages (config pb))) eqn:Ea.
  - destruct Hcase as [Hc|Hc]; [discriminate|].
    eapply selectAutoDetectLanguages_frame; eauto.
  - congruence.
Qed.

(** C10 (amended).  [detect] is a function of the instance and the text,
    and it hands the instance back as it got it whenever [autoDetect] is
    off or some word list is loaded; the one other case is the one in which
    it loads the packs. *)
Theorem detect_leaves_instance_unchanged (U : Unicode) (P : Languages.Packs)
        (pb pb' : ProfanityBuster.ProfanityBuster) (text : jsstring) (r : DetectionResult) :
  autoDetect (languages (config pb)) = false \/ someLoaded pb = true ->
  detect U P pb text = Returns (pb', r) ->
  pb' = pb.
Proof.
  intros Hcase H. destruct (detect_instance U P pb pb' text r H) as [codes Hsel].
  exact (selection_frame U P pb pb' _ codes Hcase Hsel).
Qed.

Lemma detect_leaves_instance_unchanged_witness :
  autoDetect (languages (config Sample.default_detector)) = false
  /\ exists pb' r,
       detect Sample.tables Sample.packs Sample.default_detector (str "shit happens")
       = Returns (pb', r)
       /\ pb' = Sample.default_detector.
Proof.
  split; [vm_compute; reflexivity|].
  eexists. eexists. split; [vm_compute; reflexivity|].
  eapply (@detect_leaves_instance_unchanged Sample.tables Sample.packs
            Sample.default_detector _ (str "shit happens")).
  - left. vm_compute. reflexivity.
  - vm_compute. reflexivity.
Defined.

(** [sanitize] hands the instance back as [detect] does. *)
Lemma sanitize_leaves_instance_unchanged (U : Unicode) (P : Languages.Packs)
      (pb pb' : ProfanityBuster.ProfanityBuster) (text out : jsstring) :
  autoDetect (languages (config pb)) = false \/ someLoaded pb = true ->
  sanitize U P pb text = Returns (pb', out) ->
  pb' = pb.
Proof.
  intros Hcase H. unfold sanitize in H.
  apply bind_Returns in H. destruct H as [[pb1 d] [Hd H]]. simpl in H.
  destruct (detect_instance U P pb pb1 text d Hd) as [codes Hsel].
  apply (selection_frame U P pb pb1 _ codes Hcase) in Hsel. subst pb1.
  destruct (negb (hasProfanity d) || negb (enabled (masking (config pb))));
    injection H as <- _; reflexivity.
Qed.

(** ** Maps *)

Lemma map_get_set_same (V : Type) (k : jsstring) (v : V) (m : list (jsstring * V)) :
  map_get str_eqb k (map_set str_eqb k v m) = Some v.
Proof.
  induction m as [|[k' v'] m IH]; simpl.
  - now rewrite str_eqb_refl.
  - destruct (str_eqb k k') eqn:E; simpl; rewrite E; auto.
Qed.

Lemma map_get_set_other (V : Type) (k k' : jsstring) (v : V) (m : list (jsstring * V)) :
  k <> k' -> map_get str_eqb k' (map_set str_eqb k v m) = map_get str_eqb k' m.
Proof.
  intros Hne. induction m as [|[k0 v0] m IH]; simpl.
  - assert (E : str_eqb k' k = false) by (apply str_eqb_neq; congruence). now rewrite E.
  - destruct (str_eqb k k0) eqn:E; simpl.
    + apply str_eqb_eq in E. subst k0.
      assert (E' : str_eqb k' k = false) by (apply str_eqb_neq; congruence). now rewrite E'.
    + destruct (str_eqb k' k0); auto.
Qed.

(** ** The trie holds the words that were inserted *)

Lemma accepts_cons (node : Trie.TrieNode) (k : jsstring) (ks : list jsstring) :
  accepts node (k :: ks)
  = match map_get str_eqb k (Trie.children node) with
    | Some next => accepts next ks
    | None => false
    end.
Proof. unfold accepts. simpl. destruct (map_get str_eqb k (Trie.children node)); reflexivity. Qed.

Lemma accepts_empty (ks : list jsstring) : accepts Trie.empty ks = false.
Proof. destruct ks; reflexivity. Qed.

Lemma accepts_insert_from (chs : list jsstring) :
  forall (node : Trie.TrieNode) (ks : list jsstring),
    accepts (Trie.insert_from node chs) ks = true <-> accepts node ks = true \/ ks = chs.
Proof.
  induction chs as [|ch rest IH]; intros node ks.
  - simpl. destruct ks as [|k ks].
    + unfold accepts. simpl. intuition.
    + rewrite !accepts_cons. simpl. intuition discriminate.
  - simpl. destruct ks as [|k ks].
    + unfold accepts. simpl. intuition discriminate.
    + rewrite !accepts_cons. simpl.
      destruct (list_eq_dec N.eq_dec ch k) as [->|Hne].
      * rewrite map_get_set_same. rewrite IH.
        destruct (map_get str_eqb k (Trie.children node)) as [next|].
        -- split; intros [H|H]; auto; [subst; auto | injection H as ->; auto].
        -- rewrite accepts_empty.
           split; intros [H|H]; try discriminate; [subst; auto | injection H as ->; auto].
      * rewrite map_get_set_other by exact Hne.
        split; [auto | intros [H|H]; [exact H | congruence]].
Qed.

Lemma codePoints_nil_inv (w : jsstring) : codePoints w = [] -> w = [].
Proof.
  destruct w as [|c [|d r]]; simpl; try discriminate; auto.
  destruct (is_high_surrogate c && is_low_surrogate d); discriminate.
Qed.

Lemma accepts_insert (w : jsstring) (t : Trie.TrieNode) (ks : list jsstring) :
  accepts (Trie.insert w t) ks = true <-> accepts t ks = true \/ (w <> [] /\ codePoints w = ks).
Proof.
  unfold Trie.insert. destruct w as [|c w'].
  - intuition.
  - rewrite accepts_insert_from. split.
    + intros [H|H]; [auto | right; split; [discriminate | auto]].
    + intros [H|[_ H]]; auto.
Qed.

Lemma accepts_insertAll (ws : list jsstring) :
  forall (t : Trie.TrieNode) (ks : list jsstring),
    accepts (Trie.insertAll ws t) ks = true <-> accepts t ks = true \/ pattern_of ws ks.
Proof.
  unfold Trie.insertAll, pattern_of.
  induction ws as [|w ws IH]; intros t ks; simpl.
  - split; [auto | intros [H|[w [[] _]]]; exact H].
  - rewrite IH, accepts_insert. split.
    + intros [[H|[Hw Hk]]|[w' [Hin H]]]; eauto 6.
    + intros [H|[w' [[->|Hin] [Hw Hk]]]]; eauto 6.
Qed.

(** ** What [walk] returns *)

Section WalkFacts.
Variable U : Unicode.
Variable whole : bool.
Variable seps : list jsstring.

Lemma ignoreSeparators_has (c : N) :
  Trie.ignoreSeparators seps && has (unit_str c) seps = ignored seps c.
Proof.
  unfold Trie.ignoreSeparators, ignored. destruct seps; simpl; [reflexivity|].
  reflexivity.
Qed.

(** The update of [lastTerminalEndIndex] in one round. *)
Lemma walk_cons (node : Trie.TrieNode) (ch : N) (rest : jsstring) (j : nat)
      (last : option nat) :
  Trie.walk U whole seps node (ch :: rest) j last
  = if ignored seps ch then Trie.walk U whole seps node rest (S j) last
    else match map_get str_eqb (unit_str ch) (Trie.children node) with
         | None => last
         | Some next =>
             Trie.walk U whole seps next rest (S j)
               (if Trie.isTerminal next && boundary_after U whole rest
                then Some j else last)
         end.
Proof.
  simpl. rewrite ignoreSeparators_has.
  destruct (ignored seps ch); [reflexivity|].
  destruct (map_get str_eqb (unit_str ch) (Trie.children node)) as [next|]; [|reflexivity].
  f_equal. unfold boundary_after, Trie.WORD_CHAR.
  destruct (Trie.isTerminal next); simpl; [|reflexivity].
  destruct whole; [|reflexivity].
  destruct rest as [|after r]; [reflexivity|].
  destruct (isWordCodePoint U after); reflexivity.
Qed.

Lemma walk_keeps_last (rest : jsstring) :
  forall node j l, exists e, Trie.walk U whole seps node rest j (Some l) = Some e.
Proof.
  induction rest as [|ch rest IH]; intros node j l.
  - simpl. eauto.
  - rewrite walk_cons. destruct (ignored seps ch); [apply IH|].
    destruct (map_get str_eqb (unit_str ch) (Trie.children node)) as [next|]; [|eauto].
    destruct (Trie.isTerminal next && boundary_after U whole rest); apply IH.
Qed.

Lemma walk_sound (rest : jsstring) :
  forall node j last e,
    Trie.walk U whole seps node rest j last = Some e ->
    last = Some e \/ exists k, e = j + k /\ hit U seps whole node rest k = true.
Proof.
  induction rest as [|ch rest IH]; intros node j last e H.
  - simpl in H. auto.
  - rewrite walk_cons in H. simpl.
    destruct (ignored seps ch).
    + apply IH in H. destruct H as [H|[k [-> Hk]]]; [auto|].
      right. exists (S k). split; [lia | exact Hk].
    + destruct (map_get str_eqb (unit_str ch) (Trie.children node)) as [next|]; [|auto].
      apply IH in H. destruct H as [H|[k [-> Hk]]].
      * destruct (Trie.isTerminal next && boundary_after U whole rest) eqn:E; [|auto].
        injection H as <-. right. exists 0. split; [lia | reflexivity].
      * right. exists (S k). split; [lia | exact Hk].
Qed.

Lemma walk_complete (rest : jsstring) :
  forall node j last k,
    hit U seps whole node rest k = true ->
    exists k', k <= k' /\ hit U seps whole node rest k' = true
               /\ Trie.walk U whole seps node rest j last = Some (j + k').
Proof.
  induction rest as [|ch rest IH]; intros node j last k Hk.
  - discriminate.
  - rewrite walk_cons. simpl in Hk |- *.
    destruct (ignored seps ch).
    + destruct k as [|k]; [discriminate|].
      destruct (IH node (S j) last k Hk) as [k' [Hle [Hh Hw]]].
      exists (S k'). split; [lia | split; [exact Hh | rewrite Hw; f_equal; lia]].
    + destruct (map_get str_eqb (unit_str ch) (Trie.children node)) as [next|];
        [|discriminate].
      destruct k as [|k].
      * rewrite Hk.
        destruct (walk_keeps_last rest next (S j) j) as [e He].
        pose proof He as He2. apply walk_sound in He2. destruct He2 as [H|[k' [-> Hk']]].
        -- injection H as <-. exists 0. split; [lia | split; [reflexivity | rewrite He; f_equal; lia]].
        -- exists (S k'). split; [lia | split; [exact Hk' | rewrite He; f_equal; lia]].
      * destruct (IH next (S j)
                     (if Trie.isTerminal next && boundary_after U whole rest
                      then Some j else last) k Hk) as [k' [Hle [Hh Hw]]].
        exists (S k'). split; [lia | split; [exact Hh | rewrite Hw; f_equal; lia]].
Qed.

End WalkFacts.

(** ** Offsets and indices *)

Lemma skipn_nth_error (A : Type) (l : list A) (n : nat) :
  skipn n l = match nth_error l n with
              | Some c => c :: skipn (S n) l
              | None => []
              end.
Proof.
  revert n. induction l as [|x l IH]; intros [|n]; simpl; try reflexivity.
  rewrite IH. destruct (nth_error l n); reflexivity.
Qed.

Lemma nth_skipn (A : Type) (l : list A) (s k : nat) (d : A) :
  nth k (skipn s l) d = nth (s + k) l d.
Proof.
  revert l. induction s as [|s IH]; intros l; simpl; [reflexivity|].
  destruct l as [|x l]; simpl; [destruct k; reflexivity | apply IH].
Qed.

Lemma nth_error_nth_in (A : Type) (l : list A) (n : nat) (d : A) :
  n < length l -> nth_error l n = Some (nth n l d).
Proof.
  revert n. induction l as [|x l IH]; intros [|n] H; simpl in *; try lia; auto.
  apply IH. lia.
Qed.

Section HitFacts.
Variable U : Unicode.
Variable whole : bool.
Variable seps : list jsstring.

Lemma kept_cons_ignored (c : N) (s : jsstring) :
  ignored seps c = true -> kept seps (c :: s) = kept seps s.
Proof. intros H. unfold kept. simpl. now rewrite H. Qed.

Lemma kept_cons_kept (c : N) (s : jsstring) :
  ignored seps c = false -> kept seps (c :: s) = c :: kept seps s.
Proof. intros H. unfold kept. simpl. now rewrite H. Qed.

(** [hit] in terms of the text read up to the offset. *)
Lemma hit_spec (rest : jsstring) :
  forall (node : Trie.TrieNode) (k : nat),
    hit U seps whole node rest k = true
    <-> k < length rest
        /\ ignored seps (nth k rest 0%N) = false
        /\ accepts node (unit_keys (kept seps (firstn (S k) rest))) = true
        /\ boundary_after U whole (skipn (S k) rest) = true.
Proof.
  induction rest as [|ch rest IH]; intros node k.
  - simpl. split; [discriminate | intros [H _]; lia].
  - cbn [hit]. destruct (ignored seps ch) eqn:Ei.
    + destruct k as [|k].
      * split; [discriminate|]. intros [_ [H _]]. simpl in H. congruence.
      * rewrite IH. cbn [firstn]. rewrite kept_cons_ignored by exact Ei. simpl.
        split; intros [H1 H2]; (split; [lia | exact H2]).
    + cbn [firstn]. rewrite kept_cons_kept by exact Ei.
      unfold unit_keys. cbn [map]. rewrite accepts_cons.
      destruct (map_get str_eqb (unit_str ch) (Trie.children node)) as [next|].
      * destruct k as [|k].
        -- simpl. unfold accepts. simpl. rewrite andb_true_iff.
           split; [intros [H1 H2]; repeat split; auto; lia | intros [_ [_ [H1 H2]]]; auto].
        -- rewrite IH. simpl.
           split; intros [H1 H2]; (split; [lia | exact H2]).
      * split; [discriminate | intros [_ [_ [H _]]]; discriminate].
Qed.

Lemma boundary_after_right_ok (text : jsstring) (e : nat) :
  boundary_after U whole (skipn (S e) text) = true
  <-> (whole = true -> right_ok U text e = true).
Proof.
  unfold boundary_after, right_ok, AhoCorasick.WORD_CHAR_at, AhoCorasick.WORD_CHAR, at_index.
  replace (e + 1) with (S e) by lia.
  rewrite (skipn_nth_error _ text (S e)).
  destruct whole; [|split; [intros _ H; discriminate H | reflexivity]].
  destruct (nth_error text (S e)) as [c|] eqn:E.
  - assert (Hlt : S e < length text) by (apply nth_error_Some; congruence).
    assert (El : (length text <=? S e) = false) by (apply Nat.leb_gt; exact Hlt).
    rewrite El. simpl. split; [auto | intros H; apply H; reflexivity].
  - apply nth_error_None in E.
    assert (El : (length text <=? S e) = true) by (apply Nat.leb_le; exact E).
    rewrite El. simpl. split; auto.
Qed.

End HitFacts.

(** ** What the trie reports *)

Section TrieSpans.
Variable U : Unicode.
Variable whole : bool.
Variable seps : list jsstring.
Variable words : list jsstring.
Variable root : Trie.TrieNode.
Hypothesis root_words : forall ks, accepts root ks = true <-> pattern_of words ks.

Lemma hit_occurs (text : jsstring) (s k : nat) :
  s < length text ->
  ignored seps (nth s text 0%N) = false ->
  (whole = true -> left_ok U text s = true) ->
  hit U seps whole root (skipn s text) k = true <-> occurs U seps whole words text s (s + k).
Proof.
  intros Hs Hi Hl. rewrite hit_spec. unfold occurs.
  rewrite length_skipn, nth_skipn, skipn_skipn, root_words.
  replace (S k + s) with (S (s + k)) by lia.
  rewrite boundary_after_right_ok.
  unfold slice. replace (S (s + k) - s) with (S k) by lia.
  split.
  - intros [H1 [H2 [H3 H4]]]. repeat split; auto; lia.
  - intros [H1 [H2 [H3 [H4 [H5 H6]]]]]. repeat split; auto; [lia | apply H6; auto].
Qed.

Lemma prev_of_snoc (pre : jsstring) (c : N) : prev_of (pre ++ [c]) = Some c.
Proof.
  unfold prev_of. rewrite length_app. simpl.
  replace (length pre + 1 - 1) with (length pre) by lia.
  rewrite nth_error_app2 by lia. now rewrite Nat.sub_diag.
Qed.

Lemma start_test (pre rest : jsstring) :
  whole && match prev_of pre with Some p => Trie.WORD_CHAR U p | None => false end
  = whole && negb (left_ok U (pre ++ rest) (length pre)).
Proof.
  destruct whole; [|reflexivity]. simpl.
  unfold left_ok, prev_of, AhoCorasick.WORD_CHAR_at, at_index.
  destruct pre as [|p pre]; [reflexivity|].
  cbn [length Nat.eqb orb]. rewrite negb_involutive.
  rewrite nth_error_app1 by (simpl; lia).
  destruct (nth_error (p :: pre) (S (length pre) - 1)) eqn:E; [reflexivity|].
  apply nth_error_None in E. simpl in E. lia.
Qed.

Lemma scan_spec (sp : Span) (rest : jsstring) :
  forall pre,
    In sp (Trie.scan U root whole seps (prev_of pre) rest (length pre))
    <-> exists s e,
        length pre <= s /\ s < length (pre ++ rest)
        /\ sp = mkSpan s (e - s + 1)
        /\ ignored seps (nth s (pre ++ rest) 0%N) = false
        /\ (whole = true -> left_ok U (pre ++ rest) s = true)
        /\ Trie.walk U whole seps root (skipn s (pre ++ rest)) s None = Some e.
Proof.
  induction rest as [|c rest IH]; intros pre.
  - simpl. split; [intros []|]. intros [s [e [H1 [H2 _]]]].
    rewrite app_nil_r in H2. lia.
  - cbn [Trie.scan].
    assert (Hnth : nth (length pre) (pre ++ c :: rest) 0%N = c)
      by (rewrite app_nth2 by lia; now rewrite Nat.sub_diag).
    assert (Hskip : skipn (length pre) (pre ++ c :: rest) = c :: rest)
      by (rewrite skipn_app, skipn_all, Nat.sub_diag; reflexivity).
    assert (Hlen : length (pre ++ c :: rest) = S (length pre + length rest))
      by (rewrite length_app; simpl; lia).
    specialize (IH (pre ++ [c])).
    rewrite prev_of_snoc in IH.
    replace (length (pre ++ [c])) with (S (length pre)) in IH
      by (rewrite length_app; simpl; lia).
    rewrite <- app_assoc in IH. cbn [app] in IH.
    assert (Later :
      (exists s e, S (length pre) <= s /\ s < length (pre ++ c :: rest)
         /\ sp = mkSpan s (e - s + 1)
         /\ ignored seps (nth s (pre ++ c :: rest) 0%N) = false
         /\ (whole = true -> left_ok U (pre ++ c :: rest) s = true)
         /\ Trie.walk U whole seps root (skipn s (pre ++ c :: rest)) s None = Some e)
      -> exists s e, length pre <= s /\ s < length (pre ++ c :: rest)
         /\ sp = mkSpan s (e - s + 1)
         /\ ignored seps (nth s (pre ++ c :: rest) 0%N) = false
         /\ (whole = true -> left_ok U (pre ++ c :: rest) s = true)
         /\ Trie.walk U whole seps root (skipn s (pre ++ c :: rest)) s None = Some e).
    { intros [s [e [H1 H2]]]. exists s, e. split; [lia | exact H2]. }
    rewrite ignoreSeparators_has, (start_test pre (c :: rest)).
    destruct (ignored seps c) eqn:Ei.
    { rewrite IH. split; [exact Later|].
      intros [s [e [H1 [H2 [H3 [H4 [H5 H6]]]]]]].
      destruct (Nat.eq_dec s (length pre)) as [->|Hne]; [rewrite Hnth in H4; congruence|].
      exists s, e. repeat split; auto; lia. }
    destruct (whole && negb (left_ok U (pre ++ c :: rest) (length pre))) eqn:El.
    { rewrite IH. split; [exact Later|].
      intros [s [e [H1 [H2 [H3 [H4 [H5 H6]]]]]]].
      destruct (Nat.eq_dec s (length pre)) as [->|Hne].
      - apply andb_true_iff in El. destruct El as [Ew El]. rewrite (H5 Ew) in El. discriminate.
      - exists s, e. repeat split; auto; lia. }
    assert (Hleft : whole = true -> left_ok U (pre ++ c :: rest) (length pre) = true).
    { intros Ew. rewrite Ew in El. simpl in El. now apply negb_false_iff in El. }
    destruct (Trie.walk U whole seps root (c :: rest) (length pre) None) as [e0|] eqn:Ew.
    + cbn [In]. rewrite IH. split.
      * intros [<-|H]; [|exact (Later H)].
        exists (length pre), e0. rewrite Hnth, Hskip.
        repeat split; auto; lia.
      * intros [s [e [H1 [H2 [H3 [H4 [H5 H6]]]]]]].
        destruct (Nat.eq_dec s (length pre)) as [->|Hne].
        -- left. rewrite Hskip in H6. rewrite Ew in H6. injection H6 as ->. now subst sp.
        -- right. exists s, e. repeat split; auto; lia.
    + rewrite IH. split; [exact Later|].
      intros [s [e [H1 [H2 [H3 [H4 [H5 H6]]]]]]].
      destruct (Nat.eq_dec s (length pre)) as [->|Hne].
      * rewrite Hskip in H6. congruence.
      * exists s, e. repeat split; auto; lia.
Qed.

(** The trie reports, for every start index with an occurrence, the
    longest occurrence from that index, and nothing else. *)
Lemma trie_findAllMatches_spec (text : jsstring) (sp : Span) :
  In sp (Trie.findAllMatches U root whole seps text)
  <-> exists s e, sp = mkSpan s (e - s + 1)
                  /\ occurs U seps whole words text s e
                  /\ forall e', occurs U seps whole words text s e' -> e' <= e.
Proof.
  unfold Trie.findAllMatches.
  change (Trie.scan U root whole seps None text 0)
    with (Trie.scan U root whole seps (prev_of []) text (length (@nil N))).
  rewrite scan_spec. cbn [app length].
  split.
  - intros [s [e [_ [Hs [-> [Hi [Hl Hw]]]]]]].
    pose proof Hw as Hw2. apply walk_sound in Hw2. destruct Hw2 as [H|[k [-> Hk]]]; [discriminate|].
    exists s, (s + k). split; [reflexivity|]. split.
    + apply hit_occurs; auto.
    + intros e' He'.
      assert (Hse : s <= e') by (destruct He' as [H _]; exact H).
      replace e' with (s + (e' - s)) in He' by lia.
      apply hit_occurs in He'; auto.
      destruct (walk_complete U whole seps _ _ s None _ He') as [k' [Hle [_ Hw']]].
      rewrite Hw in Hw'. injection Hw' as Hw'. lia.
  - intros [s [e [-> [Ho Hmax]]]].
    assert (Hs : s <= e /\ e < length text /\ ignored seps (nth s text 0%N) = false
                 /\ (whole = true -> left_ok U text s = true)).
    { destruct Ho as [H1 [H2 [H3 [_ [_ H6]]]]]. repeat split; auto. intros Hw. now apply H6. }
    destruct Hs as [Hse [He [Hi Hl]]].
    replace e with (s + (e - s)) in Ho by lia.
    apply hit_occurs in Ho; auto; [|lia].
    destruct (walk_complete U whole seps _ _ s None _ Ho) as [k' [Hle [Hh Hw]]].
    apply hit_occurs in Hh; auto; [|lia].
    assert (s + k' <= e) by (apply Hmax; exact Hh).
    assert (E : s + k' = e) by lia. rewrite E in Hw.
    exists s, e. repeat split; auto; lia.
Qed.

End TrieSpans.

(** ** Paths of the automaton *)

Lemma goto_app (nodes : AhoCorasick.AhoCorasick) (p q : list jsstring) (i : nat) :
  goto nodes i (p ++ q)
  = match goto nodes i p with
    | Some j => goto nodes j q
    | None => None
    end.
Proof.
  revert i. induction p as [|k p IH]; intros i; simpl; [reflexivity|].
  destruct (step nodes i k); [apply IH | reflexivity].
Qed.

Lemma goto_snoc (nodes : AhoCorasick.AhoCorasick) (p : list jsstring) (k : jsstring)
      (i j : nat) :
  goto nodes i (p ++ [k]) = Some j
  <-> exists m, goto nodes i p = Some m /\ step nodes m k = Some j.
Proof.
  rewrite goto_app. destruct (goto nodes i p) as [m|]; simpl.
  - destruct (step nodes m k) as [j'|] eqn:E.
    + split; [intros H; exists m; split; [reflexivity | congruence]|].
      intros [m' [Hm Hs]]. injection Hm as <-. congruence.
    + split; [discriminate|]. intros [m' [Hm Hs]]. injection Hm as <-. congruence.
  - split; [discriminate | intros [m [Hm _]]; discriminate].
Qed.

Section PathFacts.
Variable nodes : AhoCorasick.AhoCorasick.
Variable paths : list (list jsstring).
Hypothesis tree : paths_of nodes paths.

Lemma paths_root : 0 < length nodes /\ nth 0 paths [] = [].
Proof.
  destruct tree as [_ [H _]]. apply (H [] 0). reflexivity.
Qed.

Lemma goto_path (j : nat) : j < length nodes -> goto nodes 0 (nth j paths []) = Some j.
Proof. intros Hj. destruct tree as [_ [H _]]. apply H. auto. Qed.

Lemma path_goto (ks : list jsstring) (j : nat) :
  goto nodes 0 ks = Some j -> j < length nodes /\ nth j paths [] = ks.
Proof. destruct tree as [_ [H _]]. apply H. Qed.

Lemma path_in (j : nat) : j < length nodes -> In (nth j paths []) paths.
Proof.
  intros Hj. apply nth_In. destruct tree as [E _]. lia.
Qed.

Lemma in_path (ks : list jsstring) :
  In ks paths -> exists j, j < length nodes /\ nth j paths [] = ks.
Proof.
  intros H. destruct (In_nth _ _ [] H) as [j [Hj E]].
  exists j. destruct tree as [El _]. split; [lia | exact E].
Qed.

Lemma path_inj (i j : nat) :
  i < length nodes -> j < length nodes -> nth i paths [] = nth j paths [] -> i = j.
Proof.
  intros Hi Hj E. pose proof (goto_path i Hi) as Gi. pose proof (goto_path j Hj) as Gj.
  rewrite E in Gi. congruence.
Qed.

(** A transition leads to the node whose path is one key longer. *)
Lemma step_path (i j : nat) (k : jsstring) :
  i < length nodes -> step nodes i k = Some j ->
  j < length nodes /\ nth j paths [] = nth i paths [] ++ [k].
Proof.
  intros Hi Hs. apply path_goto. apply goto_snoc.
  exists i. split; [apply goto_path; exact Hi | exact Hs].
Qed.

Lemma step_in_range (i j : nat) (k : jsstring) :
  step nodes i k = Some j -> i < length nodes.
Proof.
  unfold step, children_of, at_index. intros H.
  destruct (nth_error nodes i) eqn:E; [|discriminate].
  apply nth_error_Some. congruence.
Qed.

Lemma path_step (i : nat) (k : jsstring) :
  i < length nodes -> In (nth i paths [] ++ [k]) paths ->
  exists j, step nodes i k = Some j.
Proof.
  intros Hi Hin. destruct (in_path _ Hin) as [j [Hj E]].
  pose proof (goto_path j Hj) as G. rewrite E in G.
  apply goto_snoc in G. destruct G as [m [Gm Hs]].
  apply path_goto in Gm. destruct Gm as [Hm Em].
  assert (m = i) by (apply path_inj; auto). subst m. eauto.
Qed.

(** The paths are closed under prefixes. *)
Lemma path_prefix (p q : list jsstring) : In (p ++ q) paths -> In p paths.
Proof.
  intros Hin. destruct (in_path _ Hin) as [j [Hj E]].
  pose proof (goto_path j Hj) as G. rewrite E, goto_app in G.
  destruct (goto nodes 0 p) as [m|] eqn:Gm; [|discriminate].
  apply path_goto in Gm. destruct Gm as [Hm <-]. apply path_in. exact Hm.
Qed.

(** A node that is not the root has a parent. *)
Lemma path_parent (j : nat) :
  0 < j -> j < length nodes ->
  exists i k, i < length nodes /\ step nodes i k = Some j
              /\ nth j paths [] = nth i paths [] ++ [k].
Proof.
  intros H0 Hj. pose proof (goto_path j Hj) as G.
  destruct (nth j paths []) as [|a l] eqn:E using rev_ind.
  - simpl in G. injection G as G. lia.
  - clear IHl. apply goto_snoc in G. destruct G as [m [Gm Hs]].
    apply path_goto in Gm. destruct Gm as [Hm Em].
    exists m, a. rewrite Em. auto.
Qed.

Lemma entry_step (i : nat) (k : jsstring) (x : nat) :
  In (k, x) (children_of nodes i) -> step nodes i k = Some x.
Proof.
  destruct tree as [_ [_ Hnd]]. specialize (Hnd i). unfold step.
  induction (children_of nodes i) as [|[k' x'] l IH]; simpl; intros Hin; [contradiction|].
  simpl in Hnd. inversion Hnd as [|? ? Hnotin Hnd']; subst.
  destruct Hin as [Heq|Hin].
  - injection Heq as -> ->. now rewrite str_eqb_refl.
  - destruct (str_eqb k k') eqn:E.
    + apply str_eqb_eq in E. subst k'. exfalso. apply Hnotin.
      apply (in_map fst) in Hin. exact Hin.
    + apply IH; auto.
Qed.

End PathFacts.

(** ** Arrays *)

Lemma length_set_index (A : Type) (a : list A) (i : nat) (v : A) :
  length (set_index a i v) = length a.
Proof.
  revert i. induction a as [|x a IH]; intros [|i]; simpl; auto.
Qed.

Lemma at_index_set_same (A : Type) (a : list A) (i : nat) (v : A) :
  i < length a -> at_index (set_index a i v) i = Some v.
Proof.
  unfold at_index. revert i. induction a as [|x a IH]; intros [|i] H; simpl in *; try lia; auto.
  apply IH. lia.
Qed.

Lemma at_index_set_other (A : Type) (a : list A) (i j : nat) (v : A) :
  i <> j -> at_index (set_index a i v) j = at_index a j.
Proof.
  unfold at_index. revert i j.
  induction a as [|x a IH]; intros [|i] [|j] H; simpl; auto; try lia.
Qed.

Lemma at_index_app_old (A : Type) (a b : list A) (j : nat) :
  j < length a -> at_index (a ++ b) j = at_index a j.
Proof. intros H. unfold at_index. apply nth_error_app1. exact H. Qed.

Lemma at_index_app_new (A : Type) (a : list A) (x : A) :
  at_index (a ++ [x]) (length a) = Some x.
Proof. unfold at_index. rewrite nth_error_app2 by lia. now rewrite Nat.sub_diag. Qed.

Lemma at_index_in_range (A : Type) (a : list A) (j : nat) :
  j < length a -> exists x, at_index a j = Some x.
Proof.
  intros H. unfold at_index. destruct (nth_error a j) eqn:E; [eauto|].
  apply nth_error_None in E. lia.
Qed.

Lemma at_index_out_of_range (A : Type) (a : list A) (j : nat) :
  length a <= j -> at_index a j = None.
Proof. intros H. apply nth_error_None. exact H. Qed.

Lemma node_in_range (nodes : AhoCorasick.AhoCorasick) (j : nat) :
  j < length nodes -> exists n, at_index nodes j = Some n /\ AhoCorasick.node nodes j = Returns n.
Proof.
  intros H. destruct (at_index_in_range _ nodes j H) as [n E].
  exists n. unfold AhoCorasick.node. now rewrite E.
Qed.

Lemma map_get_none_notin (V : Type) (k : jsstring) (m : list (jsstring * V)) :
  map_get str_eqb k m = None -> ~ In k (map fst m).
Proof.
  induction m as [|[k' v] m IH]; simpl; [auto|].
  destruct (str_eqb k k') eqn:E; [discriminate|].
  intros H [Heq|Hin]; [|exact (IH H Hin)].
  apply str_eqb_neq in E. congruence.
Qed.

Lemma map_set_fresh (V : Type) (k : jsstring) (v : V) (m : list (jsstring * V)) :
  map_get str_eqb k m = None -> map_set str_eqb k v m = m ++ [(k, v)].
Proof.
  induction m as [|[k' v'] m IH]; simpl; [reflexivity|].
  destruct (str_eqb k k'); [discriminate|]. intros H. now rewrite IH.
Qed.

Lemma map_get_app_fresh (V : Type) (k q : jsstring) (v : V) (m : list (jsstring * V)) :
  map_get str_eqb k m = None ->
  map_get str_eqb q (m ++ [(k, v)])
  = if str_eqb q k then Some v else map_get str_eqb q m.
Proof.
  induction m as [|[k' v'] m IH]; simpl; [reflexivity|].
  destruct (str_eqb k k') eqn:E; [discriminate|]. intros H.
  destruct (str_eqb q k') eqn:E'.
  - apply str_eqb_eq in E'. subst k'.
    rewrite str_eqb_sym in E. now rewrite E.
  - now apply IH.
Qed.

(** ** One new node *)

Section NewNode.
Variable nodes : AhoCorasick.AhoCorasick.
Variable paths : list (list jsstring).
Variable i : nat.
Variable k : jsstring.
Variable n : AhoCorasick.AhoNode.
Hypothesis tree : paths_of nodes paths.
Hypothesis i_node : at_index nodes i = Some n.
Hypothesis k_fresh : step nodes i k = None.

Let nodes' : AhoCorasick.AhoCorasick :=
  set_index nodes i
    (AhoCorasick.set_children n
       (map_set str_eqb k (length nodes) (AhoCorasick.children n)))
  ++ [AhoCorasick.empty].

Let paths' : list (list jsstring) := paths ++ [nth i paths [] ++ [k]].

Lemma i_in_range : i < length nodes.
Proof. apply nth_error_Some. unfold at_index in i_node. congruence. Qed.

Lemma new_length : length nodes' = S (length nodes).
Proof. unfold nodes'. rewrite length_app, length_set_index. simpl. lia. Qed.

Lemma new_at_index_old (j : nat) :
  j < length nodes -> j <> i -> at_index nodes' j = at_index nodes j.
Proof.
  intros Hj Hne. unfold nodes'.
  rewrite at_index_app_old by (rewrite length_set_index; exact Hj).
  apply at_index_set_other. congruence.
Qed.

Lemma new_at_index_i :
  at_index nodes' i
  = Some (AhoCorasick.set_children n
            (map_set str_eqb k (length nodes) (AhoCorasick.children n))).
Proof.
  unfold nodes'.
  rewrite at_index_app_old by (rewrite length_set_index; exact i_in_range).
  apply at_index_set_same. exact i_in_range.
Qed.

Lemma new_at_index_new : at_index nodes' (length nodes) = Some AhoCorasick.empty.
Proof.
  unfold nodes'.
  replace (length nodes) with (length (set_index nodes i
    (AhoCorasick.set_children n (map_set str_eqb k (length nodes) (AhoCorasick.children n)))))
    at 2 by apply length_set_index.
  apply at_index_app_new.
Qed.

Lemma children_n : children_of nodes i = AhoCorasick.children n.
Proof. unfold children_of. now rewrite i_node. Qed.

Lemma new_step (j : nat) (q : jsstring) :
  step nodes' j q
  = if (j =? i) && str_eqb q k then Some (length nodes) else step nodes j q.
Proof.
  unfold step at 1. unfold children_of.
  destruct (Nat.eq_dec j i) as [->|Hne].
  - rewrite new_at_index_i, Nat.eqb_refl. simpl.
    assert (Hf : map_get str_eqb k (AhoCorasick.children n) = None)
      by (rewrite <- children_n; exact k_fresh).
    rewrite map_set_fresh by exact Hf.
    rewrite map_get_app_fresh by exact Hf.
    unfold step. rewrite children_n. reflexivity.
  - assert (Ej : (j =? i) = false) by (apply Nat.eqb_neq; exact Hne).
    rewrite Ej. simpl.
    destruct (Nat.lt_ge_cases j (length nodes)) as [Hj|Hj].
    + rewrite new_at_index_old by auto. reflexivity.
    + unfold step, children_of.
      rewrite (at_index_out_of_range _ nodes j Hj).
      destruct (Nat.eq_dec j (length nodes)) as [->|Hne2].
      * now rewrite new_at_index_new.
      * rewrite at_index_out_of_range; [reflexivity|]. rewrite new_length. lia.
Qed.

Lemma new_paths_old (j : nat) : j < length nodes -> nth j paths' [] = nth j paths [].
Proof.
  intros Hj. unfold paths'. apply app_nth1. destruct tree as [E _]. lia.
Qed.

Lemma new_paths_new : nth (length nodes) paths' [] = nth i paths [] ++ [k].
Proof.
  unfold paths'. destruct tree as [E _]. rewrite <- E.
  rewrite app_nth2 by lia. now rewrite Nat.sub_diag.
Qed.

Lemma new_goto (ks : list jsstring) :
  forall j, goto nodes' 0 ks = Some j <-> j < length nodes' /\ nth j paths' [] = ks.
Proof.
  rewrite new_length.
  induction ks as [|q ks IH] using rev_ind; intros j.
  - simpl. split.
    + intros H. injection H as <-.
      destruct (paths_root nodes paths tree) as [H0 E0].
      split; [lia|]. rewrite new_paths_old by exact H0. exact E0.
    + intros [Hj E].
      destruct (Nat.eq_dec j (length nodes)) as [->|Hne].
      * rewrite new_paths_new in E. destruct (nth i paths []); discriminate.
      * rewrite new_paths_old in E by lia.
        assert (G : goto nodes 0 [] = Some j)
          by (destruct tree as [_ [H _]]; apply H; split; [lia | exact E]).
        simpl in G. exact G.
  - rewrite goto_snoc. split.
    + intros [m [Gm Hs]]. apply IH in Gm. destruct Gm as [Hm Em].
      rewrite new_step in Hs.
      destruct (Nat.eq_dec m (length nodes)) as [->|Hne].
      { assert (Ei : (length nodes =? i) = false)
          by (apply Nat.eqb_neq; pose proof i_in_range; lia).
        rewrite Ei in Hs. simpl in Hs.
        apply step_in_range in Hs. lia. }
      assert (Hm' : m < length nodes) by lia.
      rewrite new_paths_old in Em by exact Hm'.
      destruct ((m =? i) && str_eqb q k) eqn:E.
      * injection Hs as <-. apply andb_true_iff in E. destruct E as [E1 E2].
        apply Nat.eqb_eq in E1. apply str_eqb_eq in E2. subst m q.
        split; [lia|]. rewrite new_paths_new. now rewrite Em.
      * destruct (step_path nodes paths tree m j q Hm' Hs) as [Hj Ej].
        split; [lia|]. rewrite new_paths_old by exact Hj. now rewrite Ej, Em.
    + intros [Hj E].
      destruct (Nat.eq_dec j (length nodes)) as [->|Hne].
      * rewrite new_paths_new in E. apply app_inj_tail in E. destruct E as [<- <-].
        exists i. split.
        -- apply IH. split; [pose proof i_in_range; lia|].
           apply new_paths_old. exact i_in_range.
        -- rewrite new_step, Nat.eqb_refl, str_eqb_refl. reflexivity.
      * assert (Hj' : j < length nodes) by lia.
        rewrite new_paths_old in E by exact Hj'.
        pose proof (goto_path nodes paths tree j Hj') as G. rewrite E in G.
        apply goto_snoc in G. destruct G as [m [Gm Hs]].
        apply (path_goto nodes paths tree) in Gm. destruct Gm as [Hm Em].
        exists m. split.
        -- apply IH. split; [lia|]. rewrite new_paths_old by exact Hm. exact Em.
        -- rewrite new_step.
           destruct ((m =? i) && str_eqb q k) eqn:E'; [|exact Hs].
           apply andb_true_iff in E'. destruct E' as [E1 E2].
           apply Nat.eqb_eq in E1. apply str_eqb_eq in E2. subst m q. congruence.
Qed.

Lemma new_children_nodup (j : nat) : NoDup (map fst (children_of nodes' j)).
Proof.
  destruct tree as [_ [_ Hnd]].
  destruct (Nat.eq_dec j i) as [->|Hne].
  - unfold children_of. rewrite new_at_index_i. simpl.
    assert (Hf : map_get str_eqb k (AhoCorasick.children n) = None)
      by (rewrite <- children_n; exact k_fresh).
    rewrite map_set_fresh by exact Hf. rewrite map_app. simpl.
    specialize (Hnd i). rewrite children_n in Hnd.
    apply NoDup_app; [exact Hnd | repeat constructor; intros [] |].
    intros x Hx [<-|[]]. exact (map_get_none_notin _ _ _ Hf Hx).
  - destruct (Nat.lt_ge_cases j (length nodes)) as [Hj|Hj].
    + unfold children_of. rewrite new_at_index_old by auto. apply Hnd.
    + destruct (Nat.eq_dec j (length nodes)) as [->|Hne2].
      * unfold children_of. rewrite new_at_index_new. constructor.
      * unfold children_of. rewrite at_index_out_of_range; [constructor|].
        rewrite new_length. lia.
Qed.

Lemma new_paths_of : paths_of nodes' paths'.
Proof.
  split; [|split].
  - unfold paths'. rewrite length_app, new_length. destruct tree as [E _]. simpl. lia.
  - intros ks j. apply new_goto.
  - apply new_children_nodup.
Qed.

Lemma new_outputs (j : nat) :
  outputs_of nodes' j = if j <? length nodes then outputs_of nodes j else [].
Proof.
  unfold outputs_of.
  destruct (Nat.ltb_spec j (length nodes)) as [Hj|Hj].
  - destruct (Nat.eq_dec j i) as [->|Hne].
    + rewrite new_at_index_i, i_node. reflexivity.
    + now rewrite new_at_index_old.
  - destruct (Nat.eq_dec j (length nodes)) as [->|Hne2].
    + now rewrite new_at_index_new.
    + rewrite at_index_out_of_range; [reflexivity|]. rewrite new_length. lia.
Qed.

End NewNode.

(** ** [insert] and [insertAll] *)

Lemma goto_ext (nodes nodes' : AhoCorasick.AhoCorasick) :
  (forall j, children_of nodes' j = children_of nodes j) ->
  forall ks i, goto nodes' i ks = goto nodes i ks.
Proof.
  intros H ks. induction ks as [|k ks IH]; intros i; simpl; [reflexivity|].
  unfold step. rewrite H. destruct (map_get str_eqb k (children_of nodes i)); auto.
Qed.

Lemma paths_of_ext (nodes nodes' : AhoCorasick.AhoCorasick) (paths : list (list jsstring)) :
  length nodes' = length nodes ->
  (forall j, children_of nodes' j = children_of nodes j) ->
  paths_of nodes paths -> paths_of nodes' paths.
Proof.
  intros El Hc [E [Hg Hnd]]. split; [|split].
  - congruence.
  - intros ks j. rewrite (goto_ext nodes nodes' Hc), El. apply Hg.
  - intros j. rewrite Hc. apply Hnd.
Qed.

Lemma own_app (words : list jsstring) (w : jsstring) (ks : list jsstring) :
  own (words ++ [w]) ks
  = own words ks
    ++ (if negb (str_eqb w [])
           && if list_eq_dec (list_eq_dec N.eq_dec) (codePoints w) ks then true else false
        then [length w] else []).
Proof.
  unfold own. rewrite filter_app, map_app. simpl.
  destruct (negb (str_eqb w []) && _); reflexivity.
Qed.

Lemma own_nil_notin (words : list jsstring) (paths : list (list jsstring))
      (ks : list jsstring) :
  (forall w, In w words -> w <> [] -> In (codePoints w) paths) ->
  ~ In ks paths -> own words ks = [].
Proof.
  intros Hd Hn. unfold own.
  induction words as [|w words IH]; simpl; [reflexivity|].
  destruct (str_eqb w []) eqn:E1; simpl.
  - apply IH. intros w' Hw'. apply Hd. right. exact Hw'.
  - destruct (list_eq_dec (list_eq_dec N.eq_dec) (codePoints w) ks) as [<-|Hne].
    + exfalso. apply Hn. apply Hd; [left; reflexivity|].
      apply str_eqb_neq. exact E1.
    + apply IH. intros w' Hw'. apply Hd. right. exact Hw'.
Qed.

(** One step of [insert] adds at most one path, the path of the node it
    comes from with the key on top. *)
Lemma insert_step_exact (words : list jsstring) (nodes : AhoCorasick.AhoCorasick)
      (paths : list (list jsstring)) (i : nat) (k : jsstring) :
  inserted words nodes paths -> i < length nodes ->
  exists nodes' paths' i',
    AhoCorasick.insert_step (nodes, i) k = Returns (nodes', i')
    /\ inserted words nodes' paths'
    /\ i' < length nodes'
    /\ nth i' paths' [] = nth i paths [] ++ [k]
    /\ (forall p, In p paths' -> In p paths \/ p = nth i paths [] ++ [k]).
Proof.
  intros [Ht [Ho Hd]] Hi. unfold AhoCorasick.insert_step.
  destruct (node_in_range nodes i Hi) as [n [En ->]]. simpl.
  assert (Ec : children_of nodes i = AhoCorasick.children n)
    by (unfold children_of; now rewrite En).
  destruct (map_get str_eqb k (AhoCorasick.children n)) as [j|] eqn:Es.
  - exists nodes, paths, j. split; [reflexivity|]. split; [split; [exact Ht | split; assumption]|].
    destruct (step_path nodes paths Ht i j k Hi) as [Hj Ej]; [unfold step; now rewrite Ec|].
    split; [exact Hj|]. split; [exact Ej|]. intros p Hp. left. exact Hp.
  - assert (Hs : step nodes i k = None) by (unfold step; now rewrite Ec).
    eexists. exists (paths ++ [nth i paths [] ++ [k]]), (length nodes).
    split; [reflexivity|].
    pose proof (new_paths_of nodes paths i k n Ht En Hs) as Ht'.
    pose proof (new_length nodes i k n) as El.
    assert (Hnew : ~ In (nth i paths [] ++ [k]) paths).
    { intros Hin. destruct (path_step nodes paths Ht i k Hi Hin) as [j Hj]. congruence. }
    split; [split; [exact Ht' | split]|split; [|split]].
    + intros j Hj. rewrite (new_outputs nodes i k n En j).
      destruct (Nat.ltb_spec j (length nodes)) as [Hj'|Hj'].
      * rewrite (new_paths_old nodes paths i k Ht j Hj'). apply Ho. exact Hj'.
      * assert (j = length nodes) by (rewrite El in Hj; lia). subst j.
        rewrite (new_paths_new nodes paths i k Ht).
        symmetry. apply (own_nil_notin words paths); assumption.
    + intros w Hw Hne. apply in_or_app. left. apply Hd; assumption.
    + rewrite El. lia.
    + apply (new_paths_new nodes paths i k Ht).
    + intros p Hp. apply in_app_or in Hp. destruct Hp as [Hp|[<-|[]]]; auto.
Qed.

Lemma insert_step_ok (words : list jsstring) (nodes : AhoCorasick.AhoCorasick)
      (paths : list (list jsstring)) (i : nat) (k : jsstring) :
  inserted words nodes paths -> i < length nodes ->
  exists nodes' paths' i',
    AhoCorasick.insert_step (nodes, i) k = Returns (nodes', i')
    /\ inserted words nodes' paths'
    /\ i' < length nodes'
    /\ nth i' paths' [] = nth i paths [] ++ [k].
Proof.
  intros Hin Hi.
  destruct (insert_step_exact words nodes paths i k Hin Hi)
    as [nodes1 [paths1 [i1 [E [Hin1 [Hi1 [Ep _]]]]]]].
  exists nodes1, paths1, i1. auto.
Qed.

(** The steps of [insert] along the keys [ks] add prefixes of the path
    they end at, and nothing else. *)
Lemma insert_steps_exact (words : list jsstring) (ks : list jsstring) :
  forall (nodes : AhoCorasick.AhoCorasick) (paths : list (list jsstring)) (i : nat),
    inserted words nodes paths -> i < length nodes ->
    exists nodes' paths' i',
      foldM AhoCorasick.insert_step ks (nodes, i) = Returns (nodes', i')
      /\ inserted words nodes' paths'
      /\ i' < length nodes'
      /\ nth i' paths' [] = nth i paths [] ++ ks
      /\ (forall p, In p paths' ->
                    In p paths \/ exists q, nth i paths [] ++ ks = p ++ q).
Proof.
  induction ks as [|k ks IH]; intros nodes paths i Hin Hi.
  - exists nodes, paths, i. rewrite app_nil_r. simpl. auto 6.
  - destruct (insert_step_exact words nodes paths i k Hin Hi)
      as [nodes1 [paths1 [i1 [E1 [Hin1 [Hi1 [Ep1 Hp1]]]]]]].
    destruct (IH nodes1 paths1 i1 Hin1 Hi1)
      as [nodes2 [paths2 [i2 [E2 [Hin2 [Hi2 [Ep2 Hp2]]]]]]].
    exists nodes2, paths2, i2. cbn [foldM]. rewrite E1. cbn [bind].
    split; [exact E2|]. split; [exact Hin2|]. split; [exact Hi2|]. split.
    + rewrite Ep2, Ep1, <- app_assoc. reflexivity.
    + intros p Hp. destruct (Hp2 p Hp) as [H1|[q Hq]].
      * destruct (Hp1 p H1) as [H0| ->]; [left; exact H0|].
        right. exists ks. rewrite <- app_assoc. reflexivity.
      * right. exists q. rewrite <- Hq, Ep1, <- app_assoc. reflexivity.
Qed.

Lemma insert_steps_ok (words : list jsstring) (ks : list jsstring) :
  forall (nodes : AhoCorasick.AhoCorasick) (paths : list (list jsstring)) (i : nat),
    inserted words nodes paths -> i < length nodes ->
    exists nodes' paths' i',
      foldM AhoCorasick.insert_step ks (nodes, i) = Returns (nodes', i')
      /\ inserted words nodes' paths'
      /\ i' < length nodes'
      /\ nth i' paths' [] = nth i paths [] ++ ks.
Proof.
  intros nodes paths i Hin Hi.
  destruct (insert_steps_exact words ks nodes paths i Hin Hi)
    as [nodes1 [paths1 [i1 [E [Hin1 [Hi1 [Ep _]]]]]]].
  exists nodes1, paths1, i1. auto.
Qed.

Lemma outputs_set_index (nodes : AhoCorasick.AhoCorasick) (i j : nat)
      (n : AhoCorasick.AhoNode) :
  i < length nodes ->
  outputs_of (set_index nodes i n) j
  = if j =? i then AhoCorasick.terminalLengths n else outputs_of nodes j.
Proof.
  intros Hi. unfold outputs_of. destruct (Nat.eqb_spec j i) as [->|Hne].
  - now rewrite at_index_set_same.
  - rewrite at_index_set_other by congruence. reflexivity.
Qed.

Lemma children_set_index (nodes : AhoCorasick.AhoCorasick) (i j : nat)
      (n n' : AhoCorasick.AhoNode) :
  at_index nodes i = Some n -> AhoCorasick.children n' = AhoCorasick.children n ->
  children_of (set_index nodes i n') j = children_of nodes j.
Proof.
  intros En Ec. unfold children_of.
  assert (Hi : i < length nodes) by (apply nth_error_Some; unfold at_index in En; congruence).
  destruct (Nat.eq_dec j i) as [->|Hne].
  - rewrite at_index_set_same by exact Hi. now rewrite En.
  - rewrite at_index_set_other by congruence. reflexivity.
Qed.

(** [insert] adds the prefixes of its word to the paths, and nothing else. *)
Lemma insert_exact (words : list jsstring) (w : jsstring)
      (nodes : AhoCorasick.AhoCorasick) (paths : list (list jsstring)) :
  inserted words nodes paths ->
  exists nodes' paths',
    AhoCorasick.insert w nodes = Returns nodes' /\ inserted (words ++ [w]) nodes' paths'
    /\ (forall p, In p paths' ->
                  In p paths \/ (w <> [] /\ exists q, codePoints w = p ++ q)).
Proof.
  intros Hin. unfold AhoCorasick.insert.
  destruct w as [|c w'].
  - exists nodes, paths. split; [reflexivity|].
    destruct Hin as [Ht [Ho Hd]]. split; [split; [exact Ht | split]|].
    + intros j Hj. rewrite own_app. simpl. rewrite app_nil_r. apply Ho. exact Hj.
    + intros w Hw Hne. apply in_app_or in Hw. destruct Hw as [Hw|[<-|[]]]; [auto | congruence].
    + intros p Hp. left. exact Hp.
  - remember (c :: w') as w eqn:Ew.
    assert (Hw : w <> []) by (subst w; discriminate).
    replace (match w with [] => Returns nodes | _ :: _ =>
               bind (foldM AhoCorasick.insert_step (codePoints w) (nodes, 0))
                    (fun x => let '(nodes1, nodeIndex) := x in
                              bind (AhoCorasick.node nodes1 nodeIndex)
                                   (fun n => Returns (set_index nodes1 nodeIndex
                                      (AhoCorasick.push_terminalLengths n [length w]))))
             end)
      with (bind (foldM AhoCorasick.insert_step (codePoints w) (nodes, 0))
                    (fun x => let '(nodes1, nodeIndex) := x in
                              bind (AhoCorasick.node nodes1 nodeIndex)
                                   (fun n => Returns (set_index nodes1 nodeIndex
                                      (AhoCorasick.push_terminalLengths n [length w])))))
      by (subst w; reflexivity).
    clear Ew c w'.
    assert (H0 : 0 < length nodes) by (apply (paths_root nodes paths); apply Hin).
    destruct (insert_steps_exact words (codePoints w) nodes paths 0 Hin H0)
      as [nodes1 [paths1 [idx [E1 [[Ht [Ho Hd]] [Hidx [Ep Hnew]]]]]]].
    rewrite E1. cbn [bind].
    destruct (node_in_range nodes1 idx Hidx) as [n [En ->]]. cbn [bind].
    eexists. exists paths1. split; [reflexivity|].
    assert (Ep' : nth idx paths1 [] = codePoints w).
    { rewrite Ep. destruct (paths_root nodes paths) as [_ ->]; [apply Hin | reflexivity]. }
    assert (Ew : str_eqb w [] = false) by (apply str_eqb_neq; exact Hw).
    assert (E0 : nth 0 paths [] = [])
      by (destruct (paths_root nodes paths) as [_ E0]; [apply Hin | exact E0]).
    split; [split; [|split]|].
    + apply (paths_of_ext nodes1); [apply length_set_index | | exact Ht].
      intros j. apply (children_set_index nodes1 idx j n); [exact En | reflexivity].
    + intros j Hj. rewrite length_set_index in Hj.
      rewrite outputs_set_index by exact Hidx. rewrite own_app, Ew.
      destruct (Nat.eqb_spec j idx) as [->|Hne].
      * rewrite Ep'.
        destruct (list_eq_dec (list_eq_dec N.eq_dec) (codePoints w) (codePoints w));
          [|congruence].
        cbn [negb andb AhoCorasick.push_terminalLengths AhoCorasick.terminalLengths].
        f_equal. rewrite <- Ep'.
        rewrite <- (Ho idx Hidx). unfold outputs_of. now rewrite En.
      * destruct (list_eq_dec (list_eq_dec N.eq_dec) (codePoints w) (nth j paths1 []))
          as [Eq|Hneq].
        -- exfalso. apply Hne. apply (path_inj nodes1 paths1 Ht); auto. congruence.
        -- rewrite andb_false_r, app_nil_r. apply Ho. exact Hj.
    + intros w0 Hw0 Hne. apply in_app_or in Hw0. destruct Hw0 as [Hw0|[<-|[]]]; [auto|].
      rewrite <- Ep'. apply (path_in nodes1 paths1 Ht). exact Hidx.
    + intros p Hp. destruct (Hnew p Hp) as [H1|[q Hq]]; [left; exact H1|].
      right. split; [exact Hw|]. exists q. rewrite <- Hq, E0. reflexivity.
Qed.

Lemma insert_ok (words : list jsstring) (w : jsstring)
      (nodes : AhoCorasick.AhoCorasick) (paths : list (list jsstring)) :
  inserted words nodes paths ->
  exists nodes' paths',
    AhoCorasick.insert w nodes = Returns nodes' /\ inserted (words ++ [w]) nodes' paths'.
Proof.
  intros Hin. destruct (insert_exact words w nodes paths Hin) as [nodes1 [paths1 [E [H1 _]]]].
  exists nodes1, paths1. auto.
Qed.

Lemma prefix_of_word_more (words more : list jsstring) (p : list jsstring) :
  prefix_of_word words p -> prefix_of_word (words ++ more) p.
Proof.
  intros [->|[w [q [Hw [Hne E]]]]]; [left; reflexivity|].
  right. exists w, q. split; [apply in_or_app; left; exact Hw | auto].
Qed.

(** [insertAll] makes a node for every prefix of its words, and no other. *)
Lemma insertAll_exact (ws : list jsstring) :
  forall (words : list jsstring) (nodes : AhoCorasick.AhoCorasick)
         (paths : list (list jsstring)),
    inserted words nodes paths ->
    (forall p, In p paths -> prefix_of_word words p) ->
    exists nodes' paths',
      AhoCorasick.insertAll ws nodes = Returns nodes' /\ inserted (words ++ ws) nodes' paths'
      /\ (forall p, In p paths' -> prefix_of_word (words ++ ws) p).
Proof.
  unfold AhoCorasick.insertAll.
  induction ws as [|w ws IH]; intros words nodes paths Hin Hpre.
  - exists nodes, paths. rewrite app_nil_r. simpl. auto.
  - destruct (insert_exact words w nodes paths Hin) as [nodes1 [paths1 [E1 [Hin1 Hnew]]]].
    destruct (IH (words ++ [w]) nodes1 paths1 Hin1) as [nodes2 [paths2 [E2 [Hin2 Hpre2]]]].
    { intros p Hp. destruct (Hnew p Hp) as [H0|[Hw [q Hq]]].
      - apply prefix_of_word_more. apply Hpre. exact H0.
      - right. exists w, q. split; [apply in_or_app; right; left; reflexivity | auto]. }
    exists nodes2, paths2. cbn [foldM]. rewrite E1. cbn [bind].
    split; [exact E2|]. rewrite <- app_assoc in Hin2, Hpre2. auto.
Qed.

Lemma insertAll_ok (ws : list jsstring) :
  forall (words : list jsstring) (nodes : AhoCorasick.AhoCorasick)
         (paths : list (list jsstring)),
    inserted words nodes paths ->
    exists nodes' paths',
      AhoCorasick.insertAll ws nodes = Returns nodes' /\ inserted (words ++ ws) nodes' paths'.
Proof.
  unfold AhoCorasick.insertAll.
  induction ws as [|w ws IH]; intros words nodes paths Hin.
  - exists nodes, paths. rewrite app_nil_r. simpl. auto.
  - destruct (insert_ok words w nodes paths Hin) as [nodes1 [paths1 [E1 Hin1]]].
    destruct (IH (words ++ [w]) nodes1 paths1 Hin1) as [nodes2 [paths2 [E2 Hin2]]].
    exists nodes2, paths2. cbn [foldM]. rewrite E1. cbn [bind].
    split; [exact E2|]. rewrite <- app_assoc in Hin2. exact Hin2.
Qed.

Lemma inserted_new : inserted [] AhoCorasick.new [[]].
Proof.
  split; [split; [reflexivity | split] | split].
  - intros ks j. destruct ks as [|k ks]; simpl.
    + split; [intros H; injection H as <-; auto | intros [H E]].
      destruct j as [|j]; [reflexivity | simpl in H; lia].
    + split; [discriminate|]. intros [H E].
      destruct j as [|j]; [discriminate | simpl in H; lia].
  - intros i. unfold children_of, at_index, AhoCorasick.new.
    destruct i as [|[|i]]; simpl; constructor.
  - intros j Hj. simpl in Hj. destruct j; [reflexivity | lia].
  - intros w [].
Qed.

(** ** Suffixes *)

Lemma suffix_refl (a : list jsstring) : suffix a a.
Proof. exists []. reflexivity. Qed.

Lemma suffix_nil (a : list jsstring) : suffix [] a.
Proof. exists a. now rewrite app_nil_r. Qed.

Lemma suffix_trans (a b c : list jsstring) : suffix a b -> suffix b c -> suffix a c.
Proof. intros [p ->] [q ->]. exists (q ++ p). now rewrite app_assoc. Qed.

Lemma suffix_of_nil (a : list jsstring) : suffix a [] -> a = [].
Proof. intros [p H]. symmetry in H. apply app_eq_nil in H. tauto. Qed.

Lemma proper_suffix_suffix (a b : list jsstring) : proper_suffix a b -> suffix a b.
Proof. intros [p [_ ->]]. exists p. reflexivity. Qed.

Lemma suffix_cases (a b : list jsstring) : suffix a b -> a = b \/ proper_suffix a b.
Proof.
  intros [p ->]. destruct p as [|x p]; [left; reflexivity|].
  right. exists (x :: p). split; [discriminate | reflexivity].
Qed.

Lemma proper_suffix_length (a b : list jsstring) : proper_suffix a b -> length a < length b.
Proof.
  intros [p [Hp ->]]. rewrite length_app. destruct p; [congruence | simpl; lia].
Qed.

Lemma suffix_length (a b : list jsstring) : suffix a b -> length a <= length b.
Proof. intros [p ->]. rewrite length_app. lia. Qed.

Lemma suffix_proper_trans (a b c : list jsstring) :
  suffix a b -> proper_suffix b c -> proper_suffix a c.
Proof.
  intros [p ->] [q [Hq ->]]. exists (q ++ p). split.
  - destruct q; [congruence | discriminate].
  - now rewrite app_assoc.
Qed.

Lemma suffix_snoc (a b : list jsstring) (k : jsstring) :
  suffix a b -> suffix (a ++ [k]) (b ++ [k]).
Proof. intros [p ->]. exists p. now rewrite app_assoc. Qed.

Lemma proper_suffix_snoc (a b : list jsstring) (k : jsstring) :
  proper_suffix a b -> proper_suffix (a ++ [k]) (b ++ [k]).
Proof. intros [p [Hp ->]]. exists p. split; [exact Hp | now rewrite app_assoc]. Qed.

(** A suffix of [b ++ [k]] is empty or a suffix of [b] followed by [k]. *)
Lemma suffix_snoc_inv (t b : list jsstring) (k : jsstring) :
  suffix t (b ++ [k]) -> t = [] \/ exists t', t = t' ++ [k] /\ suffix t' b.
Proof.
  intros [p H]. destruct t as [|x t] using rev_ind; [left; reflexivity|].
  right. clear IHt. rewrite app_assoc in H. apply app_inj_tail in H.
  destruct H as [-> ->]. exists t. split; [reflexivity | exists p; reflexivity].
Qed.

Lemma proper_suffix_snoc_inv (t b : list jsstring) (k : jsstring) :
  proper_suffix t (b ++ [k]) ->
  t = [] \/ exists t', t = t' ++ [k] /\ proper_suffix t' b.
Proof.
  intros [p [Hp H]]. destruct t as [|x t] using rev_ind; [left; reflexivity|].
  right. clear IHt. rewrite app_assoc in H. apply app_inj_tail in H.
  destruct H as [-> ->]. exists t. split; [reflexivity | exists p; split; auto].
Qed.

(** ** Depth *)

Lemma firstn_prefix (A : Type) (l : list A) (m : nat) : exists q, l = firstn m l ++ q.
Proof. exists (skipn m l). symmetry. apply firstn_skipn. Qed.

Lemma prefixes_nodup (l : list jsstring) (ms : list nat) :
  NoDup ms -> (forall m, In m ms -> m <= length l) ->
  NoDup (map (fun m => firstn m l) ms).
Proof.
  induction ms as [|m ms IH]; intros Hnd Hle; simpl; [constructor|].
  inversion Hnd as [|? ? Hnotin Hnd']; subst. constructor.
  - intros Hin. apply in_map_iff in Hin. destruct Hin as [m' [E Hm']].
    assert (El : length (firstn m' l) = length (firstn m l)) by congruence.
    rewrite !length_firstn in El.
    assert (m' <= length l) by (apply Hle; right; exact Hm').
    assert (m <= length l) by (apply Hle; left; reflexivity).
    assert (m' = m) by lia. subst m'. contradiction.
  - apply IH; [exact Hnd'|]. intros m' Hm'. apply Hle. right. exact Hm'.
Qed.

Lemma depth_lt (nodes : AhoCorasick.AhoCorasick) (paths : list (list jsstring)) (j : nat) :
  paths_of nodes paths -> j < length nodes -> depth paths j < length nodes.
Proof.
  intros Ht Hj. unfold depth. set (p := nth j paths []).
  assert (Hin : In p paths) by (apply (path_in nodes paths Ht); exact Hj).
  assert (Hnd : NoDup (map (fun m => firstn m p) (seq 0 (S (length p))))).
  { apply prefixes_nodup; [apply seq_NoDup|]. intros m Hm. apply in_seq in Hm. lia. }
  assert (Hincl : incl (map (fun m => firstn m p) (seq 0 (S (length p)))) paths).
  { intros q Hq. apply in_map_iff in Hq. destruct Hq as [m [<- _]].
    destruct (firstn_prefix _ p m) as [r Er].
    apply (path_prefix nodes paths Ht (firstn m p) r). rewrite <- Er. exact Hin. }
  pose proof (NoDup_incl_length Hnd Hincl) as Hlen.
  rewrite length_map, length_seq in Hlen. destruct Ht as [E _]. lia.
Qed.

(** ** Following the failure links *)

Lemma map_has_step (nodes : AhoCorasick.AhoCorasick) (j : nat) (n : AhoCorasick.AhoNode)
      (k : jsstring) :
  at_index nodes j = Some n ->
  map_has str_eqb k (AhoCorasick.children n) = true <-> step nodes j k <> None.
Proof.
  intros En. unfold map_has, step, children_of. rewrite En.
  destruct (map_get str_eqb k (AhoCorasick.children n)); split; congruence.
Qed.

Lemma follow_fail_ok (nodes : AhoCorasick.AhoCorasick) (paths : list (list jsstring))
      (k : jsstring) :
  paths_of nodes paths ->
  forall fuel f,
    f < length nodes ->
    (forall j, 0 < j -> j < length nodes -> depth paths j <= depth paths f ->
               fail_ok nodes paths j) ->
    depth paths f < fuel ->
    exists g,
      AhoCorasick.follow_fail fuel nodes k f = Returns g
      /\ g < length nodes
      /\ suffix (nth g paths []) (nth f paths [])
      /\ (g = 0 \/ step nodes g k <> None)
      /\ (forall t, suffix t (nth f paths []) -> In (t ++ [k]) paths ->
                    suffix t (nth g paths [])).
Proof.
  intros Ht. induction fuel as [|fuel IH]; intros f Hf Hok Hfuel; [lia|].
  cbn [AhoCorasick.follow_fail].
  destruct (Nat.eqb_spec f 0) as [->|Hne].
  - exists 0. split; [reflexivity|]. split; [exact Hf|]. split; [apply suffix_refl|].
    split; [left; reflexivity|]. intros t Hs _. exact Hs.
  - destruct (node_in_range nodes f Hf) as [n [En ->]]. cbn [bind].
    destruct (map_has str_eqb k (AhoCorasick.children n)) eqn:Eh.
    + exists f. split; [reflexivity|]. split; [exact Hf|]. split; [apply suffix_refl|].
      split; [right; apply (map_has_step nodes f n k En); exact Eh|].
      intros t Hs _. exact Hs.
    + assert (Hfo : fail_ok nodes paths f) by (apply Hok; [lia | exact Hf | lia]).
      assert (Ef : AhoCorasick.fail n = fail_of nodes f)
        by (unfold fail_of; now rewrite En).
      rewrite Ef. destruct Hfo as [Hf' [Hps Hlong]].
      pose proof (proper_suffix_length _ _ Hps) as Hd.
      destruct (IH (fail_of nodes f) Hf') as [g [Eg [Hg [Hsg [Hgk Hgl]]]]].
      * intros j H0 Hj Hdj. apply Hok; auto. unfold depth in *. lia.
      * unfold depth in *. lia.
      * exists g. split; [exact Eg|]. split; [exact Hg|].
        split; [apply (suffix_trans _ _ _ Hsg); apply proper_suffix_suffix; exact Hps|].
        split; [exact Hgk|].
        intros t Hs Hin. apply Hgl; [|exact Hin].
        destruct (suffix_cases _ _ Hs) as [->|Hp].
        -- exfalso. destruct (path_step nodes paths Ht f k Hf Hin) as [y Hy].
           assert (Hc : step nodes f k <> None) by congruence.
           apply (map_has_step nodes f n k En) in Hc. congruence.
        -- apply Hlong; [exact Hp|]. apply (path_prefix nodes paths Ht t [k]). exact Hin.
Qed.

(** ** One child in [build] *)

Lemma own_In (words : list jsstring) (ks : list jsstring) (len : nat) :
  In len (own words ks)
  <-> exists w, In w words /\ w <> [] /\ codePoints w = ks /\ len = length w.
Proof.
  unfold own. rewrite in_map_iff. split.
  - intros [w [<- Hw]]. apply filter_In in Hw. destruct Hw as [Hin Hc].
    apply andb_true_iff in Hc. destruct Hc as [H1 H2].
    exists w. split; [exact Hin|]. split.
    + apply str_eqb_neq. now apply negb_true_iff in H1.
    + split; [|reflexivity].
      destruct (list_eq_dec (list_eq_dec N.eq_dec) (codePoints w) ks); [auto | discriminate].
  - intros [w [Hin [Hne [Hk ->]]]]. exists w. split; [reflexivity|].
    apply filter_In. split; [exact Hin|]. apply andb_true_iff. split.
    + apply negb_true_iff. apply str_eqb_neq. exact Hne.
    + destruct (list_eq_dec (list_eq_dec N.eq_dec) (codePoints w) ks); [auto | contradiction].
Qed.

Lemma fail_set_index (nodes : AhoCorasick.AhoCorasick) (i j : nat)
      (n : AhoCorasick.AhoNode) :
  i < length nodes ->
  fail_of (set_index nodes i n) j = if j =? i then AhoCorasick.fail n else fail_of nodes j.
Proof.
  intros Hi. unfold fail_of. destruct (Nat.eqb_spec j i) as [->|Hne].
  - now rewrite at_index_set_same.
  - rewrite at_index_set_other by congruence. reflexivity.
Qed.

Lemma fail_ok_ext (nodes nodes' : AhoCorasick.AhoCorasick) (paths : list (list jsstring))
      (j : nat) :
  length nodes' = length nodes -> fail_of nodes' j = fail_of nodes j ->
  fail_ok nodes paths j -> fail_ok nodes' paths j.
Proof. unfold fail_ok. intros -> ->. auto. Qed.

Lemma out_ok_ext (words : list jsstring) (nodes nodes' : AhoCorasick.AhoCorasick)
      (paths : list (list jsstring)) (j : nat) :
  outputs_of nodes' j = outputs_of nodes j ->
  out_ok words nodes paths j -> out_ok words nodes' paths j.
Proof. unfold out_ok. intros ->. auto. Qed.

Lemma depth_root (nodes : AhoCorasick.AhoCorasick) (paths : list (list jsstring)) (j : nat) :
  paths_of nodes paths -> j < length nodes -> depth paths j = 0 -> j = 0.
Proof.
  intros Ht Hj Hd. unfold depth in Hd. apply length_zero_iff_nil in Hd.
  destruct (paths_root nodes paths Ht) as [H0 E0].
  apply (path_inj nodes paths Ht); auto. congruence.
Qed.

Lemma step_depth (nodes : AhoCorasick.AhoCorasick) (paths : list (list jsstring))
      (i j : nat) (k : jsstring) :
  paths_of nodes paths -> step nodes i k = Some j -> depth paths j = S (depth paths i).
Proof.
  intros Ht Hs. pose proof (step_in_range nodes i j k Hs) as Hi.
  destruct (step_path nodes paths Ht i j k Hi Hs) as [_ E].
  unfold depth. rewrite E, length_app. simpl. lia.
Qed.

Section BuildChild.
Variable words : list jsstring.
Variable nodes0 : AhoCorasick.AhoCorasick.
Variable paths : list (list jsstring).
Hypothesis Hins : inserted words nodes0 paths.

Lemma tree0 : paths_of nodes0 paths.
Proof. apply Hins. Qed.

Lemma words_in_paths (w : jsstring) : In w words -> w <> [] -> In (codePoints w) paths.
Proof. apply Hins. Qed.

Lemma bfs_tree (nodes : AhoCorasick.AhoCorasick) (queue done : list nat)
      (pend : list (jsstring * nat)) (d : nat) :
  bfs_inv words nodes0 paths nodes queue done pend d -> paths_of nodes paths.
Proof.
  intros I. apply (paths_of_ext nodes0); [apply (bi_len I) | apply (bi_children I) | apply tree0].
Qed.

Lemma bfs_step (nodes : AhoCorasick.AhoCorasick) (queue done : list nat)
      (pend : list (jsstring * nat)) (d : nat) (i : nat) (k : jsstring) :
  bfs_inv words nodes0 paths nodes queue done pend d -> step nodes i k = step nodes0 i k.
Proof. intros I. unfold step. now rewrite (bi_children I). Qed.

(** The nodes up to the level in hand have their links and outputs. *)
Lemma bfs_final_level (nodes : AhoCorasick.AhoCorasick) (queue done : list nat)
      (pend : list (jsstring * nat)) (d : nat) (j : nat) :
  bfs_inv words nodes0 paths nodes queue done pend d ->
  0 < j -> j < length nodes0 -> depth paths j <= d ->
  fail_ok nodes paths j /\ out_ok words nodes paths j.
Proof. intros I H0 Hj Hd. apply (bi_final I). apply (bi_level I); assumption. Qed.

Lemma root_out_ok (nodes : AhoCorasick.AhoCorasick) :
  paths_of nodes paths -> outputs_of nodes 0 = [] -> out_ok words nodes paths 0.
Proof.
  intros Ht E len. rewrite E. split; [intros []|].
  intros [w [_ [Hne [Hs _]]]].
  destruct (paths_root nodes paths Ht) as [_ E0]. rewrite E0 in Hs.
  apply suffix_of_nil in Hs. apply codePoints_nil_inv in Hs. contradiction.
Qed.

Lemma build_child_ok (nodes : AhoCorasick.AhoCorasick) (queue done : list nat)
      (pend : list (jsstring * nat)) (d c : nat) (k : jsstring) (x : nat) :
  bfs_inv words nodes0 paths nodes queue done ((k, x) :: pend) d ->
  In c done -> depth paths c = d -> step nodes0 c k = Some x ->
  ~ In x (queue ++ done) -> ~ In x (map snd pend) ->
  exists nodes',
    AhoCorasick.build_child c (nodes, queue) (k, x) = Returns (nodes', queue ++ [x])
    /\ bfs_inv words nodes0 paths nodes' (queue ++ [x]) done pend d.
Proof.
  intros I Hc Hdc Hcx Hfresh Hpend.
  pose proof (bfs_tree _ _ _ _ _ I) as Ht.
  pose proof (bi_len I) as El.
  assert (Hcv : In c (queue ++ done)) by (apply in_or_app; right; exact Hc).
  destruct (bi_range I c Hcv) as [Hc0 Hcn].
  assert (Hcn' : c < length nodes) by lia.
  assert (Hsx : step nodes c k = Some x) by (rewrite (bfs_step _ _ _ _ _ c k I); exact Hcx).
  destruct (step_path nodes paths Ht c x k Hcn' Hsx) as [Hxn Epx].
  assert (Hdx : depth paths x = S d) by (rewrite <- Hdc; apply (step_depth nodes paths c x k Ht Hsx)).
  assert (Hx0 : 0 < x).
  { destruct x; [|lia]. destruct (paths_root nodes paths Ht) as [_ E0].
    unfold depth in Hdx. rewrite E0 in Hdx. discriminate. }
  destruct (bi_final I c Hcv) as [[Hfc [Hpc Hlc]] _].
  pose proof (bi_pos I) as Hd1.
  (* the walk along the failure links *)
  unfold AhoCorasick.build_child.
  destruct (node_in_range nodes c Hcn') as [cur [Ecur ->]]. cbn [bind].
  assert (Efc : AhoCorasick.fail cur = fail_of nodes c) by (unfold fail_of; now rewrite Ecur).
  rewrite Efc.
  assert (Hdf : depth paths (fail_of nodes c) < d).
  { rewrite <- Hdc. apply proper_suffix_length. exact Hpc. }
  destruct (follow_fail_ok nodes paths k Ht (S (length nodes)) (fail_of nodes c) Hfc)
    as [g [Eg [Hg [Hsg [Hgk Hgl]]]]].
  { intros j H0 Hj Hdj. apply (bfs_final_level nodes queue done _ d j I); [exact H0 | lia | lia]. }
  { pose proof (depth_lt nodes paths _ Ht Hfc). lia. }
  rewrite Eg. cbn [bind].
  destruct (node_in_range nodes g Hg) as [nf [Enf ->]]. cbn [bind].
  destruct (paths_root nodes paths Ht) as [H0n E0].
  destruct (node_in_range nodes 0 H0n) as [root [Eroot ->]]. cbn [bind].
  destruct (node_in_range nodes x Hxn) as [nx [Enx ->]]. cbn [bind].
  (* the link of the child *)
  set (f1 := if map_has str_eqb k (AhoCorasick.children nf)
                && negb (AhoCorasick.opt_nat_eqb
                           (map_get str_eqb k (AhoCorasick.children root)) (Some x))
             then orElse (map_get str_eqb k (AhoCorasick.children nf)) g else g).
  assert (Ef1 : f1 = match step nodes g k with Some y => y | None => g end).
  { unfold f1.
    assert (Er : AhoCorasick.opt_nat_eqb (map_get str_eqb k (AhoCorasick.children root))
                                         (Some x) = false).
    { destruct (map_get str_eqb k (AhoCorasick.children root)) as [y|] eqn:Ey; [|reflexivity].
      simpl. apply Nat.eqb_neq. intros ->.
      assert (Hs0 : step nodes 0 k = Some x) by (unfold step, children_of; now rewrite Eroot).
      pose proof (step_depth nodes paths 0 x k Ht Hs0) as Hd0.
      unfold depth in Hd0 at 2. rewrite E0 in Hd0. simpl in Hd0. lia. }
    rewrite Er. cbn [negb]. rewrite andb_true_r.
    unfold step, children_of. rewrite Enf.
    unfold map_has.
    destruct (map_get str_eqb k (AhoCorasick.children nf)); reflexivity. }
  assert (Hf1 : f1 < length nodes
                /\ proper_suffix (nth f1 paths []) (nth x paths [])
                /\ (forall t, proper_suffix t (nth x paths []) -> In t paths ->
                              suffix t (nth f1 paths []))).
  { rewrite Ef1, Epx. destruct (step nodes g k) as [y|] eqn:Ey.
    - destruct (step_path nodes paths Ht g y k Hg Ey) as [Hy Epy].
      split; [exact Hy|]. rewrite Epy. split.
      + apply proper_suffix_snoc. apply (suffix_proper_trans _ _ _ Hsg Hpc).
      + intros t Hp Hin.
        destruct (proper_suffix_snoc_inv _ _ _ Hp) as [->|[t' [-> Hp']]]; [apply suffix_nil|].
        apply suffix_snoc. apply Hgl; [|exact Hin].
        apply Hlc; [exact Hp'|]. apply (path_prefix nodes paths Ht t' [k]). exact Hin.
    - destruct Hgk as [->|Hgk]; [|congruence].
      split; [exact H0n|]. rewrite E0. split.
      + exists (nth c paths [] ++ [k]). split; [|now rewrite app_nil_r].
        destruct (nth c paths []); discriminate.
      + intros t Hp Hin.
        destruct (proper_suffix_snoc_inv _ _ _ Hp) as [->|[t' [-> Hp']]]; [apply suffix_nil|].
        exfalso.
        assert (Hs' : suffix t' (nth 0 paths [])).
        { apply Hgl; [|exact Hin].
          apply Hlc; [exact Hp'|]. apply (path_prefix nodes paths Ht t' [k]). exact Hin. }
        rewrite E0 in Hs'. apply suffix_of_nil in Hs'. subst t'.
        destruct (path_step nodes paths Ht 0 k H0n) as [y Hy]; [rewrite E0; exact Hin|].
        congruence. }
  destruct Hf1 as [Hf1n [Hf1p Hf1l]].
  assert (Hf1x : f1 <> x).
  { intros E. rewrite E in Hf1p. apply proper_suffix_length in Hf1p. lia. }
  assert (Hdf1 : depth paths f1 <= d).
  { apply proper_suffix_length in Hf1p. unfold depth in *. lia. }
  (* the two writes *)
  set (nodes1 := set_index nodes x (AhoCorasick.set_fail nx f1)).
  assert (El1 : length nodes1 = length nodes) by apply length_set_index.
  assert (Enf1 : at_index nodes1 f1 = at_index nodes f1)
    by (apply at_index_set_other; congruence).
  destruct (node_in_range nodes f1 Hf1n) as [nf1 [Enf1' _]].
  assert (Ern : AhoCorasick.node nodes1 f1 = Returns nf1)
    by (unfold AhoCorasick.node; rewrite Enf1, Enf1'; reflexivity).
  rewrite Ern. cbn [bind].
  assert (Einh : AhoCorasick.terminalLengths nf1 = outputs_of nodes f1)
    by (unfold outputs_of; now rewrite Enf1').
  assert (Enx1 : at_index nodes1 x = Some (AhoCorasick.set_fail nx f1))
    by (apply at_index_set_same; exact Hxn).
  set (nodes' := if 0 <? length (AhoCorasick.terminalLengths nf1)
                 then set_index nodes1 x
                        (AhoCorasick.push_terminalLengths (AhoCorasick.set_fail nx f1)
                           (AhoCorasick.terminalLengths nf1))
                 else nodes1).
  assert (Eret :
    (if 0 <? length (AhoCorasick.terminalLengths nf1)
     then bind (AhoCorasick.node nodes1 x)
            (fun nx1 => Returns (set_index nodes1 x
                                   (AhoCorasick.push_terminalLengths nx1
                                      (AhoCorasick.terminalLengths nf1)),
                                 queue ++ [x]))
     else Returns (nodes1, queue ++ [x]))
    = Returns (nodes', queue ++ [x])).
  { unfold nodes'. destruct (0 <? length (AhoCorasick.terminalLengths nf1)); [|reflexivity].
    unfold AhoCorasick.node. rewrite Enx1. reflexivity. }
  fold nodes1. rewrite Eret. clear Eret.
  exists nodes'. split; [reflexivity|].
  (* the new array *)
  assert (El' : length nodes' = length nodes).
  { unfold nodes'. destruct (0 <? _); [rewrite length_set_index|]; exact El1. }
  assert (Hx1 : x < length nodes1) by lia.
  assert (Ech : forall j, children_of nodes' j = children_of nodes j).
  { intros j. unfold nodes'.
    assert (E1 : children_of nodes1 j = children_of nodes j)
      by (apply (children_set_index nodes x j nx); [exact Enx | reflexivity]).
    destruct (0 <? _); [|exact E1].
    rewrite (children_set_index nodes1 x j (AhoCorasick.set_fail nx f1));
      [exact E1 | exact Enx1 | reflexivity]. }
  assert (Efail : forall j, fail_of nodes' j = if j =? x then f1 else fail_of nodes j).
  { intros j. unfold nodes'.
    assert (E1 : fail_of nodes1 j = if j =? x then f1 else fail_of nodes j)
      by (unfold nodes1; rewrite fail_set_index by exact Hxn; reflexivity).
    destruct (0 <? _); [|exact E1].
    rewrite fail_set_index by exact Hx1. cbn [AhoCorasick.push_terminalLengths
      AhoCorasick.set_fail AhoCorasick.fail].
    rewrite E1. destruct (j =? x); reflexivity. }
  assert (Eout : forall j, outputs_of nodes' j
                           = if j =? x then outputs_of nodes x ++ outputs_of nodes f1
                             else outputs_of nodes j).
  { intros j. unfold nodes'.
    assert (E1 : outputs_of nodes1 j = outputs_of nodes j).
    { unfold nodes1. rewrite outputs_set_index by exact Hxn.
      destruct (Nat.eqb_spec j x) as [->|_]; [|reflexivity].
      unfold outputs_of. rewrite Enx. reflexivity. }
    destruct (0 <? length (AhoCorasick.terminalLengths nf1)) eqn:Epos.
    - rewrite outputs_set_index by exact Hx1.
      destruct (Nat.eqb_spec j x) as [->|_]; [|exact E1].
      cbn [AhoCorasick.push_terminalLengths AhoCorasick.set_fail AhoCorasick.terminalLengths].
      rewrite Einh. unfold outputs_of at 2. now rewrite Enx.
    - rewrite E1. destruct (Nat.eqb_spec j x) as [->|_]; [|reflexivity].
      apply Nat.ltb_ge in Epos. rewrite <- Einh.
      destruct (AhoCorasick.terminalLengths nf1); [now rewrite app_nil_r | simpl in Epos; lia]. }
  assert (Hraw : outputs_of nodes x = own words (nth x paths [])).
  { apply (bi_raw I); [exact Hx0 | lia | exact Hfresh]. }
  assert (Hox : out_ok words nodes paths f1).
  { destruct (Nat.eq_dec f1 0) as [->|Hne].
    - apply (root_out_ok nodes Ht). apply (bi_root I).
    - apply (bfs_final_level nodes queue done _ d f1 I); [lia | lia | exact Hdf1]. }
  assert (Hfin_x : fail_ok nodes' paths x /\ out_ok words nodes' paths x).
  { split.
    - unfold fail_ok. rewrite Efail, Nat.eqb_refl, El'. auto.
    - intros len. rewrite Eout, Nat.eqb_refl, in_app_iff, Hraw, own_In. split.
      + intros [[w [Hw [Hne [Hk ->]]]]|Hin].
        * exists w. rewrite Hk. repeat split; auto. apply suffix_refl.
        * apply Hox in Hin. destruct Hin as [w [Hw [Hne [Hs ->]]]].
          exists w. repeat split; auto.
          apply (suffix_trans _ _ _ Hs). apply proper_suffix_suffix. exact Hf1p.
      + intros [w [Hw [Hne [Hs ->]]]].
        destruct (suffix_cases _ _ Hs) as [E|Hp].
        * left. exists w. auto.
        * right. apply Hox. exists w. repeat split; auto.
          apply Hf1l; [exact Hp|]. apply words_in_paths; assumption. }
  assert (Hin_new : forall j, In j ((queue ++ [x]) ++ done) <-> j = x \/ In j (queue ++ done)).
  { intros j. rewrite !in_app_iff. simpl. split.
    - intros [[H|[H|[]]]|H]; auto.
    - intros [H|[H|H]]; auto. }
  constructor.
  - lia.
  - intros j. rewrite Ech. apply (bi_children I).
  - intros j Hj. apply Hin_new in Hj.
    destruct (Nat.eq_dec j x) as [->|Hne]; [exact Hfin_x|].
    destruct Hj as [->|Hj]; [congruence|].
    destruct (bi_final I j Hj) as [Hfo Hoo]. split.
    + apply (fail_ok_ext nodes); [exact El' | | exact Hfo].
      rewrite Efail. destruct (Nat.eqb_spec j x); [congruence | reflexivity].
    + apply (out_ok_ext words nodes); [|exact Hoo].
      rewrite Eout. destruct (Nat.eqb_spec j x); [congruence | reflexivity].
  - rewrite Eout. destruct (Nat.eqb_spec 0 x); [lia | apply (bi_root I)].
  - intros j H0 Hj Hnv.
    assert (Hne : j <> x) by (intros ->; apply Hnv; apply Hin_new; left; reflexivity).
    rewrite Eout. destruct (Nat.eqb_spec j x); [congruence|].
    apply (bi_raw I); auto. intros Hv. apply Hnv. apply Hin_new. right. exact Hv.
  - intros j Hj. apply Hin_new in Hj. destruct Hj as [->|Hj]; [lia | apply (bi_range I); exact Hj].
  - rewrite <- app_assoc. cbn [app].
    apply NoDup_app_remove_l with (l := []). cbn [app].
    apply (Permutation.Permutation_NoDup (l := x :: queue ++ done)).
    + apply Permutation.Permutation_middle.
    + constructor; [exact Hfresh | apply (bi_nodup I)].
  - intros j H0 Hj Hd. apply Hin_new. right. apply (bi_level I); assumption.
  - destruct (bi_queue I) as [qa [qb [Eq [Ha Hb]]]].
    exists qa, (qb ++ [x]). split; [rewrite Eq; now rewrite app_assoc|].
    split; [exact Ha|]. intros y Hy. apply in_app_or in Hy.
    destruct Hy as [Hy|[<-|[]]]; [apply Hb; exact Hy | exact Hdx].
  - intros j Hj. destruct (bi_done I j Hj) as [Hd Hch]. split; [exact Hd|].
    intros k' y Hs. destruct (Hch k' y Hs) as [Hv|[Heq|Hp]].
    + left. apply Hin_new. right. exact Hv.
    + injection Heq as <- <-. left. apply Hin_new. left. reflexivity.
    + right. exact Hp.
  - intros y Hy. apply Hin_new in Hy. destruct Hy as [->|Hy].
    + right. exists c, k. split; assumption.
    + apply (bi_parent I). exact Hy.
  - exact Hd1.
Qed.

End BuildChild.

(** ** The loops of [build] *)

Lemma step_entry (nodes : AhoCorasick.AhoCorasick) (i : nat) (k : jsstring) (x : nat) :
  step nodes i k = Some x -> In (k, x) (children_of nodes i).
Proof.
  unfold step. induction (children_of nodes i) as [|[k' x'] l IH]; simpl; [discriminate|].
  destruct (str_eqb k k') eqn:E.
  - intros H. injection H as ->. apply str_eqb_eq in E. subst. left. reflexivity.
  - intros H. right. apply IH. exact H.
Qed.

Lemma nodup_snd (l : list (jsstring * nat)) :
  NoDup (map fst l) ->
  (forall k1 k2 x, In (k1, x) l -> In (k2, x) l -> k1 = k2) ->
  NoDup (map snd l).
Proof.
  induction l as [|[k x] l IH]; simpl; intros Hnd Hinj; [constructor|].
  inversion Hnd as [|? ? Hnotin Hnd']; subst. constructor.
  - intros Hin. apply in_map_iff in Hin. destruct Hin as [[k' x'] [E Hin]].
    simpl in E. subst x'.
    assert (k' = k) by (apply (Hinj k' k x); [right; exact Hin | left; reflexivity]).
    subst k'. apply Hnotin. apply (in_map fst) in Hin. exact Hin.
  - apply IH; [exact Hnd'|]. intros k1 k2 y H1 H2. apply (Hinj k1 k2 y); right; assumption.
Qed.

Lemma children_snd_nodup (nodes : AhoCorasick.AhoCorasick) (paths : list (list jsstring))
      (i : nat) :
  paths_of nodes paths -> NoDup (map snd (children_of nodes i)).
Proof.
  intros Ht. apply nodup_snd; [apply Ht|].
  intros k1 k2 x H1 H2.
  apply (entry_step nodes paths Ht) in H1. apply (entry_step nodes paths Ht) in H2.
  pose proof (step_in_range nodes i x k1 H1) as Hi.
  destruct (step_path nodes paths Ht i x k1 Hi H1) as [_ E1].
  destruct (step_path nodes paths Ht i x k2 Hi H2) as [_ E2].
  rewrite E1 in E2. apply app_inj_tail in E2. destruct E2 as [_ E2]. exact E2.
Qed.

Lemma nodup_bounded (l : list nat) (n : nat) :
  NoDup l -> (forall x, In x l -> 0 < x /\ x < n) -> length l < n \/ l = [].
Proof.
  intros Hnd Hb. destruct l as [|y l]; [right; reflexivity|]. left.
  assert (Hincl : incl (y :: l) (seq 1 (n - 1))).
  { intros x Hx. apply in_seq. specialize (Hb x Hx). lia. }
  pose proof (NoDup_incl_length Hnd Hincl) as H. rewrite length_seq in H.
  specialize (Hb y (or_introl eq_refl)). simpl in *. lia.
Qed.

Section BuildLoops.
Variable words : list jsstring.
Variable nodes0 : AhoCorasick.AhoCorasick.
Variable paths : list (list jsstring).
Hypothesis Hins : inserted words nodes0 paths.

Lemma build_children_ok (pend : list (jsstring * nat)) :
  forall (nodes : AhoCorasick.AhoCorasick) (queue done : list nat) (d c : nat),
    bfs_inv words nodes0 paths nodes queue done pend d ->
    In c done -> depth paths c = d ->
    (forall k x, In (k, x) pend -> step nodes0 c k = Some x /\ ~ In x (queue ++ done)) ->
    NoDup (map snd pend) ->
    exists nodes' queue',
      foldM (AhoCorasick.build_child c) pend (nodes, queue) = Returns (nodes', queue')
      /\ bfs_inv words nodes0 paths nodes' queue' done [] d.
Proof.
  induction pend as [|[k x] pend IH]; intros nodes queue done d c I Hc Hd Hp Hnd.
  - exists nodes, queue. split; [reflexivity | exact I].
  - destruct (Hp k x (or_introl eq_refl)) as [Hs Hfresh].
    simpl in Hnd. inversion Hnd as [|? ? Hnotin Hnd']; subst.
    destruct (build_child_ok words nodes0 paths Hins nodes queue done pend (depth paths c) c k x
                I Hc eq_refl Hs Hfresh Hnotin) as [nodes1 [E1 I1]].
    destruct (IH nodes1 (queue ++ [x]) done (depth paths c) c I1 Hc eq_refl)
      as [nodes2 [queue2 [E2 I2]]].
    + intros k' x' Hin. destruct (Hp k' x' (or_intror Hin)) as [Hs' Hf']. split; [exact Hs'|].
      intros Hv. rewrite <- app_assoc in Hv. apply in_app_or in Hv.
      destruct Hv as [Hv|Hv]; [apply Hf'; apply in_or_app; left; exact Hv|].
      destruct Hv as [<-|Hv]; [|apply Hf'; apply in_or_app; right; exact Hv].
      apply Hnotin. apply (in_map snd) in Hin. exact Hin.
    + exact Hnd'.
    + exists nodes2, queue2. cbn [foldM]. rewrite E1. cbn [bind]. auto.
Qed.

(** The head of the queue sets the level. *)
Lemma bfs_head_level (nodes : AhoCorasick.AhoCorasick) (c : nat) (queue done : list nat)
      (d : nat) :
  bfs_inv words nodes0 paths nodes (c :: queue) done [] d ->
  bfs_inv words nodes0 paths nodes (c :: queue) done [] (depth paths c).
Proof.
  intros I. pose proof (tree0 words nodes0 paths Hins) as Ht0.
  destruct (bi_queue I) as [qa [qb [Eq [Ha Hb]]]].
  destruct qa as [|a qa].
  - (* the level below is exhausted *)
    simpl in Eq. subst qb.
    assert (Hdc : depth paths c = S d) by (apply Hb; left; reflexivity).
    rewrite Hdc.
    assert (Hdone : forall j, 0 < j -> j < length nodes0 -> depth paths j <= d -> In j done).
    { intros j H0 Hj Hd. pose proof (bi_level I j H0 Hj Hd) as Hv.
      apply in_app_or in Hv. destruct Hv as [Hv|Hv]; [|exact Hv].
      apply Hb in Hv. lia. }
    constructor;
      [ exact (bi_len I) | exact (bi_children I) | exact (bi_final I) | exact (bi_root I)
      | exact (bi_raw I) | exact (bi_range I) | exact (bi_nodup I) | | | | exact (bi_parent I) | ].
    + intros j H0 Hj Hd.
      destruct (Nat.eq_dec (depth paths j) (S d)) as [E|Hne];
        [|apply (bi_level I); auto; lia].
      destruct (path_parent nodes0 paths Ht0 j H0 Hj) as [p [k [Hp [Hs Ep]]]].
      assert (Hdp : depth paths p = d).
      { pose proof (step_depth nodes0 paths p j k Ht0 Hs). lia. }
      assert (Hp0 : 0 < p).
      { destruct p; [|lia]. destruct (paths_root nodes0 paths Ht0) as [_ E0].
        unfold depth in Hdp. rewrite E0 in Hdp. simpl in Hdp. pose proof (bi_pos I). lia. }
      destruct (bi_done I p (Hdone p Hp0 Hp (Nat.eq_le_incl _ _ Hdp))) as [_ Hch].
      destruct (Hch k j Hs) as [Hv|[]]. exact Hv.
    + exists (c :: queue), []. split; [now rewrite app_nil_r|].
      split; [exact Hb | intros x []].
    + intros j Hj. destruct (bi_done I j Hj) as [Hd Hch]. split; [lia | exact Hch].
    + pose proof (bi_pos I). lia.
  - injection Eq as <- Eq.
    assert (Hdc : depth paths c = d) by (apply Ha; left; reflexivity).
    rewrite Hdc. exact I.
Qed.

Lemma build_loop_ok (fuel : nat) :
  forall (nodes : AhoCorasick.AhoCorasick) (queue done : list nat) (d : nat),
    bfs_inv words nodes0 paths nodes queue done [] d ->
    length nodes0 <= length done + fuel ->
    exists nodes' done' d',
      AhoCorasick.build_loop fuel nodes queue = Returns nodes'
      /\ bfs_inv words nodes0 paths nodes' [] done' [] d'.
Proof.
  pose proof (tree0 words nodes0 paths Hins) as Ht0.
  induction fuel as [|fuel IH]; intros nodes queue done d I Hfuel.
  - destruct queue as [|c queue].
    + exists nodes, done, d. split; [reflexivity | exact I].
    + exfalso.
      destruct (nodup_bounded (( c :: queue) ++ done) (length nodes0) (bi_nodup I) (bi_range I))
        as [H|H]; [|discriminate].
      rewrite length_app in H. simpl in H. lia.
  - destruct queue as [|c queue].
    + exists nodes, done, d. split; [reflexivity | exact I].
    + apply bfs_head_level in I. clear d. set (d := depth paths c) in *.
      cbn [AhoCorasick.build_loop].
      assert (Hcv : In c ((c :: queue) ++ done)) by (left; reflexivity).
      destruct (bi_range I c Hcv) as [Hc0 Hcn].
      assert (Hcn' : c < length nodes) by (rewrite (bi_len I); exact Hcn).
      destruct (node_in_range nodes c Hcn') as [cur [Ecur ->]]. cbn [bind].
      assert (Ech : AhoCorasick.children cur = children_of nodes0 c).
      { rewrite <- (bi_children I). unfold children_of. now rewrite Ecur. }
      rewrite Ech.
      pose proof (bi_nodup I) as Hnd. cbn [app] in Hnd.
      inversion Hnd as [|? ? Hcfresh Hnd']; subst.
      assert (Hperm : forall j, In j (queue ++ c :: done) <-> In j ((c :: queue) ++ done)).
      { intros j. rewrite !in_app_iff. simpl. tauto. }
      assert (I1 : bfs_inv words nodes0 paths nodes queue (c :: done)
                           (children_of nodes0 c) d).
      { constructor;
          [ exact (bi_len I) | exact (bi_children I) | | exact (bi_root I)
          | | | | | | | | exact (bi_pos I) ].
        - intros j Hj. apply (bi_final I). apply Hperm. exact Hj.
        - intros j H0 Hj Hnv. apply (bi_raw I); auto. intros Hv. apply Hnv. apply Hperm. exact Hv.
        - intros j Hj. apply (bi_range I). apply Hperm. exact Hj.
        - apply (Permutation.Permutation_NoDup (l := c :: queue ++ done));
            [apply Permutation.Permutation_middle | exact Hnd].
        - intros j H0 Hj Hd. apply Hperm. apply (bi_level I); assumption.
        - destruct (bi_queue I) as [qa [qb [Eq [Ha Hb]]]].
          destruct qa as [|a qa].
          + simpl in Eq. subst qb. exfalso.
            assert (depth paths c = S d) by (apply Hb; left; reflexivity). unfold d in *. lia.
          + injection Eq as <- Eq. exists qa, qb. split; [exact Eq|].
            split; [intros x Hx; apply Ha; right; exact Hx | exact Hb].
        - intros j [<-|Hj].
          + split; [unfold d; lia|]. intros k x Hs. right. apply step_entry. exact Hs.
          + destruct (bi_done I j Hj) as [Hd Hch]. split; [exact Hd|].
            intros k x Hs. destruct (Hch k x Hs) as [Hv|[]]. left. apply Hperm. exact Hv.
        - intros x Hx. apply Hperm in Hx. destruct (bi_parent I x Hx) as [H1|[p [k [Hp Hs]]]].
          + left. exact H1.
          + right. exists p, k. split; [right; exact Hp | exact Hs]. }
      destruct (build_children_ok (children_of nodes0 c) nodes queue (c :: done) d c I1)
        as [nodes1 [queue1 [E1 I2]]].
      * left. reflexivity.
      * reflexivity.
      * intros k x Hin. pose proof (entry_step nodes0 paths Ht0 c k x Hin) as Hs.
        split; [exact Hs|]. intros Hv. apply Hperm in Hv.
        pose proof (step_depth nodes0 paths c x k Ht0 Hs) as Hdx.
        destruct (bi_parent I x Hv) as [H1|[p [k' [Hp Hs']]]].
        -- pose proof (bi_pos I). unfold d in *. lia.
        -- pose proof (step_in_range nodes0 p x k' Hs') as Hpn.
           destruct (step_path nodes0 paths Ht0 p x k' Hpn Hs') as [_ E1].
           destruct (step_path nodes0 paths Ht0 c x k Hcn Hs) as [_ E2].
           rewrite E1 in E2. apply app_inj_tail in E2. destruct E2 as [E2 _].
           assert (p = c) by (apply (path_inj nodes0 paths Ht0); auto). subst p.
           apply Hcfresh. apply in_or_app. right. exact Hp.
      * apply (children_snd_nodup nodes0 paths c Ht0).
      * rewrite E1. cbn [bind].
        apply (IH nodes1 queue1 (c :: done) d I2). simpl. lia.
Qed.

End BuildLoops.

(** ** [build] returns, with the links and outputs in place *)

Lemma build_init_ok (es : list (jsstring * nat)) :
  forall (nodes : AhoCorasick.AhoCorasick) (queue : list nat),
    (forall e, In e es -> snd e < length nodes) ->
    exists nodes',
      foldM AhoCorasick.build_init es (nodes, queue) = Returns (nodes', queue ++ map snd es)
      /\ length nodes' = length nodes
      /\ (forall j, children_of nodes' j = children_of nodes j)
      /\ (forall j, outputs_of nodes' j = outputs_of nodes j)
      /\ (forall j, In j (map snd es) -> fail_of nodes' j = 0).
Proof.
  induction es as [|[k x] es IH]; intros nodes queue Hr.
  - exists nodes. rewrite app_nil_r. simpl. repeat split; auto. intros j [].
  - assert (Hx : x < length nodes) by (apply (Hr (k, x)); left; reflexivity).
    destruct (node_in_range nodes x Hx) as [n [En Enode]].
    set (nodes1 := set_index nodes x (AhoCorasick.set_fail n 0)).
    assert (El1 : length nodes1 = length nodes) by apply length_set_index.
    destruct (IH nodes1 (queue ++ [x])) as [nodes2 [E2 [El2 [Ec2 [Eo2 Ef2]]]]].
    { intros e He. rewrite El1. apply Hr. right. exact He. }
    exists nodes2. cbn [foldM AhoCorasick.build_init snd]. rewrite Enode. cbn [bind].
    fold nodes1. cbn [map snd].
    split; [rewrite <- app_assoc in E2; exact E2|]. split; [lia|]. split; [|split].
    + intros j. rewrite Ec2.
      apply (children_set_index nodes x j n); [exact En | reflexivity].
    + intros j. rewrite Eo2. unfold nodes1. rewrite outputs_set_index by exact Hx.
      destruct (Nat.eqb_spec j x) as [->|_]; [|reflexivity].
      unfold outputs_of. now rewrite En.
    + intros j [<-|Hj]; [|apply Ef2; exact Hj].
      destruct (in_dec Nat.eq_dec x (map snd es)) as [Hin|Hnin]; [apply Ef2; exact Hin|].
      (* the later rounds leave the link of [x] alone *)
      clear - E2 Hnin Hx El1 En.
      assert (G : forall es nodes queue nodes' queue',
                 foldM AhoCorasick.build_init es (nodes, queue) = Returns (nodes', queue') ->
                 ~ In x (map snd es) -> fail_of nodes' x = fail_of nodes x).
      { clear. induction es as [|[k y] es IH]; intros nodes queue nodes' queue' E Hn.
        - simpl in E. injection E as <- _. reflexivity.
        - cbn [foldM AhoCorasick.build_init snd] in E.
          apply bind_Returns in E. destruct E as [[nodes1 queue1] [E1 E]].
          apply bind_Returns in E1. destruct E1 as [n [En E1]].
          injection E1 as <- <-.
          rewrite (IH _ _ _ _ E) by (intros H; apply Hn; right; exact H).
          unfold fail_of. rewrite at_index_set_other; [reflexivity|].
          intros ->. apply Hn. left. reflexivity. }
      rewrite (G _ _ _ _ _ E2 Hnin). unfold nodes1, fail_of.
      rewrite at_index_set_same by exact Hx. reflexivity.
Qed.

Lemma own_root (words : list jsstring) : own words [] = [].
Proof.
  destruct (own words []) as [|len l] eqn:E; [reflexivity|].
  assert (Hin : In len (own words [])) by (rewrite E; left; reflexivity).
  apply own_In in Hin. destruct Hin as [w [_ [Hne [Hk _]]]].
  apply codePoints_nil_inv in Hk. contradiction.
Qed.

Section BuildFinal.
Variable words : list jsstring.
Variable nodes0 : AhoCorasick.AhoCorasick.
Variable paths : list (list jsstring).
Hypothesis Hins : inserted words nodes0 paths.


Lemma bfs_all_done (nodes : AhoCorasick.AhoCorasick) (done : list nat) (d : nat) :
  bfs_inv words nodes0 paths nodes [] done [] d ->
  forall m j, depth paths j = m -> 0 < j -> j < length nodes0 -> In j done.
Proof.
  intros I. pose proof (tree0 words nodes0 paths Hins) as Ht0.
  induction m as [|m IH]; intros j Hd H0 Hj.
  - apply (depth_root nodes0 paths j Ht0 Hj) in Hd. lia.
  - destruct (path_parent nodes0 paths Ht0 j H0 Hj) as [p [k [Hp [Hs Ep]]]].
    pose proof (step_depth nodes0 paths p j k Ht0 Hs) as Hdj.
    destruct (Nat.eq_dec p 0) as [->|Hne].
    + destruct (paths_root nodes0 paths Ht0) as [_ E0].
      unfold depth in Hdj at 2. rewrite E0 in Hdj. simpl in Hdj.
      apply (bi_level I j H0 Hj). pose proof (bi_pos I). lia.
    + assert (Hpd : In p done) by (apply (IH p); lia).
      destruct (bi_done I p Hpd) as [_ Hch].
      destruct (Hch k j Hs) as [Hv|[]]. exact Hv.
Qed.

Theorem build_ok :
  exists nodes, AhoCorasick.build nodes0 = Returns nodes /\ built words nodes paths.
Proof.
  pose proof (tree0 words nodes0 paths Hins) as Ht0.
  destruct Hins as [_ [Hout Hwords]].
  destruct (paths_root nodes0 paths Ht0) as [H0n E0].
  unfold AhoCorasick.build.
  destruct (node_in_range nodes0 0 H0n) as [root [Eroot ->]]. cbn [bind].
  assert (Ech : AhoCorasick.children root = children_of nodes0 0)
    by (unfold children_of; now rewrite Eroot).
  rewrite Ech.
  assert (Hentry : forall k x, In (k, x) (children_of nodes0 0) ->
                               x < length nodes0 /\ nth x paths [] = [k]).
  { intros k x Hin. apply (entry_step nodes0 paths Ht0) in Hin.
    destruct (step_path nodes0 paths Ht0 0 x k H0n Hin) as [Hx Ex].
    rewrite E0 in Ex. auto. }
  destruct (build_init_ok (children_of nodes0 0) nodes0 [])
    as [nodes1 [E1 [El1 [Ec1 [Eo1 Ef1]]]]].
  { intros [k x] He. apply (Hentry k x He). }
  rewrite E1. cbn [bind app].
  set (queue := map snd (children_of nodes0 0)) in *.
  assert (Hq : forall x, In x queue -> exists k, In (k, x) (children_of nodes0 0)).
  { intros x Hx. apply in_map_iff in Hx. destruct Hx as [[k y] [<- Hin]]. eauto. }
  assert (I : bfs_inv words nodes0 paths nodes1 queue [] [] 1).
  { constructor.
    - exact El1.
    - exact Ec1.
    - intros j Hj. rewrite app_nil_r in Hj.
      destruct (Hq j Hj) as [k Hin]. destruct (Hentry k j Hin) as [Hjn Ej]. split.
      + unfold fail_ok. rewrite (Ef1 j Hj), El1, E0, Ej. split; [exact H0n|]. split.
        * exists [k]. split; [discriminate | reflexivity].
        * intros t [pre [Hpre E]] _. destruct pre as [|a pre]; [congruence|].
          destruct pre; [|destruct pre; discriminate].
          simpl in E. injection E as _ E. destruct t; [apply suffix_refl | discriminate].
      + intros len. rewrite Eo1, (Hout j Hjn), own_In, Ej. split.
        * intros [w [Hw [Hne [Hk ->]]]]. exists w. rewrite Hk.
          repeat split; auto. apply suffix_refl.
        * intros [w [Hw [Hne [Hs ->]]]]. exists w. repeat split; auto.
          destruct (suffix_cases _ _ Hs) as [E|Hp]; [exact E|].
          exfalso. apply proper_suffix_length in Hp. simpl in Hp.
          assert (El : length (codePoints w) = 0) by lia.
          apply length_zero_iff_nil in El. apply codePoints_nil_inv in El. contradiction.
    - rewrite Eo1, (Hout 0 H0n), E0. apply own_root.
    - intros j Hj0 Hj Hnv. rewrite Eo1. apply Hout. exact Hj.
    - intros j Hj. rewrite app_nil_r in Hj.
      destruct (Hq j Hj) as [k Hin]. destruct (Hentry k j Hin) as [Hjn Ej]. split; [|exact Hjn].
      destruct j; [|lia]. rewrite E0 in Ej. discriminate.
    - rewrite app_nil_r. apply (children_snd_nodup nodes0 paths 0 Ht0).
    - intros j Hj0 Hj Hd. rewrite app_nil_r.
      destruct (path_parent nodes0 paths Ht0 j Hj0 Hj) as [p [k [Hp [Hs Ep]]]].
      pose proof (step_depth nodes0 paths p j k Ht0 Hs) as Hdj.
      assert (Hdp : depth paths p = 0) by lia.
      apply (depth_root nodes0 paths p Ht0 Hp) in Hdp. subst p.
      apply step_entry in Hs. apply (in_map snd) in Hs. exact Hs.
    - exists queue, []. split; [now rewrite app_nil_r|]. split; [|intros x []].
      intros x Hx. destruct (Hq x Hx) as [k Hin]. destruct (Hentry k x Hin) as [_ Ex].
      unfold depth. now rewrite Ex.
    - intros j [].
    - intros x Hx. left. rewrite app_nil_r in Hx.
      destruct (Hq x Hx) as [k Hin]. destruct (Hentry k x Hin) as [_ Ex].
      unfold depth. now rewrite Ex.
    - lia. }
  destruct (build_loop_ok words nodes0 paths Hins (length nodes0) nodes1 queue [] 1 I)
    as [nodes2 [done2 [d2 [E2 I2]]]]; [simpl; lia|].
  exists nodes2. split; [exact E2|].
  pose proof (bfs_tree words nodes0 paths Hins _ _ _ _ _ I2) as Ht2.
  split; [exact Ht2|]. split; [|split].
  - intros j Hj0 Hj. rewrite (bi_len I2) in Hj. apply (bi_final I2).
    apply (bfs_all_done nodes2 done2 d2 I2 (depth paths j) j eq_refl Hj0 Hj).
  - intros j Hj. rewrite (bi_len I2) in Hj.
    destruct (Nat.eq_dec j 0) as [->|Hne].
    + apply (root_out_ok words paths nodes2 Ht2). apply (bi_root I2).
    + apply (bi_final I2).
      apply (bfs_all_done nodes2 done2 d2 I2 (depth paths j) j eq_refl); [lia | exact Hj].
  - exact Hwords.
Qed.

End BuildFinal.

(** ** One step of the automaton *)

Section RunFacts.
Variable U : Unicode.
Variable words : list jsstring.
Variable nodes : AhoCorasick.AhoCorasick.
Variable paths : list (list jsstring).
Variable whole : bool.
Variable seps : list jsstring.
Hypothesis Hb : built words nodes paths.

Lemma built_tree : paths_of nodes paths.
Proof. apply Hb. Qed.

Lemma run_step (read : list jsstring) (state : nat) (k : jsstring) :
  state < length nodes ->
  longest_suffix_path paths read (nth state paths []) ->
  exists g n1 state2 n2,
    AhoCorasick.follow_fail (S (length nodes)) nodes k state = Returns g
    /\ AhoCorasick.node nodes g = Returns n1
    /\ state2 = orElse (map_get str_eqb k (AhoCorasick.children n1)) g
    /\ AhoCorasick.node nodes state2 = Returns n2
    /\ AhoCorasick.terminalLengths n2 = outputs_of nodes state2
    /\ state2 < length nodes
    /\ longest_suffix_path paths (read ++ [k]) (nth state2 paths []).
Proof.
  intros Hs [Hsuf [Hin Hlong]]. pose proof built_tree as Ht.
  destruct Hb as [_ [Hfail _]].
  destruct (follow_fail_ok nodes paths k Ht (S (length nodes)) state Hs)
    as [g [Eg [Hg [Hsg [Hgk Hgl]]]]].
  { intros j H0 Hj _. apply Hfail; assumption. }
  { pose proof (depth_lt nodes paths state Ht Hs). lia. }
  destruct (node_in_range nodes g Hg) as [n1 [En1 Enode1]].
  assert (Est : orElse (map_get str_eqb k (AhoCorasick.children n1)) g
                = match step nodes g k with Some y => y | None => g end).
  { unfold step, children_of. rewrite En1.
    destruct (map_get str_eqb k (AhoCorasick.children n1)); reflexivity. }
  destruct (paths_root nodes paths Ht) as [H0n E0].
  assert (Hnext : match step nodes g k with Some y => y | None => g end < length nodes
                  /\ longest_suffix_path paths (read ++ [k])
                       (nth (match step nodes g k with Some y => y | None => g end) paths [])).
  { destruct (step nodes g k) as [y|] eqn:Ey.
    - destruct (step_path nodes paths Ht g y k Hg Ey) as [Hy Epy].
      split; [exact Hy|]. rewrite Epy. split; [|split].
      + apply suffix_snoc. apply (suffix_trans _ _ _ Hsg Hsuf).
      + rewrite <- Epy. apply (path_in nodes paths Ht). exact Hy.
      + intros t Hts Htin.
        destruct (suffix_snoc_inv _ _ _ Hts) as [->|[t' [-> Hts']]]; [apply suffix_nil|].
        apply suffix_snoc. apply Hgl; [|exact Htin].
        apply Hlong; [exact Hts'|]. apply (path_prefix nodes paths Ht t' [k]). exact Htin.
    - destruct Hgk as [->|Hgk]; [|congruence].
      split; [exact H0n|]. rewrite E0. split; [apply suffix_nil|]. split.
      + rewrite <- E0. apply (path_in nodes paths Ht). exact H0n.
      + intros t Hts Htin.
        destruct (suffix_snoc_inv _ _ _ Hts) as [->|[t' [-> Hts']]]; [apply suffix_nil|].
        exfalso.
        assert (Hs' : suffix t' (nth 0 paths [])).
        { apply Hgl; [|exact Htin].
          apply Hlong; [exact Hts'|]. apply (path_prefix nodes paths Ht t' [k]). exact Htin. }
        rewrite E0 in Hs'. apply suffix_of_nil in Hs'. subst t'.
        destruct (path_step nodes paths Ht 0 k H0n) as [y Hy]; [rewrite E0; exact Htin|].
        congruence. }
  destruct Hnext as [Hn Hl]. rewrite <- Est in Hn, Hl.
  destruct (node_in_range nodes _ Hn) as [n2 [En2 Enode2]].
  exists g, n1, (orElse (map_get str_eqb k (AhoCorasick.children n1)) g), n2.
  split; [exact Eg|]. split; [exact Enode1|]. split; [reflexivity|].
  split; [exact Enode2|]. split; [unfold outputs_of; now rewrite En2|].
  split; [exact Hn | exact Hl].
Qed.

(** The outputs of the state reached are the words that end the text read. *)
Lemma state_outputs (read : list jsstring) (state : nat) (len : nat) :
  state < length nodes ->
  longest_suffix_path paths read (nth state paths []) ->
  In len (outputs_of nodes state)
  <-> exists w, In w words /\ w <> [] /\ suffix (codePoints w) read /\ len = length w.
Proof.
  intros Hs [Hsuf [Hin Hlong]].
  destruct Hb as [_ [_ [Hout Hw]]]. rewrite (Hout state Hs len). split.
  - intros [w [H1 [H2 [H3 H4]]]]. exists w.
    split; [exact H1|]. split; [exact H2|]. split; [|exact H4].
    apply (suffix_trans _ _ _ H3 Hsuf).
  - intros [w [H1 [H2 [H3 H4]]]]. exists w.
    split; [exact H1|]. split; [exact H2|]. split; [|exact H4].
    apply Hlong; [exact H3|]. apply Hw; assumption.
Qed.

(** ** The spans that [run] collects *)

Lemma emit_eq (text : jsstring) (toOrig : option (list nat)) (i : nat)
      (results : list Span) (len : nat) :
  AhoCorasick.emit U whole text toOrig i results len
  = results ++ opt_list (emit_span U whole text toOrig i len).
Proof.
  unfold AhoCorasick.emit, emit_span, orig, left_ok, right_ok.
  destruct (Z.of_nat i - Z.of_nat len + 1 <? 0)%Z; [now rewrite app_nil_r|].
  destruct toOrig as [im|];
    match goal with
    | |- context [if ?b then results else _] => destruct b
    end; simpl; now rewrite ?app_nil_r.
Qed.

Lemma fold_emit (text : jsstring) (toOrig : option (list nat)) (i : nat)
      (outputs : list nat) :
  forall results,
    fold_left (AhoCorasick.emit U whole text toOrig i) outputs results
    = results ++ flat_map (fun len => opt_list (emit_span U whole text toOrig i len)) outputs.
Proof.
  induction outputs as [|len outputs IH]; intros results; simpl.
  - now rewrite app_nil_r.
  - rewrite IH, emit_eq, <- app_assoc. reflexivity.
Qed.

Lemma unit_keys_app (a b : jsstring) : unit_keys (a ++ b) = unit_keys a ++ unit_keys b.
Proof. apply map_app. Qed.

Lemma run_ok (text scan : jsstring) (toOrig : option (list nat)) (rest : jsstring) :
  forall (pre : jsstring) (state : nat) (results : list Span),
    scan = pre ++ rest ->
    state < length nodes ->
    longest_suffix_path paths (unit_keys pre) (nth state paths []) ->
    exists out,
      AhoCorasick.run U nodes whole text toOrig rest (length pre) state results
      = Returns (results ++ out)
      /\ forall sp,
          In sp out
          <-> exists i len w,
              length pre <= i /\ i < length scan
              /\ In w words /\ w <> []
              /\ suffix (codePoints w) (unit_keys (firstn (S i) scan))
              /\ len = length w
              /\ emit_span U whole text toOrig i len = Some sp.
Proof.
  induction rest as [|c rest IH]; intros pre state results Escan Hs Hl.
  - exists []. rewrite app_nil_r. split; [reflexivity|].
    intros sp. split; [intros []|]. intros [i [len [w [H1 [H2 _]]]]].
    rewrite Escan, app_nil_r in H2. lia.
  - cbn [AhoCorasick.run].
    destruct (run_step (unit_keys pre) state (unit_str c) Hs Hl)
      as [g [n1 [state2 [n2 [Eg [En1 [Est [En2 [Eout [Hs2 Hl2]]]]]]]]]].
    rewrite Eg. cbn [bind]. rewrite En1. cbn [bind]. rewrite <- Est. rewrite En2. cbn [bind].
    rewrite Eout, fold_emit.
    assert (Epre : unit_keys pre ++ [unit_str c] = unit_keys (pre ++ [c]))
      by (rewrite unit_keys_app; reflexivity).
    rewrite Epre in Hl2.
    destruct (IH (pre ++ [c]) state2
                 (results ++ flat_map (fun len => opt_list
                    (emit_span U whole text toOrig (length pre) len))
                    (outputs_of nodes state2)))
      as [out [Erun Hout]].
    { rewrite Escan, <- app_assoc. reflexivity. }
    { exact Hs2. }
    { exact Hl2. }
    assert (Elen : length (pre ++ [c]) = S (length pre))
      by (rewrite length_app; simpl; lia).
    rewrite Elen in Erun, Hout.
    exists (flat_map (fun len => opt_list (emit_span U whole text toOrig (length pre) len))
                     (outputs_of nodes state2) ++ out).
    split; [rewrite Erun, <- app_assoc; reflexivity|].
    assert (Efirst : firstn (S (length pre)) scan = pre ++ [c]).
    { rewrite Escan.
      replace (pre ++ c :: rest) with ((pre ++ [c]) ++ rest) by (rewrite <- app_assoc; reflexivity).
      rewrite firstn_app, Elen, Nat.sub_diag.
      rewrite firstn_all2 by lia.
      simpl. now rewrite app_nil_r. }
    intros sp. rewrite in_app_iff, Hout, in_flat_map. split.
    + intros [[len [Hlen Hsp]]|[i [len [w [H1 H2]]]]].
      * apply (state_outputs (unit_keys (pre ++ [c])) state2 len Hs2 Hl2) in Hlen.
        destruct Hlen as [w [Hw [Hne [Hsuf ->]]]].
        exists (length pre), (length w), w.
        rewrite Efirst.
        split; [lia|]. split; [rewrite Escan, length_app; simpl; lia|].
        split; [exact Hw|]. split; [exact Hne|]. split; [exact Hsuf|].
        split; [reflexivity|].
        destruct (emit_span U whole text toOrig (length pre) (length w)) as [sp'|];
          simpl in Hsp; [destruct Hsp as [->|[]]; reflexivity | contradiction].
      * exists i, len, w. split; [lia | exact H2].
    + intros [i [len [w [H1 [H2 [Hw [Hne [Hsuf [-> Hsp]]]]]]]]].
      destruct (Nat.eq_dec i (length pre)) as [->|Hne'].
      * left. exists (length w). split.
        -- apply (state_outputs (unit_keys (pre ++ [c])) state2 (length w) Hs2 Hl2).
           exists w. rewrite <- Efirst.
           split; [exact Hw|]. split; [exact Hne|]. split; [exact Hsuf | reflexivity].
        -- rewrite Hsp. left. reflexivity.
      * right. exists i, (length w), w.
        split; [lia|]. split; [exact H2|]. split; [exact Hw|]. split; [exact Hne|].
        split; [exact Hsuf|]. split; [reflexivity | exact Hsp].
Qed.

End RunFacts.

(** ** Code points and code units *)

Lemma codePoints_cons2 (c d : N) (r : jsstring) :
  codePoints (c :: d :: r)
  = if is_high_surrogate c && is_low_surrogate d
    then [c; d] :: codePoints r
    else [c] :: codePoints (d :: r).
Proof. reflexivity. Qed.

Lemma concat_codePoints_bounded (n : nat) :
  forall w, length w <= n -> concat (codePoints w) = w.
Proof.
  induction n as [|n IH]; intros w Hn.
  - destruct w; [reflexivity | simpl in Hn; lia].
  - destruct w as [|c [|d r]]; try reflexivity.
    rewrite codePoints_cons2.
    destruct (is_high_surrogate c && is_low_surrogate d).
    + cbn [concat app]. rewrite IH by (simpl in Hn; lia). reflexivity.
    + cbn [concat app]. rewrite IH by (simpl in *; lia). reflexivity.
Qed.

Lemma concat_codePoints (w : jsstring) : concat (codePoints w) = w.
Proof. apply (concat_codePoints_bounded (length w)). lia. Qed.

Lemma concat_unit_keys (u : jsstring) : concat (unit_keys u) = u.
Proof. induction u as [|c u IH]; simpl; [reflexivity | now rewrite IH]. Qed.

(** A word that is read one code unit at a time is the text it matches. *)
Lemma codePoints_unit_keys (w u : jsstring) : codePoints w = unit_keys u -> w = u.
Proof.
  intros E. pose proof (concat_codePoints w) as H.
  rewrite E, concat_unit_keys in H. congruence.
Qed.

(** ** Kept code units and their ranks *)

Section RankFacts.
Variable seps : list jsstring.

Lemma kept_app (a b : jsstring) : kept seps (a ++ b) = kept seps a ++ kept seps b.
Proof. apply filter_app. Qed.

Lemma kept_firstn (text : jsstring) (p : nat) :
  kept seps (firstn p text) = firstn (rank seps text p) (kept seps text).
Proof.
  unfold rank. rewrite <- (firstn_skipn p text) at 3.
  rewrite kept_app, firstn_app, Nat.sub_diag, firstn_all. simpl. now rewrite app_nil_r.
Qed.

Lemma rank_le_length (text : jsstring) (p : nat) :
  rank seps text p <= length (kept seps text).
Proof.
  unfold rank. rewrite <- (firstn_skipn p text) at 2. rewrite kept_app, length_app. lia.
Qed.

Lemma firstn_S_nth (text : jsstring) (p : nat) :
  p < length text -> firstn (S p) text = firstn p text ++ [nth p text 0%N].
Proof.
  revert p. induction text as [|c text IH]; intros p Hp; simpl in Hp; [lia|].
  destruct p as [|p]; [reflexivity|].
  cbn [firstn nth app]. rewrite <- IH by lia. reflexivity.
Qed.

Lemma rank_S_kept (text : jsstring) (p : nat) :
  p < length text -> ignored seps (nth p text 0%N) = false ->
  rank seps text (S p) = S (rank seps text p).
Proof.
  intros Hp Hi. unfold rank. rewrite firstn_S_nth by exact Hp.
  rewrite kept_app, length_app. unfold kept at 2. simpl. rewrite Hi. simpl. lia.
Qed.

Lemma rank_S_ignored (text : jsstring) (p : nat) :
  p < length text -> ignored seps (nth p text 0%N) = true ->
  rank seps text (S p) = rank seps text p.
Proof.
  intros Hp Hi. unfold rank. rewrite firstn_S_nth by exact Hp.
  rewrite kept_app, length_app. unfold kept at 2. simpl. rewrite Hi. simpl. lia.
Qed.

Lemma rank_mono (text : jsstring) (p q : nat) :
  p <= q -> rank seps text p <= rank seps text q.
Proof.
  intros Hpq. unfold rank.
  replace q with (p + (q - p)) by lia.
  rewrite <- (firstn_skipn p (firstn (p + (q - p)) text)).
  rewrite firstn_firstn. replace (Nat.min p (p + (q - p))) with p by lia.
  rewrite kept_app, length_app. lia.
Qed.

Lemma rank_lt_kept (text : jsstring) (p q : nat) :
  p < q -> p < length text -> ignored seps (nth p text 0%N) = false ->
  rank seps text p < rank seps text q.
Proof.
  intros Hpq Hp Hi. pose proof (rank_S_kept text p Hp Hi).
  pose proof (rank_mono text (S p) q). lia.
Qed.

Lemma rank_lt_length (text : jsstring) (p : nat) :
  p < length text -> ignored seps (nth p text 0%N) = false ->
  rank seps text p < length (kept seps text).
Proof.
  intros Hp Hi. pose proof (rank_S_kept text p Hp Hi).
  pose proof (rank_le_length text (S p)). lia.
Qed.

(** Every index of the compacted text is the rank of a kept code unit. *)
Lemma rank_onto (text : jsstring) :
  forall a, a < length (kept seps text) ->
            exists p, p < length text /\ ignored seps (nth p text 0%N) = false
                      /\ rank seps text p = a.
Proof.
  induction text as [|c text IH]; intros a Ha; [simpl in Ha; lia|].
  destruct (ignored seps c) eqn:Ei.
  - rewrite kept_cons_ignored in Ha by exact Ei.
    destruct (IH a Ha) as [p [Hp [Hi Hr]]].
    exists (S p). split; [simpl; lia|]. split; [exact Hi|].
    unfold rank in *. cbn [firstn]. rewrite kept_cons_ignored by exact Ei. exact Hr.
  - rewrite kept_cons_kept in Ha by exact Ei.
    destruct a as [|a].
    + exists 0. split; [simpl; lia|]. split; [exact Ei | reflexivity].
    + destruct (IH a) as [p [Hp [Hi Hr]]]; [simpl in Ha; lia|].
      exists (S p). split; [simpl; lia|]. split; [exact Hi|].
      unfold rank in *. cbn [firstn]. rewrite kept_cons_kept by exact Ei. simpl. now rewrite Hr.
Qed.

Lemma slice_firstn (A : Type) (l : list A) (i j : nat) :
  i <= j -> firstn j l = firstn i l ++ slice l i j.
Proof.
  intros Hij. unfold slice.
  rewrite <- (firstn_skipn i (firstn j l)) at 1.
  rewrite firstn_firstn. replace (Nat.min i j) with i by lia.
  f_equal. rewrite skipn_firstn_comm. reflexivity.
Qed.

(** The kept part of a slice that starts and ends on kept code units is
    the slice of the compacted text between their ranks. *)
Lemma kept_slice (text : jsstring) (s e : nat) :
  s <= e -> e < length text -> ignored seps (nth e text 0%N) = false ->
  kept seps (slice text s (S e))
  = slice (kept seps text) (rank seps text s) (S (rank seps text e)).
Proof.
  intros Hse He Hi.
  assert (E1 : kept seps (firstn (S e) text)
               = kept seps (firstn s text) ++ kept seps (slice text s (S e))).
  { rewrite <- kept_app. f_equal. apply slice_firstn. lia. }
  assert (E2 : firstn (S (rank seps text e)) (kept seps text)
               = firstn (rank seps text s) (kept seps text)
                 ++ slice (kept seps text) (rank seps text s) (S (rank seps text e))).
  { apply slice_firstn. pose proof (rank_mono text s e Hse). lia. }
  rewrite !kept_firstn in E1. rewrite (rank_S_kept text e He Hi) in E1.
  rewrite E2 in E1. apply app_inv_head in E1. symmetry. exact E1.
Qed.

End RankFacts.

(** ** The index map of the compaction *)

Lemma rank_cons_ignored (seps : list jsstring) (ch : N) (rest : jsstring) (p : nat) :
  ignored seps ch = true -> rank seps (ch :: rest) (S p) = rank seps rest p.
Proof. intros Ei. unfold rank. cbn [firstn]. now rewrite kept_cons_ignored. Qed.

Lemma rank_cons_kept (seps : list jsstring) (ch : N) (rest : jsstring) (p : nat) :
  ignored seps ch = false -> rank seps (ch :: rest) (S p) = S (rank seps rest p).
Proof. intros Ei. unfold rank. cbn [firstn]. now rewrite kept_cons_kept. Qed.

Lemma compact_spec (seps : list jsstring) (rest : jsstring) :
  forall i,
    fst (AhoCorasick.compact seps rest i) = kept seps rest
    /\ forall p, p < length rest -> ignored seps (nth p rest 0%N) = false ->
                 nth (rank seps rest p) (snd (AhoCorasick.compact seps rest i)) 0 = i + p.
Proof.
  induction rest as [|ch rest IH]; intros i.
  - split; [reflexivity|]. intros p Hp. simpl in Hp. lia.
  - cbn [AhoCorasick.compact]. destruct (IH (S i)) as [Ef Es].
    destruct (AhoCorasick.compact seps rest (S i)) as [cs im] eqn:Ec.
    simpl in Ef, Es.
    change (has (unit_str ch) seps) with (ignored seps ch).
    destruct (ignored seps ch) eqn:Ei; cbn [fst snd].
    + rewrite kept_cons_ignored by exact Ei. split; [exact Ef|].
      intros [|p] Hp Hi; [simpl in Hi; congruence|].
      rewrite rank_cons_ignored by exact Ei.
      simpl in Hp, Hi. rewrite (Es p) by (auto; lia). lia.
    + rewrite kept_cons_kept by exact Ei. split; [now rewrite Ef|].
      intros [|p] Hp Hi; [simpl; lia|].
      rewrite rank_cons_kept by exact Ei. cbn [nth].
      simpl in Hp, Hi. rewrite (Es p) by (auto; lia). lia.
Qed.

Lemma kept_no_seps (text : jsstring) : kept [] text = text.
Proof.
  unfold kept, ignored. simpl. induction text as [|c t IH]; simpl; [reflexivity | now rewrite IH].
Qed.

Lemma rank_no_seps (text : jsstring) (p : nat) : p <= length text -> rank [] text p = p.
Proof. intros Hp. unfold rank. rewrite kept_no_seps, length_firstn. lia. Qed.

(** ** What the automaton reports *)

Lemma word_ends_at (scan w : jsstring) (i : nat) :
  i < length scan ->
  (w <> [] /\ suffix (codePoints w) (unit_keys (firstn (S i) scan)))
  <-> exists a, a <= i /\ w = slice scan a (S i) /\ codePoints w = unit_keys w.
Proof.
  intros Hi. split.
  - intros [Hne [pre E]]. unfold unit_keys in E. apply map_eq_app in E.
    destruct E as [l1 [l2 [E [_ E2]]]].
    assert (Ew : w = l2) by (apply codePoints_unit_keys; symmetry; exact E2).
    subst l2.
    assert (El : length (firstn (S i) scan) = S i) by (rewrite length_firstn; lia).
    rewrite E, length_app in El.
    assert (Hw : 0 < length w) by (destruct w; [congruence | simpl; lia]).
    exists (length l1). split; [lia|]. split; [|symmetry; exact E2].
    unfold slice. rewrite <- (firstn_skipn (S i) scan), E, <- app_assoc.
    rewrite skipn_app, skipn_all, Nat.sub_diag. cbn [skipn app].
    replace (S i - length l1) with (length w) by lia.
    rewrite firstn_app, Nat.sub_diag, firstn_all. simpl. now rewrite app_nil_r.
  - intros [a [Ha [Ew Ek]]].
    assert (El : length w = S i - a).
    { rewrite Ew at 1. unfold slice. rewrite length_firstn, length_skipn. lia. }
    split; [intros ->; cbn [length] in El; lia|].
    exists (unit_keys (firstn a scan)).
    rewrite (slice_firstn _ scan a (S i)) by lia.
    rewrite unit_keys_app, <- Ew, Ek. reflexivity.
Qed.

Lemma emit_span_at (U : Unicode) (whole : bool) (text : jsstring)
      (toOrig : option (list nat)) (a i : nat) :
  a <= i ->
  emit_span U whole text toOrig i (S i - a)
  = if whole && (negb (left_ok U text (orig toOrig a))
                 || negb (right_ok U text (orig toOrig i)))
    then None
    else Some (mkSpan (orig toOrig a) (orig toOrig i - orig toOrig a + 1)).
Proof.
  intros Ha. unfold emit_span.
  assert (E : (Z.of_nat i - Z.of_nat (S i - a) + 1 = Z.of_nat a)%Z) by lia.
  rewrite E. assert (En : (Z.of_nat a <? 0)%Z = false) by (apply Z.ltb_ge; lia).
  rewrite En, Nat2Z.id. reflexivity.
Qed.

Section AhoSpans.
Variable U : Unicode.
Variable words : list jsstring.
Variable nodes : AhoCorasick.AhoCorasick.
Variable paths : list (list jsstring).
Variable whole : bool.
Variable seps : list jsstring.
Hypothesis Hb : built words nodes paths.

Lemma run_spans (text : jsstring) (toOrig : option (list nat)) :
  orig_ok seps text toOrig ->
  exists spans,
    AhoCorasick.run U nodes whole text toOrig (kept seps text) 0 0 [] = Returns spans
    /\ forall sp,
        In sp spans
        <-> exists s e, sp = mkSpan s (e - s + 1) /\ occurs U seps whole words text s e.
Proof.
  intros Hok. pose proof (built_tree words nodes paths Hb) as Ht.
  destruct (paths_root nodes paths Ht) as [H0n E0].
  destruct (run_ok U words nodes paths whole Hb text (kept seps text) toOrig
                   (kept seps text) [] 0 [] eq_refl H0n)
    as [out [Erun Hout]].
  { rewrite E0. split; [apply suffix_refl|]. split.
    - rewrite <- E0. apply (path_in nodes paths Ht). exact H0n.
    - intros t Hs _. exact Hs. }
  exists out. split; [exact Erun|]. intros sp. rewrite Hout. clear Hout Erun.
  set (scan := kept seps text). split.
  - intros [i [len [w [_ [Hi [Hw [Hne [Hsuf [-> Hsp]]]]]]]]].
    destruct (proj1 (word_ends_at scan w i Hi) (conj Hne Hsuf)) as [a [Ha [Ew Ek]]].
    assert (El : length w = S i - a).
    { rewrite Ew at 1. unfold slice. rewrite length_firstn, length_skipn. lia. }
    rewrite El, (emit_span_at U whole text toOrig a i Ha) in Hsp.
    destruct (rank_onto seps text a) as [s [Hs [His Hrs]]]; [fold scan; lia|].
    destruct (rank_onto seps text i Hi) as [e [He [Hie Hre]]].
    rewrite <- Hrs, <- Hre in Hsp. rewrite (Hok s Hs His), (Hok e He Hie) in Hsp.
    assert (Hse : s <= e).
    { destruct (Nat.le_gt_cases s e) as [H|H]; [exact H|].
      pose proof (rank_lt_kept seps text e s H He Hie). lia. }
    exists s, e.
    destruct (whole && (negb (left_ok U text s) || negb (right_ok U text e))) eqn:Eb;
      [discriminate|].
    injection Hsp as <-. split; [reflexivity|].
    split; [exact Hse|]. split; [exact He|]. split; [exact His|]. split; [exact Hie|].
    split.
    + exists w. split; [exact Hw|]. split; [exact Hne|].
      rewrite (kept_slice seps text s e Hse He Hie), Hrs, Hre.
      fold scan. rewrite <- Ew. exact Ek.
    + intros ->. simpl in Eb. apply orb_false_iff in Eb. destruct Eb as [E1 E2].
      apply negb_false_iff in E1, E2. auto.
  - intros [s [e [-> [Hse [He [His [Hie [[w [Hw [Hne Hk]]] Hwh]]]]]]]].
    assert (Hs : s < length text) by lia.
    pose proof (rank_lt_length seps text e He Hie) as Hi. fold scan in Hi.
    pose proof (rank_mono seps text s e Hse) as Ha.
    rewrite (kept_slice seps text s e Hse He Hie) in Hk. fold scan in Hk.
    assert (Ew : w = slice scan (rank seps text s) (S (rank seps text e)))
      by (apply codePoints_unit_keys; exact Hk).
    assert (Ek : codePoints w = unit_keys w) by (rewrite Hk, <- Ew; reflexivity).
    assert (El : length w = S (rank seps text e) - rank seps text s).
    { rewrite Ew at 1. unfold slice. rewrite length_firstn, length_skipn. lia. }
    exists (rank seps text e), (length w), w.
    split; [simpl; lia|]. split; [exact Hi|]. split; [exact Hw|]. split; [exact Hne|].
    split; [apply (word_ends_at scan w _ Hi); exists (rank seps text s); auto|].
    split; [reflexivity|].
    rewrite El, (emit_span_at U whole text toOrig _ _ Ha).
    rewrite (Hok s Hs His), (Hok e He Hie).
    destruct whole; [|reflexivity].
    destruct (Hwh eq_refl) as [-> ->]. reflexivity.
Qed.

(** The automaton reports every occurrence of a word, and nothing else. *)
Theorem aho_findAllMatches_spec (text : jsstring) :
  exists spans,
    AhoCorasick.findAllMatches U nodes whole seps text = Returns spans
    /\ forall sp,
        In sp spans
        <-> exists s e, sp = mkSpan s (e - s + 1) /\ occurs U seps whole words text s e.
Proof.
  unfold AhoCorasick.findAllMatches, AhoCorasick.useIgnore.
  destruct (0 <? length seps) eqn:Eu.
  - destruct (compact_spec seps text 0) as [Ef Es].
    destruct (AhoCorasick.compact seps text 0) as [cs im]. simpl in Ef, Es. subst cs.
    apply run_spans. intros p Hp Hi. simpl. apply Es; assumption.
  - assert (Es0 : seps = []) by (destruct seps; [reflexivity | discriminate]).
    assert (Ek : kept seps text = text) by (rewrite Es0; apply kept_no_seps).
    replace (AhoCorasick.run U nodes whole text None text 0 0 [])
      with (AhoCorasick.run U nodes whole text None (kept seps text) 0 0 [])
      by (rewrite Ek; reflexivity).
    apply run_spans. intros p Hp Hi. simpl. rewrite Es0. apply rank_no_seps. lia.
Qed.

End AhoSpans.

(** ** The two matchers on the same words *)

Lemma automaton_of_words (ws : list jsstring) :
  exists ac paths,
    (a <- AhoCorasick.insertAll ws AhoCorasick.new ;; AhoCorasick.build a) = Returns ac
    /\ built ws ac paths.
Proof.
  destruct (insertAll_ok ws [] AhoCorasick.new [[]] inserted_new) as [nodes0 [paths [E Hi]]].
  simpl in Hi. destruct (build_ok ws nodes0 paths Hi) as [ac [Eb Hb]].
  exists ac, paths. rewrite E. simpl. auto.
Qed.

(** In a built automaton whose paths are prefixes of words, the paths are
    all the prefixes. *)
Lemma built_paths_exact (ws : list jsstring) (ac : AhoCorasick.AhoCorasick)
      (paths : list (list jsstring)) :
  built ws ac paths ->
  (forall p, In p paths -> prefix_of_word ws p) ->
  forall ks, In ks paths <-> prefix_of_word ws ks.
Proof.
  intros Hb Hpre ks. split; [apply Hpre|].
  pose proof (built_tree ws ac paths Hb) as Ht.
  intros [->|[w [q [Hw [Hne Eq]]]]].
  - destruct (paths_root ac paths Ht) as [H0 E0]. rewrite <- E0.
    apply (path_in ac paths Ht). exact H0.
  - apply (path_prefix ac paths Ht ks q). rewrite <- Eq.
    destruct Hb as [_ [_ [_ Hwords]]]. apply Hwords; assumption.
Qed.

(** The nodes of the automaton are the prefixes of its words, the root
    being the empty one. *)
Lemma automaton_exact (ws : list jsstring) :
  exists ac paths,
    (a <- AhoCorasick.insertAll ws AhoCorasick.new ;; AhoCorasick.build a) = Returns ac
    /\ built ws ac paths
    /\ forall ks, In ks paths <-> prefix_of_word ws ks.
Proof.
  destruct (insertAll_exact ws [] AhoCorasick.new [[]] inserted_new)
    as [nodes0 [paths [E [Hi Hpre]]]].
  { intros p [<-|[]]. left. reflexivity. }
  simpl in Hi, Hpre. destruct (build_ok ws nodes0 paths Hi) as [ac [Eb Hb]].
  exists ac, paths. rewrite E. simpl. split; [exact Eb|]. split; [exact Hb|].
  exact (built_paths_exact ws ac paths Hb Hpre).
Qed.

Lemma trie_of_words (ws : list jsstring) (ks : list jsstring) :
  accepts (Trie.insertAll ws Trie.empty) ks = true <-> pattern_of ws ks.
Proof.
  rewrite accepts_insertAll, accepts_empty. split; [intros [H|H]; [discriminate | exact H] | auto].
Qed.

(** Every occurrence is covered by the span that the trie reports from
    its start index. *)
Lemma trie_covers_occurrence (U : Unicode) (whole : bool) (seps words : list jsstring)
      (root : Trie.TrieNode) (text : jsstring) (s e : nat) :
  (forall ks, accepts root ks = true <-> pattern_of words ks) ->
  occurs U seps whole words text s e ->
  exists e', e <= e' /\ occurs U seps whole words text s e'
             /\ In (mkSpan s (e' - s + 1)) (Trie.findAllMatches U root whole seps text)
             /\ forall e'', occurs U seps whole words text s e'' -> e'' <= e'.
Proof.
  intros Hroot Ho.
  assert (Hs : s <= e /\ e < length text /\ ignored seps (nth s text 0%N) = false
               /\ (whole = true -> left_ok U text s = true)).
  { destruct Ho as [H1 [H2 [H3 [_ [_ H6]]]]].
    split; [exact H1|]. split; [exact H2|]. split; [exact H3|].
    intros Hw. now apply H6. }
  destruct Hs as [Hse [He [Hi Hl]]].
  assert (Hs : s < length text) by lia.
  pose proof Ho as Hh. replace e with (s + (e - s)) in Hh by lia.
  apply (hit_occurs U whole seps words root Hroot text s (e - s) Hs Hi Hl) in Hh.
  destruct (walk_complete U whole seps _ _ s None _ Hh) as [k' [Hle [Hh' Hw]]].
  pose proof Hh' as Ho'.
  apply (hit_occurs U whole seps words root Hroot text s k' Hs Hi Hl) in Ho'.
  assert (Hmax : forall e'', occurs U seps whole words text s e'' -> e'' <= s + k').
  { intros e'' Ho''.
    assert (Hse'' : s <= e'') by (destruct Ho'' as [H _]; exact H).
    replace e'' with (s + (e'' - s)) in Ho'' by lia.
    apply (hit_occurs U whole seps words root Hroot text s (e'' - s) Hs Hi Hl) in Ho''.
    destruct (walk_complete U whole seps _ _ s None _ Ho'') as [k'' [Hle'' [_ Hw'']]].
    rewrite Hw in Hw''. injection Hw'' as Hw''. lia. }
  exists (s + k'). split; [lia|]. split; [exact Ho'|]. split; [|exact Hmax].
  apply (trie_findAllMatches_spec U whole seps words root Hroot).
  exists s, (s + k'). split; [reflexivity|]. split; [exact Ho' | exact Hmax].
Qed.

(** C1 (amended).  On the same patterns, text, [wholeWordsOnly] flag and
    separators, the automaton returns, and the spans of the trie are spans
    of the automaton; for every span of the automaton the trie has a span
    from the same index that is at least as long, and it has one span per
    index: the trie reports the longest of the spans that the automaton
    reports from an index. *)
Theorem trie_reports_the_longest_automaton_spans
        (U : Unicode) (patterns : list jsstring) (whole : bool) (seps : list jsstring)
        (text : jsstring) :
  exists ac spans,
    (a <- AhoCorasick.insertAll patterns AhoCorasick.new ;; AhoCorasick.build a) = Returns ac
    /\ AhoCorasick.findAllMatches U ac whole seps text = Returns spans
    /\ (forall sp,
           In sp (Trie.findAllMatches U (Trie.insertAll patterns Trie.empty) whole seps text) ->
           In sp spans)
    /\ (forall sp,
           In sp spans ->
           exists sp',
             In sp' (Trie.findAllMatches U (Trie.insertAll patterns Trie.empty)
                                         whole seps text)
             /\ index sp' = index sp /\ span_length sp <= span_length sp')
    /\ (forall sp sp',
           In sp (Trie.findAllMatches U (Trie.insertAll patterns Trie.empty) whole seps text) ->
           In sp' (Trie.findAllMatches U (Trie.insertAll patterns Trie.empty) whole seps text) ->
           index sp = index sp' -> sp = sp').
Proof.
  destruct (automaton_of_words patterns) as [ac [paths [Eac Hb]]].
  destruct (aho_findAllMatches_spec U patterns ac paths whole seps Hb text) as [spans [Ef Hspans]].
  pose proof (trie_findAllMatches_spec U whole seps patterns
                (Trie.insertAll patterns Trie.empty) (trie_of_words patterns) text) as Htrie.
  exists ac, spans. split; [exact Eac|]. split; [exact Ef|]. split; [|split].
  - intros sp Hin. apply Htrie in Hin. destruct Hin as [s [e [-> [Ho _]]]].
    apply Hspans. exists s, e. auto.
  - intros sp Hin. apply Hspans in Hin. destruct Hin as [s [e [-> Ho]]].
    destruct (trie_covers_occurrence U whole seps patterns _ text s e
                (trie_of_words patterns) Ho) as [e' [Hle [_ [Hin' _]]]].
    exists (mkSpan s (e' - s + 1)). split; [exact Hin'|]. simpl. split; [reflexivity | lia].
  - intros sp sp' Hin Hin' Hidx.
    apply Htrie in Hin. destruct Hin as [s [e [-> [Ho Hmax]]]].
    apply Htrie in Hin'. destruct Hin' as [s' [e' [-> [Ho' Hmax']]]].
    simpl in Hidx. subst s'.
    assert (e = e') by (apply Nat.le_antisymm; [apply Hmax'; exact Ho | apply Hmax; exact Ho']).
    now subst e'.
Qed.

(** With [wholeWordsOnly], the spans of either matcher lie within word
    boundaries. *)
Lemma trie_spans_within_boundaries
      (U : Unicode) (patterns seps : list jsstring) (text : jsstring) (sp : Span) :
  In sp (Trie.findAllMatches U (Trie.insertAll patterns Trie.empty) true seps text) ->
  left_ok U text (index sp) = true
  /\ right_ok U text (index sp + span_length sp - 1) = true.
Proof.
  intros Hin.
  apply (trie_findAllMatches_spec U true seps patterns _ (trie_of_words patterns)) in Hin.
  destruct Hin as [s [e [-> [[Hse [_ [_ [_ [_ Hb]]]]] _]]]]. simpl.
  replace (s + (e - s + 1) - 1) with e by lia. exact (Hb eq_refl).
Qed.

Lemma automaton_spans_within_boundaries
      (U : Unicode) (patterns seps : list jsstring) (ac : AhoCorasick.AhoCorasick)
      (text : jsstring) (spans : list Span) (sp : Span) :
  (a <- AhoCorasick.insertAll patterns AhoCorasick.new ;; AhoCorasick.build a) = Returns ac ->
  AhoCorasick.findAllMatches U ac true seps text = Returns spans ->
  In sp spans ->
  left_ok U text (index sp) = true
  /\ right_ok U text (index sp + span_length sp - 1) = true.
Proof.
  intros Eac Ef Hin.
  destruct (automaton_of_words patterns) as [ac' [paths [Eac' Hb]]].
  rewrite Eac in Eac'. injection Eac' as <-.
  destruct (aho_findAllMatches_spec U patterns ac paths true seps Hb text) as [spans' [Ef' Hsp]].
  rewrite Ef in Ef'. injection Ef' as <-.
  apply Hsp in Hin. destruct Hin as [s [e [-> [Hse [_ [_ [_ [_ Hbd]]]]]]]]. simpl.
  replace (s + (e - s + 1) - 1) with e by lia. exact (Hbd eq_refl).
Qed.


(** ** The matchers that [rebuildMatcherForLanguage] stores *)

Lemma map_get_delete_same (V : Type) (k : jsstring) (m : list (jsstring * V)) :
  map_get str_eqb k (map_delete str_eqb k m) = None.
Proof.
  unfold map_delete. induction m as [|[k' v] m IH]; simpl; [reflexivity|].
  destruct (str_eqb k k') eqn:E; simpl; [exact IH | rewrite E; exact IH].
Qed.

Lemma map_get_delete_other (V : Type) (k k' : jsstring) (m : list (jsstring * V)) :
  k' <> k -> map_get str_eqb k' (map_delete str_eqb k m) = map_get str_eqb k' m.
Proof.
  intros Hne. unfold map_delete. induction m as [|[k0 v] m IH]; simpl; [reflexivity|].
  destruct (str_eqb k k0) eqn:E; simpl.
  - apply str_eqb_eq in E. subst k0.
    destruct (str_eqb k' k) eqn:E'; [apply str_eqb_eq in E'; contradiction | exact IH].
  - destruct (str_eqb k' k0); [reflexivity | exact IH].
Qed.

Lemma pattern_of_app (ws1 ws2 : list jsstring) (ks : list jsstring) :
  pattern_of (ws1 ++ ws2) ks <-> pattern_of ws1 ks \/ pattern_of ws2 ks.
Proof.
  unfold pattern_of. split.
  - intros [w [Hin H]]. apply in_app_or in Hin. destruct Hin; eauto.
  - intros [[w [Hin H]]|[w [Hin H]]]; exists w; (split; [apply in_or_app; auto | exact H]).
Qed.

Lemma pattern_of_incl (ws1 ws2 : list jsstring) (ks : list jsstring) :
  incl ws1 ws2 -> pattern_of ws1 ks -> pattern_of ws2 ks.
Proof. intros Hi [w [Hin H]]. exists w. split; [apply Hi; exact Hin | exact H]. Qed.

Lemma trie_fold_accepts (f : jsstring -> list jsstring) (words : list jsstring) :
  forall (t : Trie.TrieNode) (ks : list jsstring),
    accepts (fold_left (fun t w => Trie.insertAll (f w) t) words t) ks = true
    <-> accepts t ks = true \/ pattern_of (flat_map f words) ks.
Proof.
  induction words as [|w words IH]; intros t ks; simpl.
  - split; [auto | intros [H|[w [[] _]]]; exact H].
  - rewrite IH, accepts_insertAll, pattern_of_app. tauto.
Qed.

Lemma automaton_fold_ok (f : jsstring -> list jsstring) (words : list jsstring) :
  forall (ws0 : list jsstring) (nodes : AhoCorasick.AhoCorasick) (paths : list (list jsstring)),
    inserted ws0 nodes paths ->
    exists nodes' paths',
      foldM (fun ac w => AhoCorasick.insertAll (f w) ac) words nodes = Returns nodes'
      /\ inserted (ws0 ++ flat_map f words) nodes' paths'.
Proof.
  induction words as [|w words IH]; intros ws0 nodes paths Hi; simpl.
  - exists nodes, paths. rewrite app_nil_r. auto.
  - destruct (insertAll_ok (f w) ws0 nodes paths Hi) as [nodes1 [paths1 [E1 Hi1]]].
    rewrite E1. simpl.
    destruct (IH _ _ _ Hi1) as [nodes2 [paths2 [E2 Hi2]]].
    exists nodes2, paths2. split; [exact E2|]. rewrite <- app_assoc in Hi2. exact Hi2.
Qed.

Lemma automaton_fold_exact (f : jsstring -> list jsstring) (words : list jsstring) :
  forall (ws0 : list jsstring) (nodes : AhoCorasick.AhoCorasick) (paths : list (list jsstring)),
    inserted ws0 nodes paths ->
    (forall p, In p paths -> prefix_of_word ws0 p) ->
    exists nodes' paths',
      foldM (fun ac w => AhoCorasick.insertAll (f w) ac) words nodes = Returns nodes'
      /\ inserted (ws0 ++ flat_map f words) nodes' paths'
      /\ (forall p, In p paths' -> prefix_of_word (ws0 ++ flat_map f words) p).
Proof.
  induction words as [|w words IH]; intros ws0 nodes paths Hi Hp; simpl.
  - exists nodes, paths. rewrite app_nil_r. auto.
  - destruct (insertAll_exact (f w) ws0 nodes paths Hi Hp) as [nodes1 [paths1 [E1 [Hi1 Hp1]]]].
    rewrite E1. simpl.
    destruct (IH _ _ _ Hi1 Hp1) as [nodes2 [paths2 [E2 [Hi2 Hp2]]]].
    exists nodes2, paths2. split; [exact E2|]. rewrite <- app_assoc in Hi2, Hp2. auto.
Qed.

Section MatcherFacts.
Variable U : Unicode.

Lemma expandWordVariants_config (pb pb' : ProfanityBuster.ProfanityBuster) (w : jsstring) :
  config pb' = config pb -> expandWordVariants U pb' w = expandWordVariants U pb w.
Proof.
  intros E. unfold expandWordVariants, normalizeWord, normalizationOptions. rewrite E. reflexivity.
Qed.

Lemma variants_config (pb pb' : ProfanityBuster.ProfanityBuster) (ws : list jsstring) :
  config pb' = config pb -> variants U pb' ws = variants U pb ws.
Proof.
  intros E. unfold variants. induction ws as [|w ws IH]; simpl; [reflexivity|].
  rewrite IH, (expandWordVariants_config pb pb' w E). reflexivity.
Qed.

(** A matcher that goes with the word list stays so when the fields it is
    read from are the same. *)
Lemma matcher_consistent_ext (pb pb' : ProfanityBuster.ProfanityBuster) (code : jsstring) :
  config pb' = config pb ->
  wordlist_of pb' code = wordlist_of pb code ->
  map_get str_eqb code (languageTries pb') = map_get str_eqb code (languageTries pb) ->
  map_get str_eqb code (languageAutomata pb') = map_get str_eqb code (languageAutomata pb) ->
  matcher_consistent U pb code -> matcher_consistent U pb' code.
Proof.
  intros Ec Ew Et Ea [Ht Ha]. unfold matcher_consistent.
  rewrite Ew, Et, Ea, (variants_config pb pb' _ Ec). split; assumption.
Qed.

(** [rebuildMatcherForLanguage] returns, under either algorithm; it stores
    the matcher of the word list of [code] and touches nothing else. *)
Lemma rebuildMatcherForLanguage_ok (pb : ProfanityBuster.ProfanityBuster) (code : jsstring) :
  exists pb',
    rebuildMatcherForLanguage U pb code = Returns pb'
    /\ config pb' = config pb
    /\ languageWordlists pb' = languageWordlists pb
    /\ phraseTrie pb' = phraseTrie pb
    /\ phraseList pb' = phraseList pb
    /\ matcher_consistent U pb' code
    /\ (forall c, c <> code ->
                  map_get str_eqb c (languageTries pb') = map_get str_eqb c (languageTries pb)
                  /\ map_get str_eqb c (languageAutomata pb')
                     = map_get str_eqb c (languageAutomata pb))
    /\ match orElse (algorithm (detection (config pb))) trie with
       | trie => exists t, map_get str_eqb code (languageTries pb') = Some t
       | aho => exists ac, map_get str_eqb code (languageAutomata pb') = Some ac
       end.
Proof.
  unfold rebuildMatcherForLanguage.
  destruct (orElse (algorithm (detection (config pb))) trie) eqn:Ealg.
  - eexists. split; [reflexivity|]. simpl.
    split; [reflexivity|]. split; [reflexivity|]. split; [reflexivity|]. split; [reflexivity|].
    split; [|split].
    + split; simpl.
      * intros t Hg. rewrite map_get_set_same in Hg. injection Hg as <-.
        intros ks. rewrite trie_fold_accepts, accepts_empty.
        unfold variants, wordlist_of. simpl.
        split; [intros [H|H]; [discriminate | exact H] | auto].
      * intros ac Hg. rewrite map_get_delete_same in Hg. discriminate.
    + intros c Hc. split; [apply map_get_set_other; congruence | apply map_get_delete_other; exact Hc].
    + rewrite map_get_set_same. eauto.
  - destruct (automaton_fold_ok (expandWordVariants U pb)
                (orElse (map_get str_eqb code (languageWordlists pb)) [])
                [] AhoCorasick.new [[]] inserted_new) as [ac0 [paths [E0 Hi]]].
    simpl in Hi. destruct (build_ok _ ac0 paths Hi) as [ac [Eb Hb]].
    rewrite E0. simpl. rewrite Eb. simpl.
    eexists. split; [reflexivity|]. simpl.
    split; [reflexivity|]. split; [reflexivity|]. split; [reflexivity|]. split; [reflexivity|].
    split; [|split].
    + split; simpl.
      * intros t Hg. rewrite map_get_delete_same in Hg. discriminate.
      * intros ac' Hg. rewrite map_get_set_same in Hg. injection Hg as <-.
        exists paths. exact Hb.
    + intros c Hc. split; [apply map_get_delete_other; exact Hc | apply map_get_set_other; congruence].
    + rewrite map_get_set_same. eauto.
Qed.

(** Rebuilding the matcher of [code] makes the state consistent when the
    other languages are. *)
Lemma rebuild_consistent (pb pb' : ProfanityBuster.ProfanityBuster) (code : jsstring) :
  (forall c, c <> code -> matcher_consistent U pb c) ->
  rebuildMatcherForLanguage U pb code = Returns pb' ->
  consistent U pb'.
Proof.
  intros Hothers E.
  destruct (rebuildMatcherForLanguage_ok pb code) as [pb2 [E2 [Ec [Ew [_ [_ [Hcode [Hsame _]]]]]]]].
  rewrite E in E2. injection E2 as <-.
  intros c. destruct (str_eqb c code) eqn:Ecc.
  - apply str_eqb_eq in Ecc. subst c. exact Hcode.
  - apply str_eqb_neq in Ecc. destruct (Hsame c Ecc) as [Et Ea].
    apply (matcher_consistent_ext pb pb' c Ec); [unfold wordlist_of; rewrite Ew; reflexivity
                                                 | exact Et | exact Ea | exact (Hothers c Ecc)].
Qed.

(** Storing a word list for [code] leaves the other languages as they are. *)
Lemma with_wordlists_others (pb : ProfanityBuster.ProfanityBuster) (code : jsstring)
      (set : list jsstring) :
  consistent U pb ->
  forall c, c <> code ->
            matcher_consistent U
              (with_wordlists pb (map_set str_eqb code set (languageWordlists pb))) c.
Proof.
  intros Hc c Hne.
  apply (matcher_consistent_ext pb _ c); [reflexivity | | reflexivity | reflexivity | exact (Hc c)].
  unfold wordlist_of. simpl. rewrite map_get_set_other by congruence. reflexivity.
Qed.

End MatcherFacts.

(** ** The constructor and [addWord] *)

Section ConstructorFacts.
Variable U : Unicode.
Variable P : Languages.Packs.

Lemma store_and_rebuild (pb : ProfanityBuster.ProfanityBuster) (code : jsstring)
      (set : list jsstring) :
  consistent U pb ->
  exists pb',
    rebuildMatcherForLanguage U
      (with_wordlists pb (map_set str_eqb code set (languageWordlists pb))) code = Returns pb'
    /\ config pb' = config pb
    /\ languageWordlists pb' = map_set str_eqb code set (languageWordlists pb)
    /\ phraseTrie pb' = phraseTrie pb
    /\ phraseList pb' = phraseList pb
    /\ consistent U pb'
    /\ (forall c, c <> code ->
                  map_get str_eqb c (languageTries pb') = map_get str_eqb c (languageTries pb)
                  /\ map_get str_eqb c (languageAutomata pb')
                     = map_get str_eqb c (languageAutomata pb))
    /\ match orElse (algorithm (detection (config pb))) trie with
       | trie => exists t, map_get str_eqb code (languageTries pb') = Some t
       | aho => exists ac, map_get str_eqb code (languageAutomata pb') = Some ac
       end.
Proof.
  intros Hc.
  destruct (rebuildMatcherForLanguage_ok U
              (with_wordlists pb (map_set str_eqb code set (languageWordlists pb))) code)
    as [pb' [E [Ec [Ew [Ept [Epl [Hm [Hsame Hex]]]]]]]].
  exists pb'. split; [exact E|].
  split; [exact Ec|]. split; [exact Ew|]. split; [exact Ept|]. split; [exact Epl|].
  split; [|split; [exact Hsame | exact Hex]].
  apply (rebuild_consistent U
           (with_wordlists pb (map_set str_eqb code set (languageWordlists pb))) pb' code);
    [|exact E].
  apply with_wordlists_others. exact Hc.
Qed.

Lemma blank_consistent (c : ProfanityBusterConfig) :
  consistent U (mkProfanityBuster c [] [] [] PhraseTrie.empty []).
Proof. intros code. split; simpl; intros x H; discriminate. Qed.

Lemma loadLanguagePacks_ok (codes : list jsstring) (pb : ProfanityBuster.ProfanityBuster) :
  consistent U pb ->
  exists pb',
    loadLanguagePacks U P pb codes = Returns pb'
    /\ config pb' = config pb /\ phraseList pb' = phraseList pb /\ consistent U pb'.
Proof.
  intros Hc. unfold loadLanguagePacks.
  destruct (foldM_returns _ _
              (fun a => config a = config pb /\ phraseList a = phraseList pb /\ consistent U a)
              (fun pb code =>
                 let set := if str_eqb code (str "en")
                            then set_of (map (normalizeWord U pb) (Languages.EN_WORDS P))
                            else [] in
                 let pb1 := with_wordlists pb (map_set str_eqb code set (languageWordlists pb)) in
                 rebuildMatcherForLanguage U pb1 code)
              codes pb) as [pb' [E H]].
  - auto.
  - intros a code [Ea [Epl Hca]] _. cbv zeta.
    destruct (store_and_rebuild a code
                (if str_eqb code (str "en")
                 then set_of (map (normalizeWord U a) (Languages.EN_WORDS P)) else []) Hca)
      as [a' [E [Ec [_ [_ [Epl' [Hc' _]]]]]]].
    exists a'. split; [exact E|]. split; [congruence|]. split; [congruence | exact Hc'].
  - exists pb'. split; [exact E | exact H].
Qed.

Lemma addCustomWords_ok (words : list jsstring) (pb : ProfanityBuster.ProfanityBuster) :
  consistent U pb ->
  exists pb',
    addCustomWords U pb words = Returns pb'
    /\ config pb' = config pb /\ phraseList pb' = phraseList pb /\ consistent U pb'.
Proof.
  intros Hc. unfold addCustomWords. destruct words as [|w words]; [eauto|].
  match goal with
  | |- context [with_wordlists pb (map_set str_eqb ?code ?set _)] =>
      destruct (store_and_rebuild pb code set Hc) as [pb' [E [Ec [_ [_ [Epl [Hc' _]]]]]]]
  end.
  exists pb'. auto.
Qed.

Lemma constructor_ok (userConfig : option ProfanityBusterUserConfig) :
  exists pb,
    constructor U P userConfig = Returns pb
    /\ config pb = mergeConfig DEFAULT_CONFIG userConfig
    /\ phraseList pb = []
    /\ consistent U pb.
Proof.
  unfold constructor. cbv zeta.
  destruct (loadLanguagePacks_ok
              (enabledCodes (languages (mergeConfig DEFAULT_CONFIG userConfig)))
              (mkProfanityBuster (mergeConfig DEFAULT_CONFIG userConfig)
                                 [] [] [] PhraseTrie.empty [])
              (blank_consistent _)) as [pb1 [E1 [Ec1 [Epl1 Hc1]]]].
  simpl config at 1. rewrite E1. simpl. simpl in Ec1, Epl1.
  destruct (addCustomWords_ok (customWords (detection (config pb1))) pb1 Hc1)
    as [pb2 [E2 [Ec2 [Epl2 Hc2]]]].
  exists pb2. split; [exact E2|]. split; [congruence|]. split; [congruence | exact Hc2].
Qed.

Lemma addWord_ok (pb : ProfanityBuster.ProfanityBuster) (word : jsstring)
      (language : option jsstring) :
  consistent U pb ->
  exists pb',
    addWord U pb word language = Returns pb'
    /\ config pb' = config pb
    /\ languageWordlists pb'
       = map_set str_eqb (orElse language (fallback (languages (config pb))))
                 (set_add (normalizeWord U pb word)
                          (wordlist_of pb (orElse language (fallback (languages (config pb))))))
                 (languageWordlists pb)
    /\ phraseTrie pb' = phraseTrie pb
    /\ phraseList pb' = phraseList pb
    /\ consistent U pb'
    /\ (forall c, c <> orElse language (fallback (languages (config pb))) ->
                  map_get str_eqb c (languageTries pb') = map_get str_eqb c (languageTries pb)
                  /\ map_get str_eqb c (languageAutomata pb')
                     = map_get str_eqb c (languageAutomata pb))
    /\ match orElse (algorithm (detection (config pb))) trie with
       | trie => exists t, map_get str_eqb (orElse language (fallback (languages (config pb))))
                                   (languageTries pb') = Some t
       | aho => exists ac, map_get str_eqb (orElse language (fallback (languages (config pb))))
                                   (languageAutomata pb') = Some ac
       end.
Proof.
  intros Hc. unfold addWord. cbv zeta.
  exact (store_and_rebuild pb _ _ Hc).
Qed.

(** The detectors that the constructor and [addWord] return are consistent. *)
Lemma returned_constructor_consistent (userConfig : option ProfanityBusterUserConfig)
      (d : ProfanityBuster.ProfanityBuster) :
  consistent U (Sample.returned d (constructor U P userConfig)).
Proof.
  destruct (constructor_ok userConfig) as [pb [E [_ [_ Hc]]]]. rewrite E. exact Hc.
Qed.

Lemma returned_addWord_consistent (pb : ProfanityBuster.ProfanityBuster) (word : jsstring)
      (language : option jsstring) (d : ProfanityBuster.ProfanityBuster) :
  consistent U pb -> consistent U (Sample.returned d (addWord U pb word language)).
Proof.
  intros Hc. destruct (addWord_ok pb word language Hc) as [pb' [E [_ [_ [_ [_ [Hc' _]]]]]]].
  rewrite E. exact Hc'.
Qed.

End ConstructorFacts.

(** C9 (amended).  The constructor rejects no configuration: for every
    user configuration, negative [levenshteinDistance] and [phraseMaxSkips]
    included, it returns a detector, whose configuration is the user's
    merged over the defaults as it came. *)
Theorem constructor_accepts_every_configuration
        (U : Unicode) (P : Languages.Packs) (userConfig : option ProfanityBusterUserConfig) :
  exists pb,
    constructor U P userConfig = Returns pb
    /\ config pb = mergeConfig DEFAULT_CONFIG userConfig.
Proof.
  destruct (constructor_ok U P userConfig) as [pb [E [Ec _]]]. eauto.
Qed.

(** ** The inflection scan on a word that is not empty *)

Section ScanReturns.
Variable U : Unicode.

Lemma starts_with_length (p s : jsstring) : starts_with p s = true -> length p <= length s.
Proof.
  revert s. induction p as [|c p IH]; intros s H; simpl; [lia|].
  destruct s as [|d s]; simpl in H; [discriminate|].
  apply andb_true_iff in H. destruct H as [_ H]. apply IH in H. simpl. lia.
Qed.

Lemma match_suffix_le (suffixes : list jsstring) (rest : jsstring) :
  match_suffix suffixes rest <= length rest.
Proof.
  unfold match_suffix.
  destruct (find (fun s => (0 <? length s) && starts_with s rest) suffixes) as [s|] eqn:E; [|lia].
  apply find_some in E. destruct E as [_ E]. apply andb_true_iff in E.
  destruct E as [_ E]. apply starts_with_length. exact E.
Qed.

Lemma regex_exec_bounds (base : jsstring) (suffixes : list jsstring) (rest : jsstring) :
  forall (i startIdx matched : nat),
    regex_exec base suffixes rest i = Some (startIdx, matched) ->
    i <= startIdx /\ startIdx + matched <= i + length rest /\ length base <= matched.
Proof.
  induction rest as [|c rest IH]; intros i startIdx matched H; simpl in H.
  - destruct (starts_with base []) eqn:E; [|discriminate].
    injection H as <- <-. apply starts_with_length in E.
    pose proof (match_suffix_le suffixes (skipn (length base) [])) as Hm.
    rewrite length_skipn in Hm. cbn [length] in *. lia.
  - destruct (starts_with base (c :: rest)) eqn:E.
    + injection H as <- <-. apply starts_with_length in E.
      pose proof (match_suffix_le suffixes (skipn (length base) (c :: rest))) as Hm.
      rewrite length_skipn in Hm. cbn [length] in *. lia.
    + apply IH in H. simpl. lia.
Qed.

(** Every match moves [lastIndex] forward by the length of the base at
    least, so the rounds left always suffice. *)
Lemma occurrences_loop_returns (base : jsstring) (suffixes : list jsstring) (whole : bool)
      (text : jsstring) :
  base <> [] ->
  forall (fuel lastIndex : nat),
    lastIndex <= length text -> length text - lastIndex < fuel ->
    exists l, occurrences_loop U fuel base suffixes whole text lastIndex = Returns l.
Proof.
  intros Hb. induction fuel as [|fuel IH]; intros lastIndex Hle Hf; [lia|].
  simpl.
  destruct (regex_exec base suffixes (skipn lastIndex text) lastIndex) as [[startIdx matched]|] eqn:E;
    [|eauto].
  apply regex_exec_bounds in E. rewrite length_skipn in E.
  assert (Hlb : 0 < length base) by (destruct base; [contradiction | simpl; lia]).
  destruct (IH (startIdx + matched)) as [l El]; [lia | lia |].
  assert (Em : (matched =? 0) = false) by (apply Nat.eqb_neq; lia).
  rewrite Em, El. simpl.
  destruct (whole && _); eauto.
Qed.

Lemma findWordOccurrencesWithInflections_returns
      (text base : jsstring) (suffixes : list jsstring) (whole : bool) :
  base <> [] ->
  exists l, findWordOccurrencesWithInflections U text base suffixes whole = Returns l.
Proof.
  intros Hb. unfold findWordOccurrencesWithInflections.
  apply occurrences_loop_returns; [exact Hb | lia | lia].
Qed.

Lemma scan_of_returns (pb : ProfanityBuster.ProfanityBuster) (text word : jsstring) :
  word <> [] -> exists l, scan_of U pb text word = Returns l.
Proof. apply findWordOccurrencesWithInflections_returns. Qed.

Lemma scan_of_word (pb : ProfanityBuster.ProfanityBuster) (text word : jsstring)
      (l : list nat) :
  scan_of U pb text word = Returns l -> word <> [].
Proof.
  intros H ->. unfold scan_of, findWordOccurrencesWithInflections in H.
  exact (occurrences_loop_empty_base U _ _ _ _ _ _ H).
Qed.

(** The rounds that [findWordOccurrencesWithInflections] gives the loop
    always suffice: with more of them the outcome is the same. *)
Lemma occurrences_loop_fuel (base : jsstring) (suffixes : list jsstring) (whole : bool)
      (text : jsstring) :
  forall (fuel fuel' lastIndex : nat),
    lastIndex <= length text ->
    length text - lastIndex < fuel -> length text - lastIndex < fuel' ->
    occurrences_loop U fuel base suffixes whole text lastIndex
    = occurrences_loop U fuel' base suffixes whole text lastIndex.
Proof.
  induction fuel as [|fuel IH]; intros fuel' lastIndex Hle Hf Hf'; [lia|].
  destruct fuel' as [|fuel']; [lia|]. simpl.
  destruct (regex_exec base suffixes (skipn lastIndex text) lastIndex)
    as [[startIdx matched]|] eqn:E; [|reflexivity].
  apply regex_exec_bounds in E. rewrite length_skipn in E.
  destruct (Nat.eqb_spec matched 0) as [Hz|Hnz]; [reflexivity|].
  rewrite (IH fuel' (startIdx + matched)) by lia. reflexivity.
Qed.

(** On the empty base without [wholeWordsOnly], every round of the loop
    pushes: the scan ends in the error of [push], whatever the text. *)
Lemma occurrences_loop_empty_base_throws (suffixes : list jsstring) (text : jsstring) :
  forall (fuel lastIndex : nat),
    lastIndex <= length text -> length text - lastIndex < fuel ->
    occurrences_loop U fuel [] suffixes false text lastIndex = Throws.
Proof.
  induction fuel as [|fuel IH]; intros lastIndex Hle Hf; [lia|].
  simpl. rewrite regex_exec_empty_base.
  destruct (match_suffix suffixes (skipn lastIndex text) =? 0) eqn:E; [reflexivity|].
  apply Nat.eqb_neq in E.
  pose proof (match_suffix_le suffixes (skipn lastIndex text)) as Hm.
  rewrite length_skipn in Hm.
  rewrite IH by lia. reflexivity.
Qed.

Lemma empty_base_throws (text : jsstring) (suffixes : list jsstring) :
  findWordOccurrencesWithInflections U text [] suffixes false = Throws.
Proof.
  unfold findWordOccurrencesWithInflections.
  apply occurrences_loop_empty_base_throws; lia.
Qed.

End ScanReturns.

(** ** The inflection stage *)

Section InflectionFacts.
Variable U : Unicode.
Variable pb : ProfanityBuster.ProfanityBuster.
Variable text : jsstring.

Lemma push_spec (word languageCode : jsstring) (occ : list nat) :
  forall st st' : list Match * list (nat * nat),
    st' = fold_left (fun (st : list Match * list (nat * nat)) idx =>
                       if existsb (key_eqb (idx, length word)) (snd st) then st
                       else (fst st ++ [mkMatch word idx (length word) languageCode],
                             snd st ++ [(idx, length word)]))
                    occ st ->
    covered_ok st ->
    covered_ok st' /\ length (fst st) <= length (fst st') /\ (occ <> [] -> fst st' <> []).
Proof.
  induction occ as [|idx occ IH]; intros st st' E Hc.
  - simpl in E. subst st'. split; [exact Hc|]. split; [lia | intros H; contradiction].
  - cbn [fold_left] in E.
    destruct (existsb (key_eqb (idx, length word)) (snd st)) eqn:Ex.
    + destruct (IH st st' E Hc) as [H1 [H2 _]].
      split; [exact H1|]. split; [exact H2|]. intros _ Hn.
      rewrite Hn in H2. unfold covered_ok in Hc.
      destruct (fst st) as [|m l]; [|simpl in H2; lia].
      rewrite Hc in Ex. simpl in Ex. discriminate.
    + destruct (IH _ st' E) as [H1 [H2 _]].
      { unfold covered_ok in *. simpl. rewrite map_app, Hc. reflexivity. }
      split; [exact H1|]. simpl fst in H2 at 1. rewrite length_app in H2. simpl in H2.
      split; [lia|]. intros _ Hn. rewrite Hn in H2. simpl in H2. lia.
Qed.

Lemma inflection_word_spec (languageCode word : jsstring)
      (st st' : list Match * list (nat * nat)) :
  covered_ok st ->
  inflection_word U pb text languageCode st word = Returns st' ->
  exists occ,
    scan_of U pb text word = Returns occ
    /\ covered_ok st'
    /\ length (fst st) <= length (fst st')
    /\ (occ <> [] -> fst st' <> [])
    /\ (occ = [] -> st' = st).
Proof.
  intros Hc H. unfold inflection_word in H. cbv zeta in H.
  apply bind_Returns in H. destruct H as [occ [Eo H]]. injection H as <-.
  exists occ. split; [exact Eo|].
  destruct (push_spec word languageCode occ st _ eq_refl Hc) as [H1 [H2 H3]].
  split; [exact H1|]. split; [exact H2|]. split; [exact H3|].
  intros ->. reflexivity.
Qed.

Lemma inflection_word_returns (languageCode word : jsstring)
      (st : list Match * list (nat * nat)) :
  word <> [] -> exists st', inflection_word U pb text languageCode st word = Returns st'.
Proof.
  intros Hw. destruct (scan_of_returns U pb text word Hw) as [occ E].
  unfold inflection_word. cbv zeta. unfold scan_of in E. rewrite E. simpl. eauto.
Qed.

(** The two nested loops go through the entries in order. *)
Lemma inflection_loops_entries (wordlists : list (jsstring * list jsstring)) :
  forall st,
    foldM (fun st (entry : jsstring * list jsstring) =>
             foldM (inflection_word U pb text (fst entry)) (snd entry) st)
          wordlists st
    = foldM (fun st (e : jsstring * jsstring) => inflection_word U pb text (fst e) st (snd e))
            (entries wordlists) st.
Proof.
  induction wordlists as [|[c ws] W IH]; intros st; [reflexivity|].
  cbn [foldM entries flat_map fst snd]. rewrite foldM_app.
  assert (E : forall st,
             foldM (fun st (e : jsstring * jsstring) =>
                      inflection_word U pb text (fst e) st (snd e))
                   (map (fun w => (c, w)) ws) st
             = foldM (inflection_word U pb text c) ws st).
  { induction ws as [|w ws IHw]; intros st0; [reflexivity|].
    simpl. destruct (inflection_word U pb text c st0 w); simpl; auto. }
  rewrite E. destruct (foldM (inflection_word U pb text c) ws st); simpl; auto.
Qed.

Lemma entries_fold_spec (es : list (jsstring * jsstring)) :
  forall st st',
    covered_ok st ->
    foldM (fun st (e : jsstring * jsstring) => inflection_word U pb text (fst e) st (snd e))
          es st = Returns st' ->
    covered_ok st'
    /\ length (fst st) <= length (fst st')
    /\ (forall c w, In (c, w) es ->
                    exists occ, scan_of U pb text w = Returns occ
                                /\ (occ <> [] -> fst st' <> []))
    /\ (st' = st
        \/ exists c w occ, In (c, w) es /\ scan_of U pb text w = Returns occ /\ occ <> []).
Proof.
  induction es as [|[c w] es IH]; intros st st' Hc H.
  - simpl in H. injection H as <-.
    split; [exact Hc|]. split; [lia|]. split; [intros c w []| left; reflexivity].
  - cbn [foldM] in H. apply bind_Returns in H. destruct H as [st1 [E1 H]].
    simpl in E1.
    destruct (inflection_word_spec c w st st1 Hc E1) as [occ [Eo [Hc1 [Hl1 [Hne1 Heq1]]]]].
    destruct (IH st1 st' Hc1 H) as [Hc' [Hl' [Hall Hsrc]]].
    split; [exact Hc'|]. split; [lia|]. split.
    + intros c0 w0 [Hin|Hin].
      * injection Hin as <- <-. exists occ. split; [exact Eo|].
        intros Hn Hf. apply Hne1 in Hn. rewrite Hf in Hl'.
        destruct (fst st1); [contradiction | simpl in Hl'; lia].
      * apply (Hall c0 w0). exact Hin.
    + destruct occ as [|i occ].
      * rewrite (Heq1 eq_refl) in Hsrc.
        destruct Hsrc as [Hs|[c0 [w0 [occ0 [Hin Hs]]]]]; [left; exact Hs|].
        right. exists c0, w0, occ0. split; [right; exact Hin | exact Hs].
      * right. exists c, w, (i :: occ). split; [left; reflexivity|].
        split; [exact Eo | discriminate].
Qed.

Lemma entries_fold_returns (es : list (jsstring * jsstring)) :
  (forall c w, In (c, w) es -> w <> []) ->
  forall st,
    exists st',
      foldM (fun st (e : jsstring * jsstring) => inflection_word U pb text (fst e) st (snd e))
            es st = Returns st'.
Proof.
  induction es as [|[c w] es IH]; intros Hw st; [simpl; eauto|].
  cbn [foldM].
  destruct (inflection_word_returns c w st (Hw c w (or_introl eq_refl))) as [st1 E1].
  simpl. rewrite E1. simpl. apply IH. intros c0 w0 Hin. apply (Hw c0 w0). right. exact Hin.
Qed.

Lemma inflection_stage_returns (wordlists : list (jsstring * list jsstring))
      (found : list Match) :
  (orElse (enableInflections (detection (config pb))) true = true ->
   forall c w, In (c, w) (entries wordlists) -> w <> []) ->
  exists found', inflection_stage U pb text wordlists found = Returns found'.
Proof.
  intros Hw. unfold inflection_stage.
  destruct (orElse (enableInflections (detection (config pb))) true); [|eauto].
  rewrite inflection_loops_entries.
  destruct (entries_fold_returns (entries wordlists) (Hw eq_refl)
              (found, map (fun m => (m_index m, m_length m)) found)) as [[f c] E].
  rewrite E. simpl. eauto.
Qed.

Lemma inflection_stage_spec (wordlists : list (jsstring * list jsstring))
      (found found' : list Match) :
  inflection_stage U pb text wordlists found = Returns found' ->
  length found <= length found'
  /\ (orElse (enableInflections (detection (config pb))) true = true ->
      forall c w, In (c, w) (entries wordlists) ->
                  exists occ, scan_of U pb text w = Returns occ
                              /\ (occ <> [] -> found' <> []))
  /\ (found' = found
      \/ (orElse (enableInflections (detection (config pb))) true = true
          /\ exists c w occ,
               In (c, w) (entries wordlists) /\ scan_of U pb text w = Returns occ
               /\ occ <> [])).
Proof.
  unfold inflection_stage. intros H.
  destruct (orElse (enableInflections (detection (config pb))) true).
  - rewrite inflection_loops_entries in H.
    apply bind_Returns in H. destruct H as [[f c] [E H]]. simpl in H. injection H as <-.
    destruct (entries_fold_spec (entries wordlists) _ _ (eq_refl : covered_ok (found, _)) E)
      as [_ [Hl [Hall Hsrc]]].
    simpl in Hl. split; [exact Hl|]. split; [intros _; exact Hall|].
    destruct Hsrc as [Hs|Hs]; [left; congruence | right; split; [reflexivity | exact Hs]].
  - injection H as <-. split; [lia|]. split; [discriminate | left; reflexivity].
Qed.

End InflectionFacts.

(** ** The active word lists *)

Lemma map_set_In (V : Type) (k : jsstring) (v : V) (m : list (jsstring * V)) :
  (forall v', In (k, v') m -> v' = v) ->
  forall x, In x (map_set str_eqb k v m) <-> In x m \/ x = (k, v).
Proof.
  induction m as [|[k' v'] m IH]; intros Hv x; simpl.
  - split; [intros [H|[]]; auto | intros [[]|H]; auto].
  - destruct (str_eqb k k') eqn:E.
    + apply str_eqb_eq in E. subst k'.
      rewrite (Hv v' (or_introl eq_refl)). simpl. split; [intros [H|H]; auto | intros [[H|H]|H]; auto].
    + simpl. rewrite IH by (intros v0 H0; apply Hv; right; exact H0). tauto.
Qed.

Lemma entries_In (wordlists : list (jsstring * list jsstring)) (c w : jsstring) :
  In (c, w) (entries wordlists) <-> exists ws, In (c, ws) wordlists /\ In w ws.
Proof.
  unfold entries. rewrite in_flat_map. split.
  - intros [[c0 ws] [Hin Hm]]. simpl in Hm. apply in_map_iff in Hm.
    destruct Hm as [w0 [E Hw]]. injection E as <- <-. eauto.
  - intros [ws [Hin Hw]]. exists (c, ws). split; [exact Hin|].
    simpl. apply in_map_iff. eauto.
Qed.

Lemma collect_spec (pb : ProfanityBuster.ProfanityBuster) (codes : list jsstring)
      (c : jsstring) (ws : list jsstring) :
  In (c, ws) (collectWordlistsForCodes pb codes)
  <-> In c codes /\ map_get str_eqb c (languageWordlists pb) = Some ws /\ ws <> [].
Proof.
  unfold collectWordlistsForCodes.
  assert (H : forall active,
             (forall c ws, In (c, ws) active ->
                           map_get str_eqb c (languageWordlists pb) = Some ws /\ ws <> []) ->
             (In (c, ws)
                 (fold_left (fun active code =>
                               match map_get str_eqb code (languageWordlists pb) with
                               | Some list => if 0 <? length list
                                              then map_set str_eqb code list active
                                              else active
                               | None => active
                               end) codes active)
              <-> In (c, ws) active
                  \/ (In c codes /\ map_get str_eqb c (languageWordlists pb) = Some ws
                      /\ ws <> []))).
  { induction codes as [|code codes IH]; intros active Hact; simpl.
    - tauto.
    - destruct (map_get str_eqb code (languageWordlists pb)) as [l|] eqn:Eg.
      + destruct (0 <? length l) eqn:El.
        * assert (Hl : l <> []) by (intros ->; discriminate).
          assert (Hv : forall v', In (code, v') active -> v' = l).
          { intros v' Hin. apply Hact in Hin. destruct Hin as [Hin _]. congruence. }
          rewrite IH.
          -- rewrite (map_set_In _ code l active Hv). split.
             ++ intros [[H|H]|[H1 H2]]; [auto | | tauto].
                injection H as -> ->. right. auto.
             ++ intros [H|[[<-|H1] [H2 H3]]]; [auto | | tauto].
                left. right. congruence.
          -- intros c0 ws0 Hin. apply (map_set_In _ code l active Hv) in Hin.
             destruct Hin as [Hin|Hin]; [apply Hact; exact Hin|].
             injection Hin as -> ->. auto.
        * rewrite (IH active Hact). split; [tauto|].
          intros [H|[[<-|H1] [H2 H3]]]; [auto | | tauto].
          rewrite Eg in H2. injection H2 as ->. destruct ws; [contradiction | discriminate].
      + rewrite (IH active Hact). split; [tauto|].
        intros [H|[[<-|H1] [H2 H3]]]; [auto | congruence | tauto]. }
  rewrite H by (intros c0 ws0 []). simpl. tauto.
Qed.

(** ** The exact stage *)

Section ExactFacts.
Variable U : Unicode.
Variable pb : ProfanityBuster.ProfanityBuster.
Variable text : jsstring.

Lemma exact_stage_step (code : jsstring) (ws : list jsstring)
      (rest : list (jsstring * list jsstring)) :
  exact_stage U pb text ((code, ws) :: rest)
  = (spans <- matcher_result U pb text code ;;
     if 0 <? length spans then Returns (to_matches text code spans)
     else exact_stage U pb text rest).
Proof.
  unfold matcher_result. cbn [exact_stage]. cbv zeta.
  destruct (orElse (algorithm (detection (config pb))) trie).
  - destruct (map_get str_eqb code (languageTries pb)); [|reflexivity].
    simpl. unfold to_matches. rewrite length_map. reflexivity.
  - destruct (map_get str_eqb code (languageAutomata pb)); [|reflexivity].
    destruct (AhoCorasick.findAllMatches U a _ _ text); simpl; [|reflexivity|reflexivity].
    unfold to_matches. rewrite length_map. reflexivity.
Qed.

Lemma to_matches_nonempty (code : jsstring) (spans : list Span) :
  (0 <? length spans) = true -> to_matches text code spans <> [].
Proof. destruct spans; [discriminate | simpl; discriminate]. Qed.

Lemma exact_stage_returns (wordlists : list (jsstring * list jsstring)) :
  (forall c, In c (map fst wordlists) -> exists spans, matcher_result U pb text c = Returns spans) ->
  exists found, exact_stage U pb text wordlists = Returns found.
Proof.
  induction wordlists as [|[c ws] W IH]; intros Hr; [simpl; eauto|].
  rewrite exact_stage_step.
  destruct (Hr c (or_introl eq_refl)) as [spans E]. rewrite E. simpl.
  destruct (0 <? length spans); [eauto|].
  apply IH. intros c0 Hin. apply Hr. right. exact Hin.
Qed.

Lemma exact_stage_source (wordlists : list (jsstring * list jsstring)) (found : list Match) :
  exact_stage U pb text wordlists = Returns found -> found <> [] ->
  exists c spans,
    In c (map fst wordlists) /\ matcher_result U pb text c = Returns spans /\ spans <> [].
Proof.
  induction wordlists as [|[c ws] W IH]; intros H Hf.
  - simpl in H. injection H as <-. contradiction.
  - rewrite exact_stage_step in H. apply bind_Returns in H. destruct H as [spans [E H]].
    destruct (0 <? length spans) eqn:El.
    + exists c, spans. split; [left; reflexivity|]. split; [exact E|].
      intros ->. discriminate.
    + destruct (IH H Hf) as [c0 [s0 [Hin Hs]]]. exists c0, s0. split; [right; exact Hin | exact Hs].
Qed.

Lemma exact_stage_finds (wordlists : list (jsstring * list jsstring)) (found : list Match)
      (c : jsstring) (spans : list Span) :
  exact_stage U pb text wordlists = Returns found ->
  In c (map fst wordlists) -> matcher_result U pb text c = Returns spans -> spans <> [] ->
  found <> [].
Proof.
  induction wordlists as [|[c0 ws] W IH]; intros H Hin E Hs; [destruct Hin|].
  rewrite exact_stage_step in H. apply bind_Returns in H. destruct H as [s0 [E0 H]].
  destruct (0 <? length s0) eqn:El.
  - injection H as <-. apply to_matches_nonempty. exact El.
  - destruct Hin as [Hin|Hin].
    + simpl in Hin. subst c0. rewrite E in E0. injection E0 as <-.
      destruct spans; [contradiction | discriminate].
    + apply IH; assumption.
Qed.

(** The matchers against the occurrences of the words. *)
Lemma matcher_result_returns :
  consistent U pb -> forall c, exists spans, matcher_result U pb text c = Returns spans.
Proof.
  intros Hc c. unfold matcher_result. cbv zeta.
  destruct (orElse (algorithm (detection (config pb))) trie).
  - destruct (map_get str_eqb c (languageTries pb)); eauto.
  - destruct (map_get str_eqb c (languageAutomata pb)) as [ac|] eqn:Eg; [|eauto].
    destruct (Hc c) as [_ Ha]. destruct (Ha ac Eg) as [paths Hb].
    destruct (aho_findAllMatches_spec U _ ac paths
                (wholeWordsOnly (detection (config pb)))
                (set_of (orElse (ignoreSeparators (detection (config pb))) []))
                Hb text) as [spans [E _]].
    eauto.
Qed.

Lemma matcher_result_occurs (c : jsstring) (spans : list Span) :
  matcher_consistent U pb c ->
  matcher_result U pb text c = Returns spans -> spans <> [] ->
  exists s e,
    occurs U (set_of (orElse (ignoreSeparators (detection (config pb))) []))
           (wholeWordsOnly (detection (config pb)))
           (variants U pb (wordlist_of pb c)) text s e.
Proof.
  intros [Ht Ha] E Hs. unfold matcher_result in E. cbv zeta in E.
  destruct spans as [|sp spans]; [contradiction|].
  destruct (orElse (algorithm (detection (config pb))) trie).
  - destruct (map_get str_eqb c (languageTries pb)) as [t|] eqn:Eg; [|discriminate].
    injection E as E.
    assert (Hin : In sp (Trie.findAllMatches U t (wholeWordsOnly (detection (config pb)))
                           (set_of (orElse (ignoreSeparators (detection (config pb))) []))
                           text)) by (rewrite E; left; reflexivity).
    apply (trie_findAllMatches_spec U _ _ _ t (Ht t eq_refl)) in Hin.
    destruct Hin as [s [e [_ [Ho _]]]]. eauto.
  - destruct (map_get str_eqb c (languageAutomata pb)) as [ac|] eqn:Eg; [|discriminate].
    destruct (Ha ac eq_refl) as [paths Hb].
    destruct (aho_findAllMatches_spec U _ ac paths
                (wholeWordsOnly (detection (config pb)))
                (set_of (orElse (ignoreSeparators (detection (config pb))) []))
                Hb text) as [spans' [E' Hsp]].
    rewrite E in E'. injection E' as <-.
    destruct (proj1 (Hsp sp) (or_introl eq_refl)) as [s [e [_ Ho]]]. eauto.
Qed.

Lemma matcher_result_finds (c : jsstring) (s e : nat) :
  matcher_consistent U pb c ->
  match orElse (algorithm (detection (config pb))) trie with
  | trie => exists t, map_get str_eqb c (languageTries pb) = Some t
  | aho => exists ac, map_get str_eqb c (languageAutomata pb) = Some ac
  end ->
  occurs U (set_of (orElse (ignoreSeparators (detection (config pb))) []))
         (wholeWordsOnly (detection (config pb)))
         (variants U pb (wordlist_of pb c)) text s e ->
  exists spans, matcher_result U pb text c = Returns spans /\ spans <> [].
Proof.
  intros [Ht Ha] Hex Ho. unfold matcher_result. cbv zeta.
  destruct (orElse (algorithm (detection (config pb))) trie).
  - destruct Hex as [t Eg]. rewrite Eg.
    destruct (trie_covers_occurrence U _ _ _ t text s e (Ht t Eg) Ho) as [e' [_ [_ [Hin _]]]].
    eexists. split; [reflexivity|]. intros Hn. rewrite Hn in Hin. destruct Hin.
  - destruct Hex as [ac Eg]. rewrite Eg. destruct (Ha ac Eg) as [paths Hb].
    destruct (aho_findAllMatches_spec U _ ac paths
                (wholeWordsOnly (detection (config pb)))
                (set_of (orElse (ignoreSeparators (detection (config pb))) []))
                Hb text) as [spans [E Hsp]].
    exists spans. split; [exact E|]. intros ->.
    apply (proj2 (Hsp (mkSpan s (e - s + 1)))). eauto.
Qed.

End ExactFacts.

(** An occurrence of a word stays one when words are added. *)
Lemma occurs_incl (U : Unicode) (seps : list jsstring) (whole : bool)
      (words words' : list jsstring) (text : jsstring) (s e : nat) :
  incl words words' ->
  occurs U seps whole words text s e -> occurs U seps whole words' text s e.
Proof.
  intros Hi [H1 [H2 [H3 [H4 [H5 H6]]]]].
  split; [exact H1|]. split; [exact H2|]. split; [exact H3|]. split; [exact H4|].
  split; [exact (pattern_of_incl _ _ _ Hi H5) | exact H6].
Qed.

(** ** The phrase stage and the fuzzy stage *)

Section LateStages.
Variable U : Unicode.

Lemma phrase_stage_length (pb : ProfanityBuster.ProfanityBuster) (text : jsstring)
      (found : list Match) :
  length found <= length (phrase_stage U pb text found).
Proof.
  unfold phrase_stage. destruct ((length found =? 0) && (0 <? length (phraseList pb))); [|lia].
  cbv zeta. destruct (PhraseTrie.findAllMatchesForTokens _ _ _ _); [lia|].
  rewrite length_app. lia.
Qed.

Lemma phrase_stage_config (pb pb' : ProfanityBuster.ProfanityBuster) (text : jsstring)
      (found : list Match) :
  config pb' = config pb -> phraseTrie pb' = phraseTrie pb -> phraseList pb' = phraseList pb ->
  phrase_stage U pb' text found = phrase_stage U pb text found.
Proof. intros Ec Et El. unfold phrase_stage. rewrite Ec, Et, El. reflexivity. Qed.

Lemma fuzzy_words_nonempty (pb : ProfanityBuster.ProfanityBuster)
      (text languageCode : jsstring) (words : list jsstring) :
  fuzzy_words U pb text languageCode words <> []
  <-> exists w, In w words
                /\ findApproximateOccurrence U pb text w (scaledMaxDistance pb w)
                     (wholeWordsOnly (detection (config pb))) <> None.
Proof.
  induction words as [|w words IH]; simpl.
  - split; [intros H; contradiction | intros [w [[] _]]].
  - destruct (findApproximateOccurrence U pb text w (scaledMaxDistance pb w)
                (wholeWordsOnly (detection (config pb)))) as [idx|] eqn:E.
    + split; [intros _ | intros _; discriminate].
      exists w. split; [left; reflexivity | rewrite E; discriminate].
    + rewrite IH. split.
      * intros [w0 [Hin H]]. eauto.
      * intros [w0 [[<-|Hin] H]]; [congruence | eauto].
Qed.

Lemma fuzzy_languages_nonempty (pb : ProfanityBuster.ProfanityBuster) (text : jsstring)
      (wordlists : list (jsstring * list jsstring)) :
  fuzzy_languages U pb text wordlists <> []
  <-> exists c w, In (c, w) (entries wordlists)
                  /\ findApproximateOccurrence U pb text w (scaledMaxDistance pb w)
                       (wholeWordsOnly (detection (config pb))) <> None.
Proof.
  induction wordlists as [|[c ws] W IH].
  - simpl. split; [intros H; contradiction | intros [c [w [[] _]]]].
  - cbn [fuzzy_languages].
    destruct (fuzzy_words U pb text c ws) as [|m l] eqn:E.
    + rewrite IH. split.
      * intros [c0 [w0 [Hin H]]]. exists c0, w0. split; [|exact H].
        apply entries_In in Hin. destruct Hin as [ws0 [Hin Hw]].
        apply entries_In. exists ws0. split; [right; exact Hin | exact Hw].
      * intros [c0 [w0 [Hin H]]]. apply entries_In in Hin. destruct Hin as [ws0 [[Hin|Hin] Hw]].
        -- injection Hin as <- <-.
           assert (Hn : fuzzy_words U pb text c ws <> [])
             by (apply fuzzy_words_nonempty; eauto).
           rewrite E in Hn. contradiction.
        -- exists c0, w0. split; [apply entries_In; eauto | exact H].
    + split; [intros _ | intros _; discriminate].
      assert (Hn : fuzzy_words U pb text c ws <> []) by (rewrite E; discriminate).
      apply fuzzy_words_nonempty in Hn. destruct Hn as [w [Hw H]].
      exists c, w. split; [|exact H]. apply entries_In. exists ws. split; [left; reflexivity | exact Hw].
Qed.

Lemma fuzzy_stage_length (pb : ProfanityBuster.ProfanityBuster) (text : jsstring)
      (wordlists : list (jsstring * list jsstring)) (found : list Match) :
  length found <= length (fuzzy_stage U pb text wordlists found).
Proof.
  unfold fuzzy_stage. destruct ((length found =? 0) && _); [|lia]. rewrite length_app. lia.
Qed.

End LateStages.

Lemma length_le_nonempty (A : Type) (l l' : list A) :
  length l <= length l' -> l <> [] -> l' <> [].
Proof. intros H Hn ->. destruct l; [contradiction | simpl in H; lia]. Qed.

(** ** Detection after a word is added *)

Section Monotone.
Variable U : Unicode.
Variables pb pb' : ProfanityBuster.ProfanityBuster.
Variable text : jsstring.
Variables wordlists wordlists' : list (jsstring * list jsstring).
Hypothesis same_config : config pb' = config pb.
Hypothesis same_trie : phraseTrie pb' = phraseTrie pb.
Hypothesis same_phrases : phraseList pb' = phraseList pb.
Hypothesis consistent' : consistent U pb'.
Hypothesis codes_kept : forall c, In c (map fst wordlists) -> In c (map fst wordlists').
Hypothesis entries_kept :
  forall c w, In (c, w) (entries wordlists) -> In (c, w) (entries wordlists').
Hypothesis entries_new :
  forall c w, In (c, w) (entries wordlists') -> In (c, w) (entries wordlists) \/ w <> [].
Hypothesis matchers_grow :
  forall c spans,
    In c (map fst wordlists) -> matcher_result U pb text c = Returns spans -> spans <> [] ->
    exists spans', matcher_result U pb' text c = Returns spans' /\ spans' <> [].

Lemma scan_of_config (w : jsstring) : scan_of U pb' text w = scan_of U pb text w.
Proof. unfold scan_of. rewrite same_config. reflexivity. Qed.

Lemma stages_monotone (found1 found2 : list Match) :
  exact_stage U pb text wordlists = Returns found1 ->
  inflection_stage U pb text wordlists found1 = Returns found2 ->
  fuzzy_stage U pb text wordlists (phrase_stage U pb text found2) <> [] ->
  exists found1' found2',
    exact_stage U pb' text wordlists' = Returns found1'
    /\ inflection_stage U pb' text wordlists' found1' = Returns found2'
    /\ fuzzy_stage U pb' text wordlists' (phrase_stage U pb' text found2') <> [].
Proof.
  intros E1 E2 Hf.
  destruct (exact_stage_returns U pb' text wordlists'
              (fun c _ => matcher_result_returns U pb' text consistent' c)) as [f1' E1'].
  destruct (inflection_stage_spec U pb text wordlists found1 found2 E2) as [Hl2 [Hall2 Hsrc2]].
  destruct (inflection_stage_returns U pb' text wordlists' f1') as [f2' E2'].
  { rewrite same_config. intros Hen c w Hin.
    destruct (entries_new c w Hin) as [Hold|Hw]; [|exact Hw].
    destruct (Hall2 Hen c w Hold) as [occ [Eo _]]. exact (scan_of_word U pb text w occ Eo). }
  exists f1', f2'. split; [exact E1'|]. split; [exact E2'|].
  destruct (inflection_stage_spec U pb' text wordlists' f1' f2' E2') as [Hl2' [Hall2' _]].
  (* the exact stage *)
  assert (H1 : found1 <> [] -> f1' <> []).
  { intros Hn. destruct (exact_stage_source U pb text wordlists found1 E1 Hn)
      as [c [spans [Hin [Es Hs]]]].
    destruct (matchers_grow c spans Hin Es Hs) as [spans' [Es' Hs']].
    exact (exact_stage_finds U pb' text wordlists' f1' c spans' E1' (codes_kept c Hin) Es' Hs'). }
  (* the inflection stage *)
  assert (H2 : found2 <> [] -> f2' <> []).
  { intros Hn. destruct Hsrc2 as [->|[Hen [c [w [occ [Hin [Eo Ho]]]]]]].
    - exact (length_le_nonempty _ _ _ Hl2' (H1 Hn)).
    - rewrite <- same_config in Hen.
      destruct (Hall2' Hen c w (entries_kept c w Hin)) as [occ' [Eo' Ho']].
      rewrite scan_of_config, Eo in Eo'. injection Eo' as <-. exact (Ho' Ho). }
  (* the phrase stage *)
  assert (H3 : phrase_stage U pb text found2 <> [] -> phrase_stage U pb' text f2' <> []).
  { intros Hn. destruct found2 as [|m2 l2].
    - destruct f2' as [|m2' l2'].
      + rewrite (phrase_stage_config U pb pb' text [] same_config same_trie same_phrases).
        exact Hn.
      + apply (length_le_nonempty _ (m2' :: l2')); [apply phrase_stage_length | discriminate].
    - apply (length_le_nonempty _ f2'); [apply phrase_stage_length|].
      apply H2. discriminate. }
  (* the fuzzy stage *)
  destruct (phrase_stage U pb text found2) as [|m3 l3] eqn:E3.
  - destruct (phrase_stage U pb' text f2') as [|m3' l3'] eqn:E3'.
    + unfold fuzzy_stage in *. rewrite same_config. simpl in *.
      destruct (0 <? levenshteinDistance (detection (config pb)))%Z; [|exact Hf].
      simpl in *. apply fuzzy_languages_nonempty. apply fuzzy_languages_nonempty in Hf.
      destruct Hf as [c [w [Hin H]]]. exists c, w. split; [exact (entries_kept c w Hin)|].
      unfold findApproximateOccurrence, scaledMaxDistance in *. rewrite same_config. exact H.
    + apply (length_le_nonempty _ (m3' :: l3')); [apply fuzzy_stage_length | discriminate].
  - apply (length_le_nonempty _ (phrase_stage U pb' text f2')); [apply fuzzy_stage_length|].
    apply H3. discriminate.
Qed.

End Monotone.

(** ** [addWord] and the active word lists *)

Section AfterAddWord.
Variable U : Unicode.
Variables pb pb' : ProfanityBuster.ProfanityBuster.
Variable lang : jsstring.
Variable added : jsstring.
Variable codes : list jsstring.
Hypothesis same_config : config pb' = config pb.
Hypothesis new_wordlists :
  languageWordlists pb'
  = map_set str_eqb lang (set_add added (wordlist_of pb lang)) (languageWordlists pb).

Lemma wordlist_after_add : wordlist_of pb' lang = set_add added (wordlist_of pb lang).
Proof. unfold wordlist_of at 1. rewrite new_wordlists, map_get_set_same. reflexivity. Qed.

Lemma wordlist_elsewhere (c : jsstring) :
  c <> lang ->
  map_get str_eqb c (languageWordlists pb') = map_get str_eqb c (languageWordlists pb).
Proof. intros Hne. rewrite new_wordlists. apply map_get_set_other. congruence. Qed.

Lemma collect_after_add (c : jsstring) (ws : list jsstring) :
  In (c, ws) (collectWordlistsForCodes pb codes) ->
  exists ws', In (c, ws') (collectWordlistsForCodes pb' codes) /\ incl ws ws'.
Proof.
  intros Hin. apply collect_spec in Hin. destruct Hin as [Hc [Hg Hne]].
  destruct (str_eqb c lang) eqn:E.
  - apply str_eqb_eq in E. subst c.
    exists (set_add added (wordlist_of pb lang)). split.
    + apply collect_spec. split; [exact Hc|]. split.
      * rewrite new_wordlists. apply map_get_set_same.
      * intros Hn. assert (Hin : In added (set_add added (wordlist_of pb lang)))
          by (apply set_add_In; left; reflexivity).
        rewrite Hn in Hin. destruct Hin.
    + intros w Hw. apply set_add_In. right. unfold wordlist_of. rewrite Hg. exact Hw.
  - apply str_eqb_neq in E. exists ws. split; [|apply incl_refl].
    apply collect_spec. split; [exact Hc|]. split; [|exact Hne].
    rewrite (wordlist_elsewhere c E). exact Hg.
Qed.

Lemma collect_before_add (c w : jsstring) :
  In (c, w) (entries (collectWordlistsForCodes pb' codes)) ->
  In (c, w) (entries (collectWordlistsForCodes pb codes)) \/ w = added.
Proof.
  intros Hin. apply entries_In in Hin. destruct Hin as [ws' [Hin Hw]].
  apply collect_spec in Hin. destruct Hin as [Hc [Hg Hne]].
  destruct (str_eqb c lang) eqn:E.
  - apply str_eqb_eq in E. subst c.
    rewrite new_wordlists, map_get_set_same in Hg. injection Hg as <-.
    apply set_add_In in Hw. destruct Hw as [Hw|Hw]; [right; exact Hw | left].
    apply entries_In. exists (wordlist_of pb lang). split; [|exact Hw].
    apply collect_spec. split; [exact Hc|]. unfold wordlist_of in *.
    destruct (map_get str_eqb lang (languageWordlists pb)) as [old|]; [|destruct Hw].
    simpl in *. split; [reflexivity|]. intros ->. destruct Hw.
  - apply str_eqb_neq in E. left. apply entries_In. exists ws'. split; [|exact Hw].
    apply collect_spec. split; [exact Hc|]. split; [|exact Hne].
    rewrite <- (wordlist_elsewhere c E). exact Hg.
Qed.

Lemma variants_after_add :
  incl (variants U pb (wordlist_of pb lang)) (variants U pb' (wordlist_of pb' lang)).
Proof.
  rewrite (variants_config U pb pb' _ same_config), wordlist_after_add.
  unfold variants. intros v Hv. apply in_flat_map in Hv. destruct Hv as [w [Hw Hv]].
  apply in_flat_map. exists w. split; [apply set_add_In; right; exact Hw | exact Hv].
Qed.

End AfterAddWord.

Lemma detect_fixed_languages (U : Unicode) (P : Languages.Packs)
      (pb : ProfanityBuster.ProfanityBuster) (text : jsstring) :
  autoDetect (languages (config pb)) = false ->
  detect U P pb text
  = (found1 <- exact_stage U pb
                 (Normalization.normalizeForDetection U text (normalizationOptions pb))
                 (collectWordlistsForCodes pb (enabledCodes (languages (config pb)))) ;;
     found2 <- inflection_stage U pb
                 (Normalization.normalizeForDetection U text (normalizationOptions pb))
                 (collectWordlistsForCodes pb (enabledCodes (languages (config pb))))
                 found1 ;;
     Returns (pb,
              mkDetectionResult
                (0 <? length (fuzzy_stage U pb
                     (Normalization.normalizeForDetection U text (normalizationOptions pb))
                     (collectWordlistsForCodes pb (enabledCodes (languages (config pb))))
                     (phrase_stage U pb
                        (Normalization.normalizeForDetection U text (normalizationOptions pb))
                        found2)))
                (fuzzy_stage U pb
                   (Normalization.normalizeForDetection U text (normalizationOptions pb))
                   (collectWordlistsForCodes pb (enabledCodes (languages (config pb))))
                   (phrase_stage U pb
                      (Normalization.normalizeForDetection U text (normalizationOptions pb))
                      found2)))).
Proof. intros H. unfold detect. rewrite H. reflexivity. Qed.

(** C5 (amended).  With [autoDetect] off, on a detector whose matchers go
    with its word lists, and for a word that is not empty once normalized:
    when [detect] reports profanity in a text, [addWord] returns and
    [detect] still reports profanity in that text afterwards.  (The matches
    themselves may change: the stages after the first that finds something
    are skipped.) *)
Theorem addWord_keeps_the_verdict
        (U : Unicode) (P : Languages.Packs) (pb : ProfanityBuster.ProfanityBuster)
        (word : jsstring) (language : option jsstring) (text : jsstring)
        (pb1 : ProfanityBuster.ProfanityBuster) (r : DetectionResult) :
  autoDetect (languages (config pb)) = false ->
  consistent U pb ->
  normalizeWord U pb word <> [] ->
  detect U P pb text = Returns (pb1, r) ->
  hasProfanity r = true ->
  exists pb' pb2 r',
    addWord U pb word language = Returns pb'
    /\ detect U P pb' text = Returns (pb2, r')
    /\ hasProfanity r' = true.
Proof.
  intros Hauto Hc Hw Hdet Hp.
  destruct (addWord_ok U pb word language Hc)
    as [pb' [Ea [Ec [Ew [Ept [Epl [Hc' [Hsame Hex]]]]]]]].
  rewrite (detect_fixed_languages U P pb text Hauto) in Hdet.
  apply bind_Returns in Hdet. destruct Hdet as [f1 [E1 Hdet]].
  apply bind_Returns in Hdet. destruct Hdet as [f2 [E2 Hdet]].
  injection Hdet as <- <-. simpl in Hp.
  assert (Hno : normalizationOptions pb' = normalizationOptions pb)
    by (unfold normalizationOptions; rewrite Ec; reflexivity).
  destruct (stages_monotone U pb pb'
              (Normalization.normalizeForDetection U text (normalizationOptions pb))
              (collectWordlistsForCodes pb (enabledCodes (languages (config pb))))
              (collectWordlistsForCodes pb' (enabledCodes (languages (config pb))))
              Ec Ept Epl Hc') with (found1 := f1) (found2 := f2)
    as [f1' [f2' [E1' [E2' Hf']]]].
  - intros c Hin. apply in_map_iff in Hin. destruct Hin as [[c0 ws] [<- Hin]].
    destruct (collect_after_add pb pb' _ _ _ Ew c0 ws Hin) as [ws' [Hin' _]].
    apply in_map_iff. exists (c0, ws'). split; [reflexivity | exact Hin'].
  - intros c w Hin. apply entries_In in Hin. destruct Hin as [ws [Hin Hw0]].
    destruct (collect_after_add pb pb' _ _ _ Ew c ws Hin) as [ws' [Hin' Hi]].
    apply entries_In. exists ws'. split; [exact Hin' | apply Hi; exact Hw0].
  - intros c w Hin. destruct (collect_before_add pb pb' _ _ _ Ew c w Hin) as [H|H].
    + left. exact H.
    + right. rewrite H. exact Hw.
  - intros c spans Hin Es Hs.
    destruct (str_eqb c (orElse language (fallback (languages (config pb))))) eqn:E.
    + apply str_eqb_eq in E. subst c.
      destruct (matcher_result_occurs U pb _ _ spans (Hc _) Es Hs) as [s [e Ho]].
      apply (matcher_result_finds U pb' _ _ s e (Hc' _)).
      * rewrite Ec. exact Hex.
      * rewrite Ec. apply (occurs_incl _ _ _ _ _ _ _ _ (variants_after_add U pb pb' _ _ Ec Ew)).
        exact Ho.
    + apply str_eqb_neq in E. exists spans. split; [|exact Hs].
      destruct (Hsame c E) as [Et Eau].
      unfold matcher_result in *. rewrite Ec, Et, Eau. exact Es.
  - exact E1.
  - exact E2.
  - intros Hn. rewrite Hn in Hp. discriminate.
  - exists pb'. eexists. eexists. split; [exact Ea|].
    assert (Hauto' : autoDetect (languages (config pb')) = false) by (rewrite Ec; exact Hauto).
    rewrite (detect_fixed_languages U P pb' text Hauto'), Hno, Ec, E1'. simpl.
    rewrite E2'. simpl. split; [reflexivity|]. simpl.
    destruct (fuzzy_stage U pb' _ _ _); [contradiction | reflexivity].
Qed.

Lemma addWord_keeps_the_verdict_witness :
  autoDetect (languages (config Sample.hello_detector)) = false
  /\ consistent Sample.tables Sample.hello_detector
  /\ normalizeWord Sample.tables Sample.hello_detector (str "world") <> []
  /\ exists pb1 r,
       detect Sample.tables Sample.packs Sample.hello_detector (str "hallo world")
       = Returns (pb1, r)
       /\ hasProfanity r = true
       /\ exists pb' pb2 r',
            addWord Sample.tables Sample.hello_detector (str "world") (Some (str "xx"))
            = Returns pb'
            /\ detect Sample.tables Sample.packs pb' (str "hallo world") = Returns (pb2, r')
            /\ hasProfanity r' = true.
Proof.
  assert (Hc : consistent Sample.tables Sample.hello_detector).
  { unfold Sample.hello_detector, Sample.xx_detector.
    apply returned_addWord_consistent. apply returned_constructor_consistent. }
  split; [vm_compute; reflexivity|].
  split; [exact Hc|].
  split; [vm_compute; discriminate|].
  eexists. eexists. split; [vm_compute; reflexivity|].
  split; [vm_compute; reflexivity|].
  eapply (@addWord_keeps_the_verdict Sample.tables Sample.packs Sample.hello_detector
            (str "world") (Some (str "xx")) (str "hallo world")).
  - vm_compute. reflexivity.
  - exact Hc.
  - vm_compute. discriminate.
  - vm_compute. reflexivity.
  - vm_compute. reflexivity.
Defined.

(** ** The default detector over any packs *)

Lemma set_of_In (x : jsstring) (l : list jsstring) : In x (set_of l) <-> In x l.
Proof.
  unfold set_of.
  assert (H : forall acc, In x (fold_left (fun acc y => set_add y acc) l acc)
                          <-> In x acc \/ In x l).
  { induction l as [|y l IH]; intros acc; simpl; [tauto|].
    rewrite IH, set_add_In. split; [intros [[->|H]|H]; auto | intros [H|[->|H]]; auto]. }
  rewrite H. simpl. tauto.
Qed.

Lemma toLowerCase_nonempty (w : jsstring) :
  w <> [] -> toLowerCase Sample.tables w <> [].
Proof.
  destruct w as [|c w]; [contradiction|]. intros _. simpl.
  unfold SampleUnicode.toLowerCase. simpl. unfold SampleUnicode.lower_unit.
  destruct ((0x41 <=? c)%N && (c <=? 0x5A)%N); [discriminate|].
  destruct (c =? 0x130)%N; discriminate.
Qed.

(** No word is emptied by the normalizer. *)
Lemma normalizeWord_nonempty (pb : ProfanityBuster.ProfanityBuster) (w : jsstring) :
  w <> [] -> normalizeWord Sample.tables pb w <> [].
Proof.
  intros Hw Hn.
  pose proof (normalizeForDetection_length Sample.tables w (normalizationOptions pb)) as Hl.
  unfold normalizeWord, Normalization.normalizeWord in Hn. rewrite Hn in Hl.
  assert (H : length (if Normalization.caseSensitive (normalizationOptions pb)
                      then w else toLowerCase Sample.tables w) <> 0).
  { destruct (Normalization.caseSensitive (normalizationOptions pb)).
    - destruct w; [contradiction | discriminate].
    - pose proof (toLowerCase_nonempty w Hw). destruct (toLowerCase Sample.tables w);
        [contradiction | discriminate]. }
  apply H. symmetry. apply Hl. simpl. discriminate.
Qed.

(** [new ProfanityBuster()]: the English pack, normalized, and its trie. *)
Lemma default_constructor_ok (U : Unicode) (P : Languages.Packs) :
  exists pb,
    constructor U P None = Returns pb
    /\ config pb = DEFAULT_CONFIG
    /\ languageWordlists pb
       = [(str "en", set_of (map (normalizeWord U Sample.blank) (Languages.EN_WORDS P)))]
    /\ phraseTrie pb = PhraseTrie.empty
    /\ phraseList pb = []
    /\ consistent U pb
    /\ exists t, map_get str_eqb (str "en") (languageTries pb) = Some t.
Proof.
  unfold constructor. cbv zeta. unfold loadLanguagePacks. cbn [mergeConfig].
  change (enabledCodes (languages (config (mkProfanityBuster DEFAULT_CONFIG [] [] []
                                             PhraseTrie.empty []))))
    with [str "en"].
  cbn [foldM].
  destruct (store_and_rebuild U (mkProfanityBuster DEFAULT_CONFIG [] [] [] PhraseTrie.empty [])
              (str "en")
              (set_of (map (normalizeWord U Sample.blank) (Languages.EN_WORDS P)))
              (blank_consistent U DEFAULT_CONFIG))
    as [pb [E [Ec [Ew [Ept [Epl [Hc [_ Hex]]]]]]]].
  change (str_eqb (str "en") (str "en")) with true. cbv iota.
  change (mkProfanityBuster DEFAULT_CONFIG [] [] [] PhraseTrie.empty []) with Sample.blank in *.
  rewrite E. simpl bind. simpl in Ec. rewrite Ec. simpl.
  exists pb. split; [reflexivity|]. split; [exact Ec|]. split; [exact Ew|].
  split; [exact Ept|]. split; [exact Epl|]. split; [exact Hc | exact Hex].
Qed.

(** ** The inflection stage appends *)

Section InflectionAppends.
Variable U : Unicode.
Variable pb : ProfanityBuster.ProfanityBuster.
Variable text : jsstring.

Lemma push_prefix (word languageCode : jsstring) (occ : list nat) :
  forall st : list Match * list (nat * nat),
    exists extra,
      fst (fold_left (fun (st : list Match * list (nat * nat)) idx =>
                        if existsb (key_eqb (idx, length word)) (snd st) then st
                        else (fst st ++ [mkMatch word idx (length word) languageCode],
                              snd st ++ [(idx, length word)]))
                     occ st)
      = fst st ++ extra.
Proof.
  induction occ as [|idx occ IH]; intros st.
  - exists []. simpl. rewrite app_nil_r. reflexivity.
  - cbn [fold_left]. destruct (existsb (key_eqb (idx, length word)) (snd st)).
    + apply IH.
    + destruct (IH (fst st ++ [mkMatch word idx (length word) languageCode],
                    snd st ++ [(idx, length word)])) as [extra E].
      rewrite E. simpl. rewrite <- app_assoc. eauto.
Qed.

Lemma entries_fold_prefix (es : list (jsstring * jsstring)) :
  forall st st',
    foldM (fun st (e : jsstring * jsstring) => inflection_word U pb text (fst e) st (snd e))
          es st = Returns st' ->
    exists extra, fst st' = fst st ++ extra.
Proof.
  induction es as [|[c w] es IH]; intros st st' H.
  - simpl in H. injection H as <-. exists []. rewrite app_nil_r. reflexivity.
  - cbn [foldM] in H. apply bind_Returns in H. destruct H as [st1 [E1 H]].
    simpl in E1. unfold inflection_word in E1. cbv zeta in E1.
    apply bind_Returns in E1. destruct E1 as [occ [_ E1]]. injection E1 as <-.
    destruct (push_prefix w c occ st) as [x1 Ex1].
    destruct (IH _ _ H) as [x2 Ex2]. rewrite Ex2, Ex1, <- app_assoc. eauto.
Qed.

Lemma inflection_stage_prefix (wordlists : list (jsstring * list jsstring))
      (found found' : list Match) :
  inflection_stage U pb text wordlists found = Returns found' ->
  exists extra, found' = found ++ extra.
Proof.
  unfold inflection_stage. intros H.
  destruct (orElse (enableInflections (detection (config pb))) true).
  - rewrite inflection_loops_entries in H.
    apply bind_Returns in H. destruct H as [[f c] [E H]]. simpl in H. injection H as <-.
    apply entries_fold_prefix in E. exact E.
  - injection H as <-. exists []. rewrite app_nil_r. reflexivity.
Qed.

End InflectionAppends.

Lemma phrase_stage_skip (U : Unicode) (pb : ProfanityBuster.ProfanityBuster) (text : jsstring)
      (found : list Match) :
  found <> [] -> phrase_stage U pb text found = found.
Proof. intros H. unfold phrase_stage. destruct found; [contradiction | reflexivity]. Qed.

Lemma fuzzy_stage_skip (U : Unicode) (pb : ProfanityBuster.ProfanityBuster) (text : jsstring)
      (wordlists : list (jsstring * list jsstring)) (found : list Match) :
  found <> [] -> fuzzy_stage U pb text wordlists found = found.
Proof. intros H. unfold fuzzy_stage. destruct found; [contradiction | reflexivity]. Qed.

(** [detect] with [autoDetect] off: the word stages, then the phrase stage
    and the fuzzy stage. *)
Lemma detect_word_stages (U : Unicode) (P : Languages.Packs)
      (pb : ProfanityBuster.ProfanityBuster) (text : jsstring) :
  autoDetect (languages (config pb)) = false ->
  detect U P pb text
  = (found <- word_stages U pb text ;;
     Returns (pb,
              mkDetectionResult
                (0 <? length (fuzzy_stage U pb
                     (Normalization.normalizeForDetection U text (normalizationOptions pb))
                     (collectWordlistsForCodes pb (enabledCodes (languages (config pb))))
                     (phrase_stage U pb
                        (Normalization.normalizeForDetection U text (normalizationOptions pb))
                        found)))
                (fuzzy_stage U pb
                   (Normalization.normalizeForDetection U text (normalizationOptions pb))
                   (collectWordlistsForCodes pb (enabledCodes (languages (config pb))))
                   (phrase_stage U pb
                      (Normalization.normalizeForDetection U text (normalizationOptions pb))
                      found)))).
Proof.
  intros H. rewrite (detect_fixed_languages U P pb text H). unfold word_stages. cbv zeta.
  destruct (exact_stage U pb _ _); reflexivity.
Qed.

Lemma addPhrase_fields (U : Unicode) (pb : ProfanityBuster.ProfanityBuster) (phrase : jsstring) :
  config (addPhrase U pb phrase) = config pb
  /\ languageWordlists (addPhrase U pb phrase) = languageWordlists pb
  /\ languageTries (addPhrase U pb phrase) = languageTries pb
  /\ languageAutomata (addPhrase U pb phrase) = languageAutomata pb.
Proof.
  unfold addPhrase. destruct (map value _); repeat split; reflexivity.
Qed.

Lemma addPhrase_consistent (U : Unicode) (pb : ProfanityBuster.ProfanityBuster)
      (phrase : jsstring) :
  consistent U pb -> consistent U (addPhrase U pb phrase).
Proof.
  intros Hc code. destruct (addPhrase_fields U pb phrase) as [Ec [Ew [Et Ea]]].
  apply (matcher_consistent_ext U pb _ code Ec); [| | | exact (Hc code)].
  - unfold wordlist_of. rewrite Ew. reflexivity.
  - rewrite Et. reflexivity.
  - rewrite Ea. reflexivity.
Qed.

Lemma expandWordVariants_first (U : Unicode) (pb : ProfanityBuster.ProfanityBuster)
      (word : jsstring) :
  In (normalizeWord U pb word) (expandWordVariants U pb word).
Proof.
  unfold expandWordVariants. cbv zeta.
  assert (H0 : In (normalizeWord U pb word) (set_of [normalizeWord U pb word]))
    by (apply set_of_In; left; reflexivity).
  destruct (orElse (enableInflections (detection (config pb))) false); [|exact H0].
  revert H0. generalize (set_of [normalizeWord U pb word]).
  induction (orElse (inflectionSuffixes (detection (config pb))) []) as [|s l IH];
    intros vs H; simpl; [exact H|].
  apply IH. apply set_add_In. right. exact H.
Qed.

(** ** A detector in the default configuration with the English pack *)

Section DefaultState.
Variable P : Languages.Packs.
Variable pb : ProfanityBuster.ProfanityBuster.
Hypothesis default_config : config pb = DEFAULT_CONFIG.
Hypothesis english_only :
  languageWordlists pb
  = [(str "en", set_of (map (normalizeWord Sample.tables Sample.blank)
                            (Languages.EN_WORDS P)))].
Hypothesis matchers : consistent Sample.tables pb.
Hypothesis english_trie : exists t, map_get str_eqb (str "en") (languageTries pb) = Some t.
Hypothesis words_non_empty : forall w, In w (Languages.EN_WORDS P) -> w <> [].

Lemma default_autoDetect : autoDetect (languages (config pb)) = false.
Proof. rewrite default_config. reflexivity. Qed.

Lemma default_normalizer (text : jsstring) :
  Normalization.normalizeForDetection Sample.tables text (normalizationOptions pb)
  = Normalization.normalizeForDetection Sample.tables text (normalizationOptions Sample.blank).
Proof. unfold normalizationOptions. rewrite default_config. reflexivity. Qed.

Lemma default_entries (c w : jsstring) :
  In (c, w) (entries (collectWordlistsForCodes pb (enabledCodes (languages (config pb))))) ->
  w <> [].
Proof.
  intros Hin. apply entries_In in Hin. destruct Hin as [ws [Hin Hw]].
  apply collect_spec in Hin. destruct Hin as [_ [Hg _]].
  rewrite english_only in Hg. cbn [map_get] in Hg.
  destruct (str_eqb c (str "en")); [|discriminate]. injection Hg as <-.
  apply set_of_In, in_map_iff in Hw. destruct Hw as [w0 [<- Hw0]].
  apply normalizeWord_nonempty. exact (words_non_empty w0 Hw0).
Qed.

Lemma default_word_stages_return (text : jsstring) :
  exists found, word_stages Sample.tables pb text = Returns found.
Proof.
  unfold word_stages. cbv zeta.
  destruct (exact_stage_returns Sample.tables pb
              (Normalization.normalizeForDetection Sample.tables text (normalizationOptions pb))
              (collectWordlistsForCodes pb (enabledCodes (languages (config pb))))
              (fun c _ => matcher_result_returns Sample.tables pb _ matchers c)) as [f1 E1].
  rewrite E1. simpl.
  apply inflection_stage_returns. intros _ c w Hin. exact (default_entries c w Hin).
Qed.

(** A pack word that the normalizer leaves as it is, is a pattern of the
    English matcher. *)
Lemma default_pattern (w : jsstring) :
  In w (Languages.EN_WORDS P) ->
  normalizeWord Sample.tables Sample.blank w = w ->
  In w (variants Sample.tables pb (wordlist_of pb (str "en"))).
Proof.
  intros Hin Hn. unfold wordlist_of. rewrite english_only. simpl.
  unfold variants. apply in_flat_map. exists w. split.
  - apply set_of_In, in_map_iff. exists w. auto.
  - rewrite (expandWordVariants_config Sample.tables Sample.blank pb w default_config).
    rewrite <- Hn at 1. apply expandWordVariants_first.
Qed.

Lemma default_wordlists (w : jsstring) :
  In w (Languages.EN_WORDS P) ->
  collectWordlistsForCodes pb (enabledCodes (languages (config pb)))
  = [(str "en", set_of (map (normalizeWord Sample.tables Sample.blank)
                            (Languages.EN_WORDS P)))].
Proof.
  intros Hin. rewrite default_config. unfold collectWordlistsForCodes. simpl.
  rewrite english_only. simpl.
  assert (Hs : In (normalizeWord Sample.tables Sample.blank w)
                  (set_of (map (normalizeWord Sample.tables Sample.blank)
                               (Languages.EN_WORDS P))))
    by (apply set_of_In, in_map; exact Hin).
  destruct (set_of (map (normalizeWord Sample.tables Sample.blank) (Languages.EN_WORDS P)));
    [destruct Hs | reflexivity].
Qed.

(** The exact stage reports the longest occurrence of a pack word from its
    start. *)
Lemma default_exact_stage (w : jsstring) (text : jsstring) (s e : nat) :
  In w (Languages.EN_WORDS P) ->
  occurs Sample.tables (set_of (orElse (ignoreSeparators (detection DEFAULT_CONFIG)) []))
         false (variants Sample.tables pb (wordlist_of pb (str "en"))) text s e ->
  exists found e',
    exact_stage Sample.tables pb text
                (collectWordlistsForCodes pb (enabledCodes (languages (config pb))))
    = Returns found
    /\ e <= e' /\ e' < length text
    /\ In (mkMatch (slice text s (s + (e' - s + 1))) s (e' - s + 1) (str "en")) found.
Proof.
  intros Hin Ho. rewrite (default_wordlists w Hin), exact_stage_step.
  destruct english_trie as [t Et]. destruct (matchers (str "en")) as [Ht _].
  destruct (trie_covers_occurrence Sample.tables false _ _ t text s e (Ht t Et) Ho)
    as [e' [Hle [Ho' [Hsp _]]]].
  unfold matcher_result. rewrite default_config. cbv zeta.
  change (orElse (algorithm (detection DEFAULT_CONFIG)) trie) with trie. cbv iota.
  rewrite Et. cbn [bind].
  change (wholeWordsOnly (detection DEFAULT_CONFIG)) with false.
  destruct (Trie.findAllMatches Sample.tables t false
              (set_of (orElse (ignoreSeparators (detection DEFAULT_CONFIG)) [])) text)
    as [|sp0 spans] eqn:Es; [destruct Hsp|].
  cbn [length Nat.ltb Nat.leb]. eexists. exists e'. split; [reflexivity|].
  split; [exact Hle|]. split; [destruct Ho' as [_ [H _]]; exact H|].
  unfold to_matches.
  apply (in_map (fun m => mkMatch (slice text (index m) (index m + span_length m))
                                  (index m) (span_length m) (str "en"))
                (sp0 :: spans) (mkSpan s (e' - s + 1))).
  exact Hsp.
Qed.

End DefaultState.

(** ** The scenarios of the specification, over any packs *)

(** C6 (amended).  Under the default configuration, with ["shit"] in the
    English pack (and no empty word in it), [detect] on the text
    ["s\u200Bh\u2001i\u200Dt"] reports profanity with a match at offset 0 of
    the normalized text whose length is 7: the zero-width characters and
    the em quad come out of the normalizer as blanks, which the trie skips
    as separators and the span covers; the matched word is ["s h i t"]. *)
Theorem obfuscated_word_is_matched_with_its_separators (P : Languages.Packs) :
  In (str "shit") (Languages.EN_WORDS P) ->
  (forall w, In w (Languages.EN_WORDS P) -> w <> []) ->
  exists pb pb' r,
    constructor Sample.tables P None = Returns pb
    /\ detect Sample.tables P pb Sample.obfuscated = Returns (pb', r)
    /\ hasProfanity r = true
    /\ In (mkMatch (str "s h i t") 0 7 (str "en")) (matches r).
Proof.
  intros Hshit Hne.
  destruct (default_constructor_ok Sample.tables P) as [pb [E [Ec [Ew [_ [_ [Hc Hex]]]]]]].
  exists pb.
  rewrite (detect_word_stages Sample.tables P pb Sample.obfuscated (default_autoDetect pb Ec)).
  unfold word_stages. cbv zeta.
  rewrite (default_normalizer pb Ec Sample.obfuscated).
  assert (Etn : Normalization.normalizeForDetection Sample.tables Sample.obfuscated
                  (normalizationOptions Sample.blank) = str "s h i t")
    by (vm_compute; reflexivity).
  rewrite Etn.
  destruct (default_exact_stage P pb Ec Ew Hc Hex (str "shit") (str "s h i t") 0 6 Hshit)
    as [f1 [e' [E1 [Hle [Hlt Hin]]]]].
  { split; [lia|]. split; [simpl; lia|].
    split; [vm_compute; reflexivity|]. split; [vm_compute; reflexivity|].
    split; [|intros H; discriminate].
    exists (str "shit"). split; [|split; [discriminate | vm_compute; reflexivity]].
    apply (default_pattern P pb Ec Ew); [exact Hshit | vm_compute; reflexivity]. }
  assert (He : e' = 6) by (simpl in Hlt; lia). subst e'.
  change (mkMatch (slice (str "s h i t") 0 (0 + (6 - 0 + 1))) 0 (6 - 0 + 1) (str "en"))
    with (mkMatch (str "s h i t") 0 7 (str "en")) in Hin.
  rewrite E1. cbn [bind].
  destruct (inflection_stage_returns Sample.tables pb (str "s h i t")
              (collectWordlistsForCodes pb (enabledCodes (languages (config pb)))) f1)
    as [f2 E2].
  { intros _ c w Hw. exact (default_entries P pb Ew Hne c w Hw). }
  rewrite E2. cbn [bind].
  destruct (inflection_stage_prefix Sample.tables pb _ _ _ _ E2) as [extra ->].
  assert (Hf : f1 ++ extra <> []) by (destruct f1; [destruct Hin | discriminate]).
  rewrite (phrase_stage_skip _ _ _ _ Hf), (fuzzy_stage_skip _ _ _ _ _ Hf).
  eexists. eexists. split; [exact E|]. split; [reflexivity|]. simpl. split.
  - destruct (f1 ++ extra); [contradiction | reflexivity].
  - apply in_or_app. left. exact Hin.
Qed.

Lemma obfuscated_word_is_matched_with_its_separators_witness :
  In (str "shit") (Languages.EN_WORDS Sample.packs)
  /\ (forall w, In w (Languages.EN_WORDS Sample.packs) -> w <> [])
  /\ exists pb pb' r,
       constructor Sample.tables Sample.packs None = Returns pb
       /\ detect Sample.tables Sample.packs pb Sample.obfuscated = Returns (pb', r)
       /\ hasProfanity r = true
       /\ In (mkMatch (str "s h i t") 0 7 (str "en")) (matches r).
Proof.
  assert (Hne : forall w, In w (Languages.EN_WORDS Sample.packs) -> w <> []).
  { intros w Hw. vm_compute in Hw. destruct Hw as [<-|[<-|[<-|[]]]]; discriminate. }
  split; [vm_compute; left; reflexivity|].
  split; [exact Hne|].
  apply (obfuscated_word_is_matched_with_its_separators Sample.packs).
  - vm_compute. left. reflexivity.
  - exact Hne.
Defined.

(** C7 (amended).  After [addPhrase("son of a bitch")] on a detector in the
    default configuration (no empty word in the English pack), [detect] on
    ["you are a son of the a   bitch indeed"] reports profanity.  The phrase
    stage runs only when the exact and the inflection stage have found no
    word of the pack in the text; it then reports one match, which ends
    with the token ["bitch"] (offset 30).  When they have found one, as they
    do when ["bitch"] is in the pack, the matches are theirs. *)
Theorem phrase_is_reported_when_no_word_is (P : Languages.Packs) :
  (forall w, In w (Languages.EN_WORDS P) -> w <> []) ->
  exists pb found pb' r,
    constructor Sample.tables P None = Returns pb
    /\ word_stages Sample.tables (addPhrase Sample.tables pb (str "son of a bitch"))
                   Sample.phrase_text = Returns found
    /\ detect Sample.tables P (addPhrase Sample.tables pb (str "son of a bitch"))
              Sample.phrase_text = Returns (pb', r)
    /\ hasProfanity r = true
    /\ (found <> [] -> matches r = found)
    /\ (found = [] ->
        exists m, matches r = [m] /\ m_index m + m_length m = 30
                  /\ m_language m = str "en")
    /\ (In (str "bitch") (Languages.EN_WORDS P) -> found <> []).
Proof.
  intros Hne.
  destruct (default_constructor_ok Sample.tables P) as [pb [E [Ec [Ew [Ept [Epl [Hc Hex]]]]]]].
  exists pb.
  destruct (addPhrase_fields Sample.tables pb (str "son of a bitch")) as [Ec' [Ew' [Et' _]]].
  pose proof (addPhrase_consistent Sample.tables pb (str "son of a bitch") Hc) as Hc'.
  rewrite Ec in Ec'. rewrite Ew in Ew'. rewrite <- Et' in Hex.
  assert (Epp : phraseTrie (addPhrase Sample.tables pb (str "son of a bitch"))
                = phraseTrie Sample.phrase_detector
                /\ phraseList (addPhrase Sample.tables pb (str "son of a bitch"))
                   = phraseList Sample.phrase_detector).
  { unfold addPhrase, normalizeWord, normalizationOptions. rewrite Ec.
    match goal with
    | |- context [map value ?t] =>
        replace (map value t) with (map str ["son"; "of"; "a"; "bitch"]%string)
          by (vm_compute; reflexivity)
    end.
    cbn [map]. unfold rebuildPhraseTrie, with_phrases. cbn [phraseTrie phraseList].
    rewrite Ept, Epl. split; vm_compute; reflexivity. }
  destruct Epp as [Ept' Epl'].
  remember (addPhrase Sample.tables pb (str "son of a bitch")) as pbp eqn:Epbp.
  destruct (default_word_stages_return P pbp Ew' Hc' Hne Sample.phrase_text) as [found Ef].
  exists found.
  rewrite (detect_word_stages Sample.tables P pbp Sample.phrase_text (default_autoDetect pbp Ec')).
  rewrite Ef. cbn [bind].
  rewrite (default_normalizer pbp Ec' Sample.phrase_text).
  assert (Etn : Normalization.normalizeForDetection Sample.tables Sample.phrase_text
                  (normalizationOptions Sample.blank) = Sample.phrase_text)
    by (vm_compute; reflexivity).
  rewrite Etn.
  assert (Hphrase : phrase_stage Sample.tables pbp Sample.phrase_text []
                    = [mkMatch (str "a son of the a bitch") 8 22 (str "en")]).
  { rewrite (phrase_stage_config Sample.tables Sample.phrase_detector pbp Sample.phrase_text []);
      [vm_compute; reflexivity | rewrite Ec'; vm_compute; reflexivity | exact Ept' | exact Epl']. }
  eexists. eexists. split; [exact E|]. split; [reflexivity|]. split; [reflexivity|].
  cbn [hasProfanity matches]. split; [|split; [|split]].
  - destruct found as [|m found].
    + rewrite Hphrase. reflexivity.
    + reflexivity.
  - intros Hf. rewrite (phrase_stage_skip _ _ _ _ Hf), (fuzzy_stage_skip _ _ _ _ _ Hf).
    reflexivity.
  - intros ->. rewrite Hphrase. eexists. split; [reflexivity|]. split; reflexivity.
  - intros Hb. unfold word_stages in Ef. cbv zeta in Ef.
    rewrite (default_normalizer pbp Ec' Sample.phrase_text), Etn in Ef.
    apply bind_Returns in Ef. destruct Ef as [f1 [E1 E2]].
    destruct (default_exact_stage P pbp Ec' Ew' Hc' Hex (str "bitch") Sample.phrase_text 25 29 Hb)
      as [f1' [e' [E1' [_ [_ Hin]]]]].
    { split; [lia|]. split; [vm_compute; lia|].
      split; [vm_compute; reflexivity|]. split; [vm_compute; reflexivity|].
      split; [|intros H; discriminate].
      exists (str "bitch"). split; [|split; [discriminate | vm_compute; reflexivity]].
      apply (default_pattern P pbp Ec' Ew'); [exact Hb | vm_compute; reflexivity]. }
    rewrite E1 in E1'. injection E1' as <-.
    destruct (inflection_stage_prefix Sample.tables pbp _ _ _ _ E2) as [extra ->].
    destruct f1; [destruct Hin | discriminate].
Qed.

Lemma phrase_is_reported_when_no_word_is_witness :
  (forall w, In w (Languages.EN_WORDS Sample.packs) -> w <> [])
  /\ exists pb found pb' r,
       constructor Sample.tables Sample.packs None = Returns pb
       /\ word_stages Sample.tables (addPhrase Sample.tables pb (str "son of a bitch"))
                      Sample.phrase_text = Returns found
       /\ detect Sample.tables Sample.packs (addPhrase Sample.tables pb (str "son of a bitch"))
                 Sample.phrase_text = Returns (pb', r)
       /\ hasProfanity r = true
       /\ (found <> [] -> matches r = found)
       /\ (found = [] ->
           exists m, matches r = [m] /\ m_index m + m_length m = 30
                     /\ m_language m = str "en")
       /\ (In (str "bitch") (Languages.EN_WORDS Sample.packs) -> found <> []).
Proof.
  assert (Hne : forall w, In w (Languages.EN_WORDS Sample.packs) -> w <> []).
  { intros w Hw. vm_compute in Hw. destruct Hw as [<-|[<-|[<-|[]]]]; discriminate. }
  split; [exact Hne|].
  exact (phrase_is_reported_when_no_word_is Sample.packs Hne).
Defined.

(** Whatever the packs hold, [detect] does not return once [addWord('')]
    has stored the empty word in the English list. *)
Lemma empty_word_stops_detect (P : Languages.Packs) (text : jsstring) :
  exists pb pb',
    constructor Sample.tables P None = Returns pb
    /\ addWord Sample.tables pb [] None = Returns pb'
    /\ In [] (wordlist_of pb' (str "en"))
    /\ forall r, detect Sample.tables P pb' text <> Returns r.
Proof.
  destruct (default_constructor_ok Sample.tables P) as [pb [E [Ec [Ew [_ [_ [Hc _]]]]]]].
  destruct (addWord_ok Sample.tables pb [] None Hc) as [pb' [Ea [Ec' [Ew' _]]]].
  assert (En : normalizeWord Sample.tables pb [] = [])
    by (unfold normalizeWord, normalizationOptions; rewrite Ec; vm_compute; reflexivity).
  rewrite En, Ec in Ew'. simpl orElse in Ew'.
  assert (Hin : In [] (wordlist_of pb' (str "en"))).
  { unfold wordlist_of at 1. rewrite Ew', map_get_set_same. simpl.
    apply set_add_In. left. reflexivity. }
  exists pb, pb'. split; [exact E|]. split; [exact Ea|]. split; [exact Hin|].
  intros [pb2 r] Hd.
  assert (Hauto : autoDetect (languages (config pb')) = false)
    by (rewrite Ec', Ec; reflexivity).
  rewrite (detect_fixed_languages Sample.tables P pb' text Hauto) in Hd.
  apply bind_Returns in Hd. destruct Hd as [f1 [_ Hd]].
  apply bind_Returns in Hd. destruct Hd as [f2 [E2 _]].
  destruct (inflection_stage_spec Sample.tables pb' _ _ f1 f2 E2) as [_ [Hall _]].
  destruct (Hall (eq_trans (f_equal (fun c => orElse (enableInflections (detection c)) true)
                                    (eq_trans Ec' Ec)) eq_refl)
                 (str "en") []) as [occ [Eo _]].
  - apply entries_In. exists (wordlist_of pb' (str "en")). split; [|exact Hin].
    apply collect_spec. split; [rewrite Ec', Ec; left; reflexivity|].
    unfold wordlist_of in *.
    destruct (map_get str_eqb (str "en") (languageWordlists pb')) as [ws|]; [|destruct Hin].
    simpl in Hin |- *. split; [reflexivity|]. intros Hn. rewrite Hn in Hin. destruct Hin.
  - exact (scan_of_word Sample.tables pb' _ [] occ Eo eq_refl).
Qed.

(* ===================================================================== *)
(** * Further properties of the code                                      *)
(* ===================================================================== *)

(** ** core/trie.ts *)

(** The words that occur are the plain ones. *)
Lemma pattern_of_plain (seps words : list jsstring) (x : jsstring) :
  pattern_of words (unit_keys (kept seps x))
  <-> pattern_of (filter (plain seps) words) (unit_keys (kept seps x)).
Proof.
  split; intros [w [Hw [Hne E]]]; exists w.
  - split; [|auto]. apply filter_In. split; [exact Hw|].
    pose proof (codePoints_unit_keys _ _ E) as Ew.
    unfold plain. apply andb_true_iff. split.
    + rewrite Ew. unfold kept. apply forallb_forall. intros u Hu.
      apply filter_In in Hu. apply Hu.
    + rewrite E. unfold unit_keys. apply forallb_forall. intros cp Hcp.
      apply in_map_iff in Hcp. destruct Hcp as [u [<- _]]. reflexivity.
  - apply filter_In in Hw. destruct Hw as [Hw _]. auto.
Qed.

Lemma occurs_plain (U : Unicode) (seps : list jsstring) (whole : bool)
      (words : list jsstring) (text : jsstring) (s e : nat) :
  occurs U seps whole words text s e
  <-> occurs U seps whole (filter (plain seps) words) text s e.
Proof.
  unfold occurs. rewrite <- pattern_of_plain. reflexivity.
Qed.

(** X1.  [Trie.findAllMatches] on the trie of a word list returns the span
    from [s] to [e] exactly when a word of the list occurs from [s] to [e]
    and no word occurs from [s] to an index beyond [e]: one span per start,
    the longest.  A word occurs from [s] to [e] when the code units at [s]
    and [e] are no listed separators and the code units from [s] to [e]
    that are no listed separators are, one by one, the code points of the
    word (within word boundaries when these are asked for).  So a word
    that holds a listed separator, or a code point outside the Basic
    Multilingual Plane, occurs nowhere and is never reported ([insert]
    keys the trie by code points and the search reads single code units,
    the separators among them skipped): the spans are those of the list
    without these words. *)
Theorem trie_reports_longest_occurrences
        (U : Unicode) (words seps : list jsstring) (whole : bool) (text : jsstring)
        (sp : Span) :
  (In sp (Trie.findAllMatches U (Trie.insertAll words Trie.empty) whole seps text)
   <-> exists s e,
         sp = mkSpan s (e - s + 1)
         /\ occurs U seps whole words text s e
         /\ forall e', occurs U seps whole words text s e' -> e' <= e)
  /\ (In sp (Trie.findAllMatches U (Trie.insertAll words Trie.empty) whole seps text)
      <-> In sp (Trie.findAllMatches U
                   (Trie.insertAll (filter (plain seps) words) Trie.empty)
                   whole seps text)).
Proof.
  pose proof (trie_findAllMatches_spec U whole seps words _ (trie_of_words words) text sp)
    as H.
  pose proof (trie_findAllMatches_spec U whole seps (filter (plain seps) words) _
                (trie_of_words (filter (plain seps) words)) text sp) as H'.
  split; [exact H|]. rewrite H, H'.
  split; intros [s [e [Hs [Ho Hmax]]]]; exists s, e; (split; [exact Hs|]); split.
  - exact (proj1 (occurs_plain U seps whole words text s e) Ho).
  - intros e' Ho'. apply Hmax. exact (proj2 (occurs_plain U seps whole words text s e') Ho').
  - exact (proj2 (occurs_plain U seps whole words text s e) Ho).
  - intros e' Ho'. apply Hmax. exact (proj1 (occurs_plain U seps whole words text s e') Ho').
Qed.


(** ** core/aho.ts *)

(** X3.  [insertAll] followed by [build] returns for every word list, and
    the automaton it leaves is the Aho-Corasick automaton of the list.  Its
    nodes are the prefixes of the words and nothing else: [paths] gives the
    keys that lead to each node, a sequence of keys is the path of a node
    exactly when it is empty (the root) or starts the code points of a word
    of the list that is not empty.  The failure link of a node leads to the
    longest proper suffix of its path that is such a prefix, and the
    outputs of a node are the lengths of all the words that end its path. *)
Theorem build_links_the_longest_suffixes (words : list jsstring) :
  exists ac paths,
    (a <- AhoCorasick.insertAll words AhoCorasick.new ;; AhoCorasick.build a) = Returns ac
    /\ built words ac paths
    /\ forall ks, In ks paths
                  <-> ks = [] \/ exists w q, In w words /\ w <> [] /\ codePoints w = ks ++ q.
Proof. exact (automaton_exact words). Qed.

(** X4.  On the automaton of a word list [AhoCorasick.findAllMatches]
    returns, and its spans are exactly the occurrences of the words in the
    text, all of them.  A word occurs from [s] to [e] when the code units
    at [s] and [e] are no listed separators and the code units from [s] to
    [e] that are no listed separators are, one by one, the code points of
    the word (within word boundaries when these are asked for).  So a word
    that holds a listed separator, or a code point outside the Basic
    Multilingual Plane, occurs nowhere and is never reported (the text is
    compacted and read by single code units, while [insert] keys the
    automaton by code points): the spans are those of the automaton of the
    list without these words. *)
Theorem automaton_reports_all_occurrences
        (U : Unicode) (words seps : list jsstring) (whole : bool) (text : jsstring) :
  exists ac spans,
    (a <- AhoCorasick.insertAll words AhoCorasick.new ;; AhoCorasick.build a) = Returns ac
    /\ AhoCorasick.findAllMatches U ac whole seps text = Returns spans
    /\ (forall sp, In sp spans
                   <-> exists s e, sp = mkSpan s (e - s + 1)
                                   /\ occurs U seps whole words text s e)
    /\ exists ac' spans',
         (a <- AhoCorasick.insertAll (filter (plain seps) words) AhoCorasick.new ;;
          AhoCorasick.build a) = Returns ac'
         /\ AhoCorasick.findAllMatches U ac' whole seps text = Returns spans'
         /\ forall sp, In sp spans <-> In sp spans'.
Proof.
  destruct (automaton_of_words words) as [ac [paths [Eac Hb]]].
  destruct (aho_findAllMatches_spec U words ac paths whole seps Hb text) as [spans [Ef Hsp]].
  destruct (automaton_of_words (filter (plain seps) words)) as [ac' [paths' [Eac' Hb']]].
  destruct (aho_findAllMatches_spec U _ ac' paths' whole seps Hb' text)
    as [spans' [Ef' Hsp']].
  exists ac, spans. split; [exact Eac|]. split; [exact Ef|]. split; [exact Hsp|].
  exists ac', spans'. split; [exact Eac'|]. split; [exact Ef'|].
  intros sp. rewrite Hsp, Hsp'.
  split; intros [s [e [Hs Ho]]]; exists s, e; (split; [exact Hs|]).
  - exact (proj1 (occurs_plain U seps whole words text s e) Ho).
  - exact (proj2 (occurs_plain U seps whole words text s e) Ho).
Qed.


(** ** core/normalization.ts *)

Lemma confusable_values_are_no_keys (u r : N) :
  map_get N.eqb u Normalization.CONFUSABLE_MAP = Some r ->
  map_get N.eqb r Normalization.CONFUSABLE_MAP = None.
Proof.
  unfold Normalization.CONFUSABLE_MAP. cbn [map_get].
  repeat match goal with
         | |- (if ?b then _ else _) = _ -> _ =>
             destruct b; [intros H; injection H as <-; vm_compute; reflexivity|]
         end.
  discriminate.
Qed.

Lemma invisible_is_no_confusable_value (u r : N) :
  map_get N.eqb u Normalization.CONFUSABLE_MAP = Some r ->
  Normalization.is_invisible r = false.
Proof.
  unfold Normalization.CONFUSABLE_MAP. cbn [map_get].
  repeat match goal with
         | |- (if ?b then _ else _) = _ -> _ =>
             destruct b; [intros H; injection H as <-; vm_compute; reflexivity|]
         end.
  discriminate.
Qed.

Section NormalizerMore.
Variable U : Unicode.

(** With [lengthPreserving] and [confusableMapping] the code unit that a
    round of the loop appends is no key of the table. *)
Lemma normalize_unit_no_confusable (stripD stripI : bool) (c : N) :
  exists u, Normalization.normalize_unit U true stripD true stripI c = Some [u]
            /\ map_get N.eqb u Normalization.CONFUSABLE_MAP = None.
Proof.
  unfold Normalization.normalize_unit, unit_str.
  destruct (stripI && Normalization.is_invisible c); cbv iota.
  all: destruct stripD; cbv iota;
    [ match goal with
      | |- context [filter ?f ?l] => destruct (filter f l) as [|b base']
      end | ].
  all: cbn [andb length Nat.eqb];
    match goal with
    | |- context [map_get N.eqb ?u Normalization.CONFUSABLE_MAP] =>
        destruct (map_get N.eqb u Normalization.CONFUSABLE_MAP) as [r|] eqn:E
    end;
    eexists; (split; [reflexivity|]);
    first [exact E | exact (confusable_values_are_no_keys _ _ E)].
Qed.

Lemma normalize_loop_no_confusable (stripD stripI : bool) (text : jsstring) :
  Forall (fun c => map_get N.eqb c Normalization.CONFUSABLE_MAP = None)
         (Normalization.normalize_loop U true stripD true stripI text).
Proof.
  induction text as [|c rest IH]; simpl; [constructor|].
  destruct (normalize_unit_no_confusable stripD stripI c) as [u [-> Hu]].
  simpl. constructor; assumption.
Qed.

(** Without [stripDiacritics] no round of the loop appends an invisible
    character. *)
Lemma normalize_unit_no_invisible (confusable lengthP : bool) (c : N) :
  match Normalization.normalize_unit U confusable false lengthP true c with
  | Some ch => Forall (fun u => Normalization.is_invisible u = false) ch
  | None => True
  end.
Proof.
  unfold Normalization.normalize_unit, unit_str. cbn [andb].
  destruct (Normalization.is_invisible c) eqn:Ei; cbv iota.
  - destruct lengthP; [|exact I]. cbv iota.
    destruct confusable; cbn [andb length Nat.eqb];
      [change (map_get N.eqb 32%N Normalization.CONFUSABLE_MAP) with (@None N)|];
      repeat constructor.
  - destruct confusable; cbn [andb length Nat.eqb]; [|repeat constructor; exact Ei].
    destruct (map_get N.eqb c Normalization.CONFUSABLE_MAP) as [r|] eqn:E;
      repeat constructor; [exact (invisible_is_no_confusable_value _ _ E) | exact Ei].
Qed.

Lemma normalize_loop_no_invisible (confusable lengthP : bool) (text : jsstring) :
  Forall (fun u => Normalization.is_invisible u = false)
         (Normalization.normalize_loop U confusable false lengthP true text).
Proof.
  induction text as [|c rest IH]; simpl; [constructor|].
  pose proof (normalize_unit_no_invisible confusable lengthP c) as H.
  destruct (Normalization.normalize_unit U confusable false lengthP true c) as [ch|];
    [|exact IH].
  apply Forall_app. split; assumption.
Qed.

End NormalizerMore.

(** X6.  In length-preserving mode, which is the default and the mode of
    [detect], the output of [normalizeForDetection] has as many code units
    as the text that enters the loop: the input itself with [caseSensitive],
    the lower-cased input without. *)
Theorem normalizeForDetection_keeps_the_length
        (U : Unicode) (input : jsstring) (options : Normalization.NormalizationOptions) :
  Normalization.lengthPreserving options <> Some false ->
  length (Normalization.normalizeForDetection U input options)
  = length (if Normalization.caseSensitive options then input else toLowerCase U input).
Proof. exact (normalizeForDetection_length U input options). Qed.

Lemma normalizeForDetection_keeps_the_length_witness :
  Normalization.lengthPreserving
    (Normalization.mkNormalizationOptions true true None None None None) <> Some false
  /\ length (Normalization.normalizeForDetection Sample.tables
               [0x35; 0x200B; 0xE9; 0x130]%N
               (Normalization.mkNormalizationOptions true true None None None None))
     = length (if Normalization.caseSensitive
                    (Normalization.mkNormalizationOptions true true None None None None)
               then [0x35; 0x200B; 0xE9; 0x130]%N
               else toLowerCase Sample.tables [0x35; 0x200B; 0xE9; 0x130]%N).
Proof.
  split; [discriminate|].
  apply (normalizeForDetection_keeps_the_length Sample.tables). discriminate.
Defined.

(** X7.  In length-preserving mode with [caseSensitive], the code unit at
    an index of the output depends on the code unit at that index of the
    input only: two inputs that agree at an index have outputs that agree
    there. *)
Theorem normalizeForDetection_is_pointwise
        (U : Unicode) (a b : jsstring) (options : Normalization.NormalizationOptions)
        (i : nat) :
  Normalization.lengthPreserving options <> Some false ->
  Normalization.caseSensitive options = true ->
  i < length a -> i < length b ->
  nth i a 0%N = nth i b 0%N ->
  nth i (Normalization.normalizeForDetection U a options) 0%N
  = nth i (Normalization.normalizeForDetection U b options) 0%N.
Proof.
  intros HL Hcs Ha Hb Hab. unfold Normalization.normalizeForDetection.
  assert (E : orElse (Normalization.lengthPreserving options) true = true).
  { destruct (Normalization.lengthPreserving options) as [[|]|]; simpl; congruence. }
  rewrite E, Hcs, andb_false_r.
  match goal with |- context [if ?c then Normalization.normalize_loop _ _ _ _ _ a else _] =>
    destruct c end; [|exact Hab].
  pose proof (normalize_loop_pointwise U (Normalization.confusableMapping options)
                (orElse (Normalization.stripDiacritics options) true)
                (orElse (Normalization.stripInvisible options) true) a i Ha) as H1.
  pose proof (normalize_loop_pointwise U (Normalization.confusableMapping options)
                (orElse (Normalization.stripDiacritics options) true)
                (orElse (Normalization.stripInvisible options) true) b i Hb) as H2.
  rewrite Hab, H2 in H1. injection H1 as H1. symmetry. exact H1.
Qed.

Lemma normalizeForDetection_is_pointwise_witness :
  Normalization.lengthPreserving
    (Normalization.mkNormalizationOptions true true None None None None) <> Some false
  /\ Normalization.caseSensitive
       (Normalization.mkNormalizationOptions true true None None None None) = true
  /\ 1 < length (str "a5b") /\ 1 < length (str "x5")
  /\ nth 1 (str "a5b") 0%N = nth 1 (str "x5") 0%N
  /\ nth 1 (Normalization.normalizeForDetection Sample.tables (str "a5b")
              (Normalization.mkNormalizationOptions true true None None None None)) 0%N
     = nth 1 (Normalization.normalizeForDetection Sample.tables (str "x5")
                (Normalization.mkNormalizationOptions true true None None None None)) 0%N.
Proof.
  split; [discriminate|]. split; [reflexivity|].
  split; [simpl; lia|]. split; [simpl; lia|]. split; [reflexivity|].
  apply (normalizeForDetection_is_pointwise Sample.tables);
    [discriminate | reflexivity | simpl; lia | simpl; lia | reflexivity].
Defined.

(** X8.  In length-preserving mode with [confusableMapping], no code unit
    of the output is a key of [CONFUSABLE_MAP]: every digit and sign of the
    table has been replaced by its letter. *)
Theorem normalizeForDetection_leaves_no_confusable
        (U : Unicode) (input : jsstring) (options : Normalization.NormalizationOptions) :
  Normalization.lengthPreserving options <> Some false ->
  Normalization.confusableMapping options = true ->
  Forall (fun c => map_get N.eqb c Normalization.CONFUSABLE_MAP = None)
         (Normalization.normalizeForDetection U input options).
Proof.
  intros HL Hc. unfold Normalization.normalizeForDetection.
  assert (E : orElse (Normalization.lengthPreserving options) true = true).
  { destruct (Normalization.lengthPreserving options) as [[|]|]; simpl; congruence. }
  rewrite E, Hc, andb_false_r, orb_true_r. cbn [orb].
  apply normalize_loop_no_confusable.
Qed.

Lemma normalizeForDetection_leaves_no_confusable_witness :
  Normalization.lengthPreserving
    (Normalization.mkNormalizationOptions false true None None None None) <> Some false
  /\ Normalization.confusableMapping
       (Normalization.mkNormalizationOptions false true None None None None) = true
  /\ Forall (fun c => map_get N.eqb c Normalization.CONFUSABLE_MAP = None)
            (Normalization.normalizeForDetection Sample.tables (str "5H1T $0")
               (Normalization.mkNormalizationOptions false true None None None None)).
Proof.
  split; [discriminate|]. split; [reflexivity|].
  apply (normalizeForDetection_leaves_no_confusable Sample.tables);
    [discriminate | reflexivity].
Defined.

(** X9.  With [stripInvisible] (the default) and without [stripDiacritics],
    the output holds none of the five characters that the loop strips,
    U+200B, U+200C, U+200D, U+FEFF and U+00AD, in either mode: they are
    dropped, or replaced by a blank when the length is preserved.  (Other
    invisible characters, U+2060 for one, are not in the list and stay.) *)
Theorem normalizeForDetection_leaves_no_invisible
        (U : Unicode) (input : jsstring) (options : Normalization.NormalizationOptions) :
  Normalization.stripInvisible options <> Some false ->
  Normalization.stripDiacritics options = Some false ->
  Forall (fun c => Normalization.is_invisible c = false)
         (Normalization.normalizeForDetection U input options).
Proof.
  intros HI HD. unfold Normalization.normalizeForDetection.
  assert (E : orElse (Normalization.stripInvisible options) true = true).
  { destruct (Normalization.stripInvisible options) as [[|]|]; simpl; congruence. }
  rewrite E, HD. cbn [orElse]. rewrite !orb_true_r.
  apply normalize_loop_no_invisible.
Qed.

Lemma normalizeForDetection_leaves_no_invisible_witness :
  Normalization.stripInvisible
    (Normalization.mkNormalizationOptions true false (Some false) None (Some false) None)
  <> Some false
  /\ Normalization.stripDiacritics
       (Normalization.mkNormalizationOptions true false (Some false) None (Some false) None)
     = Some false
  /\ Forall (fun c => Normalization.is_invisible c = false)
            (Normalization.normalizeForDetection Sample.tables Sample.obfuscated
               (Normalization.mkNormalizationOptions true false (Some false) None
                                                     (Some false) None)).
Proof.
  split; [discriminate|]. split; [reflexivity|].
  apply (normalizeForDetection_leaves_no_invisible Sample.tables);
    [discriminate | reflexivity].
Defined.

(** ** index.ts: the inflection scan *)

Section ScanSound.
Variable U : Unicode.

Lemma starts_with_firstn (p s : jsstring) :
  starts_with p s = true -> firstn (length p) s = p.
Proof.
  revert s. induction p as [|c p IH]; intros s H; [reflexivity|].
  destruct s as [|d s]; simpl in H; [discriminate|].
  apply andb_true_iff in H. destruct H as [Hc H]. apply N.eqb_eq in Hc. subst d.
  simpl. rewrite (IH s H). reflexivity.
Qed.

Lemma regex_exec_sound (base : jsstring) (suffixes : list jsstring) (rest : jsstring) :
  forall (i startIdx matched : nat),
    regex_exec base suffixes rest i = Some (startIdx, matched) ->
    i <= startIdx /\ starts_with base (skipn (startIdx - i) rest) = true.
Proof.
  induction rest as [|c rest IH]; intros i startIdx matched H; simpl in H.
  - destruct (starts_with base []) eqn:E; [|discriminate].
    injection H as <- _. rewrite Nat.sub_diag. split; [lia | exact E].
  - destruct (starts_with base (c :: rest)) eqn:E.
    + injection H as <- _. rewrite Nat.sub_diag. split; [lia | exact E].
    + apply IH in H. destruct H as [Hle H]. split; [lia|].
      replace (startIdx - i) with (S (startIdx - S i)) by lia. exact H.
Qed.

Lemma occurrences_loop_sound (base : jsstring) (suffixes : list jsstring) (whole : bool)
      (text : jsstring) :
  forall (fuel lastIndex : nat) (l : list nat),
    lastIndex <= length text ->
    occurrences_loop U fuel base suffixes whole text lastIndex = Returns l ->
    Forall (fun i => i + length base <= length text
                     /\ slice text i (i + length base) = base) l.
Proof.
  induction fuel as [|fuel IH]; intros lastIndex l Hlast H; [discriminate|].
  simpl in H.
  destruct (regex_exec base suffixes (skipn lastIndex text) lastIndex)
    as [[startIdx matched]|] eqn:E.
  - destruct (matched =? 0); [destruct (whole && _); discriminate|].
    apply bind_Returns in H. destruct H as [indices [Hrec H]].
    pose proof (regex_exec_bounds _ _ _ _ _ _ E) as [Hle [Hend Hm]].
    rewrite length_skipn in Hend.
    apply IH in Hrec; [|lia].
    assert (Hhere : startIdx + length base <= length text
                    /\ slice text startIdx (startIdx + length base) = base).
    { apply regex_exec_sound in E. destruct E as [_ E].
      rewrite skipn_skipn in E.
      replace (startIdx - lastIndex + lastIndex) with startIdx in E by lia.
      unfold slice. replace (startIdx + length base - startIdx) with (length base) by lia.
      split; [lia | exact (starts_with_firstn _ _ E)]. }
    destruct (whole && _); injection H as <-; [exact Hrec | constructor; assumption].
  - injection H as <-. constructor.
Qed.

End ScanSound.

(** X10.  [findWordOccurrencesWithInflections] returns exactly when the
    base word is not empty: every match of a base that is not empty moves
    [lastIndex] forward, and the empty base matches at the same index for
    ever. *)
Theorem inflection_scan_returns_iff_base_is_not_empty
        (U : Unicode) (text base : jsstring) (suffixes : list jsstring) (whole : bool) :
  (exists l, findWordOccurrencesWithInflections U text base suffixes whole = Returns l)
  <-> base <> [].
Proof.
  split.
  - intros [l H] ->. unfold findWordOccurrencesWithInflections in H.
    exact (occurrences_loop_empty_base U _ _ _ _ _ _ H).
  - apply findWordOccurrencesWithInflections_returns.
Qed.

(** X11.  Every index that [findWordOccurrencesWithInflections] returns is
    the start of an occurrence of the base word that lies inside the text. *)
Theorem inflection_scan_reports_occurrences
        (U : Unicode) (text base : jsstring) (suffixes : list jsstring) (whole : bool)
        (l : list nat) :
  findWordOccurrencesWithInflections U text base suffixes whole = Returns l ->
  Forall (fun i => i + length base <= length text
                   /\ slice text i (i + length base) = base) l.
Proof. apply occurrences_loop_sound. lia. Qed.

Lemma inflection_scan_reports_occurrences_witness :
  findWordOccurrencesWithInflections Sample.tables (str "abs cab ab") (str "ab")
    (map str ["s"; "es"]%string) true = Returns [0; 8]
  /\ Forall (fun i => i + length (str "ab") <= length (str "abs cab ab")
                      /\ slice (str "abs cab ab") i (i + length (str "ab")) = str "ab")
            [0; 8].
Proof.
  split; [vm_compute; reflexivity|].
  apply (inflection_scan_reports_occurrences Sample.tables (str "abs cab ab") (str "ab")
           (map str ["s"; "es"]%string) true).
  vm_compute. reflexivity.
Defined.

(** ** index.ts: the edit distance *)

Lemma dist_cons_cons (x y : N) (a b : list N) :
  dist (x :: a) (y :: b)
  = Nat.min (Nat.min (dist a (y :: b) + 1) (dist (x :: a) b + 1))
            (dist a b + if (x =? y)%N then 0 else 1).
Proof. reflexivity. Qed.

Lemma dist_nil_r (a : list N) : dist a [] = length a.
Proof. destruct a; reflexivity. Qed.

Lemma dist_refl (a : list N) : dist a a = 0.
Proof.
  induction a as [|x a IH]; [reflexivity|].
  rewrite dist_cons_cons, IH, N.eqb_refl. simpl. apply Nat.min_0_r.
Qed.

Lemma dist_zero (a : list N) : forall b, dist a b = 0 -> a = b.
Proof.
  induction a as [|x a IH]; intros b H.
  - simpl in H. destruct b; [reflexivity | discriminate].
  - destruct b as [|y b]; [discriminate|].
    rewrite dist_cons_cons in H.
    destruct (x =? y)%N eqn:E.
    + apply N.eqb_eq in E. subst y. f_equal. apply IH. lia.
    + lia.
Qed.

Lemma dist_bounds (a : list N) :
  forall b, length a - length b <= dist a b
            /\ length b - length a <= dist a b
            /\ dist a b <= Nat.max (length a) (length b).
Proof.
  induction a as [|x a IHa]; intros b.
  - simpl. lia.
  - induction b as [|y b IHb].
    + rewrite dist_nil_r. simpl. lia.
    + rewrite dist_cons_cons.
      pose proof (IHa (y :: b)) as H1. pose proof (IHa b) as H2.
      cbn [length] in *. destruct (x =? y)%N; lia.
Qed.

Lemma prefs_lengths (rest : list N) :
  forall done, map (@length N) (prefs done rest) = seq (length done) (S (length rest)).
Proof.
  induction rest as [|y rest IH]; intros done; [reflexivity|].
  cbn [prefs map length seq]. rewrite IH. reflexivity.
Qed.

Lemma prefs_last (rest : list N) :
  forall done d, last (prefs done rest) d = rev rest ++ done.
Proof.
  induction rest as [|y rest IH]; intros done d; [reflexivity|].
  cbn [prefs]. destruct (prefs (y :: done) rest) as [|p ps] eqn:E.
  - destruct rest; discriminate.
  - rewrite <- E. cbn [last]. rewrite E. rewrite <- E, IH. simpl. rewrite <- app_assoc.
    reflexivity.
Qed.

(** One row of the table from the row above. *)
Lemma levenshtein_row_spec (ai : N) (A : list N) (rest : list N) :
  forall done,
    levenshtein_row ai rest (map (dist A) (prefs done rest)) (dist (ai :: A) done)
    = map (dist (ai :: A)) (tl (prefs done rest)).
Proof.
  induction rest as [|y rest IH]; intros done; [reflexivity|].
  cbn [prefs map tl].
  destruct (prefs (y :: done) rest) as [|p ps] eqn:E; [destruct rest; discriminate|].
  assert (Hp : p = y :: done) by (destruct rest; simpl in E; congruence).
  cbn [map levenshtein_row]. subst p.
  replace (Nat.min (Nat.min (dist A (y :: done) + 1) (dist (ai :: A) done + 1))
                   (dist A done + (if (ai =? y)%N then 0 else 1)))
    with (dist (ai :: A) (y :: done)) by apply dist_cons_cons.
  f_equal.
  specialize (IH (y :: done)). rewrite E in IH. cbn [map tl] in IH. exact IH.
Qed.

Lemma levenshtein_rows_spec (b : list N) (a : list N) :
  forall A,
    levenshtein_rows a b (length A) (map (dist A) (prefs [] b))
    = map (dist (rev a ++ A)) (prefs [] b).
Proof.
  induction a as [|ai a IH]; intros A; [reflexivity|].
  cbn [levenshtein_rows rev]. rewrite <- app_assoc. cbn [app].
  rewrite <- (IH (ai :: A)). cbn [length]. f_equal.
  pose proof (levenshtein_row_spec ai A b []) as Hrow.
  rewrite dist_nil_r in Hrow. cbn [length] in Hrow. rewrite Hrow.
  destruct b; reflexivity.
Qed.

(** The table of [levenshtein] holds the edit distances of the prefixes. *)
Lemma levenshtein_dist (a b : list N) : levenshtein a b = dist (rev a) (rev b).
Proof.
  unfold levenshtein.
  assert (E0 : seq 0 (S (length b)) = map (dist []) (prefs [] b)).
  { transitivity (map (@length N) (prefs [] b));
      [symmetry; exact (prefs_lengths b []) | apply map_ext; reflexivity]. }
  rewrite E0. change 0 with (@length N []) at 1.
  rewrite levenshtein_rows_spec, app_nil_r.
  assert (Hl : forall (f : list N -> nat) (l : list (list N)) d,
             l <> [] -> last (map f l) 0 = f (last l d)).
  { intros f l d. induction l as [|p l IHl]; intros Hn; [contradiction|].
    destruct l as [|q l]; [reflexivity|].
    cbn [map last] in *. apply IHl. discriminate. }
  rewrite (Hl _ _ []) by (destruct b; discriminate).
  rewrite prefs_last, app_nil_r. reflexivity.
Qed.

Lemma levenshtein_zero (a b : jsstring) : levenshtein a b = 0 <-> a = b.
Proof.
  rewrite levenshtein_dist. split.
  - intros H. apply dist_zero in H.
    rewrite <- (rev_involutive a), H. apply rev_involutive.
  - intros ->. apply dist_refl.
Qed.

(** X12.  [levenshtein] is 0 exactly on equal strings. *)
Theorem levenshtein_is_zero_on_equal_strings_only (a b : jsstring) :
  levenshtein a b = 0 <-> a = b.
Proof. exact (levenshtein_zero a b). Qed.

(** X13.  [levenshtein] lies between the difference of the two lengths and
    the greater of them; against the empty string it is the length. *)
Theorem levenshtein_is_bounded_by_the_lengths (a b : jsstring) :
  length a - length b <= levenshtein a b
  /\ length b - length a <= levenshtein a b
  /\ levenshtein a b <= Nat.max (length a) (length b)
  /\ levenshtein a [] = length a
  /\ levenshtein [] b = length b.
Proof.
  rewrite !levenshtein_dist.
  pose proof (dist_bounds (rev a) (rev b)) as H. rewrite !length_rev in H.
  split; [apply H|]. split; [apply H|]. split; [apply H|].
  split; [simpl; rewrite dist_nil_r; apply length_rev | simpl; apply length_rev].
Qed.

(** ** index.ts: the approximate stage *)

Lemma slice_length (A : Type) (s : list A) (i j : nat) :
  length (slice s i j) = Nat.min (j - i) (length s - i).
Proof. unfold slice. rewrite length_firstn, length_skipn. reflexivity. Qed.

Lemma slice_slice (A : Type) (s : list A) (i e k m : nat) :
  i + k + m <= e ->
  slice (slice s i e) k (k + m) = slice s (i + k) (i + k + m).
Proof.
  intros H. unfold slice.
  replace (k + m - k) with m by lia. replace (i + k + m - (i + k)) with m by lia.
  rewrite skipn_firstn_comm, firstn_firstn, skipn_skipn.
  replace (Nat.min m (e - i - k)) with m by lia.
  replace (k + i) with (i + k) by lia. reflexivity.
Qed.

Section ApproximateSound.
Variable U : Unicode.

Lemma minDistance_loop_sound (window target : jsstring) :
  forall (n i : nat) (best : option (nat * nat)) (bi bd : nat),
    n = 0 \/ i + n + length target <= length window + 1 ->
    (forall bi bd, best = Some (bi, bd) ->
                   bi + length target <= length window
                   /\ bd = levenshtein (slice window bi (bi + length target)) target) ->
    minDistance_loop window target n i best = Some (bi, bd) ->
    bi + length target <= length window
    /\ bd = levenshtein (slice window bi (bi + length target)) target.
Proof.
  induction n as [|n IH]; intros i best bi bd Hn Hbest H.
  - simpl in H. exact (Hbest bi bd H).
  - destruct Hn as [Hn|Hn]; [discriminate|].
    cbn [minDistance_loop] in H. cbv zeta in H.
    assert (Hhere : forall bi bd,
               Some (i, levenshtein (slice window i (i + length target)) target) = Some (bi, bd) ->
               bi + length target <= length window
               /\ bd = levenshtein (slice window bi (bi + length target)) target).
    { intros bi0 bd0 E. injection E as <- <-. split; [lia | reflexivity]. }
    destruct (match best with
              | Some (_, bd0) => levenshtein (slice window i (i + length target)) target <? bd0
              | None => true
              end).
    + destruct (levenshtein (slice window i (i + length target)) target =? 0).
      * exact (Hhere bi bd H).
      * apply (IH (S i) (Some (i, levenshtein (slice window i (i + length target)) target))
                  bi bd); [right; lia | exact Hhere | exact H].
    + apply (IH (S i) best bi bd); [right; lia | exact Hbest | exact H].
Qed.

Lemma findMinDistanceInWindow_sound (window target : jsstring) (idx d : nat) :
  findMinDistanceInWindow window target = (idx, Some d) ->
  idx + length target <= length window
  /\ d = levenshtein (slice window idx (idx + length target)) target.
Proof.
  unfold findMinDistanceInWindow. intros H.
  destruct (minDistance_loop window target
              (if length target <=? length window
               then length window - length target + 1 else 0) 0 None)
    as [[bi bd]|] eqn:E; [|discriminate].
  injection H as <- <-.
  refine (minDistance_loop_sound window target _ 0 None bi bd _ _ E); [|discriminate].
  destruct (length target <=? length window) eqn:El;
    [apply Nat.leb_le in El; right; lia | left; reflexivity].
Qed.

Lemma approximate_loop_sound (tokenBounded whole : bool) (text word : jsstring)
      (maxDistance : nat) :
  forall (n i idx : nat),
    n = 0 \/ i + n + length word <= length text + 1 ->
    approximate_loop U tokenBounded whole text word maxDistance n i = Some idx ->
    idx + length word <= length text
    /\ levenshtein (slice text idx (idx + length word)) word <= maxDistance.
Proof.
  induction n as [|n IH]; intros i idx Hn H; [discriminate|].
  destruct Hn as [Hn|Hn]; [discriminate|].
  assert (Hnext : n = 0 \/ S i + n + length word <= length text + 1) by (right; lia).
  cbn [approximate_loop] in H. cbv zeta in H.
  destruct (tokenBounded && (0 <? i) && AhoCorasick.WORD_CHAR_at U text (i - 1));
    [exact (IH _ _ Hnext H)|].
  destruct (findMinDistanceInWindow
              (slice text i (Nat.min (length text) (i + (length word + maxDistance)))) word)
    as [k distance] eqn:E.
  destruct distance as [d|]; [|exact (IH _ _ Hnext H)].
  destruct (d <=? maxDistance) eqn:Ed; [|exact (IH _ _ Hnext H)].
  destruct (whole && _); [exact (IH _ _ Hnext H)|].
  injection H as <-.
  apply findMinDistanceInWindow_sound in E. destruct E as [Hk Hd].
  rewrite slice_length in Hk. apply Nat.leb_le in Ed.
  rewrite slice_slice in Hd by lia.
  split; [lia|]. rewrite <- Hd. exact Ed.
Qed.

Lemma findApproximateOccurrence_sound (pb : ProfanityBuster.ProfanityBuster)
      (text word : jsstring) (maxDistance : nat) (whole : bool) (idx : nat) :
  findApproximateOccurrence U pb text word maxDistance whole = Some idx ->
  idx + length word <= length text
  /\ levenshtein (slice text idx (idx + length word)) word <= maxDistance.
Proof.
  unfold findApproximateOccurrence. apply approximate_loop_sound.
  destruct (length word <=? length text) eqn:El;
    [apply Nat.leb_le in El; right; lia | left; reflexivity].
Qed.

Lemma scaledMaxDistance_short (pb : ProfanityBuster.ProfanityBuster) (word : jsstring) :
  length word < 5 -> scaledMaxDistance pb word = 0.
Proof.
  intros H. unfold scaledMaxDistance.
  assert (E : (Z.of_nat (length word) / 5 = 0)%Z) by (apply Z.div_small; lia).
  rewrite E. lia.
Qed.

End ApproximateSound.

(** X14.  The index that [findApproximateOccurrence] returns is the start
    of a slice of the text, as long as the word, whose edit distance to the
    word is at most [maxDistance]. *)
Theorem approximate_occurrence_is_within_the_distance
        (U : Unicode) (pb : ProfanityBuster.ProfanityBuster) (text word : jsstring)
        (maxDistance : nat) (whole : bool) (idx : nat) :
  findApproximateOccurrence U pb text word maxDistance whole = Some idx ->
  idx + length word <= length text
  /\ levenshtein (slice text idx (idx + length word)) word <= maxDistance.
Proof. exact (findApproximateOccurrence_sound U pb text word maxDistance whole idx). Qed.

Lemma approximate_occurrence_is_within_the_distance_witness :
  findApproximateOccurrence Sample.tables Sample.hello_detector (str "oh hallo world")
    (str "hello") 1 true = Some 3
  /\ 3 + length (str "hello") <= length (str "oh hallo world")
  /\ levenshtein (slice (str "oh hallo world") 3 (3 + length (str "hello"))) (str "hello") <= 1.
Proof.
  split; [vm_compute; reflexivity|].
  apply (approximate_occurrence_is_within_the_distance Sample.tables Sample.hello_detector
           (str "oh hallo world") (str "hello") 1 true 3).
  vm_compute. reflexivity.
Defined.

(** X15.  For a word of fewer than five code units the scaled distance is
    0, whatever [levenshteinDistance] is: the approximate stage reports
    exact occurrences of such a word only. *)
Theorem short_words_are_matched_exactly
        (U : Unicode) (pb : ProfanityBuster.ProfanityBuster) (text word : jsstring)
        (whole : bool) (idx : nat) :
  length word < 5 ->
  findApproximateOccurrence U pb text word (scaledMaxDistance pb word) whole = Some idx ->
  slice text idx (idx + length word) = word.
Proof.
  intros Hs H. rewrite (scaledMaxDistance_short pb word Hs) in H.
  apply findApproximateOccurrence_sound in H. destruct H as [_ H].
  apply levenshtein_zero. lia.
Qed.

Lemma short_words_are_matched_exactly_witness :
  length (str "ab") < 5
  /\ findApproximateOccurrence Sample.tables Sample.hello_detector (str "xb ab")
       (str "ab") (scaledMaxDistance Sample.hello_detector (str "ab")) false = Some 3
  /\ slice (str "xb ab") 3 (3 + length (str "ab")) = str "ab".
Proof.
  split; [simpl; lia|]. split; [vm_compute; reflexivity|].
  apply (short_words_are_matched_exactly Sample.tables Sample.hello_detector
           (str "xb ab") (str "ab") false 3); [simpl; lia | vm_compute; reflexivity].
Defined.

(** ** index.ts: the tokens *)

Section TokenFacts.
Variable U : Unicode.

Lemma codePoints_not_empty (text : jsstring) :
  Forall (fun cp : jsstring => cp <> []) (codePoints text).
Proof.
  assert (H : forall n w, length w <= n -> Forall (fun cp : jsstring => cp <> []) (codePoints w)).
  { induction n as [|n IH]; intros w Hn.
    - destruct w; [constructor | simpl in Hn; lia].
    - destruct w as [|c [|d r]]; [constructor | repeat constructor; discriminate |].
      rewrite codePoints_cons2.
      destruct (is_high_surrogate c && is_low_surrogate d);
        (constructor; [discriminate | apply IH; simpl in *; lia]). }
  apply (H (length text)). lia.
Qed.

Lemma slice_app_l (A : Type) (pre post : list A) (s e : nat) :
  e <= length pre -> slice (pre ++ post) s e = slice pre s e.
Proof.
  intros He. unfold slice.
  destruct (Nat.le_gt_cases s e) as [Hse|Hse].
  - rewrite skipn_app, firstn_app, length_skipn.
    replace (e - s - (length pre - s)) with 0 by lia.
    rewrite firstn_O, app_nil_r. reflexivity.
  - replace (e - s) with 0 by lia. reflexivity.
Qed.

Lemma tokenize_loop_spec (cps : list jsstring) :
  forall (pre : jsstring) (cur : option Token),
    Forall (fun cp : jsstring => cp <> []) cps ->
    (forall t, cur = Some t ->
               start t < endExclusive t /\ endExclusive t = length pre
               /\ value t = slice pre (start t) (endExclusive t)) ->
    Forall (fun t => start t < endExclusive t
                     /\ endExclusive t <= length (pre ++ concat cps)
                     /\ value t = slice (pre ++ concat cps) (start t) (endExclusive t))
           (tokenize_loop U cps (length pre) cur).
Proof.
  induction cps as [|cp cps IH]; intros pre cur Hne Hcur.
  - simpl. rewrite app_nil_r. destruct cur as [t|]; [|constructor].
    destruct (Hcur t eq_refl) as [H1 [H2 H3]]. repeat constructor; [exact H1 | lia | exact H3].
  - inversion Hne as [|? ? Hcp Hrest]; subst.
    assert (Hlen : 0 < length cp) by (destruct cp; [contradiction | simpl; lia]).
    cbn [tokenize_loop concat]. cbv zeta.
    replace (length pre + length cp) with (length (pre ++ cp)) by apply length_app.
    replace (pre ++ cp ++ concat cps) with ((pre ++ cp) ++ concat cps) by (symmetry; apply app_assoc).
    destruct (ProfanityBuster.WORD_CHAR U (codePointValue cp)).
    + apply IH; [exact Hrest|]. intros t Ht. injection Ht as <-.
      destruct cur as [t0|]; cbn [start endExclusive value].
      * destruct (Hcur t0 eq_refl) as [H1 [H2 H3]].
        rewrite length_app. split; [lia|]. split; [reflexivity|].
        rewrite H3, H2. unfold slice.
        rewrite skipn_app, !firstn_all2 by (rewrite ?length_app, ?length_skipn; lia).
        replace (start t0 - length pre) with 0 by lia. reflexivity.
      * rewrite length_app. split; [lia|]. split; [reflexivity|].
        unfold slice. rewrite skipn_app, skipn_all, Nat.sub_diag. simpl.
        symmetry. apply firstn_all2. lia.
    + assert (Hnone : forall t : Token, @None Token = Some t ->
                  start t < endExclusive t /\ endExclusive t = length (pre ++ cp)
                  /\ value t = slice (pre ++ cp) (start t) (endExclusive t))
        by (intros t Ht; discriminate).
      destruct cur as [t0|]; [|exact (IH (pre ++ cp) None Hrest Hnone)].
      constructor; [|exact (IH (pre ++ cp) None Hrest Hnone)].
      destruct (Hcur t0 eq_refl) as [H1 [H2 H3]].
      split; [exact H1|]. split; [rewrite !length_app; lia|].
      rewrite H3. rewrite <- app_assoc. symmetry. apply slice_app_l. lia.
Qed.

End TokenFacts.

(** X16.  Every token of [tokenizeWithOffsets] is not empty, lies inside
    the text, and its value is the slice of the text between its two
    offsets. *)
Theorem tokens_are_slices_of_the_text (U : Unicode) (text : jsstring) :
  Forall (fun t => start t < endExclusive t
                   /\ endExclusive t <= length text
                   /\ value t = slice text (start t) (endExclusive t))
         (tokenizeWithOffsets U text).
Proof.
  unfold tokenizeWithOffsets.
  pose proof (tokenize_loop_spec U (codePoints text) [] None (codePoints_not_empty text)) as H.
  simpl in H. rewrite concat_codePoints in H. apply H. intros t Ht. discriminate.
Qed.

(** ** core/phraseTrie.ts *)

Lemma phrase_accepts_cons (node : PhraseTrie.PhraseTrieNode) (k : jsstring)
      (ks : list jsstring) :
  phrase_accepts node (k :: ks)
  = match map_get str_eqb k (PhraseTrie.children node) with
    | Some next => phrase_accepts next ks
    | None => false
    end.
Proof.
  unfold phrase_accepts. simpl.
  destruct (map_get str_eqb k (PhraseTrie.children node)); reflexivity.
Qed.

Lemma phrase_accepts_empty (ks : list jsstring) : phrase_accepts PhraseTrie.empty ks = false.
Proof. destruct ks; reflexivity. Qed.

Lemma phrase_accepts_insert_from (tokens : list jsstring) :
  forall (node : PhraseTrie.PhraseTrieNode) (ks : list jsstring),
    phrase_accepts (PhraseTrie.insert_from node tokens) ks = true
    <-> phrase_accepts node ks = true \/ ks = tokens.
Proof.
  induction tokens as [|t rest IH]; intros node ks.
  - simpl. destruct ks as [|k ks].
    + unfold phrase_accepts. simpl. intuition.
    + rewrite !phrase_accepts_cons. simpl. intuition discriminate.
  - simpl. destruct ks as [|k ks].
    + unfold phrase_accepts. simpl. intuition discriminate.
    + rewrite !phrase_accepts_cons. simpl.
      destruct (list_eq_dec N.eq_dec t k) as [->|Hne].
      * rewrite map_get_set_same. rewrite IH.
        destruct (map_get str_eqb k (PhraseTrie.children node)) as [next|].
        -- split; intros [H|H]; auto; [subst; auto | injection H as ->; auto].
        -- rewrite phrase_accepts_empty.
           split; intros [H|H]; try discriminate; [subst; auto | injection H as ->; auto].
      * rewrite map_get_set_other by exact Hne.
        split; [auto | intros [H|H]; [exact H | congruence]].
Qed.

Lemma phrase_accepts_insert (tokens : list jsstring) (root : PhraseTrie.PhraseTrieNode)
      (ks : list jsstring) :
  phrase_accepts (PhraseTrie.insert tokens root) ks = true
  <-> phrase_accepts root ks = true \/ (tokens <> [] /\ ks = tokens).
Proof.
  unfold PhraseTrie.insert. destruct tokens as [|t rest].
  - intuition.
  - rewrite phrase_accepts_insert_from. split.
    + intros [H|H]; [auto | right; split; [discriminate | exact H]].
    + intros [H|[_ H]]; auto.
Qed.

Lemma phrase_accepts_insertAll (phrases : list (list jsstring)) :
  forall (root : PhraseTrie.PhraseTrieNode) (ks : list jsstring),
    phrase_accepts (PhraseTrie.insertAll phrases root) ks = true
    <-> phrase_accepts root ks = true \/ (In ks phrases /\ ks <> []).
Proof.
  unfold PhraseTrie.insertAll.
  induction phrases as [|p phrases IH]; intros root ks; simpl.
  - tauto.
  - rewrite IH, phrase_accepts_insert. split.
    + intros [[H|[Hp ->]]|H]; [auto | auto | tauto].
    + intros [H|[[->|H] Hn]]; [auto | auto | auto].
Qed.

Section PhraseSearch.
Variable root : PhraseTrie.PhraseTrieNode.
Variable stopwords : list jsstring.
Variable maxSkips : Z.

(** From a node that accepts the tokens ahead, the attempt ends at the
    first terminal node on their path. *)
Lemma attempt_accepted (phrase : list jsstring) :
  forall (node : PhraseTrie.PhraseTrieNode) (more : list jsstring) (s skips i : nat),
    phrase <> [] -> phrase_accepts node phrase = true ->
    exists e, i <= e < i + length phrase
              /\ PhraseTrie.attempt stopwords maxSkips s node skips (phrase ++ more) i
                 = Some (PhraseTrie.mkTokenSpan s e).
Proof.
  induction phrase as [|t rest IH]; intros node more s skips i Hne Hacc; [contradiction|].
  rewrite phrase_accepts_cons in Hacc. cbn [app PhraseTrie.attempt].
  destruct (map_get str_eqb t (PhraseTrie.children node)) as [next|]; [|discriminate].
  destruct (PhraseTrie.isTerminal next) eqn:Et.
  - exists i. split; [simpl; lia | reflexivity].
  - assert (Hrest : rest <> []).
    { intros ->. unfold phrase_accepts in Hacc. simpl in Hacc. congruence. }
    destruct (IH next more s skips (S i) Hrest Hacc) as [e [He E]].
    exists e. split; [simpl; lia | exact E].
Qed.

Lemma attempt_bounds (rest : list jsstring) :
  forall (node : PhraseTrie.PhraseTrieNode) (s skips i : nat) (sp : PhraseTrie.PhraseMatchTokenSpan),
    PhraseTrie.attempt stopwords maxSkips s node skips rest i = Some sp ->
    PhraseTrie.startTokenIndex sp = s
    /\ i <= PhraseTrie.endTokenIndex sp < i + length rest.
Proof.
  induction rest as [|t rest IH]; intros node s skips i sp H; [discriminate|].
  cbn [PhraseTrie.attempt] in H.
  destruct (map_get str_eqb t (PhraseTrie.children node)) as [next|].
  - destruct (PhraseTrie.isTerminal next).
    + injection H as <-. simpl. split; [reflexivity | lia].
    + apply IH in H. simpl. split; [apply H | lia].
  - destruct (PhraseTrie.hasStop stopwords && has t stopwords
              && (Z.of_nat skips <? maxSkips)%Z); [|discriminate].
    apply IH in H. simpl. split; [apply H | lia].
Qed.

Lemma starts_bounds (rest : list jsstring) :
  forall s,
    Forall (fun sp => s <= PhraseTrie.startTokenIndex sp
                      /\ PhraseTrie.startTokenIndex sp <= PhraseTrie.endTokenIndex sp
                      /\ PhraseTrie.endTokenIndex sp < s + length rest)
           (PhraseTrie.starts root stopwords maxSkips rest s).
Proof.
  induction rest as [|t rest IH]; intros s; [constructor|].
  assert (Htail : Forall (fun sp => s <= PhraseTrie.startTokenIndex sp
                      /\ PhraseTrie.startTokenIndex sp <= PhraseTrie.endTokenIndex sp
                      /\ PhraseTrie.endTokenIndex sp < s + length (t :: rest))
           (PhraseTrie.starts root stopwords maxSkips rest (S s))).
  { eapply Forall_impl; [|exact (IH (S s))]. simpl. intros sp H. lia. }
  cbn [PhraseTrie.starts].
  destruct (PhraseTrie.attempt stopwords maxSkips s root 0 (t :: rest) s) as [sp|] eqn:E;
    [|exact Htail].
  constructor; [|exact Htail].
  apply attempt_bounds in E. lia.
Qed.

End PhraseSearch.

(** X17.  A phrase that has been inserted is found in a token sequence
    that starts with it: [findAllMatchesForTokens] reports a span from token
    0 that ends inside the phrase (at the first terminal node on its path),
    whatever the stop words. *)
Theorem inserted_phrase_is_found
        (root : PhraseTrie.PhraseTrieNode) (stopwords : list jsstring) (maxSkips : Z)
        (phrase more : list jsstring) :
  phrase <> [] ->
  exists e, e < length phrase
            /\ In (PhraseTrie.mkTokenSpan 0 e)
                  (PhraseTrie.findAllMatchesForTokens (PhraseTrie.insert phrase root)
                     stopwords maxSkips (phrase ++ more)).
Proof.
  intros Hne.
  assert (Hacc : phrase_accepts (PhraseTrie.insert phrase root) phrase = true)
    by (apply phrase_accepts_insert; right; auto).
  destruct (attempt_accepted stopwords maxSkips phrase _ more 0 0 0 Hne Hacc) as [e [He E]].
  exists e. split; [lia|]. unfold PhraseTrie.findAllMatchesForTokens.
  destruct phrase as [|t rest]; [contradiction|].
  cbn [app PhraseTrie.starts]. cbn [app] in E. rewrite E. left. reflexivity.
Qed.

Lemma inserted_phrase_is_found_witness :
  map str ["son"; "of"; "a"]%string <> []
  /\ exists e, e < length (map str ["son"; "of"; "a"]%string)
               /\ In (PhraseTrie.mkTokenSpan 0 e)
                     (PhraseTrie.findAllMatchesForTokens
                        (PhraseTrie.insert (map str ["son"; "of"; "a"]%string)
                                           PhraseTrie.empty)
                        [] 0%Z (map str ["son"; "of"; "a"]%string ++ [str "gun"])).
Proof.
  split; [discriminate|].
  apply (inserted_phrase_is_found PhraseTrie.empty [] 0%Z). discriminate.
Defined.

(** X18.  The spans of [findAllMatchesForTokens] are spans of tokens: each
    starts at a token of the sequence and ends at a token from there on. *)
Theorem phrase_spans_are_spans_of_tokens
        (root : PhraseTrie.PhraseTrieNode) (stopwords : list jsstring) (maxSkips : Z)
        (tokens : list jsstring) :
  Forall (fun sp => PhraseTrie.startTokenIndex sp <= PhraseTrie.endTokenIndex sp
                    /\ PhraseTrie.endTokenIndex sp < length tokens)
         (PhraseTrie.findAllMatchesForTokens root stopwords maxSkips tokens).
Proof.
  unfold PhraseTrie.findAllMatchesForTokens.
  eapply Forall_impl; [|exact (starts_bounds root stopwords maxSkips tokens 0)].
  simpl. intros sp H. lia.
Qed.

(** X19.  [removePhrase] takes the phrase off [phraseList] but never out of
    the trie: [rebuildPhraseTrie] inserts the phrases that are left into the
    trie as it is, so every token sequence that the trie accepted before
    [removePhrase] (or [addPhrase]) is accepted after it. *)
Theorem removePhrase_leaves_the_trie_as_it_is
        (U : Unicode) (pb : ProfanityBuster.ProfanityBuster) (phrase : jsstring)
        (ks : list jsstring) :
  phrase_accepts (phraseTrie pb) ks = true ->
  phrase_accepts (phraseTrie (removePhrase U pb phrase)) ks = true
  /\ phrase_accepts (phraseTrie (addPhrase U pb phrase)) ks = true.
Proof.
  intros H. unfold removePhrase, addPhrase, rebuildPhraseTrie, with_phrases.
  destruct (map value (tokenizeWithOffsets U (normalizeWord U pb phrase))); [auto|].
  cbn [phraseTrie phraseList].
  split; apply phrase_accepts_insertAll; left; exact H.
Qed.

Lemma removePhrase_leaves_the_trie_as_it_is_witness :
  phrase_accepts (phraseTrie Sample.phrase_detector)
                 (map str ["son"; "of"; "a"; "bitch"]%string) = true
  /\ phraseList (removePhrase Sample.tables Sample.phrase_detector (str "son of a bitch")) = []
  /\ phrase_accepts
       (phraseTrie (removePhrase Sample.tables Sample.phrase_detector (str "son of a bitch")))
       (map str ["son"; "of"; "a"; "bitch"]%string) = true
  /\ phrase_accepts
       (phraseTrie (addPhrase Sample.tables Sample.phrase_detector (str "son of a bitch")))
       (map str ["son"; "of"; "a"; "bitch"]%string) = true.
Proof.
  split; [vm_compute; reflexivity|]. split; [vm_compute; reflexivity|].
  apply (removePhrase_leaves_the_trie_as_it_is Sample.tables Sample.phrase_detector
           (str "son of a bitch")).
  vm_compute. reflexivity.
Defined.

(** ** index.ts: the word lists *)

Lemma map_set_keys (V : Type) (k : jsstring) (v : V) (m : list (jsstring * V)) :
  map fst (map_set str_eqb k v m)
  = if map_has str_eqb k m then map fst m else map fst m ++ [k].
Proof.
  unfold map_has. induction m as [|[k' v'] m IH]; simpl; [reflexivity|].
  destruct (str_eqb k k') eqn:E; [reflexivity|].
  simpl. rewrite IH. destruct (map_get str_eqb k m); reflexivity.
Qed.

Lemma map_get_In_keys (V : Type) (k : jsstring) (m : list (jsstring * V)) :
  map_get str_eqb k m = None -> ~ In k (map fst m).
Proof.
  induction m as [|[k' v'] m IH]; simpl; intros H; [tauto|].
  destruct (str_eqb k k') eqn:E; [discriminate|].
  apply str_eqb_neq in E. intros [Hk|Hk]; [congruence | exact (IH H Hk)].
Qed.

Lemma map_set_NoDup (V : Type) (k : jsstring) (v : V) (m : list (jsstring * V)) :
  NoDup (map fst m) -> NoDup (map fst (map_set str_eqb k v m)).
Proof.
  intros H. rewrite map_set_keys. unfold map_has.
  destruct (map_get str_eqb k m) eqn:E; [exact H|].
  apply NoDup_app; [exact H | repeat constructor; intros [] | ].
  intros x Hx [<-|[]]. exact (map_get_In_keys _ _ _ E Hx).
Qed.

Lemma collect_NoDup (pb : ProfanityBuster.ProfanityBuster) (codes : list jsstring) :
  NoDup (map fst (collectWordlistsForCodes pb codes)).
Proof.
  unfold collectWordlistsForCodes.
  assert (H : forall active : list (jsstring * list jsstring),
             NoDup (map fst active) ->
             NoDup (map fst
               (fold_left (fun active code =>
                             match map_get str_eqb code (languageWordlists pb) with
                             | Some list => if 0 <? length list
                                            then map_set str_eqb code list active
                                            else active
                             | None => active
                             end) codes active))).
  { induction codes as [|c codes IH]; intros active Ha; [exact Ha|].
    simpl. apply IH.
    destruct (map_get str_eqb c (languageWordlists pb)) as [l|]; [|exact Ha].
    destruct (0 <? length l); [apply map_set_NoDup; exact Ha | exact Ha]. }
  apply H. constructor.
Qed.

(** X20.  [collectWordlistsForCodes] returns the word lists of the codes
    that have one that is not empty, each code once: a language that is not
    loaded or whose list is empty is never scanned by [detect]. *)
Theorem collected_wordlists_are_loaded_and_not_empty
        (pb : ProfanityBuster.ProfanityBuster) (codes : list jsstring) :
  NoDup (map fst (collectWordlistsForCodes pb codes))
  /\ forall c ws,
       In (c, ws) (collectWordlistsForCodes pb codes)
       <-> In c codes /\ map_get str_eqb c (languageWordlists pb) = Some ws /\ ws <> [].
Proof. split; [apply collect_NoDup | intros c ws; apply collect_spec]. Qed.

(** ** index.ts: the management API *)

Section ManagementFacts.
Variable U : Unicode.

(** What [rebuildMatcherForLanguage] leaves in the two maps for [code]. *)
Lemma rebuild_kind (pb pb' : ProfanityBuster.ProfanityBuster) (code : jsstring) :
  rebuildMatcherForLanguage U pb code = Returns pb' ->
  match orElse (algorithm (detection (config pb))) trie with
  | trie => (exists t, map_get str_eqb code (languageTries pb') = Some t)
            /\ map_get str_eqb code (languageAutomata pb') = None
  | aho => (exists ac, map_get str_eqb code (languageAutomata pb') = Some ac)
           /\ map_get str_eqb code (languageTries pb') = None
  end.
Proof.
  unfold rebuildMatcherForLanguage.
  destruct (orElse (algorithm (detection (config pb))) trie).
  - intros H. injection H as <-. simpl.
    rewrite map_get_set_same, map_get_delete_same. eauto.
  - intros H. apply bind_Returns in H. destruct H as [ac0 [_ H]].
    apply bind_Returns in H. destruct H as [ac [_ H]]. injection H as <-. simpl.
    rewrite map_get_set_same, map_get_delete_same. eauto.
Qed.

Lemma with_wordlists_rebuild (pb : ProfanityBuster.ProfanityBuster) (code : jsstring)
      (set : list jsstring) :
  exists pb',
    rebuildMatcherForLanguage U
      (with_wordlists pb (map_set str_eqb code set (languageWordlists pb))) code = Returns pb'
    /\ config pb' = config pb
    /\ wordlist_of pb' code = set
    /\ (forall c, c <> code ->
                  wordlist_of pb' c = wordlist_of pb c
                  /\ map_get str_eqb c (languageTries pb') = map_get str_eqb c (languageTries pb)
                  /\ map_get str_eqb c (languageAutomata pb')
                     = map_get str_eqb c (languageAutomata pb))
    /\ matcher_consistent U pb' code
    /\ match orElse (algorithm (detection (config pb))) trie with
       | trie => (exists t, map_get str_eqb code (languageTries pb') = Some t)
                 /\ map_get str_eqb code (languageAutomata pb') = None
       | aho => (exists ac, map_get str_eqb code (languageAutomata pb') = Some ac)
                /\ map_get str_eqb code (languageTries pb') = None
       end
    /\ rebuildMatcherForLanguage U
         (with_wordlists pb (map_set str_eqb code set (languageWordlists pb))) code
       = Returns pb'.
Proof.
  destruct (rebuildMatcherForLanguage_ok U
              (with_wordlists pb (map_set str_eqb code set (languageWordlists pb))) code)
    as [pb' [E [Ec [Ew [_ [_ [Hm [Hsame _]]]]]]]].
  exists pb'. split; [exact E|]. split; [exact Ec|]. simpl in Ew.
  split; [unfold wordlist_of; rewrite Ew, map_get_set_same; reflexivity|].
  split; [|split; [exact Hm | split; [exact (rebuild_kind _ _ _ E) | exact E]]].
  intros c Hc. destruct (Hsame c Hc) as [Ht Ha].
  split; [|split; assumption].
  unfold wordlist_of. rewrite Ew, map_get_set_other by congruence. reflexivity.
Qed.

(** Under [aho], the automaton that [rebuildMatcherForLanguage] stores is
    the built automaton of the patterns of the list, with a node for every
    prefix of a pattern and no other. *)
Lemma rebuild_automaton_exact (pb pb' : ProfanityBuster.ProfanityBuster) (code : jsstring) :
  orElse (algorithm (detection (config pb))) trie = aho ->
  rebuildMatcherForLanguage U pb code = Returns pb' ->
  exists ac paths,
    map_get str_eqb code (languageAutomata pb') = Some ac
    /\ built (variants U pb (wordlist_of pb code)) ac paths
    /\ forall ks, In ks paths <-> prefix_of_word (variants U pb (wordlist_of pb code)) ks.
Proof.
  intros Ealg H. unfold rebuildMatcherForLanguage in H. rewrite Ealg in H.
  destruct (automaton_fold_exact (expandWordVariants U pb)
              (orElse (map_get str_eqb code (languageWordlists pb)) [])
              [] AhoCorasick.new [[]] inserted_new) as [ac0 [paths [E0 [Hi Hpre]]]].
  { intros p [<-|[]]. left. reflexivity. }
  simpl in Hi, Hpre. destruct (build_ok _ ac0 paths Hi) as [ac [Eb Hb]].
  rewrite E0 in H. simpl in H. rewrite Eb in H. simpl in H. injection H as <-.
  exists ac, paths. simpl. rewrite map_get_set_same. split; [reflexivity|].
  split; [exact Hb|]. exact (built_paths_exact _ ac paths Hb Hpre).
Qed.

Lemma set_delete_In (x y : jsstring) (s : list jsstring) :
  In y (set_delete x s) <-> In y s /\ y <> x.
Proof.
  unfold set_delete. rewrite filter_In. split.
  - intros [H E]. split; [exact H|]. apply negb_true_iff, str_eqb_neq in E. congruence.
  - intros [H E]. split; [exact H|]. apply negb_true_iff, str_eqb_neq. congruence.
Qed.

Lemma set_delete_add (x : jsstring) (s : list jsstring) :
  ~ In x s -> set_delete x (set_add x s) = s.
Proof.
  intros Hn. unfold set_add.
  assert (Hh : has x s = false).
  { destruct (has x s) eqn:E; [apply has_In in E; contradiction | reflexivity]. }
  rewrite Hh. unfold set_delete. rewrite filter_app. simpl.
  rewrite str_eqb_refl. simpl. rewrite app_nil_r.
  apply forallb_filter_id. apply forallb_forall. intros y Hy.
  apply negb_true_iff, str_eqb_neq. intros ->. contradiction.
Qed.

End ManagementFacts.

(** X21.  [addWord] returns on every instance; it leaves the configuration
    as it is, the word list of the language holds the normalized word and
    all the words it held, and the lists and matchers of the other languages
    are untouched.  For the language itself a matcher of the configured
    kind is stored and none of the other kind, and the stored matcher is
    the one compiled from the new list: the trie accepts the patterns of
    the list and no other; the automaton has a node for every prefix of a
    pattern of the list and no other, with the failure links and the
    outputs of the Aho-Corasick construction ([built]). *)
Theorem addWord_adds_the_normalized_word
        (U : Unicode) (pb : ProfanityBuster.ProfanityBuster) (word : jsstring)
        (language : option jsstring) :
  exists pb',
    addWord U pb word language = Returns pb'
    /\ config pb' = config pb
    /\ (forall w, In w (wordlist_of pb' (orElse language (fallback (languages (config pb)))))
                  <-> w = normalizeWord U pb word
                      \/ In w (wordlist_of pb
                                 (orElse language (fallback (languages (config pb))))))
    /\ (forall c, c <> orElse language (fallback (languages (config pb))) ->
                  wordlist_of pb' c = wordlist_of pb c
                  /\ map_get str_eqb c (languageTries pb') = map_get str_eqb c (languageTries pb)
                  /\ map_get str_eqb c (languageAutomata pb')
                     = map_get str_eqb c (languageAutomata pb))
    /\ match orElse (algorithm (detection (config pb))) trie with
       | trie =>
           map_get str_eqb (orElse language (fallback (languages (config pb))))
                   (languageAutomata pb') = None
           /\ exists t,
                map_get str_eqb (orElse language (fallback (languages (config pb))))
                        (languageTries pb') = Some t
                /\ forall ks,
                     accepts t ks = true
                     <-> pattern_of
                           (variants U pb'
                              (wordlist_of pb'
                                 (orElse language (fallback (languages (config pb)))))) ks
       | aho =>
           map_get str_eqb (orElse language (fallback (languages (config pb))))
                   (languageTries pb') = None
           /\ exists ac paths,
                map_get str_eqb (orElse language (fallback (languages (config pb))))
                        (languageAutomata pb') = Some ac
                /\ built (variants U pb'
                            (wordlist_of pb'
                               (orElse language (fallback (languages (config pb))))))
                         ac paths
                /\ forall ks,
                     In ks paths
                     <-> prefix_of_word
                           (variants U pb'
                              (wordlist_of pb'
                                 (orElse language (fallback (languages (config pb)))))) ks
       end.
Proof.
  unfold addWord. cbv zeta.
  destruct (with_wordlists_rebuild U pb (orElse language (fallback (languages (config pb))))
              (set_add (normalizeWord U pb word)
                       (orElse (map_get str_eqb
                                  (orElse language (fallback (languages (config pb))))
                                  (languageWordlists pb)) [])))
    as [pb' [E [Ec [Ew [Hothers [[Ht Ha] [Hk Er]]]]]]].
  exists pb'. split; [exact E|]. split; [exact Ec|].
  split; [intros w; rewrite Ew; apply set_add_In|]. split; [exact Hothers|].
  simpl in Hk.
  destruct (orElse (algorithm (detection (config pb))) trie) eqn:Ealg.
  - destruct Hk as [[t Et] En]. split; [exact En|]. exists t. split; [exact Et|].
    exact (Ht t Et).
  - destruct Hk as [_ En]. split; [exact En|].
    match type of Er with
    | rebuildMatcherForLanguage _ ?p _ = _ =>
        destruct (rebuild_automaton_exact U p pb' _ Ealg Er) as [ac [paths [Eac [Hb Hex]]]];
        rewrite <- (variants_config U p pb' _ Ec) in Hb, Hex
    end.
    exists ac, paths. split; [exact Eac|].
    unfold wordlist_of at 1 in Hb. unfold wordlist_of at 1 in Hex.
    cbn [languageWordlists with_wordlists] in Hb, Hex.
    rewrite map_get_set_same in Hb, Hex. cbn [orElse] in Hb, Hex.
    rewrite Ew. auto.
Qed.

(** X22.  [removeWord] after [addWord] of a word that the list did not
    hold gives the list back: both calls return, and the word list of the
    language and the configuration are the ones before the two calls. *)
Theorem removeWord_undoes_addWord
        (U : Unicode) (pb : ProfanityBuster.ProfanityBuster) (word : jsstring)
        (language : option jsstring) :
  ~ In (normalizeWord U pb word)
       (wordlist_of pb (orElse language (fallback (languages (config pb))))) ->
  exists pb1 pb2,
    addWord U pb word language = Returns pb1
    /\ removeWord U pb1 word language = Returns pb2
    /\ config pb2 = config pb
    /\ forall c, wordlist_of pb2 c = wordlist_of pb c.
Proof.
  intros Hn. unfold addWord. cbv zeta.
  destruct (with_wordlists_rebuild U pb (orElse language (fallback (languages (config pb))))
              (set_add (normalizeWord U pb word)
                       (orElse (map_get str_eqb
                                  (orElse language (fallback (languages (config pb))))
                                  (languageWordlists pb)) [])))
    as [pb1 [E1 [Ec1 [Ew1 [Hothers1 _]]]]].
  exists pb1. unfold removeWord. cbv zeta. rewrite Ec1.
  assert (Enw : normalizeWord U pb1 word = normalizeWord U pb word)
    by (unfold normalizeWord, normalizationOptions; rewrite Ec1; reflexivity).
  rewrite Enw.
  unfold wordlist_of in Ew1.
  destruct (map_get str_eqb (orElse language (fallback (languages (config pb))))
                    (languageWordlists pb1)) as [set|] eqn:Eg.
  - simpl in Ew1. subst set.
    destruct (with_wordlists_rebuild U pb1 (orElse language (fallback (languages (config pb))))
                (set_delete (normalizeWord U pb word)
                   (set_add (normalizeWord U pb word)
                      (orElse (map_get str_eqb
                                 (orElse language (fallback (languages (config pb))))
                                 (languageWordlists pb)) []))))
      as [pb2 [E2 [Ec2 [Ew2 [Hothers2 _]]]]].
    exists pb2. split; [exact E1|]. split; [exact E2|]. split; [congruence|].
    intros c.
    destruct (list_eq_dec N.eq_dec c (orElse language (fallback (languages (config pb)))))
      as [->|Hc].
    + rewrite Ew2. apply set_delete_add. exact Hn.
    + destruct (Hothers2 c Hc) as [H2 _]. destruct (Hothers1 c Hc) as [H1 _]. congruence.
  - simpl in Ew1. exfalso.
    assert (Hin : In (normalizeWord U pb word)
                     (set_add (normalizeWord U pb word)
                        (orElse (map_get str_eqb
                                   (orElse language (fallback (languages (config pb))))
                                   (languageWordlists pb)) [])))
      by (apply set_add_In; left; reflexivity).
    rewrite <- Ew1 in Hin. destruct Hin.
Qed.

Lemma removeWord_undoes_addWord_witness :
  ~ In (normalizeWord Sample.tables Sample.default_detector (str "Darn"))
       (wordlist_of Sample.default_detector
                    (orElse None (fallback (languages (config Sample.default_detector)))))
  /\ exists pb1 pb2,
       addWord Sample.tables Sample.default_detector (str "Darn") None = Returns pb1
       /\ removeWord Sample.tables pb1 (str "Darn") None = Returns pb2
       /\ config pb2 = config Sample.default_detector
       /\ forall c, wordlist_of pb2 c = wordlist_of Sample.default_detector c.
Proof.
  assert (Hn : ~ In (normalizeWord Sample.tables Sample.default_detector (str "Darn"))
                    (wordlist_of Sample.default_detector
                       (orElse None (fallback (languages (config Sample.default_detector))))))
    by (vm_compute; intuition discriminate).
  split; [exact Hn|].
  exact (removeWord_undoes_addWord Sample.tables Sample.default_detector (str "Darn") None Hn).
Defined.

Section RebuildAll.
Variable U : Unicode.

Lemma rebuild_all (codes : list jsstring) :
  forall pb : ProfanityBuster.ProfanityBuster,
    exists pb',
      foldM (rebuildMatcherForLanguage U) codes pb = Returns pb'
      /\ config pb' = config pb
      /\ languageWordlists pb' = languageWordlists pb
      /\ (forall c, In c codes ->
                    matcher_consistent U pb' c
                    /\ match orElse (algorithm (detection (config pb))) trie with
                       | trie => (exists t, map_get str_eqb c (languageTries pb') = Some t)
                                 /\ map_get str_eqb c (languageAutomata pb') = None
                       | aho => (exists ac, map_get str_eqb c (languageAutomata pb') = Some ac)
                                /\ map_get str_eqb c (languageTries pb') = None
                       end)
      /\ (forall c, ~ In c codes ->
                    map_get str_eqb c (languageTries pb') = map_get str_eqb c (languageTries pb)
                    /\ map_get str_eqb c (languageAutomata pb')
                       = map_get str_eqb c (languageAutomata pb)).
Proof.
  induction codes as [|c0 cs IH]; intros pb.
  - exists pb. simpl. split; [reflexivity|]. split; [reflexivity|]. split; [reflexivity|].
    split; [intros c []| auto].
  - destruct (rebuildMatcherForLanguage_ok U pb c0)
      as [pb1 [E1 [Ec1 [Ew1 [_ [_ [Hm1 [Hsame1 _]]]]]]]].
    pose proof (rebuild_kind U pb pb1 c0 E1) as Hk1.
    destruct (IH pb1) as [pb' [E' [Ec' [Ew' [Hin' Hout']]]]].
    exists pb'. cbn [foldM]. rewrite E1. cbn [bind].
    split; [exact E'|]. split; [congruence|]. split; [congruence|]. split.
    + intros c Hc.
      destruct (in_dec (list_eq_dec N.eq_dec) c cs) as [Hcs|Hcs].
      * rewrite <- Ec1. exact (Hin' c Hcs).
      * destruct Hc as [<-|Hc]; [|contradiction].
        destruct (Hout' c0 Hcs) as [Et Ea]. split.
        -- apply (matcher_consistent_ext U pb1 pb' c0 Ec'); [| exact Et | exact Ea | exact Hm1].
           unfold wordlist_of. rewrite Ew'. reflexivity.
        -- rewrite Et, Ea. exact Hk1.
    + intros c Hc.
      assert (Hc0 : c <> c0) by (intros ->; apply Hc; left; reflexivity).
      assert (Hcs : ~ In c cs) by (intros H; apply Hc; right; exact H).
      destruct (Hout' c Hcs) as [Et Ea]. destruct (Hsame1 c Hc0) as [Et1 Ea1].
      split; congruence.
Qed.

End RebuildAll.

(** X23.  [setAlgorithm] returns on every instance; it records the
    algorithm, leaves the word lists as they are, and every enabled
    language is left with the matcher of the chosen kind, compiled from its
    word list, and without a matcher of the other kind. *)
Theorem setAlgorithm_rebuilds_the_enabled_languages
        (U : Unicode) (pb : ProfanityBuster.ProfanityBuster) (a : Algorithm) :
  exists pb',
    setAlgorithm U pb a = Returns pb'
    /\ algorithm (detection (config pb')) = Some a
    /\ languageWordlists pb' = languageWordlists pb
    /\ forall c, In c (enabledCodes (languages (config pb))) ->
                 matcher_consistent U pb' c
                 /\ match a with
                    | trie => (exists t, map_get str_eqb c (languageTries pb') = Some t)
                              /\ map_get str_eqb c (languageAutomata pb') = None
                    | aho => (exists ac, map_get str_eqb c (languageAutomata pb') = Some ac)
                             /\ map_get str_eqb c (languageTries pb') = None
                    end.
Proof.
  unfold setAlgorithm. cbv zeta.
  destruct (rebuild_all U (enabledCodes (languages (config (with_algorithm pb a))))
              (with_algorithm pb a)) as [pb' [E [Ec [Ew [Hin _]]]]].
  exists pb'. split; [exact E|]. split; [rewrite Ec; reflexivity|]. split; [exact Ew|].
  intros c Hc. exact (Hin c Hc).
Qed.

(** ** index.ts: [detect], [sanitize] and the instance *)

Lemma foldM_preserves (A B : Type) (I : A -> Prop) (body : A -> B -> outcome A)
      (l : list B) :
  (forall a x a', I a -> body a x = Returns a' -> I a') ->
  forall acc acc', I acc -> foldM body l acc = Returns acc' -> I acc'.
Proof.
  intros Hbody. induction l as [|x l IH]; intros acc acc' HI H.
  - simpl in H. injection H as <-. exact HI.
  - cbn [foldM] in H. apply bind_Returns in H. destruct H as [a1 [E1 H]].
    exact (IH a1 acc' (Hbody acc x a1 HI E1) H).
Qed.

Section ConfigKept.
Variable U : Unicode.
Variable P : Languages.Packs.

Lemma rebuild_config (pb pb' : ProfanityBuster.ProfanityBuster) (code : jsstring) :
  rebuildMatcherForLanguage U pb code = Returns pb' -> config pb' = config pb.
Proof.
  intros E. destruct (rebuildMatcherForLanguage_ok U pb code) as [pb2 [E2 [Ec _]]].
  rewrite E in E2. injection E2 as <-. exact Ec.
Qed.

Lemma ensureLoadedForCodes_config (codes : list jsstring)
      (pb pb' : ProfanityBuster.ProfanityBuster) :
  ensureLoadedForCodes U P pb codes = Returns pb' -> config pb' = config pb.
Proof.
  unfold ensureLoadedForCodes.
  apply (foldM_preserves _ _ (fun a => config a = config pb)); [|reflexivity].
  intros a code a' Ha H.
  destruct (alreadyLoaded a code); [injection H as <-; exact Ha|].
  destruct (packFor P code) as [[|w ws]|]; try (injection H as <-; exact Ha).
  apply rebuild_config in H. rewrite H. exact Ha.
Qed.

Lemma detect_config (pb pb' : ProfanityBuster.ProfanityBuster) (text : jsstring)
      (r : DetectionResult) :
  detect U P pb text = Returns (pb', r) -> config pb' = config pb.
Proof.
  intros H. destruct (detect_instance U P pb pb' text r H) as [codes Hsel].
  destruct (autoDetect (languages (config pb))) eqn:Ea; [|congruence].
  unfold selectAutoDetectLanguages in Hsel. rewrite Ea in Hsel.
  destruct (0 <? length (filter _ _)); [congruence|].
  destruct (0 <? length (map fst _)); [congruence|].
  apply bind_Returns in Hsel. destruct Hsel as [pb1 [E Hsel]]. injection Hsel as <- _.
  exact (ensureLoadedForCodes_config _ _ _ E).
Qed.

End ConfigKept.

(** X24.  [detect] never changes the configuration of the instance, not
    even when it loads the packs under [autoDetect]. *)
Theorem detect_keeps_the_configuration
        (U : Unicode) (P : Languages.Packs) (pb pb' : ProfanityBuster.ProfanityBuster)
        (text : jsstring) (r : DetectionResult) :
  detect U P pb text = Returns (pb', r) -> config pb' = config pb.
Proof. exact (detect_config U P pb pb' text r). Qed.

Lemma detect_keeps_the_configuration_witness :
  exists pb' r,
    detect Sample.tables Sample.packs Sample.auto_detector (str "hello") = Returns (pb', r)
    /\ languageWordlists pb' <> languageWordlists Sample.auto_detector
    /\ config pb' = config Sample.auto_detector.
Proof.
  eexists. eexists. split; [vm_compute; reflexivity|].
  split; [vm_compute; discriminate|].
  eapply (detect_keeps_the_configuration Sample.tables Sample.packs Sample.auto_detector
            _ (str "hello")).
  vm_compute. reflexivity.
Defined.

(** ** index.ts: masking *)

Section MaskFacts.

Lemma mask_chars_length (m : MaskingConfig) (total : nat) (chars : jsstring) :
  length (pattern m) = 1 ->
  forall i, length (concat (mask_chars m total chars i)) = length chars.
Proof.
  intros Hp. induction chars as [|c chars IH]; intros i; [reflexivity|].
  cbn [mask_chars concat]. rewrite length_app, IH.
  destruct ((preserveFirst m && (i =? 0)) || (preserveLast m && (i =? total - 1)));
    [reflexivity | rewrite Hp; reflexivity].
Qed.

Lemma maskWord_length (U : Unicode) (pb : ProfanityBuster.ProfanityBuster) (word : jsstring) :
  preserveLength (masking (config pb)) = true ->
  length (pattern (masking (config pb))) = 1 ->
  length (maskWord pb word) = length word.
Proof.
  intros Hl Hp. unfold maskWord. rewrite Hl. simpl. apply mask_chars_length. exact Hp.
Qed.

(** A splice with as many items as it deletes. *)
Lemma splice_same_length (A : Type) (output items : list A) (idx len : nat) :
  length items = length (slice output idx (idx + len)) ->
  length (splice output idx len items) = length output.
Proof.
  intros H. unfold splice. rewrite !length_app, H, slice_length, length_firstn, length_skipn.
  lia.
Qed.

Lemma splice_outside (A : Type) (output items : list A) (idx len i : nat) (d : A) :
  length items = length (slice output idx (idx + len)) ->
  i < idx \/ idx + len <= i ->
  nth i (splice output idx len items) d = nth i output d.
Proof.
  intros H Hi. unfold splice. rewrite slice_length in H.
  destruct Hi as [Hi|Hi].
  - destruct (Nat.lt_ge_cases i (length output)) as [Hl|Hl].
    + rewrite app_nth1 by (rewrite length_firstn; lia).
      rewrite <- (firstn_skipn idx output) at 2.
      rewrite app_nth1 by (rewrite length_firstn; lia). reflexivity.
    + rewrite (nth_overflow output) by lia. apply nth_overflow.
      rewrite !length_app, H, length_firstn, length_skipn. lia.
  - destruct (Nat.lt_ge_cases i (length output)) as [Hl|Hl].
    + rewrite app_nth2 by (rewrite length_firstn; lia).
      rewrite app_nth2 by (rewrite length_firstn, H; lia).
      rewrite nth_skipn, length_firstn, H. f_equal. lia.
    + rewrite (nth_overflow output) by lia. apply nth_overflow.
      rewrite !length_app, H, length_firstn, length_skipn. lia.
Qed.

Lemma mask_all (U : Unicode) (pb : ProfanityBuster.ProfanityBuster) (ms : list Match) :
  preserveLength (masking (config pb)) = true ->
  length (pattern (masking (config pb))) = 1 ->
  forall text : jsstring,
    length (fold_left (fun output m =>
                         splice output (m_index m) (m_length m)
                                (maskWord pb (slice output (m_index m)
                                                    (m_index m + m_length m))))
                      ms text) = length text
    /\ forall i, Forall (fun m => i < m_index m \/ m_index m + m_length m <= i) ms ->
                 nth i (fold_left (fun output m =>
                                     splice output (m_index m) (m_length m)
                                            (maskWord pb (slice output (m_index m)
                                                                (m_index m + m_length m))))
                                  ms text) 0%N
                 = nth i text 0%N.
Proof.
  intros Hl Hp. induction ms as [|m ms IH]; intros text.
  - simpl. auto.
  - cbn [fold_left].
    assert (Hitems : length (maskWord pb (slice text (m_index m) (m_index m + m_length m)))
                     = length (slice text (m_index m) (m_index m + m_length m)))
      by (apply (maskWord_length U); assumption).
    destruct (IH (splice text (m_index m) (m_length m)
                         (maskWord pb (slice text (m_index m) (m_index m + m_length m)))))
      as [IHl IHn].
    split.
    + rewrite IHl. apply splice_same_length. exact Hitems.
    + intros i Hi. inversion Hi as [|? ? Hm Hms]; subst.
      rewrite (IHn i Hms). apply splice_outside; assumption.
Qed.

End MaskFacts.

(** X25.  With [preserveLength] and a mask pattern of one code unit (the
    defaults), the text that [sanitize] returns is as long as its input. *)
Theorem sanitize_keeps_the_length
        (U : Unicode) (P : Languages.Packs) (pb pb' : ProfanityBuster.ProfanityBuster)
        (text out : jsstring) :
  preserveLength (masking (config pb)) = true ->
  length (pattern (masking (config pb))) = 1 ->
  sanitize U P pb text = Returns (pb', out) ->
  length out = length text.
Proof.
  intros Hl Hp H. unfold sanitize in H.
  apply bind_Returns in H. destruct H as [[pb1 d] [Hd H]]. cbv zeta beta iota in H.
  pose proof (detect_config U P pb pb1 text d Hd) as Ec. rewrite <- Ec in Hl, Hp.
  destruct (negb (hasProfanity d) || negb (enabled (masking (config pb1))));
    injection H as _ <-; [reflexivity|].
  apply (mask_all U pb1 (matches d) Hl Hp text).
Qed.

Lemma sanitize_keeps_the_length_witness :
  preserveLength (masking (config Sample.default_detector)) = true
  /\ length (pattern (masking (config Sample.default_detector))) = 1
  /\ sanitize Sample.tables Sample.packs Sample.default_detector (str "oh sh.it, shits")
     = Returns (Sample.default_detector, str "oh s****, s****")
  /\ length (str "oh s****, s****") = length (str "oh sh.it, shits").
Proof.
  split; [vm_compute; reflexivity|]. split; [vm_compute; reflexivity|].
  split; [vm_compute; reflexivity|].
  apply (sanitize_keeps_the_length Sample.tables Sample.packs Sample.default_detector
           Sample.default_detector);
    vm_compute; reflexivity.
Defined.

(** X26.  With [preserveLength] and a mask pattern of one code unit,
    [sanitize] changes the text inside the spans of the matches of [detect]
    only: a code unit at an index that no match covers is left as it is. *)
Theorem sanitize_changes_the_matches_only
        (U : Unicode) (P : Languages.Packs) (pb pb' : ProfanityBuster.ProfanityBuster)
        (text : jsstring) (r : DetectionResult) (i : nat) :
  preserveLength (masking (config pb)) = true ->
  length (pattern (masking (config pb))) = 1 ->
  detect U P pb text = Returns (pb', r) ->
  Forall (fun m => i < m_index m \/ m_index m + m_length m <= i) (matches r) ->
  exists out,
    sanitize U P pb text = Returns (pb', out)
    /\ nth i out 0%N = nth i text 0%N.
Proof.
  intros Hl Hp Hd Hi. unfold sanitize. rewrite Hd. cbn [bind]. cbv zeta beta iota.
  pose proof (detect_config U P pb pb' text r Hd) as Ec. rewrite <- Ec in Hl, Hp.
  destruct (negb (hasProfanity r) || negb (enabled (masking (config pb'))));
    eexists; (split; [reflexivity|]); [reflexivity|].
  apply (mask_all U pb' (matches r) Hl Hp text). exact Hi.
Qed.

Lemma sanitize_changes_the_matches_only_witness :
  preserveLength (masking (config Sample.default_detector)) = true
  /\ length (pattern (masking (config Sample.default_detector))) = 1
  /\ detect Sample.tables Sample.packs Sample.default_detector (str "oh shit")
     = Returns (Sample.default_detector,
                mkDetectionResult true [mkMatch (str "shit") 3 4 (str "en")])
  /\ Forall (fun m => 1 < m_index m \/ m_index m + m_length m <= 1)
            [mkMatch (str "shit") 3 4 (str "en")]
  /\ exists out,
       sanitize Sample.tables Sample.packs Sample.default_detector (str "oh shit")
       = Returns (Sample.default_detector, out)
       /\ nth 1 out 0%N = nth 1 (str "oh shit") 0%N.
Proof.
  split; [vm_compute; reflexivity|]. split; [vm_compute; reflexivity|].
  split; [vm_compute; reflexivity|].
  split; [repeat constructor|].
  apply (sanitize_changes_the_matches_only Sample.tables Sample.packs Sample.default_detector
           Sample.default_detector (str "oh shit")
           (mkDetectionResult true [mkMatch (str "shit") 3 4 (str "en")]) 1).
  - vm_compute. reflexivity.
  - vm_compute. reflexivity.
  - vm_compute. reflexivity.
  - repeat constructor.
Defined.

(** ** index.ts: the matches of [detect] and the word boundaries *)

Section BoundaryFacts.
Variable U : Unicode.
Variable pb : ProfanityBuster.ProfanityBuster.
Variable text : jsstring.


Lemma matcher_result_spans (c : jsstring) (spans : list Span) :
  matcher_consistent U pb c ->
  matcher_result U pb text c = Returns spans ->
  forall sp, In sp spans ->
             exists s e,
               sp = mkSpan s (e - s + 1)
               /\ occurs U (set_of (orElse (ignoreSeparators (detection (config pb))) []))
                         (wholeWordsOnly (detection (config pb)))
                         (variants U pb (wordlist_of pb c)) text s e.
Proof.
  intros [Ht Ha] E sp Hin. unfold matcher_result in E. cbv zeta in E.
  destruct (orElse (algorithm (detection (config pb))) trie).
  - destruct (map_get str_eqb c (languageTries pb)) as [t|] eqn:Eg;
      [|injection E as <-; destruct Hin].
    injection E as <-.
    apply (trie_findAllMatches_spec U _ _ _ t (Ht t eq_refl)) in Hin.
    destruct Hin as [s [e [Hs [Ho _]]]]. eauto.
  - destruct (map_get str_eqb c (languageAutomata pb)) as [ac|] eqn:Eg;
      [|injection E as <-; destruct Hin].
    destruct (Ha ac eq_refl) as [paths Hb].
    destruct (aho_findAllMatches_spec U _ ac paths
                (wholeWordsOnly (detection (config pb)))
                (set_of (orElse (ignoreSeparators (detection (config pb))) []))
                Hb text) as [spans' [E' Hsp]].
    rewrite E in E'. injection E' as <-. apply Hsp in Hin. exact Hin.
Qed.



End BoundaryFacts.



(** ** core/langAutoDetect.ts *)

Lemma push_NoDup (code : jsstring) (result : list jsstring) :
  NoDup result -> NoDup (LangAutoDetect.push code result).
Proof.
  intros H. unfold LangAutoDetect.push. destruct (has code result) eqn:E; [exact H|].
  apply NoDup_app; [exact H | repeat constructor; intros [] |].
  intros x Hx [<-|[]]. apply has_In in Hx. congruence.
Qed.

Lemma push_if_NoDup (b : bool) (code : jsstring) (result : list jsstring) :
  NoDup result -> NoDup (if b then LangAutoDetect.push code result else result).
Proof. intros H. destruct b; [apply push_NoDup; exact H | exact H]. Qed.

Lemma test_range_below (lo hi bound : N) (text : jsstring) :
  (bound <= lo)%N -> Forall (fun c => (c < bound)%N) text ->
  LangAutoDetect.test_range lo hi text = false.
Proof.
  intros Hb H. unfold LangAutoDetect.test_range.
  induction H as [|c text Hc _ IH]; [reflexivity|].
  simpl. rewrite IH, orb_false_r.
  apply andb_false_iff. left. apply N.leb_gt. lia.
Qed.

(** X28.  [inferLikelyLanguageCodes] returns no code twice, and it returns
    no code at all for a text whose code units all lie below U+0400 (Latin
    text, for one): under [autoDetect] such a text is scanned with every
    loaded language. *)
Theorem inferLikelyLanguageCodes_has_no_duplicates_and_none_for_latin (text : jsstring) :
  NoDup (LangAutoDetect.inferLikelyLanguageCodes text)
  /\ (Forall (fun c => (c < 0x400)%N) text ->
      LangAutoDetect.inferLikelyLanguageCodes text = []).
Proof.
  split.
  - unfold LangAutoDetect.inferLikelyLanguageCodes. cbv zeta.
    repeat first [apply push_if_NoDup | apply push_NoDup].
    match goal with
    | |- NoDup (if ?b then _ else _) => destruct b
    end; repeat first [apply push_if_NoDup | apply push_NoDup | constructor].
  - intros H. unfold LangAutoDetect.inferLikelyLanguageCodes. cbv zeta.
    rewrite !(test_range_below _ _ 0x400%N _) by (first [exact H | vm_compute; discriminate]).
    reflexivity.
Qed.

Lemma inferLikelyLanguageCodes_has_no_duplicates_and_none_for_latin_witness :
  Forall (fun c => (c < 0x400)%N) (str "hello, world")
  /\ NoDup (LangAutoDetect.inferLikelyLanguageCodes (str "hello, world"))
  /\ LangAutoDetect.inferLikelyLanguageCodes (str "hello, world") = [].
Proof.
  assert (H : Forall (fun c => (c < 0x400)%N) (str "hello, world"))
    by (repeat constructor).
  split; [exact H|].
  destruct (inferLikelyLanguageCodes_has_no_duplicates_and_none_for_latin (str "hello, world"))
    as [Hn He].
  split; [exact Hn | exact (He H)].
Defined.

(** ** integrations/express/middleware.ts *)



Lemma map_set_get_same (V : Type) (k : jsstring) (v : V) (m : list (jsstring * V)) :
  map_get str_eqb k m = Some v -> map_set str_eqb k v m = m.
Proof.
  induction m as [|[k0 v0] m IH]; [discriminate|].
  simpl. destruct (str_eqb k k0).
  - intros H. injection H as ->. reflexivity.
  - intros H. rewrite (IH H). reflexivity.
Qed.

Section HandlerFacts.
Variable U : Unicode.
Variable P : Languages.Packs.

Lemma sanitize_at_step (pb : ProfanityBuster.ProfanityBuster)
      (current : ExpressMiddleware.JsValue) (key k2 : jsstring) (rest' : list jsstring) :
  ExpressMiddleware.sanitize_at U P pb current (key :: k2 :: rest')
  = if ExpressMiddleware.forbidden_key key then Returns (pb, current)
    else match current with
         | ExpressMiddleware.JsObject props =>
             match map_get str_eqb key props with
             | Some (ExpressMiddleware.JsObject inner) =>
                 '(pb1, v) <- ExpressMiddleware.sanitize_at U P pb
                                (ExpressMiddleware.JsObject inner) (k2 :: rest') ;;
                 Returns (pb1, ExpressMiddleware.JsObject (map_set str_eqb key v props))
             | _ => Returns (pb, current)
             end
         | _ => Returns (pb, current)
         end.
Proof. reflexivity. Qed.


Lemma sanitize_at_forbidden (parts : list jsstring) :
  forall (pb : ProfanityBuster.ProfanityBuster) (current : ExpressMiddleware.JsValue),
    (exists key, In key (removelast parts) /\ ExpressMiddleware.forbidden_key key = true) ->
    ExpressMiddleware.sanitize_at U P pb current parts = Returns (pb, current).
Proof.
  induction parts as [|key rest IH]; intros pb current [k [Hin Hf]]; [destruct Hin|].
  destruct rest as [|k2 rest']; [destruct Hin|].
  remember (k2 :: rest') as rest eqn:Er.
  assert (Hrl : removelast (key :: rest) = key :: removelast rest)
    by (subst rest; reflexivity).
  rewrite Hrl in Hin.
  subst rest. rewrite sanitize_at_step. remember (k2 :: rest') as rest eqn:Er.
  destruct (ExpressMiddleware.forbidden_key key) eqn:Ek; [reflexivity|].
  destruct Hin as [<-|Hin]; [congruence|].
  destruct current as [props|s|]; try reflexivity.
  destruct (map_get str_eqb key props) as [[inner|s|]|] eqn:Eg; try reflexivity.
  rewrite (IH pb (ExpressMiddleware.JsObject inner)) by eauto.
  simpl. rewrite (map_set_get_same _ _ _ _ Eg). reflexivity.
Qed.

End HandlerFacts.



(** X30.  A path with [__proto__], [prototype] or [constructor] before its
    last key assigns nothing: the walk stops there, [sanitize] is not
    called, and the request and the instance are left as they are. *)
Theorem middleware_stops_at_a_forbidden_key
        (U : Unicode) (P : Languages.Packs) (pb : ProfanityBuster.ProfanityBuster)
        (current : ExpressMiddleware.JsValue) (parts : list jsstring) :
  (exists key, In key (removelast parts) /\ ExpressMiddleware.forbidden_key key = true) ->
  ExpressMiddleware.sanitize_at U P pb current parts = Returns (pb, current).
Proof. exact (sanitize_at_forbidden U P parts pb current). Qed.

Lemma middleware_stops_at_a_forbidden_key_witness :
  (exists key, In key (removelast (ExpressMiddleware.split (str "body.__proto__.polluted")))
               /\ ExpressMiddleware.forbidden_key key = true)
  /\ ExpressMiddleware.sanitize_at Sample.tables Sample.packs Sample.default_detector
       (ExpressMiddleware.JsObject
          [(str "body",
            ExpressMiddleware.JsObject
              [(str "__proto__",
                ExpressMiddleware.JsObject
                  [(str "polluted", ExpressMiddleware.JsString (str "shit"))])])])
       (ExpressMiddleware.split (str "body.__proto__.polluted"))
     = Returns (Sample.default_detector,
                ExpressMiddleware.JsObject
                  [(str "body",
                    ExpressMiddleware.JsObject
                      [(str "__proto__",
                        ExpressMiddleware.JsObject
                          [(str "polluted", ExpressMiddleware.JsString (str "shit"))])])]).
Proof.
  assert (H : exists key,
             In key (removelast (ExpressMiddleware.split (str "body.__proto__.polluted")))
             /\ ExpressMiddleware.forbidden_key key = true).
  { exists (str "__proto__"). split; [vm_compute; right; left; reflexivity|].
    vm_compute. reflexivity. }
  split; [exact H|].
  exact (middleware_stops_at_a_forbidden_key Sample.tables Sample.packs
           Sample.default_detector _ _ H).
Defined.

(** ** index.ts: [sanitize] twice *)

Section MaskStep.
Variable pb : ProfanityBuster.ProfanityBuster.
Variable c : N.
Hypothesis Hpat : pattern (masking (config pb)) = [c].

Lemma mask_chars_nth (total : nat) (chars : jsstring) :
  forall i k,
    k < length chars ->
    nth k (concat (mask_chars (masking (config pb)) total chars i)) 0%N
    = if (preserveFirst (masking (config pb)) && (i + k =? 0))
         || (preserveLast (masking (config pb)) && (i + k =? total - 1))
      then nth k chars 0%N else c.
Proof.
  induction chars as [|ch chars IH]; intros i k Hk; [simpl in Hk; lia|].
  cbn [mask_chars concat].
  destruct k as [|k].
  - rewrite Nat.add_0_r.
    destruct ((preserveFirst (masking (config pb)) && (i =? 0))
              || (preserveLast (masking (config pb)) && (i =? total - 1)));
      [reflexivity | rewrite Hpat; reflexivity].
  - replace (i + S k) with (S i + k) by lia. rewrite <- IH by (simpl in Hk; lia).
    destruct ((preserveFirst (masking (config pb)) && (i =? 0))
              || (preserveLast (masking (config pb)) && (i =? total - 1)));
      [reflexivity | rewrite Hpat; reflexivity].
Qed.

Lemma mask_chars_same_length (total : nat) (chars : jsstring) :
  forall i, length (concat (mask_chars (masking (config pb)) total chars i)) = length chars.
Proof.
  induction chars as [|ch chars IH]; intros i; [reflexivity|].
  cbn [mask_chars concat]. rewrite length_app, IH.
  destruct ((preserveFirst (masking (config pb)) && (i =? 0))
            || (preserveLast (masking (config pb)) && (i =? total - 1)));
    [reflexivity | rewrite Hpat; reflexivity].
Qed.

Lemma repeat_unit_length (n : nat) : length (repeat_str [c] n) = n.
Proof. induction n as [|n IH]; simpl; [reflexivity | now rewrite IH]. Qed.

Lemma repeat_unit_nth (n k : nat) : k < n -> nth k (repeat_str [c] n) 0%N = c.
Proof.
  revert k. induction n as [|n IH]; intros k Hk; [lia|].
  destruct k as [|k]; simpl; [reflexivity | apply IH; lia].
Qed.

(** The mask of a word that is not empty has the length of the word, with
    or without [preserveLength]. *)
Lemma maskWord_same_length (word : jsstring) :
  0 < length word -> length (maskWord pb word) = length word.
Proof.
  intros Hw. unfold maskWord.
  destruct (preserveLength (masking (config pb))); cbn [negb].
  - apply mask_chars_same_length.
  - rewrite Hpat, repeat_unit_length. lia.
Qed.

Lemma maskWord_nth (word : jsstring) (k : nat) :
  k < length word ->
  nth k (maskWord pb word) 0%N
  = if preserved (masking (config pb)) (length word) k then nth k word 0%N else c.
Proof.
  intros Hk. unfold maskWord, preserved.
  destruct (preserveLength (masking (config pb))); cbn [negb andb].
  - exact (mask_chars_nth (length word) word 0 k Hk).
  - rewrite Hpat. apply repeat_unit_nth. lia.
Qed.

Lemma mask_step_length (output : jsstring) (m : Match) :
  0 < m_length m -> m_index m + m_length m <= length output ->
  length (mask_step pb output m) = length output.
Proof.
  intros H0 Hr. unfold mask_step. apply splice_same_length. apply maskWord_same_length.
  rewrite slice_length. lia.
Qed.

(** One round of the loop puts the mask on the code units of the match
    that are not preserved, and leaves the others. *)
Lemma mask_step_nth (output : jsstring) (m : Match) (p : nat) :
  0 < m_length m -> m_index m + m_length m <= length output ->
  nth p (mask_step pb output m) 0%N
  = if (m_index m <=? p) && (p <? m_index m + m_length m)
       && negb (preserved (masking (config pb)) (m_length m) (p - m_index m))
    then c else nth p output 0%N.
Proof.
  intros H0 Hr.
  assert (Hsl : length (slice output (m_index m) (m_index m + m_length m)) = m_length m)
    by (rewrite slice_length; lia).
  assert (Hitems : length (maskWord pb (slice output (m_index m) (m_index m + m_length m)))
                   = length (slice output (m_index m) (m_index m + m_length m)))
    by (apply maskWord_same_length; lia).
  destruct (Nat.leb_spec (m_index m) p) as [H1|H1]; cbn [andb];
    [|apply splice_outside; [exact Hitems | left; exact H1]].
  destruct (Nat.ltb_spec p (m_index m + m_length m)) as [H2|H2]; cbn [andb];
    [|apply splice_outside; [exact Hitems | right; exact H2]].
  unfold mask_step, splice.
  rewrite app_nth2 by (rewrite length_firstn; lia).
  rewrite length_firstn, Nat.min_l by lia.
  rewrite app_nth1 by (rewrite Hitems, Hsl; lia).
  rewrite maskWord_nth by (rewrite Hsl; lia).
  rewrite Hsl. unfold slice at 1. rewrite nth_firstn.
  replace (p - m_index m <? m_index m + m_length m - m_index m) with true
    by (symmetry; apply Nat.ltb_lt; lia).
  rewrite nth_skipn. replace (m_index m + (p - m_index m)) with p by lia.
  destruct (preserved (masking (config pb)) (m_length m) (p - m_index m)); reflexivity.
Qed.

(** A match whose code units are all preserved is left as it is. *)
Lemma mask_step_id (output : jsstring) (m : Match) :
  0 < m_length m -> m_index m + m_length m <= length output ->
  (forall i, i < m_length m -> preserved (masking (config pb)) (m_length m) i = true) ->
  mask_step pb output m = output.
Proof.
  intros H0 Hr Hall. apply (nth_ext _ _ 0%N 0%N); [apply mask_step_length; assumption|].
  intros p _. rewrite mask_step_nth by assumption.
  destruct (Nat.leb_spec (m_index m) p) as [H1|H1]; cbn [andb]; [|reflexivity].
  destruct (Nat.ltb_spec p (m_index m + m_length m)) as [H2|H2]; cbn [andb]; [|reflexivity].
  rewrite Hall by lia. reflexivity.
Qed.

Lemma mask_fold_id (ms : list Match) (output : jsstring) :
  Forall (fun m => 0 < m_length m
                   /\ m_index m + m_length m <= length output
                   /\ forall i, i < m_length m ->
                                preserved (masking (config pb)) (m_length m) i = true) ms ->
  fold_left (mask_step pb) ms output = output.
Proof.
  induction ms as [|m ms IH]; intros H; [reflexivity|].
  inversion H as [|? ? [H0 [Hr Hall]] Hms]; subst.
  cbn [fold_left]. rewrite (mask_step_id output m H0 Hr Hall). exact (IH Hms).
Qed.

(** The text after the loop: a code unit is the one of the input or the
    mask; the mask stays where it is; and every code unit of a match that
    the match does not preserve is the mask. *)
Lemma mask_fold (ms : list Match) :
  forall text : jsstring,
    Forall (fun m => 0 < m_length m /\ m_index m + m_length m <= length text) ms ->
    length (fold_left (mask_step pb) ms text) = length text
    /\ (forall p, nth p (fold_left (mask_step pb) ms text) 0%N = nth p text 0%N
                  \/ nth p (fold_left (mask_step pb) ms text) 0%N = c)
    /\ (forall p, nth p text 0%N = c -> nth p (fold_left (mask_step pb) ms text) 0%N = c)
    /\ (forall m p, In m ms -> m_index m <= p -> p < m_index m + m_length m ->
                    preserved (masking (config pb)) (m_length m) (p - m_index m) = false ->
                    nth p (fold_left (mask_step pb) ms text) 0%N = c).
Proof.
  induction ms as [|m ms IH]; intros text Hr.
  - simpl. split; [reflexivity|]. split; [auto|]. split; [auto|]. intros m p [].
  - inversion Hr as [|? ? [H0 Hm] Hms]; subst. cbn [fold_left].
    assert (Hms' : Forall (fun m0 => 0 < m_length m0
                                     /\ m_index m0 + m_length m0
                                        <= length (mask_step pb text m)) ms)
      by (rewrite mask_step_length by assumption; exact Hms).
    destruct (IH (mask_step pb text m) Hms') as [IHl [IHa [IHc IHm]]].
    assert (Hstep : forall p, nth p (mask_step pb text m) 0%N = nth p text 0%N
                              \/ nth p (mask_step pb text m) 0%N = c).
    { intros p. rewrite mask_step_nth by assumption.
      destruct ((m_index m <=? p) && (p <? m_index m + m_length m)
                && negb (preserved (masking (config pb)) (m_length m) (p - m_index m)));
        auto. }
    assert (Hkeep : forall p, nth p text 0%N = c -> nth p (mask_step pb text m) 0%N = c).
    { intros p Hp. destruct (Hstep p) as [E|E]; congruence. }
    split; [rewrite IHl; apply mask_step_length; assumption|].
    split; [|split].
    + intros p. destruct (IHa p) as [E|E]; [|right; exact E].
      destruct (Hstep p) as [E'|E']; [left; congruence|].
      right. rewrite E. exact E'.
    + intros p Hp. apply IHc. apply Hkeep. exact Hp.
    + intros m0 p [<-|Hin] H1 H2 Hn.
      * apply IHc. rewrite mask_step_nth by assumption.
        replace (m_index m <=? p) with true by (symmetry; apply Nat.leb_le; lia).
        replace (p <? m_index m + m_length m) with true by (symmetry; apply Nat.ltb_lt; lia).
        rewrite Hn. reflexivity.
      * apply (IHm m0 p Hin H1 H2 Hn).
Qed.

End MaskStep.

(** ** The normalizer on a text whose case is left *)

Section PointwiseNormalizer.
Variable U : Unicode.
Variable pb : ProfanityBuster.ProfanityBuster.
Hypothesis Hcase : caseSensitive (detection (config pb)) = true.

Lemma normalize_loop_map (confusable stripD stripI : bool) (text : jsstring) :
  Normalization.normalize_loop U confusable stripD true stripI text
  = map (fun c => nth 0 (Normalization.normalize_loop U confusable stripD true stripI [c]) 0%N)
        text.
Proof.
  induction text as [|c rest IH]; [reflexivity|].
  cbn [Normalization.normalize_loop map].
  destruct (normalize_unit_single U confusable stripD stripI c) as [u ->].
  rewrite IH. reflexivity.
Qed.

(** [detect] normalizes code unit by code unit. *)
Lemma normalize_is_map (text : jsstring) :
  Normalization.normalizeForDetection U text (normalizationOptions pb)
  = map (normalized_unit U pb) text.
Proof.
  unfold normalized_unit, Normalization.normalizeForDetection, normalizationOptions.
  cbn [Normalization.caseSensitive Normalization.confusableMapping
       Normalization.stripDiacritics Normalization.useNFKC
       Normalization.lengthPreserving Normalization.stripInvisible orElse negb].
  rewrite Hcase, !andb_false_r, !orb_true_r. apply normalize_loop_map.
Qed.

Lemma normalize_length (text : jsstring) :
  length (Normalization.normalizeForDetection U text (normalizationOptions pb)) = length text.
Proof. rewrite normalize_is_map. apply length_map. Qed.

Lemma normalize_nth (text : jsstring) (p : nat) :
  p < length text ->
  nth p (Normalization.normalizeForDetection U text (normalizationOptions pb)) 0%N
  = normalized_unit U pb (nth p text 0%N).
Proof.
  intros Hp. rewrite normalize_is_map.
  rewrite (nth_indep _ 0%N (normalized_unit U pb 0%N)) by (rewrite length_map; exact Hp).
  apply map_nth.
Qed.

End PointwiseNormalizer.

(** ** Occurrences and the code units they cover *)

Lemma slice_nth_ext (A : Type) (t1 t2 : list A) (s e : nat) (d : A) :
  length t1 = length t2 ->
  (forall p, s <= p -> p <= e -> nth p t1 d = nth p t2 d) ->
  slice t1 s (S e) = slice t2 s (S e).
Proof.
  intros El H. unfold slice. apply (nth_ext _ _ d d).
  - rewrite !length_firstn, !length_skipn, El. reflexivity.
  - intros k Hk. rewrite length_firstn, length_skipn in Hk.
    rewrite !nth_firstn.
    destruct (Nat.ltb_spec k (S e - s)) as [Hlt|Hge]; [|reflexivity].
    rewrite !nth_skipn. apply H; lia.
Qed.

(** Without [wholeWordsOnly] an occurrence depends on the code units from
    its start to its end only. *)
Lemma occurs_transfer (U : Unicode) (seps words : list jsstring) (t1 t2 : jsstring)
      (s e : nat) :
  length t1 = length t2 ->
  (forall p, s <= p -> p <= e -> nth p t1 0%N = nth p t2 0%N) ->
  occurs U seps false words t2 s e -> occurs U seps false words t1 s e.
Proof.
  intros El H [Hse [He [Hs [Hee [Hp _]]]]].
  split; [exact Hse|]. split; [lia|].
  split; [rewrite (H s) by lia; exact Hs|].
  split; [rewrite (H e) by lia; exact Hee|].
  split; [|discriminate].
  rewrite (slice_nth_ext _ t1 t2 s e 0%N El H). exact Hp.
Qed.

(** A code unit inside an occurrence is a separator or a code unit of a
    word. *)
Lemma occurs_units (U : Unicode) (seps words : list jsstring) (whole : bool)
      (text : jsstring) (s e p : nat) :
  occurs U seps whole words text s e -> s <= p -> p <= e ->
  ignored seps (nth p text 0%N) = true
  \/ exists w, In w words /\ In (nth p text 0%N) w.
Proof.
  intros [Hse [He [_ [_ [[w [Hw [_ Ecp]]] _]]]]] H1 H2.
  destruct (ignored seps (nth p text 0%N)) eqn:Ei; [left; reflexivity|].
  right. exists w. split; [exact Hw|].
  apply codePoints_unit_keys in Ecp. subst w.
  unfold kept. apply filter_In. split; [|rewrite Ei; reflexivity].
  assert (E : nth (p - s) (slice text s (S e)) 0%N = nth p text 0%N).
  { unfold slice. rewrite nth_firstn.
    replace (p - s <? S e - s) with true by (symmetry; apply Nat.ltb_lt; lia).
    rewrite nth_skipn. f_equal. lia. }
  rewrite <- E. apply nth_In. rewrite slice_length. lia.
Qed.

(** ** The exact stage on its own *)

Section ExactOnly.
Variable U : Unicode.
Variable P : Languages.Packs.
Variable pb : ProfanityBuster.ProfanityBuster.

(** An occurrence is covered by a span that the matcher of the language
    reports from its start, when the language has a matcher. *)
Lemma matcher_result_covers (t1 t2 : jsstring) (code : jsstring) (spans2 : list Span)
      (s e : nat) :
  matcher_consistent U pb code ->
  matcher_result U pb t2 code = Returns spans2 -> spans2 <> [] ->
  occurs U (set_of (orElse (ignoreSeparators (detection (config pb))) []))
         (wholeWordsOnly (detection (config pb)))
         (variants U pb (wordlist_of pb code)) t1 s e ->
  exists spans1 e',
    matcher_result U pb t1 code = Returns spans1
    /\ e <= e' /\ e' < length t1
    /\ In (mkSpan s (e' - s + 1)) spans1.
Proof.
  intros [Ht Ha] E2 Hne Ho. unfold matcher_result in *. cbv zeta in *.
  destruct (orElse (algorithm (detection (config pb))) trie).
  - destruct (map_get str_eqb code (languageTries pb)) as [t|] eqn:Eg;
      [|injection E2 as <-; contradiction].
    destruct (trie_covers_occurrence U _ _ _ t t1 s e (Ht t eq_refl) Ho)
      as [e' [Hle [[_ [He' _]] [Hin _]]]].
    eexists. exists e'. split; [reflexivity|]. auto.
  - destruct (map_get str_eqb code (languageAutomata pb)) as [ac|] eqn:Eg;
      [|injection E2 as <-; contradiction].
    destruct (Ha ac eq_refl) as [paths Hb].
    destruct (aho_findAllMatches_spec U _ ac paths
                (wholeWordsOnly (detection (config pb)))
                (set_of (orElse (ignoreSeparators (detection (config pb))) []))
                Hb t1) as [spans1 [E1 Hsp]].
    exists spans1, e. split; [exact E1|]. split; [lia|].
    split; [destruct Ho as [_ [He _]]; exact He|].
    apply Hsp. exists s, e. auto.
Qed.

Lemma exact_stage_one (t code : jsstring) (ws : list jsstring) :
  exact_stage U pb t [(code, ws)]
  = (spans <- matcher_result U pb t code ;; Returns (to_matches t code spans)).
Proof.
  rewrite exact_stage_step.
  destruct (matcher_result U pb t code) as [spans| |]; [|reflexivity|reflexivity].
  destruct spans; reflexivity.
Qed.

Lemma collect_one (code : jsstring) :
  collectWordlistsForCodes pb [code] = []
  \/ exists ws, collectWordlistsForCodes pb [code] = [(code, ws)].
Proof.
  unfold collectWordlistsForCodes. cbn [fold_left].
  destruct (map_get str_eqb code (languageWordlists pb)) as [l|]; [|left; reflexivity].
  destruct (0 <? length l); [right; exists l; reflexivity | left; reflexivity].
Qed.

Hypothesis Hauto : autoDetect (languages (config pb)) = false.
Hypothesis Hinfl : enableInflections (detection (config pb)) = Some false.
Hypothesis Hphr : phraseList pb = [].
Hypothesis Hlev : (levenshteinDistance (detection (config pb)) <= 0)%Z.

(** With the inflection scan, the phrase stage and the fuzzy stage off,
    the matches of [detect] are those of the exact stage. *)
Lemma detect_exact_only (text : jsstring) :
  detect U P pb text
  = (found <- exact_stage U pb
                (Normalization.normalizeForDetection U text (normalizationOptions pb))
                (collectWordlistsForCodes pb (enabledCodes (languages (config pb)))) ;;
     Returns (pb, mkDetectionResult (0 <? length found) found)).
Proof.
  rewrite (detect_fixed_languages U P pb text Hauto).
  destruct (exact_stage U pb _ _) as [found| |]; [|reflexivity|reflexivity].
  cbn [bind]. unfold inflection_stage. rewrite Hinfl. cbn [orElse bind].
  unfold phrase_stage. rewrite Hphr. cbn [length]. rewrite Nat.ltb_irrefl, andb_false_r.
  unfold fuzzy_stage.
  replace (0 <? levenshteinDistance (detection (config pb)))%Z with false
    by (symmetry; apply Z.ltb_ge; exact Hlev).
  rewrite andb_false_r. reflexivity.
Qed.

(** The patterns of a language are its words, normalized once more. *)
Lemma variants_plain (ws : list jsstring) (v : jsstring) :
  In v (variants U pb ws) -> exists w, In w ws /\ v = normalizeWord U pb w.
Proof.
  unfold variants. rewrite in_flat_map. intros [w [Hw Hv]]. exists w. split; [exact Hw|].
  unfold expandWordVariants in Hv. cbv zeta in Hv. rewrite Hinfl in Hv.
  cbn [orElse] in Hv. unfold set_of in Hv. cbn [fold_left] in Hv.
  unfold set_add in Hv. cbn [has existsb app] in Hv.
  destruct Hv as [<-|[]]. reflexivity.
Qed.

End ExactOnly.

Section Idempotence.
Variable U : Unicode.
Variable P : Languages.Packs.
Variable pb : ProfanityBuster.ProfanityBuster.
Variable code : jsstring.
Variables c c' : N.
Hypothesis Hauto : autoDetect (languages (config pb)) = false.
Hypothesis Hcodes : enabledCodes (languages (config pb)) = [code].
Hypothesis Hcons : consistent U pb.
Hypothesis Hphr : phraseList pb = [].
Hypothesis Hcase : caseSensitive (detection (config pb)) = true.
Hypothesis Hwhole : wholeWordsOnly (detection (config pb)) = false.
Hypothesis Hinfl : enableInflections (detection (config pb)) = Some false.
Hypothesis Hlev : (levenshteinDistance (detection (config pb)) <= 0)%Z.
Hypothesis Hpat : pattern (masking (config pb)) = [c].
Hypothesis Hnorm : Normalization.normalizeForDetection U [c] (normalizationOptions pb) = [c'].
Hypothesis Hsep : ~ In [c'] (orElse (ignoreSeparators (detection (config pb))) []).
Hypothesis Hword : forall w, In w (wordlist_of pb code) -> ~ In c' (normalizeWord U pb w).

Lemma sanitize_none (text : jsstring) :
  collectWordlistsForCodes pb [code] = [] ->
  sanitize U P pb text = Returns (pb, text).
Proof.
  intros E. unfold sanitize.
  rewrite (detect_exact_only U P pb Hauto Hinfl Hphr Hlev), Hcodes, E. reflexivity.
Qed.

Lemma sanitize_one (text : jsstring) (ws : list jsstring) (spans : list Span) :
  collectWordlistsForCodes pb [code] = [(code, ws)] ->
  matcher_result U pb (Normalization.normalizeForDetection U text (normalizationOptions pb))
                 code = Returns spans ->
  sanitize U P pb text
  = Returns (pb,
             if negb (0 <? length (to_matches
                                     (Normalization.normalizeForDetection U text
                                        (normalizationOptions pb)) code spans))
                || negb (enabled (masking (config pb)))
             then text
             else fold_left (mask_step pb)
                            (to_matches (Normalization.normalizeForDetection U text
                                           (normalizationOptions pb)) code spans)
                            text).
Proof.
  intros E Es. unfold sanitize.
  rewrite (detect_exact_only U P pb Hauto Hinfl Hphr Hlev), Hcodes, E, exact_stage_one, Es.
  cbn [bind hasProfanity matches].
  destruct (negb _ || negb _); reflexivity.
Qed.

(** The matches of a matcher are not empty and lie inside the text. *)
Lemma matches_in_range (t : jsstring) (spans : list Span) (n : nat) :
  length t = n ->
  matcher_result U pb t code = Returns spans ->
  Forall (fun m => 0 < m_length m /\ m_index m + m_length m <= n) (to_matches t code spans).
Proof.
  intros El Es. apply Forall_forall. intros m Hm.
  unfold to_matches in Hm. apply in_map_iff in Hm. destruct Hm as [sp [<- Hsp]].
  destruct (matcher_result_spans U pb t code spans (Hcons code) Es sp Hsp)
    as [s [e [-> [Hse [He _]]]]].
  cbn [m_index m_length index span_length]. lia.
Qed.

(** The mask is no code unit of an occurrence. *)
Lemma mask_is_foreign (t : jsstring) (s e p : nat) :
  occurs U (set_of (orElse (ignoreSeparators (detection (config pb))) []))
         (wholeWordsOnly (detection (config pb)))
         (variants U pb (wordlist_of pb code)) t s e ->
  s <= p -> p <= e -> nth p t 0%N <> c'.
Proof.
  intros Ho H1 H2 E.
  destruct (occurs_units U _ _ _ t s e p Ho H1 H2) as [Hi|[v [Hv Hin]]]; rewrite E in *.
  - apply Hsep. unfold ignored in Hi. apply has_In in Hi.
    exact (proj1 (set_of_In _ _) Hi).
  - destruct (variants_plain U pb Hinfl _ v Hv) as [w [Hw ->]].
    exact (Hword w Hw Hin).
Qed.

Lemma normalized_mask : normalized_unit U pb c = c'.
Proof. unfold normalized_unit. rewrite Hnorm. reflexivity. Qed.

(** In the text that the first pass has masked, every match of the second
    pass is preserved whole by [maskWord]. *)
Lemma second_pass_is_preserved (text : jsstring) (spans1 spans2 : list Span) :
  matcher_result U pb (Normalization.normalizeForDetection U text (normalizationOptions pb))
                 code = Returns spans1 ->
  matcher_result U pb
    (Normalization.normalizeForDetection U
       (fold_left (mask_step pb)
                  (to_matches (Normalization.normalizeForDetection U text
                                 (normalizationOptions pb)) code spans1) text)
       (normalizationOptions pb))
    code = Returns spans2 ->
  Forall (fun m =>
            0 < m_length m
            /\ m_index m + m_length m
               <= length (fold_left (mask_step pb)
                            (to_matches (Normalization.normalizeForDetection U text
                                           (normalizationOptions pb)) code spans1) text)
            /\ forall i, i < m_length m ->
                         preserved (masking (config pb)) (m_length m) i = true)
         (to_matches
            (Normalization.normalizeForDetection U
               (fold_left (mask_step pb)
                          (to_matches (Normalization.normalizeForDetection U text
                                         (normalizationOptions pb)) code spans1) text)
               (normalizationOptions pb))
            code spans2).
Proof.
  set (tN1 := Normalization.normalizeForDetection U text (normalizationOptions pb)).
  set (M1 := to_matches tN1 code spans1).
  set (s1 := fold_left (mask_step pb) M1 text).
  set (tN2 := Normalization.normalizeForDetection U s1 (normalizationOptions pb)).
  intros E1 E2.
  assert (El1 : length tN1 = length text) by apply (normalize_length U pb Hcase).
  assert (Hr1 : Forall (fun m => 0 < m_length m /\ m_index m + m_length m <= length text) M1)
    by (apply (matches_in_range tN1 spans1 (length text) El1 E1)).
  destruct (mask_fold pb c Hpat M1 text Hr1) as [Els [Hor [_ Hmasked]]].
  fold s1 in Els, Hor, Hmasked.
  assert (El2 : length tN2 = length s1) by apply (normalize_length U pb Hcase).
  apply Forall_forall. intros m2 Hm2.
  unfold to_matches in Hm2. apply in_map_iff in Hm2. destruct Hm2 as [sp2 [<- Hsp2]].
  destruct (matcher_result_spans U pb tN2 code spans2 (Hcons code) E2 sp2 Hsp2)
    as [s [e [-> Ho2]]].
  cbn [m_index m_length index span_length].
  assert (Hb : s <= e /\ e < length text)
    by (destruct Ho2 as [Hse [He _]]; lia).
  split; [lia|]. split; [lia|].
  (* the code units of the occurrence are those of the input *)
  assert (Hsame : forall p, s <= p -> p <= e ->
                            nth p s1 0%N <> c /\ nth p s1 0%N = nth p text 0%N).
  { intros p H1 H2.
    assert (Hn : nth p s1 0%N <> c).
    { intros Ec. apply (mask_is_foreign tN2 s e p Ho2 H1 H2).
      unfold tN2. rewrite (normalize_nth U pb Hcase) by lia.
      rewrite Ec. apply normalized_mask. }
    split; [exact Hn|]. destruct (Hor p) as [E|E]; [exact E | contradiction]. }
  assert (Ho1 : occurs U (set_of (orElse (ignoreSeparators (detection (config pb))) []))
                       (wholeWordsOnly (detection (config pb)))
                       (variants U pb (wordlist_of pb code)) tN1 s e).
  { rewrite Hwhole in *. apply (occurs_transfer U _ _ tN1 tN2 s e); [lia | | exact Ho2].
    intros p H1 H2. unfold tN1, tN2.
    rewrite !(normalize_nth U pb Hcase) by lia.
    destruct (Hsame p H1 H2) as [_ ->]. reflexivity. }
  destruct (matcher_result_covers U pb tN1 tN2 code spans2 s e (Hcons code) E2)
    as [spans1' [e' [E1' [Hle [He' Hin1]]]]];
    [intros Hn; rewrite Hn in Hsp2; destruct Hsp2 | exact Ho1 |].
  rewrite E1 in E1'. injection E1' as <-.
  assert (Hm1 : In (mkMatch (slice tN1 s (s + (e' - s + 1))) s (e' - s + 1) code) M1).
  { unfold M1, to_matches. apply in_map_iff. exists (mkSpan s (e' - s + 1)). auto. }
  intros i Hi.
  assert (Hp : preserved (masking (config pb)) (e' - s + 1) i = true).
  { destruct (preserved (masking (config pb)) (e' - s + 1) i) eqn:Ep; [reflexivity|].
    exfalso. destruct (Hsame (s + i)) as [Hn _]; [lia | lia |].
    apply Hn. apply (Hmasked _ (s + i) Hm1); cbn [m_index m_length]; [lia | lia |].
    replace (s + i - s) with i by lia. exact Ep. }
  unfold preserved in *. apply andb_true_iff in Hp. destruct Hp as [Hpl Hp].
  rewrite Hpl. cbn [andb]. apply orb_true_iff in Hp. apply orb_true_iff.
  destruct Hp as [Hp|Hp]; [left; exact Hp|]. right.
  apply andb_true_iff in Hp. destruct Hp as [Hl Hq]. apply Nat.eqb_eq in Hq.
  apply andb_true_iff. split; [exact Hl|]. apply Nat.eqb_eq. lia.
Qed.

End Idempotence.

(** C4 (amended).  [sanitize] is a projection when [detect] is exact
    matching against the list of one language and the mask is foreign to
    it: [autoDetect] off, one enabled language, the matchers compiled from
    the word lists, no phrase, [caseSensitive] on, [wholeWordsOnly] off,
    the inflection scan and the fuzzy stage off, and a mask pattern of one
    code unit which, normalized, is no separator and occurs in no
    normalized word of the list.  Then [sanitize] returns, and it returns
    its own result unchanged. *)
Theorem sanitize_is_idempotent_with_a_foreign_mask
        (U : Unicode) (P : Languages.Packs) (pb : ProfanityBuster.ProfanityBuster)
        (code : jsstring) (c c' : N) (text : jsstring) :
  autoDetect (languages (config pb)) = false ->
  enabledCodes (languages (config pb)) = [code] ->
  consistent U pb ->
  phraseList pb = [] ->
  caseSensitive (detection (config pb)) = true ->
  wholeWordsOnly (detection (config pb)) = false ->
  enableInflections (detection (config pb)) = Some false ->
  (levenshteinDistance (detection (config pb)) <= 0)%Z ->
  pattern (masking (config pb)) = [c] ->
  Normalization.normalizeForDetection U [c] (normalizationOptions pb) = [c'] ->
  ~ In [c'] (orElse (ignoreSeparators (detection (config pb))) []) ->
  (forall w, In w (wordlist_of pb code) -> ~ In c' (normalizeWord U pb w)) ->
  exists s1,
    sanitize U P pb text = Returns (pb, s1)
    /\ sanitize U P pb s1 = Returns (pb, s1).
Proof.
  intros Hauto Hcodes Hcons Hphr Hcase Hwhole Hinfl Hlev Hpat Hnorm Hsep Hword.
  destruct (collect_one pb code) as [E|[ws E]].
  - exists text. split; apply (sanitize_none U P pb code); assumption.
  - destruct (matcher_result_returns U pb
                (Normalization.normalizeForDetection U text (normalizationOptions pb))
                Hcons code) as [spans1 E1].
    rewrite (sanitize_one U P pb code Hauto Hcodes Hphr Hinfl Hlev text ws spans1 E E1).
    destruct (negb (0 <? length (to_matches
                                   (Normalization.normalizeForDetection U text
                                      (normalizationOptions pb)) code spans1))
              || negb (enabled (masking (config pb)))) eqn:Etest.
    + exists text. split; [reflexivity|].
      rewrite (sanitize_one U P pb code Hauto Hcodes Hphr Hinfl Hlev text ws spans1 E E1).
      rewrite Etest. reflexivity.
    + eexists. split; [reflexivity|].
      destruct (matcher_result_returns U pb
                  (Normalization.normalizeForDetection U
                     (fold_left (mask_step pb)
                        (to_matches (Normalization.normalizeForDetection U text
                                       (normalizationOptions pb)) code spans1) text)
                     (normalizationOptions pb))
                  Hcons code) as [spans2 E2].
      rewrite (sanitize_one U P pb code Hauto Hcodes Hphr Hinfl Hlev _ ws spans2 E E2).
      match goal with |- context [if ?b then _ else _] => destruct b end; [reflexivity|].
      f_equal. f_equal. apply (mask_fold_id pb c Hpat).
      exact (second_pass_is_preserved U pb code c c' Hcons Hcase Hwhole Hinfl Hpat
               Hnorm Hsep Hword text spans1 spans2 E1 E2).
Qed.

Lemma sanitize_is_idempotent_with_a_foreign_mask_witness :
  autoDetect (languages (config Sample.plain_detector)) = false
  /\ enabledCodes (languages (config Sample.plain_detector)) = [str "xx"]
  /\ consistent Sample.tables Sample.plain_detector
  /\ phraseList Sample.plain_detector = []
  /\ caseSensitive (detection (config Sample.plain_detector)) = true
  /\ wholeWordsOnly (detection (config Sample.plain_detector)) = false
  /\ enableInflections (detection (config Sample.plain_detector)) = Some false
  /\ (levenshteinDistance (detection (config Sample.plain_detector)) <= 0)%Z
  /\ pattern (masking (config Sample.plain_detector)) = str "#"
  /\ Normalization.normalizeForDetection Sample.tables (str "#")
       (normalizationOptions Sample.plain_detector) = str "#"
  /\ ~ In (str "#")
          (orElse (ignoreSeparators (detection (config Sample.plain_detector))) [])
  /\ wordlist_of Sample.plain_detector (str "xx") = [str "ab"]
  /\ sanitize Sample.tables Sample.packs Sample.plain_detector (str "ab b")
     = Returns (Sample.plain_detector, str "a# b")
  /\ exists s1,
       sanitize Sample.tables Sample.packs Sample.plain_detector (str "ab b")
       = Returns (Sample.plain_detector, s1)
       /\ sanitize Sample.tables Sample.packs Sample.plain_detector s1
          = Returns (Sample.plain_detector, s1).
Proof.
  assert (Hc : consistent Sample.tables Sample.plain_detector).
  { unfold Sample.plain_detector, Sample.plain_base.
    apply returned_addWord_consistent. apply returned_constructor_consistent. }
  assert (Hs : ~ In (str "#")
                  (orElse (ignoreSeparators (detection (config Sample.plain_detector))) []))
    by (vm_compute; intuition discriminate).
  assert (Hw : forall w, In w (wordlist_of Sample.plain_detector (str "xx")) ->
                         ~ In 0x23%N (normalizeWord Sample.tables Sample.plain_detector w)).
  { intros w Hin. vm_compute in Hin. destruct Hin as [<-|[]].
    vm_compute. intuition discriminate. }
  split; [reflexivity|]. split; [reflexivity|]. split; [exact Hc|].
  split; [reflexivity|]. split; [reflexivity|]. split; [reflexivity|].
  split; [reflexivity|]. split; [vm_compute; discriminate|].
  split; [reflexivity|]. split; [vm_compute; reflexivity|]. split; [exact Hs|].
  split; [vm_compute; reflexivity|]. split; [vm_compute; reflexivity|].
  apply (sanitize_is_idempotent_with_a_foreign_mask Sample.tables Sample.packs
           Sample.plain_detector (str "xx") 0x23%N 0x23%N (str "ab b")).
  - reflexivity.
  - reflexivity.
  - exact Hc.
  - reflexivity.
  - reflexivity.
  - reflexivity.
  - reflexivity.
  - vm_compute. discriminate.
  - reflexivity.
  - vm_compute. reflexivity.
  - exact Hs.
  - exact Hw.
Defined.
